(** * Whole-History Rating: the per-player optimiser, embedded and verified

    A shallow embedding of the TypeScript sources [game.ts], [player-day.ts],
    [player.ts] and [whr.ts].

    Conventions of the embedding.
    - A JavaScript [number] that the code computes with is a real number:
      [+], [-], [*], [/], [Math.exp], [Math.log], [Math.sqrt], [Math.abs]
      are the exact operations of [R].  Rounding is not modelled, so what is
      proved of a value is proved of the formula the code computes it by, and
      a test like [=== 0.5] is decided on the exact value.  Where a claim
      depends on rounding, the code is embedded once more over binary64
      (module [Binary64]).
    - [Math.pow(10, x)] is the one host call whose result the code inspects
      for zero, infinity and NaN.  It is kept abstract (class [HostMath])
      and returns a [number] that may be non-finite, so that the guard of
      [Game.opponentsAdjustedGamma] is a live branch.
    - Objects are records; a class is a [Module]; a getter or method that
      writes to [this] or throws is a computation in the monad [M].
    - A [Player] object is identified by its [name].
    - [console] output (and the [debug] flag that only enables it) is left
      out. *)

From Stdlib Require Import Reals Lra Lia List String Bool Arith Sorted Permutation.
From Stdlib Require Floats.PrimFloat.
Import ListNotations.
Open Scope R_scope.

(** ** Host values *)

(** An IEEE result as [isFinite], [isNaN] and [=== 0] see it. *)
Inductive number : Type :=
| Finite (x : R)
| Infinity (negative : bool)
| NaN.

Definition isFinite (v : number) : bool :=
  match v with Finite _ => true | _ => false end.

Definition isNaN (v : number) : bool :=
  match v with NaN => true | _ => false end.

(** [v === 0] *)
Definition isZero (v : number) : bool :=
  match v with
  | Finite x => if Req_dec_T x 0 then true else false
  | _ => false
  end.

(** [Math.pow(10, x)].  Whatever the host computes, a power of a positive
    base is never negative. *)
Class HostMath : Type := {
  Math_pow10 : R -> number;
  Math_pow10_finite_nonneg : forall x v, Math_pow10 x = Finite v -> 0 <= v;
}.

(** [x > y], [x < y], [x <= y], [x >= y], [x === y] as the tests of an [if]. *)
Definition Rgtb (x y : R) : bool := if Rgt_dec x y then true else false.
Definition Rltb (x y : R) : bool := if Rlt_dec x y then true else false.
Definition Rleb (x y : R) : bool := if Rle_dec x y then true else false.
Definition Rgeb (x y : R) : bool := if Rge_dec x y then true else false.
Definition Reqb (x y : R) : bool := if Req_dec_T x y then true else false.

(** ** Exceptions and the state-and-exception monad *)

Inductive exn : Type :=
| Error (message : string)
| UnstableRatingException (message : string).

Definition isUnstable (e : exn) : bool :=
  match e with UnstableRatingException _ => true | Error _ => false end.

(** How a call ends. *)
Inductive completion (A : Type) : Type :=
| Return (v : A)
| Throw (e : exn).
Arguments Return {A} v.
Arguments Throw {A} e.

(** A method running on an object of type [S]: it ends by returning or
    throwing, and leaves the object in a new state either way. *)
Definition M (S A : Type) : Type := S -> completion A * S.

Definition ret {S A} (v : A) : M S A := fun s => (Return v, s).
Definition throw {S A} (e : exn) : M S A := fun s => (Throw e, s).
Definition bind {S A B} (m : M S A) (k : A -> M S B) : M S B :=
  fun s => match m s with
           | (Return v, s') => k v s'
           | (Throw e, s') => (Throw e, s')
           end.
Definition get {S} : M S S := fun s => (Return s, s).
Definition gets {S A} (f : S -> A) : M S A := fun s => (Return (f s), s).
Definition modify {S} (f : S -> S) : M S unit := fun s => (Return tt, f s).
(** A call that only reads. *)
Definition lift {S A} (c : completion A) : M S A := fun s => (c, s).

Declare Scope monad_scope.
Delimit Scope monad_scope with monad.
Notation "x <- m ;; k" := (bind m (fun x => k))
  (at level 61, m at next level, right associativity) : monad_scope.
Notation "m ;;; k" := (bind m (fun _ => k))
  (at level 61, right associativity) : monad_scope.
Open Scope monad_scope.

(** [xs.map(f)] and [for (x of xs) f(x)] where [f] has effects. *)
Fixpoint mapM {S A B} (f : A -> M S B) (xs : list A) : M S (list B) :=
  match xs with
  | [] => ret []
  | x :: rest => y <- f x ;; ys <- mapM f rest ;; ret (y :: ys)
  end.

(** The same for a callback that may throw but writes nothing. *)
Fixpoint mapC {A B} (f : A -> completion B) (xs : list A) : completion (list B) :=
  match xs with
  | [] => Return []
  | x :: rest =>
      match f x with
      | Throw e => Throw e
      | Return y =>
          match mapC f rest with
          | Throw e => Throw e
          | Return ys => Return (y :: ys)
          end
      end
  end.

(** ** Arrays of numbers *)

(** [xs[i]]; an absent element reads as [0] (the source never uses one in
    arithmetic, see [luDecompositionTridiagonal]). *)
Definition at_ (xs : list R) (i : nat) : R := nth i xs 0.

(** [m[i][j]] *)
Definition at2 (m : list (list R)) (i j : nat) : R := nth j (nth i m []) 0.

(** [Array(n)] *)
Definition Array (n : nat) : list R := repeat 0 n.

(** [xs[i] = v]: in range the element is replaced, past the end the array
    grows up to index [i]. *)
Fixpoint array_set (xs : list R) (i : nat) (v : R) : list R :=
  match i, xs with
  | O, [] => [v]
  | O, _ :: rest => v :: rest
  | S j, [] => 0 :: array_set [] j v
  | S j, x :: rest => x :: array_set rest j v
  end.

(** [for (i = lo; i < hi; i++) body] over a loop state. *)
Definition for_up {St} (lo hi : nat) (body : nat -> St -> St) (s : St) : St :=
  fold_left (fun st i => body i st) (seq lo (hi - lo)) s.

(** [for (i = hi - 1; i >= 0; i--) body], i.e. indices [hi-1], ..., [0]. *)
Definition for_down {St} (hi : nat) (body : nat -> St -> St) (s : St) : St :=
  fold_left (fun st i => body i st) (rev (seq 0 hi)) s.

(** ** Rating scales ([PlayerDay.gamma], [PlayerDay.elo]) *)

Module Rating.
(** [get gamma()]: [Math.exp(this.r)] *)
Definition gamma (r : R) : R := exp r.
(** [get elo()]: [(this.r * 400.0) / Math.log(10)] *)
Definition elo (r : R) : R := (r * 400) / ln 10.
(** [set gamma(value)]: [this.r = Math.log(value)] *)
Definition of_gamma (value : R) : R := ln value.
(** [set elo(value)]: [this.r = (value * Math.log(10)) / 400.0] *)
Definition of_elo (value : R) : R := (value * ln 10) / 400.
End Rating.

(** ** game.ts *)

Module Game.

Inductive Winner : Type := B | W | D.

(** A [Game] object.  [wpd] and [bpd] point to the white and the black
    player's [PlayerDay]; only the rating is ever read through them, so
    the reference is represented by the natural rating [r] currently
    stored there, and [None] is [null].  [handicapProc] is the optional
    callback, a function of the two attached ratings. *)
Record t : Type := mk {
  day : R;
  whitePlayer : string;
  blackPlayer : string;
  handicap : R;
  winner : Winner;
  wpd : option R;
  bpd : option R;
  handicapProc : option (option R -> option R -> R);
}.

Definition set_wpd (g : t) (pd : option R) : t :=
  mk (day g) (whitePlayer g) (blackPlayer g) (handicap g) (winner g)
     pd (bpd g) (handicapProc g).

Definition set_bpd (g : t) (pd : option R) : t :=
  mk (day g) (whitePlayer g) (blackPlayer g) (handicap g) (winner g)
     (wpd g) pd (handicapProc g).

(** [this.handicapProc ? this.handicapProc(this) : this.handicap] *)
Definition blackAdvantage (g : t) : R :=
  match handicapProc g with
  | Some proc => proc (wpd g) (bpd g)
  | None => handicap g
  end.

Section WithHost.
Context `{HostMath}.

(** The first half of [opponentsAdjustedGamma]: the opponent's Elo
    rating, moved by the handicap. *)
Definition opponentElo (g : t) (player : string) : completion R :=
  if String.eqb player (whitePlayer g) then
    match bpd g with
    | None => Throw (Error "No black player day found for game")
    | Some r => Return (Rating.elo r + blackAdvantage g)
    end
  else if String.eqb player (blackPlayer g) then
    match wpd g with
    | None => Throw (Error "No white player day found for game")
    | Some r => Return (Rating.elo r - blackAdvantage g)
    end
  else Throw (Error "No opponent, since they are not in this game").

(** The second half: [rval = Math.pow(10, opponentElo / 400.0)], the
    guard [rval === 0 || !isFinite(rval) || isNaN(rval)], and the
    return of [rval]. *)
Definition checkedGamma (rval : number) : completion R :=
  if isZero rval || negb (isFinite rval) || isNaN rval then
    Throw (UnstableRatingException "Bad adjusted gamma")
  else
    match rval with
    | Finite v => Return v
    | _ => Throw (UnstableRatingException "Bad adjusted gamma")
    end.

Definition opponentsAdjustedGamma (g : t) (player : string) : completion R :=
  match opponentElo g player with
  | Throw e => Throw e
  | Return oppElo => checkedGamma (Math_pow10 (oppElo / 400))
  end.

(** [get whiteWinProbability()] *)
Definition whiteWinProbability (g : t) : completion R :=
  match wpd g with
  | None => Throw (Error "White player day not set")
  | Some r =>
      match opponentsAdjustedGamma g (whitePlayer g) with
      | Throw e => Throw e
      | Return og => Return (Rating.gamma r / (Rating.gamma r + og))
      end
  end.

(** [get blackWinProbability()] *)
Definition blackWinProbability (g : t) : completion R :=
  match bpd g with
  | None => Throw (Error "Black player day not set")
  | Some r =>
      match opponentsAdjustedGamma g (blackPlayer g) with
      | Throw e => Throw e
      | Return og => Return (Rating.gamma r / (Rating.gamma r + og))
      end
  end.

(** [get predictionScore()].  The getter [whiteWinProbability] writes
    nothing, so the value it is read for up to three times is one value. *)
Definition predictionScore (g : t) : completion R :=
  match whiteWinProbability g with
  | Throw e => Throw e
  | Return p =>
      if Reqb p 0.5 then Return 0.5
      else
        match winner g with
        | W => if Rgtb p 0.5 then Return 1 else Return 0
        | B => if Rltb p 0.5 then Return 1 else Return 0
        | D => Return 0
        end
  end.

End WithHost.

(** [constructor(blackPlayer, whitePlayer, winner, timeStep, handicap)],
    [handicap] being a number ([inl]) or a callback ([inr]). *)
Definition new_ (blackPlayer whitePlayer : string) (winner : Winner) (timeStep : R)
           (handicap : R + (option R -> option R -> R)) : t :=
  match handicap with
  | inl h => mk timeStep whitePlayer blackPlayer h winner None None None
  | inr proc => mk timeStep whitePlayer blackPlayer 0 winner None None (Some proc)
  end.

(** [opponent(player)]; [None] is [null]. *)
Definition opponent (g : t) (player : string) : option string :=
  if String.eqb player (whitePlayer g) then Some (blackPlayer g)
  else if String.eqb player (blackPlayer g) then Some (whitePlayer g)
  else None.

(** [involvesPlayer(player)] *)
Definition involvesPlayer (g : t) (player : string) : bool :=
  String.eqb (blackPlayer g) player || String.eqb (whitePlayer g) player.

End Game.

(** ** types.ts: [GameTerm] *)

Module GameTerm.
(** The Bradley-Terry coefficients of one game: its probability is
    [(a * gamma + b) / (c * gamma + d)]; [d] is the opponent's gamma. *)
Record t : Type := mk { a : R; b : R; c : R; d : R }.
End GameTerm.

(** ** Generic list update ([xs[i] = v] on an array of objects, in range) *)

Fixpoint list_update {A} (xs : list A) (i : nat) (v : A) : list A :=
  match xs, i with
  | [], _ => []
  | _ :: rest, O => v :: rest
  | x :: rest, S j => x :: list_update rest j v
  end.

(** ** player-day.ts *)

Module PlayerDay.

(** A [PlayerDay] object.  [player] is the owning player;
    [_wonGameTerms] and [_lostGameTerms] are the memo fields of the two
    term getters ([None] is [null]). *)
Record t : Type := mk {
  day : R;
  player : string;
  r : R;
  isFirstDay : bool;
  uncertainty : R;
  wonGames : list Game.t;
  lostGames : list Game.t;
  _wonGameTerms : option (list GameTerm.t);
  _lostGameTerms : option (list GameTerm.t);
}.

Definition set_r (v : R) (pd : t) : t :=
  mk (day pd) (player pd) v (isFirstDay pd) (uncertainty pd)
     (wonGames pd) (lostGames pd) (_wonGameTerms pd) (_lostGameTerms pd).

Definition set_isFirstDay (v : bool) (pd : t) : t :=
  mk (day pd) (player pd) (r pd) v (uncertainty pd)
     (wonGames pd) (lostGames pd) (_wonGameTerms pd) (_lostGameTerms pd).

Definition set_uncertainty (v : R) (pd : t) : t :=
  mk (day pd) (player pd) (r pd) (isFirstDay pd) v
     (wonGames pd) (lostGames pd) (_wonGameTerms pd) (_lostGameTerms pd).

Definition set_wonGames (v : list Game.t) (pd : t) : t :=
  mk (day pd) (player pd) (r pd) (isFirstDay pd) (uncertainty pd)
     v (lostGames pd) (_wonGameTerms pd) (_lostGameTerms pd).

Definition set_lostGames (v : list Game.t) (pd : t) : t :=
  mk (day pd) (player pd) (r pd) (isFirstDay pd) (uncertainty pd)
     (wonGames pd) v (_wonGameTerms pd) (_lostGameTerms pd).

Definition set__wonGameTerms (v : option (list GameTerm.t)) (pd : t) : t :=
  mk (day pd) (player pd) (r pd) (isFirstDay pd) (uncertainty pd)
     (wonGames pd) (lostGames pd) v (_lostGameTerms pd).

Definition set__lostGameTerms (v : option (list GameTerm.t)) (pd : t) : t :=
  mk (day pd) (player pd) (r pd) (isFirstDay pd) (uncertainty pd)
     (wonGames pd) (lostGames pd) (_wonGameTerms pd) v.

(** [constructor(player, day)] *)
Definition new_ (player : string) (day : R) : t :=
  mk day player 0 false (sqrt 5) [] [] None None.

(** [get gamma()], [set gamma(value)], [get elo()] *)
Definition gamma (pd : t) : R := Rating.gamma (r pd).
Definition set_gamma (value : R) (pd : t) : t := set_r (Rating.of_gamma value) pd.
Definition elo (pd : t) : R := Rating.elo (r pd).
Definition set_elo (value : R) (pd : t) : t := set_r (Rating.of_elo value) pd.

(** [clearGameTermsCache()] *)
Definition clearGameTermsCache (pd : t) : t :=
  set__lostGameTerms None (set__wonGameTerms None pd).

(** [addGame(game)] *)
Definition isWonBy (game : Game.t) (player : string) : bool :=
  match Game.winner game with
  | Game.W => String.eqb (Game.whitePlayer game) player
  | Game.B => String.eqb (Game.blackPlayer game) player
  | Game.D => false
  end.

Definition addGame (game : Game.t) (pd : t) : t :=
  if isWonBy game (player pd)
  then set_wonGames (wonGames pd ++ [game]) pd
  else set_lostGames (lostGames pd ++ [game]) pd.

Section WithHost.
Context `{HostMath}.

(** The callbacks of the two [map] calls. *)
Definition wonTerm (player : string) (game : Game.t) : completion GameTerm.t :=
  match Game.opponentsAdjustedGamma game player with
  | Throw e => Throw e
  | Return otherGamma => Return (GameTerm.mk 1 0 1 otherGamma)
  end.

Definition lostTerm (player : string) (game : Game.t) : completion GameTerm.t :=
  match Game.opponentsAdjustedGamma game player with
  | Throw e => Throw e
  | Return otherGamma => Return (GameTerm.mk 0 otherGamma 1 otherGamma)
  end.

(** [get wonGameTerms()] *)
Definition wonGameTerms : M t (list GameTerm.t) :=
  cached <- gets _wonGameTerms ;;
  match cached with
  | Some terms => ret terms
  | None =>
      this <- get ;;
      mapped <- lift (mapC (wonTerm (player this)) (wonGames this)) ;;
      let terms :=
        if isFirstDay this then mapped ++ [GameTerm.mk 1 0 1 1] else mapped in
      modify (set__wonGameTerms (Some terms)) ;;;
      ret terms
  end.

(** [get lostGameTerms()] *)
Definition lostGameTerms : M t (list GameTerm.t) :=
  cached <- gets _lostGameTerms ;;
  match cached with
  | Some terms => ret terms
  | None =>
      this <- get ;;
      mapped <- lift (mapC (lostTerm (player this)) (lostGames this)) ;;
      let terms :=
        if isFirstDay this then mapped ++ [GameTerm.mk 0 1 1 1] else mapped in
      modify (set__lostGameTerms (Some terms)) ;;;
      ret terms
  end.

(** The two accumulation loops over [allTerms]. *)
Definition tallyDerivative (gamma : R) (allTerms : list GameTerm.t) : R :=
  fold_left
    (fun tally term =>
       tally + GameTerm.c term / (GameTerm.c term * gamma + GameTerm.d term))
    allTerms 0.

Definition sumSecondDerivative (gamma : R) (allTerms : list GameTerm.t) : R :=
  fold_left
    (fun sum term =>
       sum + (GameTerm.c term * GameTerm.d term)
             / (GameTerm.c term * gamma + GameTerm.d term) ^ 2)
    allTerms 0.

(** [get logLikelihoodDerivative()] *)
Definition logLikelihoodDerivative : M t R :=
  won <- wonGameTerms ;;
  lost <- lostGameTerms ;;
  this <- get ;;
  let tally := tallyDerivative (gamma this) (won ++ lost) in
  won' <- wonGameTerms ;;
  ret (INR (List.length won') - gamma this * tally).

(** [get logLikelihoodSecondDerivative()] *)
Definition logLikelihoodSecondDerivative : M t R :=
  won <- wonGameTerms ;;
  lost <- lostGameTerms ;;
  this <- get ;;
  let sum := sumSecondDerivative (gamma this) (won ++ lost) in
  ret (- gamma this * sum).

(** [updateBy1DNewtonsMethod()] *)
Definition updateBy1DNewtonsMethod : M t unit :=
  dlogp <- logLikelihoodDerivative ;;
  d2logp <- logLikelihoodSecondDerivative ;;
  if Rltb (Rabs d2logp) 1e-10 then ret tt
  else
    let dr := dlogp / d2logp in
    this <- get ;;
    let newR := r this - dr in
    modify (set_r newR).

(** [get logLikelihood()] *)
Definition logLikelihood : M t R :=
  let tally := 0 in
  won <- wonGameTerms ;;
  this <- get ;;
  let tally :=
    fold_left
      (fun tally term =>
         tally + ln (GameTerm.a term * gamma this)
         - ln (GameTerm.c term * gamma this + GameTerm.d term))
      won tally in
  lost <- lostGameTerms ;;
  this <- get ;;
  let tally :=
    fold_left
      (fun tally term =>
         tally + ln (GameTerm.b term)
         - ln (GameTerm.c term * gamma this + GameTerm.d term))
      lost tally in
  ret tally.

End WithHost.

(** [clone()]: the memo fields of the copy start as [null]. *)
Definition clone (pd : t) : t :=
  let cloned := new_ (player pd) (day pd) in
  let cloned := set_r (r pd) cloned in
  let cloned := set_isFirstDay (isFirstDay pd) cloned in
  let cloned := set_uncertainty (uncertainty pd) cloned in
  let cloned := set_wonGames (wonGames pd) cloned in
  set_lostGames (lostGames pd) cloned.

End PlayerDay.

(** ** More host functions and array helpers used by player.ts *)

(** [Math.round(x)]: the nearest integer, a tie going up. *)
Definition Math_round (x : R) : R := IZR (Zfloor (x + 1 / 2)).

(** [xs.map((x, i) => f(i, x))] *)
Fixpoint mapi_from {A B} (start : nat) (f : nat -> A -> B) (xs : list A) : list B :=
  match xs with
  | [] => []
  | x :: rest => f start x :: mapi_from (S start) f rest
  end.
Definition mapi {A B} (f : nat -> A -> B) (xs : list A) : list B := mapi_from 0 f xs.

(** The [{ a, d, b }] object returned by [luDecompositionTridiagonal]. *)
Module LU.
Record t : Type := mk { a : list R; d : list R; b : list R }.
End LU.

(** The [ap], [dp], [bp] arrays of [covariance]. *)
Module LUp.
Record t : Type := mk { ap : list R; dp : list R; bp : list R }.
End LUp.

(** The [{ elo, uncertainty }] object returned by the rating queries. *)
Module Estimate.
Record t : Type := mk { elo : R; uncertainty : R }.
End Estimate.

(** ** player.ts *)

Module Player.

Record t : Type := mk {
  name : string;
  days : list PlayerDay.t;
  w2 : R;
}.

Definition set_days (v : list PlayerDay.t) (p : t) : t := mk (name p) v (w2 p).

(** [constructor(name, config)], where [config_w2] is [config.w2]
    ([None] when the field is absent). *)
Definition new_ (name : string) (config_w2 : option R) : t :=
  let w2Elo :=
    match config_w2 with
    | Some v => if Req_dec_T v 0 then 300 else v
    | None => 300
    end in
  mk name [] ((sqrt w2Elo * ln 10 / 400) ^ 2).

(** [days[i]] for an index in range. *)
Definition day_ (days : list PlayerDay.t) (i : nat) : PlayerDay.t :=
  nth i days (PlayerDay.new_ EmptyString 0).

(** [computeSigma2()] *)
Definition computeSigma2 (this : t) : list R :=
  for_up 0 (List.length (days this) - 1)
    (fun i sigma2 =>
       let d1 := day_ (days this) i in
       let d2 := day_ (days this) (i + 1) in
       sigma2 ++ [Rabs (PlayerDay.day d2 - PlayerDay.day d1) * w2 this])
    [].

(** The two linear solves of [updateByNDimNewton], and its [newR]. *)

(** [luDecompositionTridiagonal(h, n)], called with [n >= 1]. *)
Definition luDecompositionTridiagonal (h : list (list R)) (n : nat) : LU.t :=
  let a := Array n in
  let d := [at2 h 0 0] in
  let b := Array n in
  let b := if (0 <? n)%nat then array_set b 0 (at2 h 0 1) else b in
  for_up 1 n
    (fun i lu =>
       let a := array_set (LU.a lu) i (at2 h i (i - 1) / at_ (LU.d lu) (i - 1)) in
       let d := array_set (LU.d lu) i (at2 h i i - at_ a i * at_ (LU.b lu) (i - 1)) in
       let b := if (i <? n - 1)%nat
                then array_set (LU.b lu) i (at2 h i (i + 1))
                else LU.b lu in
       LU.mk a d b)
    (LU.mk a d b).

(** Forward substitution: [Ly = g] *)
Definition forwardSubstitution (g a : list R) (n : nat) : list R :=
  let y := [at_ g 0] in
  for_up 1 n (fun i y => array_set y i (at_ g i - at_ a i * at_ y (i - 1))) y.

(** Back substitution: [Ux = y] *)
Definition backSubstitution (y d b : list R) (n : nat) : list R :=
  let x := Array n in
  let x := array_set x (n - 1) (at_ y (n - 1) / at_ d (n - 1)) in
  for_down (n - 1)
    (fun i x => array_set x i ((at_ y i - at_ b i * at_ x (i + 1)) / at_ d i)) x.

(** [x], from [h] and [g]. *)
Definition newtonDirection (h : list (list R)) (g : list R) (n : nat) : list R :=
  let lu := luDecompositionTridiagonal h n in
  let y := forwardSubstitution g (LU.a lu) n in
  backSubstitution y (LU.d lu) (LU.b lu) n.

(** [newR = r.map((ri, i) => ri - x[i])] *)
Definition newRatings (r x : list R) : list R := mapi (fun i ri => ri - at_ x i) r.

(** The reverse elimination of [covariance] and its [v]. *)
Definition reverseElimination (h : list (list R)) (n : nat) : LUp.t :=
  let dp := Array n in
  let bp := Array n in
  let ap := Array n in
  let dp := array_set dp (n - 1) (at2 h (n - 1) (n - 1)) in
  let bp := if (1 <? n)%nat then array_set bp (n - 1) (at2 h (n - 1) (n - 2)) else bp in
  for_down (n - 1)
    (fun i st =>
       let ap := array_set (LUp.ap st) i (at2 h i (i + 1) / at_ (LUp.dp st) (i + 1)) in
       let dp := array_set (LUp.dp st) i (at2 h i i - at_ ap i * at_ (LUp.bp st) (i + 1)) in
       let bp := if (0 <? i)%nat
                 then array_set (LUp.bp st) i (at2 h i (i - 1))
                 else LUp.bp st in
       LUp.mk ap dp bp)
    (LUp.mk ap dp bp).

Definition varianceVector (lu : LU.t) (lup : LUp.t) (n : nat) : list R :=
  let v := Array n in
  let v :=
    for_up 0 (n - 1)
      (fun i v =>
         array_set v i
           (at_ (LUp.dp lup) (i + 1)
            / (at_ (LU.b lu) i * at_ (LUp.bp lup) (i + 1)
               - at_ (LU.d lu) i * at_ (LUp.dp lup) (i + 1))))
      v in
  array_set v (n - 1) (-1 / at_ (LU.d lu) (n - 1)).

(** "Build covariance matrix" *)
Definition covarianceMatrix (a v : list R) (n : nat) : list (list R) :=
  map (fun row =>
         map (fun col =>
                if (row =? col)%nat then at_ v row
                else if (S row =? col)%nat then - at_ a col * at_ v col
                else 0)
             (seq 0 n))
      (seq 0 n).

(** [addGame(game)].  The game object is written to as well (its [wpd]
    or [bpd]); the updated game is returned next to the player. *)
Definition addGame (game : Game.t) (this : t) : t * Game.t :=
  let len := List.length (days this) in
  let last := day_ (days this) (len - 1) in
  let fresh :=
    (len =? 0)%nat || negb (Reqb (PlayerDay.day last) (Game.day game)) in
  let newPday :=
    if fresh then
      let created := PlayerDay.new_ (name this) (Game.day game) in
      if (len =? 0)%nat
      then PlayerDay.set_gamma 1 (PlayerDay.set_isFirstDay true created)
      else PlayerDay.set_gamma (PlayerDay.gamma last) created
    else last in
  let game :=
    if String.eqb (Game.whitePlayer game) (name this)
    then Game.set_wpd game (Some (PlayerDay.r newPday))
    else Game.set_bpd game (Some (PlayerDay.r newPday)) in
  let newPday := PlayerDay.addGame game newPday in
  let days' :=
    if fresh then days this ++ [newPday]
    else list_update (days this) (len - 1) newPday in
  (set_days days' this, game).

(** [getRatingHistory()] *)
Definition getRatingHistory (this : t) : list (R * R * R) :=
  map (fun day =>
         (PlayerDay.day day,
          Math_round (PlayerDay.elo day),
          Math_round (PlayerDay.uncertainty day * 100)))
      (days this).

(** [interpolateRating(timePoint)] *)
Definition extrapolate (this : t) (day : PlayerDay.t) (timeDiff : R) : Estimate.t :=
  let variance :=
    PlayerDay.uncertainty day * PlayerDay.uncertainty day + timeDiff * w2 this in
  Estimate.mk (PlayerDay.elo day) (sqrt variance).

Definition interpolateRating (this : t) (timePoint : R) : Estimate.t :=
  let len := List.length (days this) in
  if (len =? 0)%nat then Estimate.mk 0 (sqrt 5)
  else if (len =? 1)%nat then
    let day := day_ (days this) 0 in
    extrapolate this day (Rabs (timePoint - PlayerDay.day day))
  else
    match
      find (fun i =>
              Rleb (PlayerDay.day (day_ (days this) i)) timePoint
              && Rgeb (PlayerDay.day (day_ (days this) (i + 1))) timePoint)
           (seq 0 (len - 1))
    with
    | None =>
        if Rltb timePoint (PlayerDay.day (day_ (days this) 0)) then
          let day := day_ (days this) 0 in
          extrapolate this day (PlayerDay.day day - timePoint)
        else
          let day := day_ (days this) (len - 1) in
          extrapolate this day (timePoint - PlayerDay.day day)
    | Some t1Index =>
        let t2Index := (t1Index + 1)%nat in
        let t1 := day_ (days this) t1Index in
        let t2 := day_ (days this) t2Index in
        let mu1 := PlayerDay.r t1 in
        let mu2 := PlayerDay.r t2 in
        let mu :=
          (mu1 * (PlayerDay.day t2 - timePoint)
           + mu2 * (timePoint - PlayerDay.day t1))
          / (PlayerDay.day t2 - PlayerDay.day t1) in
        let sigma1Sq := PlayerDay.uncertainty t1 * PlayerDay.uncertainty t1 in
        let sigma2Sq := PlayerDay.uncertainty t2 * PlayerDay.uncertainty t2 in
        let sigma12 := 0 in
        let varianceFromProcess :=
          (((PlayerDay.day t2 - timePoint) * (timePoint - PlayerDay.day t1))
           / (PlayerDay.day t2 - PlayerDay.day t1))
          * w2 this in
        let varianceFromUncertainty :=
          ((PlayerDay.day t2 - timePoint) ^ 2 * sigma1Sq
           + 2 * (PlayerDay.day t2 - timePoint)
             * (timePoint - PlayerDay.day t1) * sigma12
           + (timePoint - PlayerDay.day t1) ^ 2 * sigma2Sq)
          / (PlayerDay.day t2 - PlayerDay.day t1) ^ 2 in
        let totalVariance := varianceFromProcess + varianceFromUncertainty in
        let elo := (mu * 400) / ln 10 in
        let uncertainty := sqrt (Rmax 0 totalVariance) in
        Estimate.mk elo uncertainty
    end.

(** [getRatingAtTime(timePoint)] *)
Definition getRatingAtTime (this : t) (timePoint : R) : Estimate.t :=
  match find (fun d => Reqb (PlayerDay.day d) timePoint) (days this) with
  | Some exactDay =>
      Estimate.mk (PlayerDay.elo exactDay) (PlayerDay.uncertainty exactDay)
  | None => interpolateRating this timePoint
  end.

Section WithHost.
Context `{HostMath}.

(** [this.days[i].m()]: a method of the [i]-th day, run in place. *)
Definition onDay {A} (i : nat) (m : M PlayerDay.t A) : M t A :=
  fun this =>
    match nth_error (days this) i with
    | Some pd =>
        let (c, pd') := m pd in
        (c, set_days (list_update (days this) i pd') this)
    | None => (Throw (Error "TypeError: days[i] is undefined"), this)
    end.

(** [hessian(days, sigma2)], with [days] the player's own array.  The
    body of the two nested loops, for one cell: *)
Definition hessianEntry (n : nat) (sigma2 : list R) (row col : nat) : M t R :=
  if (row =? col)%nat then
    let prior := 0 in
    let prior := if (row <? n - 1)%nat then prior + -1 / at_ sigma2 row else prior in
    let prior := if (0 <? row)%nat then prior + -1 / at_ sigma2 (row - 1) else prior in
    d2 <- onDay row PlayerDay.logLikelihoodSecondDerivative ;;
    ret (d2 + prior - 0.001)
  else if (S row =? col)%nat then    (* row === col - 1 *)
    ret (1 / at_ sigma2 row)
  else if (row =? S col)%nat then    (* row === col + 1 *)
    ret (1 / at_ sigma2 col)
  else ret 0.

Definition hessian (sigma2 : list R) : M t (list (list R)) :=
  n <- gets (fun this => List.length (days this)) ;;
  mapM (fun row => mapM (fun col => hessianEntry n sigma2 row col) (seq 0 n))
       (seq 0 n).

(** [gradient(r, days, sigma2)] *)
Definition gradientEntry (n : nat) (r sigma2 : list R) (idx : nat) : M t R :=
  let prior := 0 in
  let prior :=
    if (idx <? n - 1)%nat
    then prior + - (at_ r idx - at_ r (idx + 1)) / at_ sigma2 idx
    else prior in
  let prior :=
    if (0 <? idx)%nat
    then prior + - (at_ r idx - at_ r (idx - 1)) / at_ sigma2 (idx - 1)
    else prior in
  d1 <- onDay idx PlayerDay.logLikelihoodDerivative ;;
  ret (d1 + prior).

Definition gradient (r sigma2 : list R) : M t (list R) :=
  n <- gets (fun this => List.length (days this)) ;;
  mapM (gradientEntry n r sigma2) (seq 0 n).

(** [updateByNDimNewton()] *)
Definition updateByNDimNewton : M t unit :=
  this <- get ;;
  let r := map PlayerDay.r (days this) in
  let n := List.length r in
  let sigma2 := computeSigma2 this in
  h <- hessian sigma2 ;;
  g <- gradient r sigma2 ;;
  let x := newtonDirection h g n in
  let newR := newRatings r x in
  if existsb (fun newRi => Rgtb newRi 650) newR then
    throw (UnstableRatingException "Unstable r")
  else
    modify (fun this =>
              set_days (mapi (fun i day => PlayerDay.set_r (at_ newR i) day)
                             (days this)) this).

(** [runOneNewtonIteration()] *)
Definition runOneNewtonIteration : M t unit :=
  modify (fun this => set_days (map PlayerDay.clearGameTermsCache (days this)) this) ;;;
  len <- gets (fun this => List.length (days this)) ;;
  if (len =? 1)%nat then onDay 0 PlayerDay.updateBy1DNewtonsMethod
  else if (1 <? len)%nat then updateByNDimNewton
  else ret tt.

(** [covariance()].  Without days [h] is empty, and reading [h[0][0]] in
    [luDecompositionTridiagonal] is a [TypeError]. *)
Definition covariance : M t (list (list R)) :=
  this <- get ;;
  let sigma2 := computeSigma2 this in
  h <- hessian sigma2 ;;
  let n := List.length (days this) in
  if (n =? 0)%nat then
    throw (Error "TypeError: cannot read properties of undefined")
  else
    let lu := luDecompositionTridiagonal h n in
    let lup := reverseElimination h n in
    let v := varianceVector lu lup n in
    ret (covarianceMatrix (LU.a lu) v n).

(** [updateUncertainty()] *)
Definition updateUncertainty : M t unit :=
  len <- gets (fun this => List.length (days this)) ;;
  if (0 <? len)%nat then
    c <- covariance ;;
    modify (fun this =>
              set_days
                (mapi (fun i day =>
                         PlayerDay.set_uncertainty (sqrt (Rabs (at2 c i i))) day)
                      (days this)) this)
  else ret tt.

End WithHost.

(** [get currentRating()] *)
Definition currentRating (this : t) : R :=
  let len := List.length (days this) in
  if (len =? 0)%nat then 0 else PlayerDay.elo (day_ (days this) (len - 1)).

(** [get currentUncertainty()] *)
Definition currentUncertainty (this : t) : R :=
  let len := List.length (days this) in
  if (len =? 0)%nat then 5 else PlayerDay.uncertainty (day_ (days this) (len - 1)).

End Player.

(** ** whr.ts *)

(** [xs.sort(compare)].  The sort is stable; for a comparator that orders
    the elements consistently the result is the one sorted arrangement that
    keeps ties in their order, computed here by insertion. *)
Fixpoint insertBy {A} (compare : A -> A -> R) (x : A) (sorted : list A) : list A :=
  match sorted with
  | [] => [x]
  | y :: rest =>
      if Rgtb (compare y x) 0 then x :: y :: rest
      else y :: insertBy compare x rest
  end.

Definition Array_sort {A} (compare : A -> A -> R) (xs : list A) : list A :=
  fold_left (fun sorted x => insertBy compare x sorted) xs [].

(** [for (let i = 0; i < count; i++) body] *)
Fixpoint repeatM {S} (count : nat) (body : M S unit) : M S unit :=
  match count with
  | O => ret tt
  | S k => body ;;; repeatM k body
  end.

(** The [PlayerRating] and [GameResult] objects of types.ts. *)
Module PlayerRating.
Record t : Type := mk { name : string; day : R; elo : R; uncertainty : R }.
End PlayerRating.

Module GameResult.
Record t : Type := mk {
  black : string;
  white : string;
  winner : Game.Winner;
  timeStep : R;
  handicap : option R;
}.
End GameResult.

Module Whr.

(** The objects behind a [WholeHistoryRating].  A [Player] object is
    identified by its name, as before; a [PlayerDay] object by its player and
    its index in [player.days] (days are only ever appended); a [Game] object
    by its address in [heap], the store of the games that [setupGame] made.
    A game holds references to two player-days, and a day holds references
    to its games: what one method writes through a reference, the others
    read.

    Not modelled: [clear()], which leaves the players it removes reachable
    from their games only; [logLikelihood] and [iterateToConvergence], which
    compute with non-finite numbers; [printOrderedRatings], which only
    prints. *)
Definition DayRef : Type := (string * nat)%type.

Record GameObj : Type := mkGame {
  g_day : R;
  g_whitePlayer : string;
  g_blackPlayer : string;
  g_handicap : R;
  g_winner : Game.Winner;
  g_wpd : option DayRef;
  g_bpd : option DayRef;
  g_handicapProc : option (option R -> option R -> R);
}.

Record DayObj : Type := mkDay {
  d_day : R;
  d_r : R;
  d_isFirstDay : bool;
  d_uncertainty : R;
  d_wonGames : list nat;
  d_lostGames : list nat;
  d_wonGameTerms : option (list GameTerm.t);
  d_lostGameTerms : option (list GameTerm.t);
}.

Record PlayerObj : Type := mkPlayer { p_days : list DayObj; p_w2 : R }.

(** [config.w2] after the defaults, the [players] map in insertion order,
    the store of game objects, and the [games] array. *)
Record t : Type := mk {
  config_w2 : R;
  players : list (string * PlayerObj);
  heap : list GameObj;
  games : list nat;
}.

Definition set_players (v : list (string * PlayerObj)) (this : t) : t :=
  mk (config_w2 this) v (heap this) (games this).
Definition set_heap (v : list GameObj) (this : t) : t :=
  mk (config_w2 this) (players this) v (games this).
Definition set_games (v : list nat) (this : t) : t :=
  mk (config_w2 this) (players this) (heap this) v.

(** [constructor(config)]: [{ w2: 300.0, ..., ...config }] *)
Definition new_ (config_w2 : option R) : t :=
  mk (match config_w2 with Some v => v | None => 300 end) [] [] [].

(** [this.players.get(name)] and [this.players.set(name, player)] *)
Definition get_player (name : string) (this : t) : option PlayerObj :=
  option_map snd (find (fun entry => String.eqb (fst entry) name) (players this)).

Fixpoint map_set (name : string) (player : PlayerObj)
         (entries : list (string * PlayerObj)) : list (string * PlayerObj) :=
  match entries with
  | [] => [(name, player)]
  | entry :: rest =>
      if String.eqb (fst entry) name then (name, player) :: rest
      else entry :: map_set name player rest
  end.

Definition set_player (name : string) (player : PlayerObj) (this : t) : t :=
  set_players (map_set name player (players this)) this.

(** [playerByName(name)]; the player returned is the one of that name. *)
Definition playerByName (name : string) : M t string :=
  fun this =>
    match get_player name this with
    | Some _ => (Return name, this)
    | None =>
        let player := Player.new_ name (Some (config_w2 this)) in
        (Return name, set_player name (mkPlayer [] (Player.w2 player)) this)
    end.

(** [new Game(blackPlayer, whitePlayer, winner, timeStep, handicap)]: the
    object is put on the heap, and its address returned. *)
Definition newGame (blackPlayer whitePlayer : string) (winner : Game.Winner)
           (timeStep : R) (handicap : R + (option R -> option R -> R)) : M t nat :=
  fun this =>
    let game :=
      match handicap with
      | inl h => mkGame timeStep whitePlayer blackPlayer h winner None None None
      | inr proc =>
          mkGame timeStep whitePlayer blackPlayer 0 winner None None (Some proc)
      end in
    (Return (List.length (heap this)), set_heap (heap this ++ [game]) this).

(** [setupGame(black, white, winner, timeStep, handicap)] *)
Definition setupGame (black white : string) (winner : Game.Winner) (timeStep : R)
           (handicap : R + (option R -> option R -> R)) : M t nat :=
  if String.eqb black white then
    throw (Error "Invalid game (black player == white player)")
  else
    whitePlayer <- playerByName white ;;
    blackPlayer <- playerByName black ;;
    newGame blackPlayer whitePlayer winner timeStep handicap.

(** [player.addGame(game)] of player.ts, with [newPday.addGame(game)] of
    player-day.ts, on the objects: [name] is the player and [addr] the game.
    A name that is not in the map or an address that is not on the heap does
    not occur for the games of [setupGame]. *)
Definition isWonBy (game : GameObj) (player : string) : bool :=
  match g_winner game with
  | Game.W => String.eqb (g_whitePlayer game) player
  | Game.B => String.eqb (g_blackPlayer game) player
  | Game.D => false
  end.

Definition day_addGame (player : string) (addr : nat) (game : GameObj)
           (pd : DayObj) : DayObj :=
  if isWonBy game player
  then mkDay (d_day pd) (d_r pd) (d_isFirstDay pd) (d_uncertainty pd)
             (d_wonGames pd ++ [addr]) (d_lostGames pd)
             (d_wonGameTerms pd) (d_lostGameTerms pd)
  else mkDay (d_day pd) (d_r pd) (d_isFirstDay pd) (d_uncertainty pd)
             (d_wonGames pd) (d_lostGames pd ++ [addr])
             (d_wonGameTerms pd) (d_lostGameTerms pd).

Definition player_addGame (name : string) (addr : nat) : M t unit :=
  fun this =>
    match get_player name this, nth_error (heap this) addr with
    | Some player, Some game =>
        let len := List.length (p_days player) in
        let last := nth (len - 1) (p_days player)
                        (mkDay 0 0 false 0 [] [] None None) in
        let fresh := (len =? 0)%nat || negb (Reqb (d_day last) (g_day game)) in
        let newPday :=
          if fresh then
            if (len =? 0)%nat
            then mkDay (g_day game) (Rating.of_gamma 1) true (sqrt 5) [] [] None None
            else mkDay (g_day game) (Rating.of_gamma (Rating.gamma (d_r last)))
                       false (sqrt 5) [] [] None None
          else last in
        let index := if fresh then len else (len - 1)%nat in
        let game :=
          if String.eqb (g_whitePlayer game) name
          then mkGame (g_day game) (g_whitePlayer game) (g_blackPlayer game)
                      (g_handicap game) (g_winner game)
                      (Some (name, index)) (g_bpd game) (g_handicapProc game)
          else mkGame (g_day game) (g_whitePlayer game) (g_blackPlayer game)
                      (g_handicap game) (g_winner game)
                      (g_wpd game) (Some (name, index)) (g_handicapProc game) in
        let newPday := day_addGame name addr game newPday in
        let days' :=
          if fresh then p_days player ++ [newPday]
          else list_update (p_days player) (len - 1) newPday in
        (Return tt,
         set_heap (list_update (heap this) addr game)
                  (set_player name (mkPlayer days' (p_w2 player)) this))
    | _, _ => (Throw (Error "TypeError: not an object of this instance"), this)
    end.

(** [addGame(game)] *)
Definition addGame (addr : nat) : M t nat :=
  fun this =>
    match nth_error (heap this) addr with
    | Some game =>
        (player_addGame (g_whitePlayer game) addr ;;;
         player_addGame (g_blackPlayer game) addr ;;;
         modify (fun this => set_games (games this ++ [addr]) this) ;;;
         ret addr) this
    | None => (Throw (Error "TypeError: not an object of this instance"), this)
    end.

(** [createGame(black, white, winner, timeStep, handicap)] *)
Definition createGame (black white : string) (winner : Game.Winner) (timeStep : R)
           (handicap : R + (option R -> option R -> R)) : M t nat :=
  game <- setupGame black white winner timeStep handicap ;;
  addGame game.

(** [setupGameFromResult(gameResult)] and [setupGames(gameResults)] *)
Definition setupGameFromResult (gameResult : GameResult.t) : M t nat :=
  let handicap :=
    match GameResult.handicap gameResult with Some h => h | None => 0 end in
  createGame (GameResult.black gameResult) (GameResult.white gameResult)
             (GameResult.winner gameResult) (GameResult.timeStep gameResult)
             (inl handicap).

Definition setupGames (gameResults : list GameResult.t) : M t (list nat) :=
  mapM setupGameFromResult gameResults.

(** [get playerCount()] and [get gameCount()] *)
Definition playerCount (this : t) : nat := List.length (players this).
Definition gameCount (this : t) : nat := List.length (games this).

(** *** The objects as the methods of player.ts see them

    A method of a player reads the other players' days through the games of
    its own days, and only their rating.  [viewPlayer] is the player with
    every such reference replaced by the rating it leads to now; what the
    method leaves in the player's own days is written back by [absorb]. *)
Definition deref (this : t) (ref : DayRef) : option R :=
  match get_player (fst ref) this with
  | Some player => option_map d_r (nth_error (p_days player) (snd ref))
  | None => None
  end.

Definition viewGame (this : t) (game : GameObj) : Game.t :=
  Game.mk (g_day game) (g_whitePlayer game) (g_blackPlayer game)
          (g_handicap game) (g_winner game)
          (match g_wpd game with Some ref => deref this ref | None => None end)
          (match g_bpd game with Some ref => deref this ref | None => None end)
          (g_handicapProc game).

Definition viewGames (this : t) (addrs : list nat) : list Game.t :=
  flat_map (fun addr =>
              match nth_error (heap this) addr with
              | Some game => [viewGame this game]
              | None => []
              end) addrs.

Definition viewDay (this : t) (name : string) (pd : DayObj) : PlayerDay.t :=
  PlayerDay.mk (d_day pd) name (d_r pd) (d_isFirstDay pd) (d_uncertainty pd)
               (viewGames this (d_wonGames pd)) (viewGames this (d_lostGames pd))
               (d_wonGameTerms pd) (d_lostGameTerms pd).

Definition viewPlayer (this : t) (name : string) (player : PlayerObj) : Player.t :=
  Player.mk name (map (viewDay this name) (p_days player)) (p_w2 player).

Definition absorbDay (pd : DayObj) (seen : PlayerDay.t) : DayObj :=
  mkDay (d_day pd) (PlayerDay.r seen) (d_isFirstDay pd) (PlayerDay.uncertainty seen)
        (d_wonGames pd) (d_lostGames pd)
        (PlayerDay._wonGameTerms seen) (PlayerDay._lostGameTerms seen).

Fixpoint absorbDays (days : list DayObj) (seen : list PlayerDay.t) : list DayObj :=
  match days, seen with
  | pd :: days, s :: seen => absorbDay pd s :: absorbDays days seen
  | days, _ => days
  end.

Definition absorb (player : PlayerObj) (seen : Player.t) : PlayerObj :=
  mkPlayer (absorbDays (p_days player) (Player.days seen)) (p_w2 player).

(** [player.m()] for a method [m] of player.ts that adds no day and no game. *)
Definition onPlayer {A} (name : string) (m : M Player.t A) : M t A :=
  fun this =>
    match get_player name this with
    | Some player =>
        let (c, seen) := m (viewPlayer this name player) in
        (c, set_player name (absorb player seen) this)
    | None => (Throw (Error "TypeError: not an object of this instance"), this)
    end.

(** [for (const [name, player] of this.players) player.m()] *)
Definition forEachPlayer (m : M Player.t unit) : M t unit :=
  names <- gets (fun this => map fst (players this)) ;;
  mapM (fun name => onPlayer name m) names ;;;
  ret tt.

Section WithHost.
Context `{HostMath}.

(** [runOneIteration()] *)
Definition runOneIteration : M t unit :=
  forEachPlayer Player.runOneNewtonIteration.

(** [iterate(count)] *)
Definition iterate (count : nat) : M t unit :=
  repeatM count runOneIteration ;;;
  forEachPlayer Player.updateUncertainty.

End WithHost.

(** [ratingsForPlayer(name)] *)
Definition ratingsForPlayer (name : string) : M t (string * list (R * R * R)) :=
  player <- playerByName name ;;
  this <- get ;;
  match get_player player this with
  | Some p => ret (name, Player.getRatingHistory (viewPlayer this player p))
  | None => throw (Error "TypeError: not an object of this instance")
  end.

(** [getCurrentRatings()] *)
Definition getCurrentRatings (this : t) : list PlayerRating.t :=
  let ratings :=
    flat_map
      (fun entry =>
         let days := p_days (snd entry) in
         if (0 <? List.length days)%nat then
           let lastDay :=
             nth (List.length days - 1) days (mkDay 0 0 false 0 [] [] None None) in
           [PlayerRating.mk (fst entry) (d_day lastDay) (Rating.elo (d_r lastDay))
                            (d_uncertainty lastDay)]
         else [])
      (players this) in
  Array_sort (fun a b => PlayerRating.elo b - PlayerRating.elo a) ratings.

(** [getPlayerRatingAtTime(playerName, timePoint)] *)
Definition getPlayerRatingAtTime (this : t) (playerName : string) (timePoint : R)
  : Estimate.t :=
  match get_player playerName this with
  | None => Estimate.mk 0 (sqrt 5)
  | Some player => Player.getRatingAtTime (viewPlayer this playerName player) timePoint
  end.

(** [getAllRatingsAtTime(timePoint)] *)
Definition getAllRatingsAtTime (this : t) (timePoint : R)
  : list (string * Estimate.t) :=
  let ratings :=
    map (fun entry =>
           (fst entry,
            Player.getRatingAtTime (viewPlayer this (fst entry) (snd entry)) timePoint))
        (players this) in
  Array_sort (fun a b => Estimate.elo (snd b) - Estimate.elo (snd a)) ratings.

End Whr.

(** ** player.ts in binary64

    The covariance pass of player.ts once more, on the numbers of the host
    instead of the real numbers: [+], [-], [*], [/], [Math.abs] and
    [Math.sqrt] are the operations of IEEE 754 double precision, rounding to
    nearest.  A day is read for its day number and for the value of its
    getter [logLikelihoodSecondDerivative], which is taken as given. *)
Module Binary64.
Import PrimFloat.
#[local] Set Warnings "-inexact-float".
Local Open Scope float_scope.

Record Day : Type := mkDay { day : float; logLikelihoodSecondDerivative : float }.

(** [xs[i]] and [m[i][j]]; an absent element is [undefined], which is [NaN]
    in arithmetic. *)
Definition at_ (xs : list float) (i : nat) : float := nth i xs nan.
Definition at2 (m : list (list float)) (i j : nat) : float := nth j (nth i m []) nan.
Definition day_ (days : list Day) (i : nat) : Day := nth i days (mkDay nan nan).

(** [Array(n)] and [xs[i] = v] *)
Definition Array (n : nat) : list float := repeat nan n.
Fixpoint array_set (xs : list float) (i : nat) (v : float) : list float :=
  match i, xs with
  | O, [] => [v]
  | O, _ :: rest => v :: rest
  | S j, [] => nan :: array_set [] j v
  | S j, x :: rest => x :: array_set rest j v
  end.



(** [computeSigma2()] *)
Definition computeSigma2 (days : list Day) (w2 : float) : list float :=
  for_up 0 (List.length days - 1)
    (fun i sigma2 =>
       let d1 := day_ days i in
       let d2 := day_ days (i + 1) in
       sigma2 ++ [abs (day d2 - day d1) * w2])
    [].

(** [hessian(days, sigma2)] *)
Definition hessianEntry (days : list Day) (n : nat) (sigma2 : list float)
           (row col : nat) : float :=
  if (row =? col)%nat then
    let prior := 0 in
    let prior := if (row <? n - 1)%nat then prior + (-1) / at_ sigma2 row else prior in
    let prior := if (0 <? row)%nat then prior + (-1) / at_ sigma2 (row - 1) else prior in
    logLikelihoodSecondDerivative (day_ days row) + prior - 0.001
  else if (S row =? col)%nat then 1 / at_ sigma2 row
  else if (row =? S col)%nat then 1 / at_ sigma2 col
  else 0.

Definition hessian (days : list Day) (sigma2 : list float) : list (list float) :=
  let n := List.length days in
  map (fun row => map (fun col => hessianEntry days n sigma2 row col) (seq 0 n))
      (seq 0 n).

(** [luDecompositionTridiagonal(h, n)], called with [n >= 1]: [a], [d], [b]. *)
Definition luDecompositionTridiagonal (h : list (list float)) (n : nat)
  : list float * list float * list float :=
  let a := Array n in
  let d := [at2 h 0 0] in
  let b := Array n in
  let b := if (0 <? n)%nat then array_set b 0 (at2 h 0 1) else b in
  for_up 1 n
    (fun i '(a, d, b) =>
       let a := array_set a i (at2 h i (i - 1) / at_ d (i - 1)) in
       let d := array_set d i (at2 h i i - at_ a i * at_ b (i - 1)) in
       let b := if (i <? n - 1)%nat then array_set b i (at2 h i (i + 1)) else b in
       (a, d, b))
    (a, d, b).

(** [covariance()], called with at least one day: the diagonal [v]. *)
Definition covariance (days : list Day) (w2 : float) : list (list float) :=
  let sigma2 := computeSigma2 days w2 in
  let h := hessian days sigma2 in
  let n := List.length days in
  let '(a, d, b) := luDecompositionTridiagonal h n in
  let dp := Array n in
  let bp := Array n in
  let ap := Array n in
  let dp := array_set dp (n - 1) (at2 h (n - 1) (n - 1)) in
  let bp := if (1 <? n)%nat then array_set bp (n - 1) (at2 h (n - 1) (n - 2)) else bp in
  let '(ap, dp, bp) :=
    for_down (n - 1)
      (fun i '(ap, dp, bp) =>
         let ap := array_set ap i (at2 h i (i + 1) / at_ dp (i + 1)) in
         let dp := array_set dp i (at2 h i i - at_ ap i * at_ bp (i + 1)) in
         let bp := if (0 <? i)%nat then array_set bp i (at2 h i (i - 1)) else bp in
         (ap, dp, bp))
      (ap, dp, bp) in
  let v := Array n in
  let v :=
    for_up 0 (n - 1)
      (fun i v =>
         array_set v i
           (at_ dp (i + 1) / (at_ b i * at_ bp (i + 1) - at_ d i * at_ dp (i + 1))))
      v in
  let v := array_set v (n - 1) ((-1) / at_ d (n - 1)) in
  map (fun row =>
         map (fun col =>
                if (row =? col)%nat then at_ v row
                else if (S row =? col)%nat then - at_ a col * at_ v col
                else 0)
             (seq 0 n))
      (seq 0 n).

(** [updateUncertainty()]: the uncertainties it leaves in the days (nothing
    is written for a player without days). *)
Definition updateUncertainty (days : list Day) (w2 : float) : list float :=
  if (0 <? List.length days)%nat then
    let c := covariance days w2 in
    map (fun i => sqrt (abs (at2 c i i))) (seq 0 (List.length days))
  else [].

End Binary64.

(** * Verification *)

(** ** Two hosts *)

(** Exact arithmetic: [Math.pow(10, x)] is the real power. *)
Lemma exact_pow10_nonneg :
  forall x v, Finite (Rpower 10 x) = Finite v -> 0 <= v.
Proof.
  intros x v E. injection E as <-. unfold Rpower. left. apply exp_pos.
Qed.

Definition ExactMath : HostMath :=
  {| Math_pow10 := fun x => Finite (Rpower 10 x);
     Math_pow10_finite_nonneg := exact_pow10_nonneg |}.

(** A host whose powers overflow and underflow: past [10^309] the power is
    [Infinity], below [10^-324] it is [0]; in between it is kept exact.
    (Binary64 itself overflows from about [10^308.25] and underflows to [0]
    from about [10^-323.6]: this host does so a little later.) *)
Definition pow10_limited (x : R) : number :=
  if Rlt_dec 309 x then Infinity false
  else if Rlt_dec x (-324) then Finite 0
  else Finite (Rpower 10 x).

Lemma pow10_limited_nonneg :
  forall x v, pow10_limited x = Finite v -> 0 <= v.
Proof.
  intros x v. unfold pow10_limited.
  destruct (Rlt_dec 309 x); [discriminate|].
  destruct (Rlt_dec x (-324)); intros E; injection E as <-.
  - lra.
  - unfold Rpower. left. apply exp_pos.
Qed.

Definition RangeLimitedMath : HostMath :=
  {| Math_pow10 := pow10_limited;
     Math_pow10_finite_nonneg := pow10_limited_nonneg |}.

(** ** game.ts *)

Lemma ln10_pos : 0 < ln 10.
Proof. rewrite <- ln_1. apply ln_increasing; lra. Qed.

Lemma checkedGamma_Return `{HostMath} (rval : number) (v : R) :
  Game.checkedGamma rval = Return v <-> rval = Finite v /\ v <> 0.
Proof.
  unfold Game.checkedGamma. destruct rval as [x| |]; simpl.
  - destruct (Req_dec_T x 0) as [E|E]; simpl.
    + split; [discriminate|]. intros [E1 E2]. injection E1 as ->. contradiction.
    + split.
      * intros E1. injection E1 as ->. auto.
      * intros [E1 _]. injection E1 as ->. reflexivity.
  - split; [discriminate|]. intros [E _]. discriminate.
  - split; [discriminate|]. intros [E _]. discriminate.
Qed.

Lemma checkedGamma_Throw `{HostMath} (rval : number) :
  (isZero rval || negb (isFinite rval) || isNaN rval) = true ->
  exists message,
    Game.checkedGamma rval = Throw (UnstableRatingException message).
Proof.
  intros E. unfold Game.checkedGamma. rewrite E. eauto.
Qed.

Lemma checkedGamma_cases `{HostMath} (rval : number) :
  (exists message, Game.checkedGamma rval = Throw (UnstableRatingException message))
  \/ (exists v, Game.checkedGamma rval = Return v).
Proof.
  unfold Game.checkedGamma.
  destruct (isZero rval || negb (isFinite rval) || isNaN rval); [eauto|].
  destruct rval; eauto.
Qed.

Lemma opponentsAdjustedGamma_pos `{HostMath} (g : Game.t) (p : string) (v : R) :
  Game.opponentsAdjustedGamma g p = Return v -> 0 < v.
Proof.
  unfold Game.opponentsAdjustedGamma.
  destruct (Game.opponentElo g p) as [oppElo|e]; [|discriminate].
  intros E. apply checkedGamma_Return in E. destruct E as [E Hv].
  apply Math_pow10_finite_nonneg in E. lra.
Qed.

(** C6.  For a game [g] and a player [p] of it, [opponentsAdjustedGamma]
    - throws an [Error] when the opposing side's player-day is not attached;
    - otherwise evaluates [rval = Math.pow(10, (opponent's Elo + handicap) / 400)]
      for the white player and [Math.pow(10, (opponent's Elo - handicap) / 400)]
      for the black player, where the handicap is the game's [handicap], or
      what [handicapProc] answers when the game has one, and the opponent's
      Elo is [r * 400 / ln 10] of the opponent's day; it throws
      [UnstableRatingException] when [rval] is zero, infinite or NaN, and
      returns [rval] otherwise;
    - so every value it returns is a finite result of the host and is
      strictly positive. *)
Theorem opponentsAdjustedGamma_spec `{HostMath} (g : Game.t) (p : string) :
  let handicap :=
    match Game.handicapProc g with
    | Some proc => proc (Game.wpd g) (Game.bpd g)
    | None => Game.handicap g
    end in
  (p = Game.whitePlayer g ->
   match Game.bpd g with
   | None => exists message, Game.opponentsAdjustedGamma g p = Throw (Error message)
   | Some rb =>
       let rval := Math_pow10 ((rb * 400 / ln 10 + handicap) / 400) in
       if isZero rval || negb (isFinite rval) || isNaN rval
       then exists message,
           Game.opponentsAdjustedGamma g p = Throw (UnstableRatingException message)
       else exists v, rval = Finite v /\ Game.opponentsAdjustedGamma g p = Return v
   end)
  /\ (p <> Game.whitePlayer g -> p = Game.blackPlayer g ->
      match Game.wpd g with
      | None => exists message, Game.opponentsAdjustedGamma g p = Throw (Error message)
      | Some rw =>
          let rval := Math_pow10 ((rw * 400 / ln 10 - handicap) / 400) in
          if isZero rval || negb (isFinite rval) || isNaN rval
          then exists message,
              Game.opponentsAdjustedGamma g p = Throw (UnstableRatingException message)
          else exists v, rval = Finite v /\ Game.opponentsAdjustedGamma g p = Return v
      end)
  /\ (forall v, Game.opponentsAdjustedGamma g p = Return v ->
      0 < v /\ exists x, Math_pow10 x = Finite v).
Proof.
  assert (guard : forall rval,
             if isZero rval || negb (isFinite rval) || isNaN rval
             then exists message,
                 Game.checkedGamma rval = Throw (UnstableRatingException message)
             else exists v, rval = Finite v /\ Game.checkedGamma rval = Return v).
  { intros rval.
    destruct (isZero rval || negb (isFinite rval) || isNaN rval) eqn:E.
    - apply checkedGamma_Throw, E.
    - unfold Game.checkedGamma. rewrite E. destruct rval; simpl in E; try discriminate.
      eauto. }
  intros handicap. split; [|split].
  - intros ->. unfold Game.opponentsAdjustedGamma, Game.opponentElo.
    rewrite String.eqb_refl. destruct (Game.bpd g) as [rb|] eqn:Eb; [|eauto].
    unfold Game.blackAdvantage, Rating.elo. rewrite Eb. fold handicap.
    apply guard.
  - intros Hw ->. unfold Game.opponentsAdjustedGamma, Game.opponentElo.
    apply String.eqb_neq in Hw. rewrite Hw, String.eqb_refl.
    destruct (Game.wpd g) as [rw|] eqn:Ew; [|eauto].
    unfold Game.blackAdvantage, Rating.elo. rewrite Ew. fold handicap.
    apply guard.
  - intros v E. split; [eapply opponentsAdjustedGamma_pos, E|].
    unfold Game.opponentsAdjustedGamma in E.
    destruct (Game.opponentElo g p) as [oppElo|e]; [|discriminate].
    apply checkedGamma_Return in E. destruct E as [E _]. eauto.
Qed.

(** Under exact arithmetic the value is the real power of ten. *)
Lemma opponentsAdjustedGamma_exact_white (g : Game.t) (rb : R) :
  Game.bpd g = Some rb ->
  @Game.opponentsAdjustedGamma ExactMath g (Game.whitePlayer g)
  = Return (Rpower 10 ((Rating.elo rb + Game.blackAdvantage g) / 400)).
Proof.
  intros Eb. unfold Game.opponentsAdjustedGamma, Game.opponentElo.
  rewrite String.eqb_refl, Eb. simpl.
  apply (@checkedGamma_Return ExactMath). split; [reflexivity|].
  unfold Rpower. pose proof (exp_pos ((Rating.elo rb + Game.blackAdvantage g) / 400 * ln 10)).
  lra.
Qed.

Lemma opponentsAdjustedGamma_exact_black (g : Game.t) (rw : R) :
  Game.whitePlayer g <> Game.blackPlayer g ->
  Game.wpd g = Some rw ->
  @Game.opponentsAdjustedGamma ExactMath g (Game.blackPlayer g)
  = Return (Rpower 10 ((Rating.elo rw - Game.blackAdvantage g) / 400)).
Proof.
  intros Hne Ew. unfold Game.opponentsAdjustedGamma, Game.opponentElo.
  assert (E : String.eqb (Game.blackPlayer g) (Game.whitePlayer g) = false).
  { apply String.eqb_neq. congruence. }
  rewrite E, String.eqb_refl, Ew. simpl.
  apply (@checkedGamma_Return ExactMath). split; [reflexivity|].
  unfold Rpower. pose proof (exp_pos ((Rating.elo rw - Game.blackAdvantage g) / 400 * ln 10)).
  lra.
Qed.

(** [10^((elo(r) + k) / 400) = e^r * e^(k * ln 10 / 400)] *)
Lemma pow10_elo (r k : R) :
  Rpower 10 ((Rating.elo r + k) / 400) = exp r * exp (k * ln 10 / 400).
Proof.
  unfold Rpower, Rating.elo. rewrite <- exp_plus. f_equal.
  pose proof ln10_pos. field. lra.
Qed.

(** C5.  For a game with both player-days attached (the two players being
    distinct), under exact real arithmetic and for every handicap, both
    probabilities are defined and [whiteWinProbability = 1 - blackWinProbability]. *)
Theorem win_probabilities_complementary (g : Game.t) (rw rb : R) :
  Game.whitePlayer g <> Game.blackPlayer g ->
  Game.wpd g = Some rw ->
  Game.bpd g = Some rb ->
  exists pw pb,
    @Game.whiteWinProbability ExactMath g = Return pw
    /\ @Game.blackWinProbability ExactMath g = Return pb
    /\ pw + pb = 1
    /\ pw = 1 - pb.
Proof.
  intros Hne Ew Eb.
  unfold Game.whiteWinProbability, Game.blackWinProbability.
  rewrite Ew, Eb.
  rewrite (opponentsAdjustedGamma_exact_white g rb Eb).
  rewrite (opponentsAdjustedGamma_exact_black g rw Hne Ew).
  do 2 eexists. split; [reflexivity|]. split; [reflexivity|].
  replace (Rating.elo rw - Game.blackAdvantage g)
    with (Rating.elo rw + - Game.blackAdvantage g) by lra.
  rewrite !pow10_elo. unfold Rating.gamma.
  set (k := Game.blackAdvantage g * ln 10 / 400).
  replace (- Game.blackAdvantage g * ln 10 / 400) with (- k) by (unfold k; lra).
  rewrite exp_Ropp.
  pose proof (exp_pos rw) as Hw. pose proof (exp_pos rb) as Hb.
  pose proof (exp_pos k) as Hk.
  assert (Hd1 : exp rw + exp rb * exp k <> 0).
  { pose proof (Rmult_lt_0_compat _ _ Hb Hk). lra. }
  assert (Hd2 : exp rb * exp k + exp rw <> 0) by lra.
  assert (pw_pb : exp rw / (exp rw + exp rb * exp k)
                  + exp rb / (exp rb + exp rw * / exp k) = 1).
  { field. repeat split; lra. }
  split; lra.
Qed.

Definition sample_game : Game.t :=
  Game.mk 1 "white" "black" 4 Game.W (Some 0) (Some 0) None.

Lemma win_probabilities_complementary_witness :
  exists pw pb,
    @Game.whiteWinProbability ExactMath sample_game = Return pw
    /\ @Game.blackWinProbability ExactMath sample_game = Return pb
    /\ pw + pb = 1
    /\ pw = 1 - pb.
Proof.
  apply (win_probabilities_complementary sample_game 0 0).
  - simpl. discriminate.
  - reflexivity.
  - reflexivity.
Defined.

(** ** player-day.ts *)

Ltac monad_unfold :=
  unfold bind, ret, throw, get, gets, modify, lift in *.

(** Both term getters in a row, as every derivative getter starts. *)
Definition loadTerms `{HostMath} : M PlayerDay.t (list GameTerm.t * list GameTerm.t) :=
  won <- PlayerDay.wonGameTerms ;;
  lost <- PlayerDay.lostGameTerms ;;
  ret (won, lost).

(** The day with both memo fields filled. *)
Definition loaded (won lost : list GameTerm.t) (pd : PlayerDay.t) : PlayerDay.t :=
  PlayerDay.set__lostGameTerms (Some lost) (PlayerDay.set__wonGameTerms (Some won) pd).

(** The values of the two derivative getters, from the terms. *)
Definition d1_of (gamma : R) (won lost : list GameTerm.t) : R :=
  INR (List.length won) - gamma * PlayerDay.tallyDerivative gamma (won ++ lost).

Definition d2_of (gamma : R) (won lost : list GameTerm.t) : R :=
  - gamma * PlayerDay.sumSecondDerivative gamma (won ++ lost).

(** The fields of a day that no method of the optimiser writes. *)
Definition same_frame (pd pd' : PlayerDay.t) : Prop :=
  PlayerDay.day pd' = PlayerDay.day pd
  /\ PlayerDay.player pd' = PlayerDay.player pd
  /\ PlayerDay.isFirstDay pd' = PlayerDay.isFirstDay pd
  /\ PlayerDay.wonGames pd' = PlayerDay.wonGames pd
  /\ PlayerDay.lostGames pd' = PlayerDay.lostGames pd.

(** A day differs from another at most in its memo fields. *)
Definition same_day (pd pd' : PlayerDay.t) : Prop :=
  same_frame pd pd'
  /\ PlayerDay.r pd' = PlayerDay.r pd
  /\ PlayerDay.uncertainty pd' = PlayerDay.uncertainty pd.

Lemma same_frame_refl pd : same_frame pd pd.
Proof. repeat split. Qed.

Lemma same_frame_trans pd1 pd2 pd3 :
  same_frame pd1 pd2 -> same_frame pd2 pd3 -> same_frame pd1 pd3.
Proof.
  unfold same_frame. intros (a1&a2&a3&a4&a5) (b1&b2&b3&b4&b5).
  repeat split; congruence.
Qed.

Lemma same_day_refl pd : same_day pd pd.
Proof. repeat split. Qed.

Lemma same_day_trans pd1 pd2 pd3 :
  same_day pd1 pd2 -> same_day pd2 pd3 -> same_day pd1 pd3.
Proof.
  unfold same_day. intros (a1&a2&a3) (b1&b2&b3).
  split; [eapply same_frame_trans; eauto|]. split; congruence.
Qed.

Lemma same_day_loaded won lost pd : same_day pd (loaded won lost pd).
Proof. repeat split. Qed.

Lemma same_day_clear pd : same_day pd (PlayerDay.clearGameTermsCache pd).
Proof. repeat split. Qed.

Section PlayerDayFacts.
Context `{HostMath}.

Lemma wonGameTerms_run (pd : PlayerDay.t) :
  match PlayerDay.wonGameTerms pd with
  | (Return won, pd') =>
      pd' = PlayerDay.set__wonGameTerms (Some won) pd
  | (Throw e, pd') => pd' = pd /\ PlayerDay._wonGameTerms pd = None
  end.
Proof.
  unfold PlayerDay.wonGameTerms. monad_unfold.
  destruct pd as [dy pl r0 fd un wg lg [wt|] lt]; simpl; [reflexivity|].
  destruct (mapC (PlayerDay.wonTerm pl) wg); simpl; auto.
Qed.

Lemma lostGameTerms_run (pd : PlayerDay.t) :
  match PlayerDay.lostGameTerms pd with
  | (Return lost, pd') =>
      pd' = PlayerDay.set__lostGameTerms (Some lost) pd
  | (Throw e, pd') => pd' = pd /\ PlayerDay._lostGameTerms pd = None
  end.
Proof.
  unfold PlayerDay.lostGameTerms. monad_unfold.
  destruct pd as [dy pl r0 fd un wg lg wt [lt|]]; simpl; [reflexivity|].
  destruct (mapC (PlayerDay.lostTerm pl) lg); simpl; auto.
Qed.

Lemma wonGameTerms_cached (pd : PlayerDay.t) (won : list GameTerm.t) :
  PlayerDay._wonGameTerms pd = Some won ->
  PlayerDay.wonGameTerms pd = (Return won, pd).
Proof.
  intros E. unfold PlayerDay.wonGameTerms. monad_unfold. rewrite E. reflexivity.
Qed.

Lemma lostGameTerms_cached (pd : PlayerDay.t) (lost : list GameTerm.t) :
  PlayerDay._lostGameTerms pd = Some lost ->
  PlayerDay.lostGameTerms pd = (Return lost, pd).
Proof.
  intros E. unfold PlayerDay.lostGameTerms. monad_unfold. rewrite E. reflexivity.
Qed.

(** What a run of both getters leaves behind. *)
Lemma loadTerms_Return (pd pd' : PlayerDay.t) (won lost : list GameTerm.t) :
  loadTerms pd = (Return (won, lost), pd') ->
  pd' = loaded won lost pd.
Proof.
  unfold loadTerms. unfold bind at 1.
  pose proof (wonGameTerms_run pd) as Hw.
  destruct (PlayerDay.wonGameTerms pd) as [[w|e] pd1]; [|discriminate].
  unfold bind at 1.
  pose proof (lostGameTerms_run pd1) as Hl.
  destruct (PlayerDay.lostGameTerms pd1) as [[l|e] pd2]; [|discriminate].
  unfold ret. intros E. injection E as <- <- <-. subst. reflexivity.
Qed.

Lemma loadTerms_Throw (pd pd' : PlayerDay.t) (e : exn) :
  loadTerms pd = (Throw e, pd') -> same_day pd pd'.
Proof.
  unfold loadTerms. unfold bind at 1.
  pose proof (wonGameTerms_run pd) as Hw.
  destruct (PlayerDay.wonGameTerms pd) as [[w|e1] pd1].
  - unfold bind at 1.
    pose proof (lostGameTerms_run pd1) as Hl.
    destruct (PlayerDay.lostGameTerms pd1) as [[l|e2] pd2]; [discriminate|].
    intros E. injection E as <- <-. destruct Hl as [-> _]. subst pd1.
    repeat split.
  - intros E. injection E as <- <-. destruct Hw as [-> _]. apply same_day_refl.
Qed.

(** Once loaded, the getters answer from the memo fields. *)
Lemma loadTerms_loaded (pd : PlayerDay.t) (won lost : list GameTerm.t) :
  loadTerms (loaded won lost pd) = (Return (won, lost), loaded won lost pd).
Proof.
  unfold loadTerms. unfold bind at 1.
  rewrite (wonGameTerms_cached _ won) by reflexivity.
  unfold bind at 1.
  rewrite (lostGameTerms_cached _ lost) by reflexivity.
  reflexivity.
Qed.

(** The derivative getters, in terms of [loadTerms]. *)
Lemma logLikelihoodDerivative_run (pd : PlayerDay.t) :
  PlayerDay.logLikelihoodDerivative pd =
  match loadTerms pd with
  | (Return (won, lost), pd') =>
      (Return (d1_of (PlayerDay.gamma pd) won lost), pd')
  | (Throw e, pd') => (Throw e, pd')
  end.
Proof.
  unfold PlayerDay.logLikelihoodDerivative, loadTerms, bind.
  pose proof (wonGameTerms_run pd) as Hw.
  destruct (PlayerDay.wonGameTerms pd) as [[w|e1] pd1]; [|reflexivity].
  pose proof (lostGameTerms_run pd1) as Hl.
  destruct (PlayerDay.lostGameTerms pd1) as [[l|e2] pd2]; [|reflexivity].
  subst. unfold get, ret.
  rewrite (wonGameTerms_cached _ w) by reflexivity.
  reflexivity.
Qed.

Lemma logLikelihoodSecondDerivative_run (pd : PlayerDay.t) :
  PlayerDay.logLikelihoodSecondDerivative pd =
  match loadTerms pd with
  | (Return (won, lost), pd') =>
      (Return (d2_of (PlayerDay.gamma pd) won lost), pd')
  | (Throw e, pd') => (Throw e, pd')
  end.
Proof.
  unfold PlayerDay.logLikelihoodSecondDerivative, loadTerms, bind.
  pose proof (wonGameTerms_run pd) as Hw.
  destruct (PlayerDay.wonGameTerms pd) as [[w|e1] pd1]; [|reflexivity].
  pose proof (lostGameTerms_run pd1) as Hl.
  destruct (PlayerDay.lostGameTerms pd1) as [[l|e2] pd2]; [|reflexivity].
  subst. reflexivity.
Qed.

End PlayerDayFacts.

(** ** Lists, arrays and loops *)

Lemma list_update_length {A} (xs : list A) i v :
  List.length (list_update xs i v) = List.length xs.
Proof.
  revert i. induction xs as [|x xs IH]; intros [|i]; simpl; auto.
Qed.

Lemma list_update_same {A} (xs : list A) i v :
  nth_error xs i = Some v -> list_update xs i v = xs.
Proof.
  revert i. induction xs as [|x xs IH]; intros [|i]; simpl; try discriminate.
  - intros E. injection E as ->. reflexivity.
  - intros E. f_equal. auto.
Qed.

Lemma list_update_app {A} (done : list A) x todo v :
  list_update (done ++ x :: todo) (List.length done) v = done ++ v :: todo.
Proof.
  induction done as [|y done IH]; simpl; [reflexivity|]. f_equal. exact IH.
Qed.

Lemma nth_error_middle {A} (done : list A) x todo :
  nth_error (done ++ x :: todo) (List.length done) = Some x.
Proof.
  induction done as [|y done IH]; simpl; auto.
Qed.

Lemma mapM_pure {S A B} (f : A -> M S B) (g : A -> B) (xs : list A) (s : S) :
  (forall x, In x xs -> f x s = (Return (g x), s)) ->
  mapM f xs s = (Return (map g xs), s).
Proof.
  induction xs as [|x xs IH]; intros Hf; simpl; [reflexivity|].
  unfold bind. rewrite (Hf x) by (left; reflexivity).
  rewrite IH by (intros y Hy; apply Hf; right; exact Hy).
  reflexivity.
Qed.

(** ** The single-day step *)

Section SingleDay.
Context `{HostMath}.

Lemma derivative_values (pd : PlayerDay.t) (dlogp d2logp : R) :
  fst (PlayerDay.logLikelihoodDerivative pd) = Return dlogp ->
  fst (PlayerDay.logLikelihoodSecondDerivative pd) = Return d2logp ->
  exists won lost,
    loadTerms pd = (Return (won, lost), loaded won lost pd)
    /\ dlogp = d1_of (PlayerDay.gamma pd) won lost
    /\ d2logp = d2_of (PlayerDay.gamma pd) won lost.
Proof.
  rewrite logLikelihoodDerivative_run, logLikelihoodSecondDerivative_run.
  destruct (loadTerms pd) as [[[won lost]|e] pd'] eqn:E; simpl; [|discriminate].
  intros E1 E2. injection E1 as <-. injection E2 as <-.
  exists won, lost. rewrite (loadTerms_Return _ _ _ _ E). auto.
Qed.

Lemma updateBy1DNewtonsMethod_run (pd : PlayerDay.t) (won lost : list GameTerm.t) :
  loadTerms pd = (Return (won, lost), loaded won lost pd) ->
  PlayerDay.updateBy1DNewtonsMethod pd =
  (Return tt,
   if Rlt_dec (Rabs (d2_of (PlayerDay.gamma pd) won lost)) 1e-10
   then loaded won lost pd
   else PlayerDay.set_r
          (PlayerDay.r pd - d1_of (PlayerDay.gamma pd) won lost
                            / d2_of (PlayerDay.gamma pd) won lost)
          (loaded won lost pd)).
Proof.
  intros E. unfold PlayerDay.updateBy1DNewtonsMethod. unfold bind at 1.
  rewrite logLikelihoodDerivative_run, E.
  unfold bind at 1.
  rewrite logLikelihoodSecondDerivative_run, loadTerms_loaded.
  change (PlayerDay.gamma (loaded won lost pd)) with (PlayerDay.gamma pd).
  unfold Rltb.
  destruct (Rlt_dec (Rabs (d2_of (PlayerDay.gamma pd) won lost)) 1e-10);
    reflexivity.
Qed.

(** C9.  A trajectory with exactly one day: one call to
    [runOneNewtonIteration] returns normally and replaces the rating [r]
    by [r - dlogp / d2logp], the two derivatives of the day's
    log-likelihood, except that the rating stays as it is when
    [|d2logp| < 1e-10].  Nothing else of the day changes. *)
Theorem single_day_newton_step (p : Player.t) (pd : PlayerDay.t) (dlogp d2logp : R) :
  Player.days p = [pd] ->
  fst (PlayerDay.logLikelihoodDerivative (PlayerDay.clearGameTermsCache pd))
  = Return dlogp ->
  fst (PlayerDay.logLikelihoodSecondDerivative (PlayerDay.clearGameTermsCache pd))
  = Return d2logp ->
  exists pd',
    Player.runOneNewtonIteration p = (Return tt, Player.set_days [pd'] p)
    /\ same_frame pd pd'
    /\ PlayerDay.uncertainty pd' = PlayerDay.uncertainty pd
    /\ PlayerDay.r pd' =
       if Rlt_dec (Rabs d2logp) 1e-10
       then PlayerDay.r pd
       else PlayerDay.r pd - dlogp / d2logp.
Proof.
  intros Hdays E1 E2.
  destruct (derivative_values _ _ _ E1 E2) as (won & lost & Hload & -> & ->).
  pose proof (updateBy1DNewtonsMethod_run _ _ _ Hload) as Hrun.
  unfold Player.runOneNewtonIteration, bind, modify, gets.
  rewrite Hdays. simpl. unfold Player.onDay. simpl. rewrite Hrun.
  change (PlayerDay.gamma (PlayerDay.clearGameTermsCache pd))
    with (PlayerDay.gamma pd) in *.
  destruct (Rlt_dec (Rabs (d2_of (PlayerDay.gamma pd) won lost)) 1e-10).
  - eexists. split; [reflexivity|]. repeat split.
  - eexists. split; [reflexivity|]. repeat split.
Qed.

End SingleDay.

(** ** Loops with effects *)

(** A loop whose body writes to the state at one index only. *)
Lemma mapM_single_effect {S B} (f : nat -> M S B) (g : nat -> B)
      (k : nat) (xs : list nat) (s s' : S) :
  NoDup xs -> In k xs ->
  (forall x t, x <> k -> f x t = (Return (g x), t)) ->
  f k s = (Return (g k), s') ->
  mapM f xs s = (Return (map g xs), s').
Proof.
  intros Hnd Hin Hpure Hk. revert s Hk.
  induction xs as [|x xs IH]; intros s Hk; [contradiction|].
  inversion Hnd as [|? ? Hnotin Hnd']; subst. simpl. unfold bind.
  destruct (Nat.eq_dec x k) as [->|Hne].
  - rewrite Hk.
    rewrite (mapM_pure f g xs s').
    + reflexivity.
    + intros y Hy. apply Hpure. intros ->. contradiction.
  - rewrite (Hpure x s Hne).
    destruct Hin as [->|Hin]; [contradiction|].
    rewrite (IH Hnd' Hin s Hk). reflexivity.
Qed.

Lemma mapM_single_throw {S B} (f : nat -> M S B) (g : nat -> B)
      (k : nat) (xs : list nat) (s s' : S) (e : exn) :
  In k xs ->
  (forall x t, x <> k -> f x t = (Return (g x), t)) ->
  f k s = (Throw e, s') ->
  mapM f xs s = (Throw e, s').
Proof.
  intros Hin Hpure Hk. revert s Hk.
  induction xs as [|x xs IH]; intros s Hk; [contradiction|].
  simpl. unfold bind.
  destruct (Nat.eq_dec x k) as [->|Hne].
  - rewrite Hk. reflexivity.
  - rewrite (Hpure x s Hne).
    destruct Hin as [->|Hin]; [contradiction|].
    rewrite (IH Hin s Hk). reflexivity.
Qed.

(** A relation between states that every body keeps is kept by the loop. *)
Lemma mapM_preserves {S A B} (Rel : S -> S -> Prop) (f : A -> M S B) (xs : list A) :
  (forall s, Rel s s) ->
  (forall s1 s2 s3, Rel s1 s2 -> Rel s2 s3 -> Rel s1 s3) ->
  (forall x s, Rel s (snd (f x s))) ->
  forall s, Rel s (snd (mapM f xs s)).
Proof.
  intros Hrefl Htrans Hf. induction xs as [|x xs IH]; intros s; simpl.
  - apply Hrefl.
  - unfold bind. specialize (Hf x s).
    destruct (f x s) as [[y|e] s1]; simpl in *; [|exact Hf].
    specialize (IH s1).
    destruct (mapM f xs s1) as [[ys|e] s2]; simpl in *;
      eapply Htrans; eauto.
Qed.

(** ** The trajectory as a state *)

(** Two states of a player that differ at most in memo fields. *)
Definition same_player (p p' : Player.t) : Prop :=
  Player.name p' = Player.name p
  /\ Player.w2 p' = Player.w2 p
  /\ Forall2 same_day (Player.days p) (Player.days p').

Lemma Forall2_same_day_refl days : Forall2 same_day days days.
Proof. induction days; constructor; auto using same_day_refl. Qed.

Lemma Forall2_same_day_trans d1 d2 d3 :
  Forall2 same_day d1 d2 -> Forall2 same_day d2 d3 -> Forall2 same_day d1 d3.
Proof.
  intros H12. revert d3. induction H12; intros d3 H23; inversion H23; subst;
    constructor; eauto using same_day_trans.
Qed.

Lemma same_player_refl p : same_player p p.
Proof. repeat split. apply Forall2_same_day_refl. Qed.

Lemma same_player_trans p1 p2 p3 :
  same_player p1 p2 -> same_player p2 p3 -> same_player p1 p3.
Proof.
  intros (a1&a2&a3) (b1&b2&b3). repeat split; try congruence.
  eapply Forall2_same_day_trans; eauto.
Qed.

Lemma Forall2_same_day_update days i pd pd' :
  nth_error days i = Some pd -> same_day pd pd' ->
  Forall2 same_day days (list_update days i pd').
Proof.
  revert i. induction days as [|x days IH]; intros [|i]; simpl; try discriminate.
  - intros E Hs. injection E as ->. constructor; auto using Forall2_same_day_refl.
  - intros E Hs. constructor; [apply same_day_refl|]. eapply IH; eauto.
Qed.

Lemma same_player_ratings p p' :
  same_player p p' ->
  map PlayerDay.r (Player.days p') = map PlayerDay.r (Player.days p)
  /\ map PlayerDay.day (Player.days p') = map PlayerDay.day (Player.days p)
  /\ map PlayerDay.uncertainty (Player.days p')
     = map PlayerDay.uncertainty (Player.days p)
  /\ List.length (Player.days p') = List.length (Player.days p).
Proof.
  intros (_ & _ & Hd). induction Hd as [|x y l l' Hxy Hl IH]; simpl; auto.
  destruct IH as (IH1 & IH2 & IH3 & IH4).
  destruct Hxy as ((Hday & _) & Hr & Hu).
  rewrite IH1, IH2, IH3, IH4, Hday, Hr, Hu. auto.
Qed.

Section TrajectoryState.
Context `{HostMath}.

Lemma loadTerms_same_day (pd : PlayerDay.t) :
  same_day pd (snd (loadTerms pd)).
Proof.
  destruct (loadTerms pd) as [[[won lost]|e] pd'] eqn:E; simpl.
  - rewrite (loadTerms_Return _ _ _ _ E). apply same_day_loaded.
  - eapply loadTerms_Throw, E.
Qed.

Lemma logLikelihoodDerivative_same_day (pd : PlayerDay.t) :
  same_day pd (snd (PlayerDay.logLikelihoodDerivative pd)).
Proof.
  rewrite logLikelihoodDerivative_run. pose proof (loadTerms_same_day pd) as Hs.
  destruct (loadTerms pd) as [[[won lost]|e] pd']; exact Hs.
Qed.

Lemma logLikelihoodSecondDerivative_same_day (pd : PlayerDay.t) :
  same_day pd (snd (PlayerDay.logLikelihoodSecondDerivative pd)).
Proof.
  rewrite logLikelihoodSecondDerivative_run. pose proof (loadTerms_same_day pd) as Hs.
  destruct (loadTerms pd) as [[[won lost]|e] pd']; exact Hs.
Qed.

Lemma onDay_same_player {A} (i : nat) (m : M PlayerDay.t A) (p : Player.t) :
  (forall pd, same_day pd (snd (m pd))) ->
  same_player p (snd (Player.onDay i m p)).
Proof.
  intros Hm. unfold Player.onDay.
  destruct (nth_error (Player.days p) i) as [pd|] eqn:E; simpl.
  - specialize (Hm pd). destruct (m pd) as [c pd']; simpl in *.
    repeat split. eapply Forall2_same_day_update; eauto.
  - apply same_player_refl.
Qed.

Lemma hessianEntry_same_player n sigma2 row col p :
  same_player p (snd (Player.hessianEntry n sigma2 row col p)).
Proof.
  unfold Player.hessianEntry.
  destruct (row =? col)%nat.
  - unfold bind.
    pose proof (onDay_same_player row PlayerDay.logLikelihoodSecondDerivative p
                  logLikelihoodSecondDerivative_same_day) as Hs.
    destruct (Player.onDay row PlayerDay.logLikelihoodSecondDerivative p)
      as [[v|e] p']; exact Hs.
  - destruct (S row =? col)%nat; [apply same_player_refl|].
    destruct (row =? S col)%nat; apply same_player_refl.
Qed.

Lemma hessian_same_player sigma2 p :
  same_player p (snd (Player.hessian sigma2 p)).
Proof.
  unfold Player.hessian, bind, gets.
  apply (mapM_preserves same_player);
    auto using same_player_refl.
  - apply same_player_trans.
  - intros row s. apply (mapM_preserves same_player);
      auto using same_player_refl, hessianEntry_same_player.
    apply same_player_trans.
Qed.

Lemma gradient_same_player r sigma2 p :
  same_player p (snd (Player.gradient r sigma2 p)).
Proof.
  unfold Player.gradient, bind, gets.
  apply (mapM_preserves same_player); auto using same_player_refl.
  - apply same_player_trans.
  - intros idx s. unfold Player.gradientEntry, bind.
    pose proof (onDay_same_player idx PlayerDay.logLikelihoodDerivative s
                  logLikelihoodDerivative_same_day) as Hs.
    destruct (Player.onDay idx PlayerDay.logLikelihoodDerivative s)
      as [[v|e] p']; exact Hs.
Qed.

End TrajectoryState.

(** ** Assembling the Newton system *)

(** The value written to cell [(row, col)] of the Hessian, given the days'
    second derivatives [D2]. *)
Definition hessianValue (n : nat) (sigma2 : list R) (D2 : nat -> R) (row col : nat) : R :=
  if (row =? col)%nat then
    let prior := 0 in
    let prior := if (row <? n - 1)%nat then prior + -1 / at_ sigma2 row else prior in
    let prior := if (0 <? row)%nat then prior + -1 / at_ sigma2 (row - 1) else prior in
    D2 row + prior - 0.001
  else if (S row =? col)%nat then 1 / at_ sigma2 row
  else if (row =? S col)%nat then 1 / at_ sigma2 col
  else 0.

Definition hessianMatrix (n : nat) (sigma2 : list R) (D2 : nat -> R) : list (list R) :=
  map (fun row => map (hessianValue n sigma2 D2 row) (seq 0 n)) (seq 0 n).

(** The value pushed to the gradient at [idx], given the days' first
    derivatives [D1]. *)
Definition gradientValue (n : nat) (r sigma2 : list R) (D1 : nat -> R) (idx : nat) : R :=
  let prior := 0 in
  let prior :=
    if (idx <? n - 1)%nat
    then prior + - (at_ r idx - at_ r (idx + 1)) / at_ sigma2 idx
    else prior in
  let prior :=
    if (0 <? idx)%nat
    then prior + - (at_ r idx - at_ r (idx - 1)) / at_ sigma2 (idx - 1)
    else prior in
  D1 idx + prior.

Definition gradientVector (n : nat) (r sigma2 : list R) (D1 : nat -> R) : list R :=
  map (gradientValue n r sigma2 D1) (seq 0 n).

(** A day whose two term getters return [wl]. *)
Definition loads `{HostMath} (pd : PlayerDay.t)
           (wl : list GameTerm.t * list GameTerm.t) : Prop :=
  loadTerms pd = (Return wl, loaded (fst wl) (snd wl) pd).

Definition loadedDays (days : list PlayerDay.t)
           (terms : list (list GameTerm.t * list GameTerm.t)) : list PlayerDay.t :=
  map (fun x => loaded (fst (snd x)) (snd (snd x)) (fst x)) (combine days terms).

Section Assembly.
Context `{HostMath}.

Lemma onDay_middle {A} (m : M PlayerDay.t A) done pd todo p c pd' :
  m pd = (c, pd') ->
  Player.onDay (List.length done) m (Player.set_days (done ++ pd :: todo) p)
  = (c, Player.set_days (done ++ pd' :: todo) p).
Proof.
  intros E. unfold Player.onDay. simpl.
  rewrite nth_error_middle, E, list_update_app. reflexivity.
Qed.

Lemma hessianEntry_off_diagonal n sigma2 D2 row col p :
  col <> row ->
  Player.hessianEntry n sigma2 row col p
  = (Return (hessianValue n sigma2 D2 row col), p).
Proof.
  intros Hne. unfold Player.hessianEntry, hessianValue.
  assert (E : (row =? col)%nat = false) by (apply Nat.eqb_neq; congruence).
  rewrite E.
  destruct (S row =? col)%nat; [reflexivity|].
  destruct (row =? S col)%nat; reflexivity.
Qed.

Lemma hessian_row n sigma2 D2 done pd todo won lost p :
  n = (List.length done + S (List.length todo))%nat ->
  loads pd (won, lost) ->
  D2 (List.length done) = d2_of (PlayerDay.gamma pd) won lost ->
  mapM (Player.hessianEntry n sigma2 (List.length done)) (seq 0 n)
       (Player.set_days (done ++ pd :: todo) p)
  = (Return (map (hessianValue n sigma2 D2 (List.length done)) (seq 0 n)),
     Player.set_days (done ++ loaded won lost pd :: todo) p).
Proof.
  intros Hn Hload HD2.
  apply (mapM_single_effect _ _ (List.length done)).
  - apply seq_NoDup.
  - apply in_seq. lia.
  - intros x t Hx. apply hessianEntry_off_diagonal. exact Hx.
  - unfold Player.hessianEntry, hessianValue. rewrite Nat.eqb_refl.
    unfold bind.
    erewrite onDay_middle.
    2:{ rewrite logLikelihoodSecondDerivative_run. unfold loads in Hload.
        rewrite Hload. reflexivity. }
    simpl. unfold ret. rewrite HD2. reflexivity.
Qed.

Lemma hessian_rows n sigma2 D2 p todo terms :
  Forall2 loads todo terms ->
  forall done rest,
    n = (List.length done + List.length todo + List.length rest)%nat ->
    (forall j pd wl,
        nth_error todo j = Some pd -> nth_error terms j = Some wl ->
        D2 (List.length done + j)%nat
        = d2_of (PlayerDay.gamma pd) (fst wl) (snd wl)) ->
    mapM (fun row => mapM (Player.hessianEntry n sigma2 row) (seq 0 n))
         (seq (List.length done) (List.length todo))
         (Player.set_days (done ++ todo ++ rest) p)
    = (Return (map (fun row => map (hessianValue n sigma2 D2 row) (seq 0 n))
                   (seq (List.length done) (List.length todo))),
       Player.set_days (done ++ loadedDays todo terms ++ rest) p).
Proof.
  induction 1 as [|pd wl todo terms Hpd Hrest IH]; intros done rest Hn HD2.
  - reflexivity.
  - destruct wl as [won lost]. simpl List.length. simpl seq.
    cbn [mapM]. unfold bind at 1.
    assert (Hn' : n = (List.length done + S (List.length (todo ++ rest)))%nat)
      by (rewrite Hn, length_app; simpl; lia).
    assert (HD0 : D2 (List.length done) = d2_of (PlayerDay.gamma pd) won lost).
    { specialize (HD2 0%nat pd (won, lost) eq_refl eq_refl).
      rewrite Nat.add_0_r in HD2. exact HD2. }
    change ((pd :: todo) ++ rest) with (pd :: (todo ++ rest)).
    rewrite (hessian_row n sigma2 D2 done pd (todo ++ rest) won lost p Hn' Hpd HD0).
    unfold bind at 1.
    specialize (IH (done ++ [loaded won lost pd]) rest).
    rewrite length_app in IH. simpl in IH.
    rewrite Nat.add_1_r in IH. rewrite <- app_assoc in IH. simpl in IH.
    rewrite IH.
    + unfold ret. simpl. rewrite <- app_assoc. reflexivity.
    + rewrite Hn. simpl. lia.
    + intros j pd' wl' E1 E2.
      specialize (HD2 (S j) pd' wl' E1 E2).
      rewrite <- HD2. f_equal. lia.
Qed.

(** [hessian], when every day's terms load. *)
Lemma hessian_run sigma2 D2 p terms :
  Forall2 loads (Player.days p) terms ->
  (forall i pd wl,
      nth_error (Player.days p) i = Some pd -> nth_error terms i = Some wl ->
      D2 i = d2_of (PlayerDay.gamma pd) (fst wl) (snd wl)) ->
  Player.hessian sigma2 p
  = (Return (hessianMatrix (List.length (Player.days p)) sigma2 D2),
     Player.set_days (loadedDays (Player.days p) terms) p).
Proof.
  intros Hloads HD2. unfold Player.hessian, bind, gets.
  pose proof (hessian_rows (List.length (Player.days p)) sigma2 D2 p
                (Player.days p) terms Hloads [] []) as Hrows.
  simpl in Hrows. rewrite !app_nil_r in Hrows.
  replace (Player.set_days (Player.days p) p) with p in Hrows
    by (destruct p; reflexivity).
  apply Hrows; [lia|exact HD2].
Qed.

Lemma set_days_same p : Player.set_days (Player.days p) p = p.
Proof. destruct p; reflexivity. Qed.

(** [gradient], on a state where every day answers from its memo fields. *)
Lemma gradient_run r sigma2 D1 p :
  (forall i pd,
      nth_error (Player.days p) i = Some pd ->
      PlayerDay.logLikelihoodDerivative pd = (Return (D1 i), pd)) ->
  Player.gradient r sigma2 p
  = (Return (gradientVector (List.length (Player.days p)) r sigma2 D1), p).
Proof.
  intros HD1. unfold Player.gradient, bind, gets, gradientVector.
  apply mapM_pure. intros idx Hin. apply in_seq in Hin.
  unfold Player.gradientEntry, gradientValue, bind, Player.onDay.
  destruct (nth_error (Player.days p) idx) as [pd|] eqn:E.
  - rewrite (HD1 idx pd E). rewrite (list_update_same _ _ _ E).
    rewrite set_days_same. reflexivity.
  - apply nth_error_None in E. lia.
Qed.

End Assembly.

(** ** Arrays *)

Lemma at_array_set_same xs i v : at_ (array_set xs i v) i = v.
Proof.
  unfold at_. revert xs. induction i as [|i IH]; intros [|x xs]; simpl; auto.
Qed.

Lemma at_nil i : at_ [] i = 0.
Proof. unfold at_. destruct i; reflexivity. Qed.

Lemma at_array_set_other xs i j v : i <> j -> at_ (array_set xs i v) j = at_ xs j.
Proof.
  unfold at_. revert xs j. induction i as [|i IH]; intros xs j Hne.
  - destruct xs as [|x xs], j as [|j]; simpl; try reflexivity; try contradiction.
    destruct j; reflexivity.
  - destruct xs as [|x xs], j as [|j]; simpl; try reflexivity.
    + rewrite IH by congruence. destruct j; reflexivity.
    + apply IH. congruence.
Qed.

Lemma array_set_length xs i v :
  List.length (array_set xs i v) = Nat.max (List.length xs) (S i).
Proof.
  revert xs. induction i as [|i IH]; intros [|x xs]; simpl; rewrite ?IH; simpl; lia.
Qed.

Lemma Array_length n : List.length (Array n) = n.
Proof. apply repeat_length. Qed.

Lemma at_Array n i : at_ (Array n) i = 0.
Proof.
  unfold at_, Array. revert i. induction n as [|n IH]; intros [|i]; simpl; auto.
Qed.

Lemma at_map_seq (f : nat -> R) n i : (i < n)%nat -> at_ (map f (seq 0 n)) i = f i.
Proof.
  intros Hi. unfold at_.
  rewrite (nth_indep _ 0 (f 0%nat)) by (rewrite length_map, length_seq; exact Hi).
  rewrite (map_nth f (seq 0 n) 0%nat i). rewrite seq_nth by exact Hi. reflexivity.
Qed.

Lemma at2_map_seq (f : nat -> nat -> R) n m i j :
  (i < n)%nat -> (j < m)%nat ->
  at2 (map (fun row => map (f row) (seq 0 m)) (seq 0 n)) i j = f i j.
Proof.
  intros Hi Hj. unfold at2.
  rewrite (nth_indep _ [] ((fun row => map (f row) (seq 0 m)) 0%nat))
    by (rewrite length_map, length_seq; exact Hi).
  rewrite (map_nth (fun row => map (f row) (seq 0 m)) (seq 0 n) 0%nat i).
  rewrite seq_nth by exact Hi. simpl.
  apply (at_map_seq (f i)). exact Hj.
Qed.

Lemma row_map_seq_length (f : nat -> nat -> R) n m i :
  (i < n)%nat ->
  List.length (nth i (map (fun row => map (f row) (seq 0 m)) (seq 0 n)) []) = m.
Proof.
  intros Hi.
  rewrite (nth_indep _ [] ((fun row => map (f row) (seq 0 m)) 0%nat))
    by (rewrite length_map, length_seq; exact Hi).
  rewrite (map_nth (fun row => map (f row) (seq 0 m)) (seq 0 n) 0%nat i).
  rewrite length_map, length_seq. reflexivity.
Qed.

(** ** Counting loops *)

Lemma for_up_step {St} lo hi (body : nat -> St -> St) s :
  (lo <= hi)%nat ->
  for_up lo (S hi) body s = body hi (for_up lo hi body s).
Proof.
  intros Hle. unfold for_up.
  replace (S hi - lo)%nat with (S (hi - lo)) by lia.
  rewrite seq_S, fold_left_app. simpl.
  replace (lo + (hi - lo))%nat with hi by lia. reflexivity.
Qed.

Lemma for_up_empty {St} lo hi (body : nat -> St -> St) s :
  (hi <= lo)%nat -> for_up lo hi body s = s.
Proof.
  intros Hle. unfold for_up. replace (hi - lo)%nat with 0%nat by lia. reflexivity.
Qed.

Lemma for_down_step {St} hi (body : nat -> St -> St) s :
  for_down (S hi) body s = for_down hi body (body hi s).
Proof.
  unfold for_down. rewrite seq_S, rev_app_distr. simpl. reflexivity.
Qed.

Lemma for_down_zero {St} (body : nat -> St -> St) s : for_down 0 body s = s.
Proof. reflexivity. Qed.

Lemma for_up_push (f : nat -> R) m :
  for_up 0 m (fun i acc => acc ++ [f i]) [] = map f (seq 0 m).
Proof.
  induction m as [|m IH]; [reflexivity|].
  rewrite for_up_step by lia. rewrite IH, seq_S, map_app. reflexivity.
Qed.

(** ** [computeSigma2] *)

Lemma computeSigma2_eq (p : Player.t) :
  Player.computeSigma2 p
  = map (fun i =>
           Rabs (PlayerDay.day (Player.day_ (Player.days p) (i + 1))
                 - PlayerDay.day (Player.day_ (Player.days p) i))
           * Player.w2 p)
        (seq 0 (List.length (Player.days p) - 1)).
Proof.
  unfold Player.computeSigma2. apply for_up_push.
Qed.

Lemma day_clear days i :
  Player.day_ (map PlayerDay.clearGameTermsCache days) i
  = PlayerDay.clearGameTermsCache (Player.day_ days i).
Proof.
  unfold Player.day_.
  change (PlayerDay.new_ "" 0)
    with (PlayerDay.clearGameTermsCache (PlayerDay.new_ "" 0)) at 1.
  apply map_nth.
Qed.

Lemma computeSigma2_clear (p : Player.t) :
  Player.computeSigma2
    (Player.set_days (map PlayerDay.clearGameTermsCache (Player.days p)) p)
  = Player.computeSigma2 p.
Proof.
  rewrite !computeSigma2_eq. simpl. rewrite length_map.
  apply map_ext. intros i. rewrite !day_clear. reflexivity.
Qed.

(** ** The multi-day step, run *)

(** The end of [updateByNDimNewton]: the stability check and the commit. *)
Definition commitOrThrow (newR : list R) : M Player.t unit :=
  if existsb (fun newRi => Rgtb newRi 650) newR then
    throw (UnstableRatingException "Unstable r")
  else
    modify (fun this =>
              Player.set_days
                (mapi (fun i day => PlayerDay.set_r (at_ newR i) day)
                      (Player.days this)) this).

Lemma loadedDays_length days terms :
  List.length days = List.length terms ->
  List.length (loadedDays days terms) = List.length days.
Proof.
  intros E. unfold loadedDays. rewrite length_map, length_combine. lia.
Qed.

Lemma loadedDays_nth_error days terms i pd' :
  nth_error (loadedDays days terms) i = Some pd' ->
  exists pd wl,
    nth_error days i = Some pd /\ nth_error terms i = Some wl
    /\ pd' = loaded (fst wl) (snd wl) pd.
Proof.
  revert terms i. induction days as [|pd days IH]; intros [|wl terms] [|i];
    simpl; try discriminate.
  - intros E. injection E as <-. eauto.
  - intros E. apply IH in E. exact E.
Qed.

Lemma loadedDays_same_day days terms :
  List.length days = List.length terms ->
  Forall2 same_day days (loadedDays days terms).
Proof.
  revert terms. induction days as [|pd days IH]; intros [|wl terms]; simpl;
    try discriminate; intros E; constructor.
  - apply same_day_loaded.
  - apply IH. lia.
Qed.

Section MultiDayRun.
Context `{HostMath}.

Lemma updateByNDimNewton_run (p : Player.t) terms (D1 D2 : nat -> R) :
  Forall2 loads (Player.days p) terms ->
  (forall i pd wl,
      nth_error (Player.days p) i = Some pd -> nth_error terms i = Some wl ->
      D1 i = d1_of (PlayerDay.gamma pd) (fst wl) (snd wl)
      /\ D2 i = d2_of (PlayerDay.gamma pd) (fst wl) (snd wl)) ->
  let r := map PlayerDay.r (Player.days p) in
  let n := List.length (Player.days p) in
  let sigma2 := Player.computeSigma2 p in
  let p1 := Player.set_days (loadedDays (Player.days p) terms) p in
  let h := hessianMatrix n sigma2 D2 in
  let g := gradientVector n r sigma2 D1 in
  Player.hessian sigma2 p = (Return h, p1)
  /\ Player.gradient r sigma2 p1 = (Return g, p1)
  /\ Player.updateByNDimNewton p
     = commitOrThrow (Player.newRatings r (Player.newtonDirection h g n)) p1.
Proof.
  intros Hloads HD r n sigma2 p1 h g.
  assert (Hlen : List.length (Player.days p) = List.length terms)
    by (eapply Forall2_length; eauto).
  assert (Hh : Player.hessian sigma2 p = (Return h, p1)).
  { apply hessian_run; auto. intros i pd wl E1 E2. apply (HD i pd wl E1 E2). }
  assert (Hg : Player.gradient r sigma2 p1 = (Return g, p1)).
  { unfold g, n. rewrite <- (loadedDays_length _ _ Hlen).
    apply (gradient_run r sigma2 D1 p1).
    intros i pd' E. simpl in E.
    apply loadedDays_nth_error in E. destruct E as (pd & wl & E1 & E2 & ->).
    rewrite logLikelihoodDerivative_run, loadTerms_loaded.
    destruct (HD i pd wl E1 E2) as [-> _]. reflexivity. }
  split; [exact Hh|]. split; [exact Hg|].
  unfold Player.updateByNDimNewton. unfold bind at 1. unfold get at 1.
  unfold bind at 1. fold sigma2. rewrite Hh.
  unfold bind at 1. fold r. rewrite Hg.
  replace (List.length r) with n by (unfold r, n; rewrite length_map; reflexivity).
  reflexivity.
Qed.

Lemma runOneNewtonIteration_multi (p : Player.t) :
  (1 < List.length (Player.days p))%nat ->
  Player.runOneNewtonIteration p
  = Player.updateByNDimNewton
      (Player.set_days (map PlayerDay.clearGameTermsCache (Player.days p)) p).
Proof.
  intros Hn. unfold Player.runOneNewtonIteration, bind, modify, gets. simpl.
  rewrite length_map.
  destruct (List.length (Player.days p)) as [|[|n]] eqn:E; try lia.
  reflexivity.
Qed.

(** The terms behind a list of derivative values. *)
Lemma derivatives_give_terms (days : list PlayerDay.t) (D1 D2 : nat -> R) :
  (forall i pd, nth_error days i = Some pd ->
                fst (PlayerDay.logLikelihoodDerivative pd) = Return (D1 i)
                /\ fst (PlayerDay.logLikelihoodSecondDerivative pd) = Return (D2 i)) ->
  exists terms,
    Forall2 loads days terms
    /\ forall i pd wl,
        nth_error days i = Some pd -> nth_error terms i = Some wl ->
        D1 i = d1_of (PlayerDay.gamma pd) (fst wl) (snd wl)
        /\ D2 i = d2_of (PlayerDay.gamma pd) (fst wl) (snd wl).
Proof.
  revert D1 D2. induction days as [|pd days IH]; intros D1 D2 HD.
  - exists []. split; [constructor|]. intros [|i] ? ? E; discriminate.
  - destruct (HD 0%nat pd eq_refl) as [E1 E2].
    destruct (derivative_values pd _ _ E1 E2) as (won & lost & Hload & Hd1 & Hd2).
    destruct (IH (fun i => D1 (S i)) (fun i => D2 (S i))) as (terms & Hterms & Hvals).
    { intros i pd' E. apply (HD (S i) pd' E). }
    exists ((won, lost) :: terms). split.
    + constructor; [exact Hload|exact Hterms].
    + intros [|i] pd' wl E3 E4; simpl in E3, E4.
      * injection E3 as <-. injection E4 as <-. auto.
      * apply (Hvals i pd' wl E3 E4).
Qed.

End MultiDayRun.

(** ** C1: the Newton system *)

(** Shorthands for the statements. *)
Definition ndays (p : Player.t) : nat := List.length (Player.days p).
Definition ratings (p : Player.t) : list R := map PlayerDay.r (Player.days p).
Definition dayOf (p : Player.t) (i : nat) : R :=
  PlayerDay.day (Player.day_ (Player.days p) i).
(** The player as [runOneNewtonIteration] first leaves it: memo fields cleared. *)
Definition cleared (p : Player.t) : Player.t :=
  Player.set_days (map PlayerDay.clearGameTermsCache (Player.days p)) p.
(** The day's two derivative getters, read on the cleared day, return
    [D1 i] and [D2 i]. *)
Definition derivativesAre `{HostMath} (p : Player.t) (D1 D2 : nat -> R) : Prop :=
  forall i, (i < ndays p)%nat ->
    fst (PlayerDay.logLikelihoodDerivative
           (PlayerDay.clearGameTermsCache (Player.day_ (Player.days p) i)))
    = Return (D1 i)
    /\ fst (PlayerDay.logLikelihoodSecondDerivative
              (PlayerDay.clearGameTermsCache (Player.day_ (Player.days p) i)))
       = Return (D2 i).

Lemma nth_error_day_ days i pd :
  nth_error days i = Some pd -> Player.day_ days i = pd.
Proof. intros E. unfold Player.day_. apply nth_error_nth. exact E. Qed.

Section NewtonSystem.
Context `{HostMath}.

Lemma cleared_terms (p : Player.t) (D1 D2 : nat -> R) :
  derivativesAre p D1 D2 ->
  exists terms,
    Forall2 loads (Player.days (cleared p)) terms
    /\ forall i pd wl,
        nth_error (Player.days (cleared p)) i = Some pd ->
        nth_error terms i = Some wl ->
        D1 i = d1_of (PlayerDay.gamma pd) (fst wl) (snd wl)
        /\ D2 i = d2_of (PlayerDay.gamma pd) (fst wl) (snd wl).
Proof.
  intros HD. apply derivatives_give_terms. intros i pd E.
  assert (Hi : (i < ndays p)%nat).
  { unfold ndays.
    assert (Hlt : (i < List.length (Player.days (cleared p)))%nat).
    { apply nth_error_Some. congruence. }
    simpl in Hlt. rewrite length_map in Hlt. exact Hlt. }
  apply nth_error_day_ in E. simpl in E. rewrite day_clear in E. subst pd.
  apply HD. exact Hi.
Qed.

(** The system that one call assembles, and what the call does with it. *)
Lemma newton_system (p : Player.t) (D1 D2 : nat -> R) :
  (1 < ndays p)%nat ->
  derivativesAre p D1 D2 ->
  exists p1,
    let sigma2 := Player.computeSigma2 p in
    let h := hessianMatrix (ndays p) sigma2 D2 in
    let g := gradientVector (ndays p) (ratings p) sigma2 D1 in
    Player.hessian sigma2 (cleared p) = (Return h, p1)
    /\ Player.gradient (ratings p) sigma2 p1 = (Return g, p1)
    /\ Player.runOneNewtonIteration p
       = commitOrThrow
           (Player.newRatings (ratings p) (Player.newtonDirection h g (ndays p))) p1
    /\ same_player p p1.
Proof.
  intros Hn HD.
  destruct (cleared_terms p D1 D2 HD) as (terms & Hloads & Hvals).
  pose proof (updateByNDimNewton_run (cleared p) terms D1 D2 Hloads Hvals) as Hrun.
  cbv zeta in Hrun. destruct Hrun as (Hh & Hg & Hstep).
  assert (Er : map PlayerDay.r (Player.days (cleared p)) = ratings p).
  { unfold ratings. simpl. rewrite map_map. reflexivity. }
  assert (En : List.length (Player.days (cleared p)) = ndays p).
  { unfold ndays. simpl. apply length_map. }
  pose proof (computeSigma2_clear p) as Es.
  change (Player.computeSigma2 (cleared p) = Player.computeSigma2 p) in Es.
  rewrite Es, Er, En in *.
  eexists. cbv zeta. split; [exact Hh|]. split; [exact Hg|]. split.
  - rewrite runOneNewtonIteration_multi by exact Hn. exact Hstep.
  - repeat split. simpl.
    eapply Forall2_same_day_trans.
    2:{ apply loadedDays_same_day. eapply Forall2_length; eauto. }
    simpl. clear. induction (Player.days p); constructor; auto.
    apply same_day_clear.
Qed.

(** C1.  For a trajectory with [n > 1] days, one call to
    [runOneNewtonIteration] assembles, from the current ratings [r]:
    [sigma2[i] = |day[i+1] - day[i]| * w2] for [i = 0..n-2]; a gradient
    with [g[i] = D1 i - (r[i] - r[i+1]) / sigma2[i]] (when [i < n-1])
    [- (r[i] - r[i-1]) / sigma2[i-1]] (when [i > 0]); and an [n] by [n]
    Hessian with diagonal [D2 i - 1/sigma2[i]] (when [i < n-1])
    [- 1/sigma2[i-1]] (when [i > 0]) [- 0.001], with
    [H[i][i+1] = H[i+1][i] = 1/sigma2[i]], and zero elsewhere.  [D1 i] and
    [D2 i] are the first and second derivative of day [i]'s
    log-likelihood.  The call goes on with exactly this system. *)
Theorem newton_system_assembly (p : Player.t) (D1 D2 : nat -> R) :
  (1 < ndays p)%nat ->
  derivativesAre p D1 D2 ->
  exists h g p1,
    let n := ndays p in
    let r := ratings p in
    let sigma2 := Player.computeSigma2 p in
    (* one call runs these, and continues with [h] and [g] *)
    Player.hessian sigma2 (cleared p) = (Return h, p1)
    /\ Player.gradient r sigma2 p1 = (Return g, p1)
    /\ Player.runOneNewtonIteration p
       = commitOrThrow (Player.newRatings r (Player.newtonDirection h g n)) p1
    (* sigma2 *)
    /\ List.length sigma2 = (n - 1)%nat
    /\ (forall i, (i < n - 1)%nat ->
                  at_ sigma2 i = Rabs (dayOf p (i + 1) - dayOf p i) * Player.w2 p)
    (* the gradient *)
    /\ List.length g = n
    /\ (forall i, (i < n)%nat ->
                  at_ g i
                  = D1 i
                    + (if (i <? n - 1)%nat
                       then - (at_ r i - at_ r (i + 1)) / at_ sigma2 i else 0)
                    + (if (0 <? i)%nat
                       then - (at_ r i - at_ r (i - 1)) / at_ sigma2 (i - 1) else 0))
    (* the Hessian *)
    /\ List.length h = n
    /\ (forall i, (i < n)%nat -> List.length (nth i h []) = n)
    /\ (forall i, (i < n)%nat ->
                  at2 h i i
                  = D2 i
                    + (if (i <? n - 1)%nat then - 1 / at_ sigma2 i else 0)
                    + (if (0 <? i)%nat then - 1 / at_ sigma2 (i - 1) else 0)
                    - 0.001)
    /\ (forall i, (i < n - 1)%nat ->
                  at2 h i (i + 1) = 1 / at_ sigma2 i
                  /\ at2 h (i + 1) i = 1 / at_ sigma2 i)
    /\ (forall i j, (i < n)%nat -> (j < n)%nat ->
                    i <> j -> (i + 1)%nat <> j -> (j + 1)%nat <> i ->
                    at2 h i j = 0).
Proof.
  intros Hn HD.
  destruct (newton_system p D1 D2 Hn HD) as (p1 & Hh & Hg & Hstep & _).
  cbv zeta in *.
  exists (hessianMatrix (ndays p) (Player.computeSigma2 p) D2),
    (gradientVector (ndays p) (ratings p) (Player.computeSigma2 p) D1), p1.
  cbv zeta.
  split; [exact Hh|]. split; [exact Hg|]. split; [exact Hstep|].
  split; [|split; [|split; [|split; [|split; [|split; [|split; [|split]]]]]]].
  - rewrite computeSigma2_eq, length_map, length_seq. reflexivity.
  - intros i Hi. rewrite computeSigma2_eq.
    rewrite (at_map_seq _ _ _ Hi). reflexivity.
  - unfold gradientVector. rewrite length_map, length_seq. reflexivity.
  - intros i Hi. unfold gradientVector.
    rewrite (at_map_seq _ _ _ Hi). unfold gradientValue.
    destruct (i <? ndays p - 1)%nat; destruct (0 <? i)%nat; lra.
  - unfold hessianMatrix. rewrite length_map, length_seq. reflexivity.
  - intros i Hi. unfold hessianMatrix. apply row_map_seq_length. exact Hi.
  - intros i Hi. unfold hessianMatrix.
    rewrite (at2_map_seq _ _ _ _ _ Hi Hi). unfold hessianValue.
    rewrite Nat.eqb_refl.
    destruct (i <? ndays p - 1)%nat; destruct (0 <? i)%nat; lra.
  - intros i Hi. unfold hessianMatrix. split.
    + rewrite at2_map_seq by lia. unfold hessianValue.
      replace (i =? i + 1)%nat with false by (symmetry; apply Nat.eqb_neq; lia).
      replace (S i =? i + 1)%nat with true by (symmetry; apply Nat.eqb_eq; lia).
      reflexivity.
    + rewrite at2_map_seq by lia. unfold hessianValue.
      replace (i + 1 =? i)%nat with false by (symmetry; apply Nat.eqb_neq; lia).
      replace (S (i + 1) =? i)%nat with false by (symmetry; apply Nat.eqb_neq; lia).
      replace (i + 1 =? S i)%nat with true by (symmetry; apply Nat.eqb_eq; lia).
      reflexivity.
  - intros i j Hi Hj H1 H2 H3. unfold hessianMatrix.
    rewrite at2_map_seq by lia. unfold hessianValue.
    replace (i =? j)%nat with false by (symmetry; apply Nat.eqb_neq; lia).
    replace (S i =? j)%nat with false by (symmetry; apply Nat.eqb_neq; lia).
    replace (i =? S j)%nat with false by (symmetry; apply Nat.eqb_neq; lia).
    reflexivity.
Qed.

End NewtonSystem.

(** ** The tridiagonal solve *)

(** [sum_{j < n} F j] *)
Fixpoint bigsum (F : nat -> R) (n : nat) : R :=
  match n with
  | O => 0
  | S m => bigsum F m + F m
  end.

(** Row [i] of the product [h * x], for an [n] by [n] matrix. *)
Definition rowTimes (h : list (list R)) (x : list R) (n i : nat) : R :=
  bigsum (fun j => at2 h i j * at_ x j) n.

(** No entry off the three diagonals. *)
Definition tridiagonal (h : list (list R)) (n : nat) : Prop :=
  forall i j, (i < n)%nat -> (j < n)%nat ->
              i <> j -> (i + 1)%nat <> j -> (j + 1)%nat <> i -> at2 h i j = 0.

Lemma bigsum_three (F : nat -> R) (i n : nat) :
  (forall j, (j < n)%nat -> j <> i -> (j + 1)%nat <> i -> j <> (i + 1)%nat -> F j = 0) ->
  bigsum F n
  = (if (0 <? i)%nat && (i - 1 <? n)%nat then F (i - 1)%nat else 0)
    + (if (i <? n)%nat then F i else 0)
    + (if (i + 1 <? n)%nat then F (i + 1)%nat else 0).
Proof.
  induction n as [|n IH]; intros HF.
  - simpl. rewrite andb_false_r. lra.
  - simpl bigsum. rewrite IH by (intros j Hj; apply HF; lia). clear IH.
    destruct (Nat.eq_dec n i) as [->|Hni].
    + replace (i <? i)%nat with false by (symmetry; apply Nat.ltb_ge; lia).
      replace (i <? S i)%nat with true by (symmetry; apply Nat.ltb_lt; lia).
      replace (i + 1 <? i)%nat with false by (symmetry; apply Nat.ltb_ge; lia).
      replace (i + 1 <? S i)%nat with false by (symmetry; apply Nat.ltb_ge; lia).
      destruct (0 <? i)%nat eqn:E0; simpl.
      * apply Nat.ltb_lt in E0.
        replace (i - 1 <? i)%nat with true by (symmetry; apply Nat.ltb_lt; lia).
        replace (i - 1 <? S i)%nat with true by (symmetry; apply Nat.ltb_lt; lia).
        lra.
      * lra.
    + destruct (Nat.eq_dec n (i + 1)) as [->|Hni1].
      * replace (i <? i + 1)%nat with true by (symmetry; apply Nat.ltb_lt; lia).
        replace (i <? S (i + 1))%nat with true by (symmetry; apply Nat.ltb_lt; lia).
        replace (i + 1 <? i + 1)%nat with false by (symmetry; apply Nat.ltb_ge; lia).
        replace (i + 1 <? S (i + 1))%nat with true by (symmetry; apply Nat.ltb_lt; lia).
        replace (i - 1 <? i + 1)%nat with true by (symmetry; apply Nat.ltb_lt; lia).
        replace (i - 1 <? S (i + 1))%nat with true by (symmetry; apply Nat.ltb_lt; lia).
        lra.
      * destruct (Nat.eq_dec (n + 1) i) as [<-|Hn1i].
        -- replace (0 <? n + 1)%nat with true by (symmetry; apply Nat.ltb_lt; lia).
           replace (n + 1 - 1)%nat with n by lia.
           replace (n <? n)%nat with false by (symmetry; apply Nat.ltb_ge; lia).
           replace (n <? S n)%nat with true by (symmetry; apply Nat.ltb_lt; lia).
           replace (n + 1 <? n)%nat with false by (symmetry; apply Nat.ltb_ge; lia).
           replace (n + 1 <? S n)%nat with false by (symmetry; apply Nat.ltb_ge; lia).
           replace (n + 1 + 1 <? n)%nat with false by (symmetry; apply Nat.ltb_ge; lia).
           replace (n + 1 + 1 <? S n)%nat with false by (symmetry; apply Nat.ltb_ge; lia).
           simpl. lra.
        -- rewrite (HF n) by lia.
           replace (i - 1 <? S n)%nat with (i - 1 <? n)%nat.
           2:{ destruct (i - 1 <? n)%nat eqn:E.
               - apply Nat.ltb_lt in E. symmetry. apply Nat.ltb_lt. lia.
               - apply Nat.ltb_ge in E. symmetry.
                 destruct (0 <? i)%nat eqn:E0.
                 + apply Nat.ltb_lt in E0. apply Nat.ltb_ge. lia.
                 + apply Nat.ltb_ge in E0. apply Nat.ltb_ge. lia. }
           replace (i <? S n)%nat with (i <? n)%nat.
           2:{ destruct (i <? n)%nat eqn:E.
               - apply Nat.ltb_lt in E. symmetry. apply Nat.ltb_lt. lia.
               - apply Nat.ltb_ge in E. symmetry. apply Nat.ltb_ge. lia. }
           replace (i + 1 <? S n)%nat with (i + 1 <? n)%nat.
           2:{ destruct (i + 1 <? n)%nat eqn:E.
               - apply Nat.ltb_lt in E. symmetry. apply Nat.ltb_lt. lia.
               - apply Nat.ltb_ge in E. symmetry. apply Nat.ltb_ge. lia. }
           lra.
Qed.

(** Row [i] of [h * x] for a tridiagonal [h]. *)
Lemma rowTimes_tridiagonal h x n i :
  tridiagonal h n -> (i < n)%nat ->
  rowTimes h x n i
  = (if (0 <? i)%nat then at2 h i (i - 1) * at_ x (i - 1) else 0)
    + at2 h i i * at_ x i
    + (if (i + 1 <? n)%nat then at2 h i (i + 1) * at_ x (i + 1) else 0).
Proof.
  intros Htri Hi. unfold rowTimes.
  rewrite (bigsum_three _ i n).
  - replace (i <? n)%nat with true by (symmetry; apply Nat.ltb_lt; lia).
    replace (i - 1 <? n)%nat with true by (symmetry; apply Nat.ltb_lt; lia).
    rewrite andb_true_r. reflexivity.
  - intros j Hj H1 H2 H3. rewrite (Htri i j) by lia. lra.
Qed.

Section Thomas.
Variable h : list (list R).
Variable g : list R.
Variable n : nat.

Let lu := Player.luDecompositionTridiagonal h n.
Let a := LU.a lu.
Let d := LU.d lu.
Let b := LU.b lu.
Let y := Player.forwardSubstitution g a n.
Let x := Player.backSubstitution y d b n.

(** The body of the elimination loop. *)
Let luBody (i : nat) (st : LU.t) : LU.t :=
  let a := array_set (LU.a st) i (at2 h i (i - 1) / at_ (LU.d st) (i - 1)) in
  let d := array_set (LU.d st) i (at2 h i i - at_ a i * at_ (LU.b st) (i - 1)) in
  let b := if (i <? n - 1)%nat
           then array_set (LU.b st) i (at2 h i (i + 1))
           else LU.b st in
  LU.mk a d b.

Let luInit : LU.t :=
  LU.mk (Array n) [at2 h 0 0]
        (if (0 <? n)%nat then array_set (Array n) 0 (at2 h 0 1) else Array n).

Let luInv (k : nat) (st : LU.t) : Prop :=
  at_ (LU.d st) 0 = at2 h 0 0
  /\ (forall i, (1 <= i <= k)%nat ->
                at_ (LU.a st) i = at2 h i (i - 1) / at_ (LU.d st) (i - 1)
                /\ at_ (LU.d st) i
                   = at2 h i i - at_ (LU.a st) i * at_ (LU.b st) (i - 1))
  /\ (forall i, (i <= k)%nat -> (i < n - 1)%nat ->
                at_ (LU.b st) i = at2 h i (i + 1)).

Lemma luInv_loop (k : nat) :
  (k < n)%nat -> luInv k (for_up 1 (S k) luBody luInit).
Proof.
  induction k as [|k IH]; intros Hk.
  - rewrite for_up_empty by lia. unfold luInv, luInit. cbn [LU.a LU.d LU.b].
    split; [reflexivity|]. split; [intros i Hi; lia|].
    intros i Hi Hn. assert (i = 0)%nat by lia. subst i.
    replace (0 <? n)%nat with true by (symmetry; apply Nat.ltb_lt; lia).
    exact (at_array_set_same _ _ _).
  - rewrite for_up_step by lia.
    specialize (IH ltac:(lia)).
    set (st := for_up 1 (S k) luBody luInit) in *.
    destruct IH as (Hd0 & Hrec & Hb).
    unfold luInv, luBody. cbn [LU.a LU.d LU.b].
    split; [|split].
    + rewrite at_array_set_other by lia. exact Hd0.
    + intros i Hi. destruct (Nat.eq_dec i (S k)) as [->|Hne].
      * rewrite !at_array_set_same.
        rewrite at_array_set_other by lia.
        replace (S k - 1)%nat with k by lia.
        split; [reflexivity|].
        destruct (S k <? n - 1)%nat; [|reflexivity].
        rewrite at_array_set_other by lia. reflexivity.
      * rewrite !(at_array_set_other _ (S k)) by lia.
        destruct (Hrec i ltac:(lia)) as [Ha Hd].
        split; [exact Ha|]. rewrite Hd.
        destruct (S k <? n - 1)%nat; [|reflexivity].
        rewrite at_array_set_other by lia. reflexivity.
    + intros i Hi Hn. destruct (S k <? n - 1)%nat eqn:E.
      * destruct (Nat.eq_dec i (S k)) as [->|Hne].
        -- apply at_array_set_same.
        -- rewrite at_array_set_other by lia. apply Hb; lia.
      * apply Nat.ltb_ge in E. apply Hb; lia.
Qed.

(** The forward elimination computes the multipliers and the pivots. *)
Lemma luDecompositionTridiagonal_spec :
  (0 < n)%nat ->
  at_ d 0 = at2 h 0 0
  /\ (forall i, (1 <= i < n)%nat ->
                at_ a i = at2 h i (i - 1) / at_ d (i - 1)
                /\ at_ d i = at2 h i i - at_ a i * at_ b (i - 1))
  /\ (forall i, (i < n - 1)%nat -> at_ b i = at2 h i (i + 1)).
Proof.
  intros Hn.
  assert (E : lu = for_up 1 (S (n - 1)) luBody luInit).
  { unfold lu, Player.luDecompositionTridiagonal.
    replace (S (n - 1)) with n by lia. reflexivity. }
  pose proof (luInv_loop (n - 1) ltac:(lia)) as (Hd0 & Hrec & Hb).
  rewrite <- E in *. fold a d b in Hd0, Hrec, Hb.
  split; [exact Hd0|]. split.
  - intros i Hi. apply Hrec. lia.
  - intros i Hi. apply Hb; lia.
Qed.

(** Forward substitution. *)
Lemma forwardSubstitution_spec :
  at_ y 0 = at_ g 0
  /\ forall i, (1 <= i < n)%nat -> at_ y i = at_ g i - at_ a i * at_ y (i - 1).
Proof.
  set (body := fun (i : nat) (y : list R) =>
                 array_set y i (at_ g i - at_ a i * at_ y (i - 1))).
  assert (Hinv : forall k,
             let yk := for_up 1 (S k) body [at_ g 0] in
             at_ yk 0 = at_ g 0
             /\ forall i, (1 <= i <= k)%nat ->
                          at_ yk i = at_ g i - at_ a i * at_ yk (i - 1)).
  { induction k as [|k IH]; cbv zeta.
    - rewrite for_up_empty by lia. split; [reflexivity|]. intros i Hi. lia.
    - rewrite for_up_step by lia. cbv zeta in IH.
      set (yk := for_up 1 (S k) body [at_ g 0]) in *.
      destruct IH as [H0 Hrec]. unfold body. cbv beta. split.
      + rewrite at_array_set_other by lia. exact H0.
      + intros i Hi. destruct (Nat.eq_dec i (S k)) as [->|Hne].
        * rewrite at_array_set_same. rewrite at_array_set_other by lia.
          reflexivity.
        * rewrite !(at_array_set_other _ (S k)) by lia. apply Hrec. lia. }
  destruct (Nat.eq_dec n 0) as [En|En].
  - split.
    + unfold y, Player.forwardSubstitution.
      rewrite for_up_empty by lia. reflexivity.
    + intros i Hi. lia.
  - specialize (Hinv (n - 1)%nat). cbv zeta in Hinv.
    assert (E : y = for_up 1 (S (n - 1)) body [at_ g 0]).
    { unfold y, Player.forwardSubstitution.
      replace (S (n - 1)) with n by lia. reflexivity. }
    rewrite <- E in Hinv. destruct Hinv as [H0 Hrec].
    split; [exact H0|]. intros i Hi. apply Hrec. lia.
Qed.

(** Back substitution. *)
Lemma backSubstitution_spec :
  (0 < n)%nat ->
  at_ x (n - 1) = at_ y (n - 1) / at_ d (n - 1)
  /\ forall i, (i < n - 1)%nat ->
               at_ x i = (at_ y i - at_ b i * at_ x (i + 1)) / at_ d i.
Proof.
  intros Hn.
  set (body := fun (i : nat) (x : list R) =>
                 array_set x i ((at_ y i - at_ b i * at_ x (i + 1)) / at_ d i)).
  set (inv := fun (m : nat) (xs : list R) =>
                at_ xs (n - 1) = at_ y (n - 1) / at_ d (n - 1)
                /\ forall i, (m <= i < n - 1)%nat ->
                             at_ xs i
                             = (at_ y i - at_ b i * at_ xs (i + 1)) / at_ d i).
  assert (Hloop : forall m xs, (m <= n - 1)%nat -> inv m xs ->
                               inv 0%nat (for_down m body xs)).
  { induction m as [|m IH]; intros xs Hm Hxs; [exact Hxs|].
    rewrite for_down_step. apply IH; [lia|].
    destruct Hxs as [Hlast Hrec]. unfold inv, body. cbv beta. split.
    - rewrite at_array_set_other by lia. exact Hlast.
    - intros i Hi. destruct (Nat.eq_dec i m) as [->|Hne].
      + rewrite at_array_set_same. rewrite at_array_set_other by lia.
        reflexivity.
      + rewrite !(at_array_set_other _ m) by lia. apply Hrec. lia. }
  assert (E : x = for_down (n - 1) body
                    (array_set (Array n) (n - 1) (at_ y (n - 1) / at_ d (n - 1)))).
  { reflexivity. }
  specialize (Hloop (n - 1)%nat
                    (array_set (Array n) (n - 1) (at_ y (n - 1) / at_ d (n - 1)))
                    ltac:(lia)).
  rewrite <- E in Hloop.
  destruct Hloop as [Hlast Hrec].
  - split; [apply at_array_set_same|]. intros i Hi. lia.
  - split; [exact Hlast|]. intros i Hi. apply Hrec. lia.
Qed.

(** With nonzero pivots the computed [x] solves [h * x = g]. *)
Lemma thomas_solves :
  (0 < n)%nat ->
  tridiagonal h n ->
  (forall i, (i < n)%nat -> at_ d i <> 0) ->
  forall i, (i < n)%nat -> rowTimes h x n i = at_ g i.
Proof.
  intros Hn Htri Hd i Hi.
  destruct (luDecompositionTridiagonal_spec Hn) as (Hd0 & Hlu & Hb).
  destruct forwardSubstitution_spec as (Hy0 & Hy).
  destruct (backSubstitution_spec Hn) as (Hxl & Hx).
  rewrite (rowTimes_tridiagonal h x n i Htri Hi).
  (* d[i] * x[i] + [i+1 < n] b[i] * x[i+1] = y[i] *)
  assert (Hback : forall k, (k < n)%nat ->
             at_ d k * at_ x k
             + (if (k + 1 <? n)%nat then at2 h k (k + 1) * at_ x (k + 1) else 0)
             = at_ y k).
  { intros k Hk. destruct (k + 1 <? n)%nat eqn:E.
    - apply Nat.ltb_lt in E. rewrite (Hx k) by lia. rewrite <- (Hb k) by lia.
      field. apply Hd. lia.
    - apply Nat.ltb_ge in E. replace k with (n - 1)%nat by lia.
      rewrite Hxl. field. apply Hd. lia. }
  destruct (0 <? i)%nat eqn:E0.
  - apply Nat.ltb_lt in E0.
    destruct (Hlu i ltac:(lia)) as [Ha Hdi].
    pose proof (Hback i Hi) as Hbi.
    pose proof (Hback (i - 1)%nat ltac:(lia)) as Hbp.
    replace (i - 1 + 1)%nat with i in Hbp by lia.
    replace (i <? n)%nat with true in Hbp
      by (symmetry; apply Nat.ltb_lt; lia).
    assert (Hg : at_ g i = at_ y i + at_ a i * at_ y (i - 1))
      by (rewrite (Hy i) by lia; ring).
    assert (Hsub : at2 h i (i - 1) = at_ a i * at_ d (i - 1)).
    { rewrite Ha. field. apply Hd. lia. }
    assert (Hdiag : at2 h i i = at_ d i + at_ a i * at_ b (i - 1)) by lra.
    rewrite (Hb (i - 1)%nat) in Hdiag by lia.
    replace (i - 1 + 1)%nat with i in Hdiag by lia.
    rewrite Hg, Hsub, Hdiag, <- Hbi, <- Hbp. ring.
  - apply Nat.ltb_ge in E0. assert (i = 0)%nat by lia. subst i.
    pose proof (Hback 0%nat Hi) as Hb0. rewrite Hd0 in Hb0.
    rewrite Hy0 in Hb0. simpl in *. lra.
Qed.

End Thomas.

(** ** The update and its commit *)

Lemma mapi_from_length {A B} (f : nat -> A -> B) xs s :
  List.length (mapi_from s f xs) = List.length xs.
Proof.
  revert s. induction xs as [|x xs IH]; intros s; simpl; auto.
Qed.

Lemma nth_error_mapi_from {A B} (f : nat -> A -> B) xs s i :
  nth_error (mapi_from s f xs) i = option_map (f (s + i)%nat) (nth_error xs i).
Proof.
  revert s i. induction xs as [|x xs IH]; intros s [|i]; simpl; auto.
  - rewrite Nat.add_0_r. reflexivity.
  - rewrite IH. replace (S s + i)%nat with (s + S i)%nat by lia. reflexivity.
Qed.

Lemma nth_error_mapi {A B} (f : nat -> A -> B) xs i :
  nth_error (mapi f xs) i = option_map (f i) (nth_error xs i).
Proof. unfold mapi. apply nth_error_mapi_from. Qed.

Lemma at_nth_error xs i v : nth_error xs i = Some v -> at_ xs i = v.
Proof. intros E. unfold at_. apply nth_error_nth. exact E. Qed.

Lemma nth_error_in_range {A} (xs : list A) i :
  (i < List.length xs)%nat -> exists v, nth_error xs i = Some v.
Proof.
  intros Hi. destruct (nth_error xs i) eqn:E; eauto.
  apply nth_error_None in E. lia.
Qed.

Lemma newRatings_length r x : List.length (Player.newRatings r x) = List.length r.
Proof. unfold Player.newRatings, mapi. apply mapi_from_length. Qed.

Lemma newRatings_at r x i :
  (i < List.length r)%nat -> at_ (Player.newRatings r x) i = at_ r i - at_ x i.
Proof.
  intros Hi. destruct (nth_error_in_range r i Hi) as [v E].
  apply at_nth_error. unfold Player.newRatings.
  rewrite nth_error_mapi, E. simpl. rewrite (at_nth_error _ _ _ E). reflexivity.
Qed.

Lemma existsb_above (newR : list R) :
  existsb (fun newRi => Rgtb newRi 650) newR = true
  <-> exists i, (i < List.length newR)%nat /\ at_ newR i > 650.
Proof.
  rewrite existsb_exists. split.
  - intros (v & Hin & Hv). apply In_nth_error in Hin. destruct Hin as [i E].
    exists i. split.
    + apply nth_error_Some. congruence.
    + rewrite (at_nth_error _ _ _ E). unfold Rgtb in Hv.
      destruct (Rgt_dec v 650); [assumption|discriminate].
  - intros (i & Hi & Hv). destruct (nth_error_in_range newR i Hi) as [v E].
    exists v. split; [eapply nth_error_In; eauto|].
    rewrite (at_nth_error _ _ _ E) in Hv. unfold Rgtb.
    destruct (Rgt_dec v 650); [reflexivity|contradiction].
Qed.

(** The days after the commit loop. *)
Definition committed (newR : list R) (days : list PlayerDay.t) : list PlayerDay.t :=
  mapi (fun i day => PlayerDay.set_r (at_ newR i) day) days.

Lemma committed_length newR days :
  List.length (committed newR days) = List.length days.
Proof. unfold committed, mapi. apply mapi_from_length. Qed.

Lemma committed_day newR days i :
  (i < List.length days)%nat ->
  Player.day_ (committed newR days) i
  = PlayerDay.set_r (at_ newR i) (Player.day_ days i).
Proof.
  intros Hi. destruct (nth_error_in_range days i Hi) as [pd E].
  rewrite (nth_error_day_ _ _ _ E). apply nth_error_day_.
  unfold committed. rewrite nth_error_mapi, E. reflexivity.
Qed.

Lemma commitOrThrow_cases (newR : list R) (p1 : Player.t) :
  ((exists i, (i < List.length newR)%nat /\ at_ newR i > 650)
   /\ commitOrThrow newR p1 = (Throw (UnstableRatingException "Unstable r"), p1))
  \/ (~ (exists i, (i < List.length newR)%nat /\ at_ newR i > 650)
      /\ commitOrThrow newR p1
         = (Return tt, Player.set_days (committed newR (Player.days p1)) p1)).
Proof.
  unfold commitOrThrow.
  destruct (existsb (fun newRi => Rgtb newRi 650) newR) eqn:E.
  - left. split; [apply existsb_above, E|reflexivity].
  - right. split; [|reflexivity].
    intros Hex. apply existsb_above in Hex. congruence.
Qed.

Lemma same_player_cleared p : same_player p (cleared p).
Proof.
  repeat split. simpl. induction (Player.days p); constructor; auto.
  apply same_day_clear.
Qed.

Lemma same_player_day p p' i :
  same_player p p' -> (i < ndays p)%nat ->
  same_day (Player.day_ (Player.days p) i) (Player.day_ (Player.days p') i).
Proof.
  intros (_ & _ & Hd) Hi. unfold ndays in Hi. revert i Hi.
  induction Hd as [|x y l l' Hxy Hl IH]; intros i Hi; simpl in Hi; [lia|].
  destruct i as [|i]; simpl; [exact Hxy|]. apply IH. lia.
Qed.

Lemma hessianMatrix_tridiagonal n sigma2 D2 :
  tridiagonal (hessianMatrix n sigma2 D2) n.
Proof.
  intros i j Hi Hj H1 H2 H3. unfold hessianMatrix.
  rewrite at2_map_seq by lia. unfold hessianValue.
  replace (i =? j)%nat with false by (symmetry; apply Nat.eqb_neq; lia).
  replace (S i =? j)%nat with false by (symmetry; apply Nat.eqb_neq; lia).
  replace (i =? S j)%nat with false by (symmetry; apply Nat.eqb_neq; lia).
  reflexivity.
Qed.

Section StepOutcome.
Context `{HostMath}.

(** Whatever makes the step throw, it has written to no rating. *)
Lemma updateByNDimNewton_throw (s s' : Player.t) (e : exn) :
  Player.updateByNDimNewton s = (Throw e, s') -> same_player s s'.
Proof.
  unfold Player.updateByNDimNewton. unfold bind at 1. unfold get at 1.
  unfold bind at 1.
  pose proof (hessian_same_player (Player.computeSigma2 s) s) as Hh.
  destruct (Player.hessian (Player.computeSigma2 s) s) as [[h|e1] s1];
    simpl in Hh.
  2:{ intros E. injection E as <- <-. exact Hh. }
  unfold bind at 1.
  pose proof (gradient_same_player (map PlayerDay.r (Player.days s))
                (Player.computeSigma2 s) s1) as Hg.
  destruct (Player.gradient (map PlayerDay.r (Player.days s))
              (Player.computeSigma2 s) s1) as [[g|e2] s2]; simpl in Hg.
  2:{ intros E. injection E as <- <-. eapply same_player_trans; eauto. }
  destruct (existsb _ _).
  - unfold throw. intros E. injection E as <- <-.
    eapply same_player_trans; eauto.
  - unfold modify. discriminate.
Qed.

Lemma runOneNewtonIteration_throw (p p' : Player.t) (e : exn) :
  (1 < ndays p)%nat ->
  Player.runOneNewtonIteration p = (Throw e, p') -> same_player p p'.
Proof.
  intros Hn. rewrite runOneNewtonIteration_multi by exact Hn.
  intros E. apply updateByNDimNewton_throw in E.
  eapply same_player_trans; [apply same_player_cleared|exact E].
Qed.

End StepOutcome.

Section NewtonStep.
Context `{HostMath}.

Lemma committed_ratings (p p1 p' : Player.t) (newR : list R) :
  same_player p p1 ->
  commitOrThrow newR p1 = (Return tt, p') ->
  ndays p' = ndays p
  /\ forall i, (i < ndays p)%nat ->
               PlayerDay.r (Player.day_ (Player.days p') i) = at_ newR i
               /\ same_frame (Player.day_ (Player.days p) i)
                             (Player.day_ (Player.days p') i)
               /\ PlayerDay.uncertainty (Player.day_ (Player.days p') i)
                  = PlayerDay.uncertainty (Player.day_ (Player.days p) i).
Proof.
  intros Hsame Hrun.
  destruct (commitOrThrow_cases newR p1) as [[_ E]|[_ E]];
    rewrite E in Hrun; [discriminate|].
  injection Hrun as <-. simpl.
  destruct (same_player_ratings _ _ Hsame) as (_ & _ & _ & Hlen).
  split.
  - unfold ndays. simpl. rewrite committed_length. exact Hlen.
  - intros i Hi.
    rewrite committed_day by (rewrite Hlen; exact Hi).
    destruct (same_player_day p p1 i Hsame Hi) as (Hf & Hr & Hu).
    simpl. split; [reflexivity|]. split; [exact Hf|exact Hu].
Qed.

(** C2.  For a trajectory with [n > 1] days, with [h] and [g] the
    assembled Hessian and gradient, the step computes [x] by the Thomas
    recurrences: [d[0] = h[0][0]], [a[i] = h[i][i-1] / d[i-1]],
    [d[i] = h[i][i] - a[i] * b[i-1]] with [b] the super-diagonal;
    [y[0] = g[0]], [y[i] = g[i] - a[i] * y[i-1]];
    [x[n-1] = y[n-1] / d[n-1]], [x[i] = (y[i] - b[i] * x[i+1]) / d[i]].
    The new ratings are [newR[i] = r[i] - x[i]], and they are what a
    returning call has committed.  When every pivot [d[i]] is nonzero,
    [h * x = g]. *)
Theorem thomas_newton_step (p : Player.t) (D1 D2 : nat -> R) :
  (1 < ndays p)%nat ->
  derivativesAre p D1 D2 ->
  exists h g p1,
    let n := ndays p in
    let r := ratings p in
    let lu := Player.luDecompositionTridiagonal h n in
    let a := LU.a lu in
    let d := LU.d lu in
    let b := LU.b lu in
    let y := Player.forwardSubstitution g a n in
    let x := Player.backSubstitution y d b n in
    let newR := Player.newRatings r x in
    (* the assembled system, and the call *)
    Player.hessian (Player.computeSigma2 p) (cleared p) = (Return h, p1)
    /\ Player.gradient r (Player.computeSigma2 p) p1 = (Return g, p1)
    /\ Player.runOneNewtonIteration p = commitOrThrow newR p1
    (* elimination *)
    /\ at_ d 0 = at2 h 0 0
    /\ (forall i, (1 <= i < n)%nat ->
                  at_ a i = at2 h i (i - 1) / at_ d (i - 1)
                  /\ at_ d i = at2 h i i - at_ a i * at_ b (i - 1))
    /\ (forall i, (i < n - 1)%nat -> at_ b i = at2 h i (i + 1))
    (* forward substitution *)
    /\ at_ y 0 = at_ g 0
    /\ (forall i, (1 <= i < n)%nat -> at_ y i = at_ g i - at_ a i * at_ y (i - 1))
    (* back substitution *)
    /\ at_ x (n - 1) = at_ y (n - 1) / at_ d (n - 1)
    /\ (forall i, (i < n - 1)%nat ->
                  at_ x i = (at_ y i - at_ b i * at_ x (i + 1)) / at_ d i)
    (* the new ratings, and the commit *)
    /\ List.length newR = n
    /\ (forall i, (i < n)%nat -> at_ newR i = at_ r i - at_ x i)
    /\ (forall p', Player.runOneNewtonIteration p = (Return tt, p') ->
                   forall i, (i < n)%nat ->
                             PlayerDay.r (Player.day_ (Player.days p') i)
                             = at_ r i - at_ x i)
    (* the solve *)
    /\ ((forall i, (i < n)%nat -> at_ d i <> 0) ->
        forall i, (i < n)%nat -> rowTimes h x n i = at_ g i).
Proof.
  intros Hn HD.
  destruct (newton_system p D1 D2 Hn HD) as (p1 & Hh & Hg & Hstep & Hsame).
  cbv zeta in *.
  set (h := hessianMatrix (ndays p) (Player.computeSigma2 p) D2) in *.
  set (g := gradientVector (ndays p) (ratings p) (Player.computeSigma2 p) D1) in *.
  exists h, g, p1. cbv zeta.
  assert (Hpos : (0 < ndays p)%nat) by lia.
  assert (Hlenr : List.length (ratings p) = ndays p)
    by (unfold ratings, ndays; apply length_map).
  pose proof (luDecompositionTridiagonal_spec h (ndays p) Hpos) as (Hd0 & Hlu & Hb).
  pose proof (forwardSubstitution_spec h g (ndays p)) as Hfwd.
  pose proof (backSubstitution_spec h g (ndays p) Hpos) as Hbwd.
  cbv zeta in Hfwd, Hbwd. destruct Hfwd as (Hy0 & Hy). destruct Hbwd as (Hxl & Hx).
  split; [exact Hh|]. split; [exact Hg|]. split; [exact Hstep|].
  split; [exact Hd0|]. split; [exact Hlu|]. split; [exact Hb|].
  split; [exact Hy0|]. split; [exact Hy|].
  split; [exact Hxl|]. split; [exact Hx|].
  split; [rewrite newRatings_length; exact Hlenr|].
  split; [intros i Hi; apply newRatings_at; rewrite Hlenr; exact Hi|].
  split.
  - intros p' Hrun i Hi. rewrite Hstep in Hrun.
    destruct (committed_ratings p p1 p' _ Hsame Hrun) as (_ & Hdays).
    destruct (Hdays i Hi) as (Hr & _). rewrite Hr.
    apply newRatings_at. rewrite Hlenr. exact Hi.
  - intros Hpiv i Hi.
    apply (thomas_solves h g (ndays p) Hpos); auto.
    apply hessianMatrix_tridiagonal.
Qed.

(** C3, as the code has it.  For a trajectory with [n > 1] days:
    - whenever the step throws, for whatever reason, no rating has been
      written ([r], and everything but the memo fields, is as before);
    - when every day's derivatives evaluate, so that the update [newR] is
      computed, the step either returns or throws
      [UnstableRatingException]; it throws if and only if some
      [newR[i] > 650]; and when it returns, every day's [r] has been
      overwritten with [newR[i]], nothing else being changed. *)
Theorem stability_check_outcome (p : Player.t) :
  (1 < ndays p)%nat ->
  (forall e p', Player.runOneNewtonIteration p = (Throw e, p') ->
                same_player p p' /\ ratings p' = ratings p)
  /\ (forall D1 D2,
         derivativesAre p D1 D2 ->
         exists h g p1,
           let n := ndays p in
           let r := ratings p in
           let newR := Player.newRatings r (Player.newtonDirection h g n) in
           Player.hessian (Player.computeSigma2 p) (cleared p) = (Return h, p1)
           /\ Player.gradient r (Player.computeSigma2 p) p1 = (Return g, p1)
           /\ List.length newR = n
           /\ ((exists message p',
                   Player.runOneNewtonIteration p
                   = (Throw (UnstableRatingException message), p'))
               <-> (exists i, (i < n)%nat /\ at_ newR i > 650))
           /\ (forall e p', Player.runOneNewtonIteration p = (Throw e, p') ->
                            isUnstable e = true)
           /\ ((exists p', Player.runOneNewtonIteration p = (Return tt, p'))
               <-> ~ (exists i, (i < n)%nat /\ at_ newR i > 650))
           /\ (forall p', Player.runOneNewtonIteration p = (Return tt, p') ->
                          ndays p' = n
                          /\ forall i, (i < n)%nat ->
                               PlayerDay.r (Player.day_ (Player.days p') i)
                               = at_ newR i
                               /\ same_frame (Player.day_ (Player.days p) i)
                                             (Player.day_ (Player.days p') i)
                               /\ PlayerDay.uncertainty
                                    (Player.day_ (Player.days p') i)
                                  = PlayerDay.uncertainty
                                      (Player.day_ (Player.days p) i))).
Proof.
  intros Hn. split.
  - intros e p' Hrun.
    pose proof (runOneNewtonIteration_throw p p' e Hn Hrun) as Hs.
    split; [exact Hs|]. apply same_player_ratings in Hs. tauto.
  - intros D1 D2 HD.
    destruct (newton_system p D1 D2 Hn HD) as (p1 & Hh & Hg & Hstep & Hsame).
    cbv zeta in *.
    set (h := hessianMatrix (ndays p) (Player.computeSigma2 p) D2) in *.
    set (g := gradientVector (ndays p) (ratings p) (Player.computeSigma2 p) D1) in *.
    exists h, g, p1. cbv zeta.
    set (newR := Player.newRatings (ratings p)
                   (Player.newtonDirection h g (ndays p))) in *.
    assert (Hlen : List.length newR = ndays p).
    { unfold newR. rewrite newRatings_length. unfold ratings, ndays.
      apply length_map. }
    split; [exact Hh|]. split; [exact Hg|]. split; [exact Hlen|].
    rewrite Hstep. rewrite <- Hlen.
    destruct (commitOrThrow_cases newR p1) as [[Hex E]|[Hno E]]; rewrite E.
    + split; [|split; [|split]].
      * split; [intros _; exact Hex|]. intros _. eauto.
      * intros e p' Ee. injection Ee as <- _. reflexivity.
      * split; [intros [q Ee]; discriminate|]. intros Hno. contradiction.
      * intros p' Ee. discriminate.
    + split; [|split; [|split]].
      * split; [intros (m & q & Ee); discriminate|]. intros Hex. contradiction.
      * intros e p' Ee. discriminate.
      * split; [intros _; exact Hno|]. intros _. eauto.
      * intros p' Ee. rewrite Hlen. rewrite <- E in Ee.
        apply (committed_ratings p p1 p' newR Hsame Ee).
Qed.

End NewtonStep.

(** ** [addGame] and the list of days *)

(** A sequence of [addGame] calls on one player. *)
Definition addGames (games : list Game.t) (p : Player.t) : Player.t :=
  fold_left (fun p game => fst (Player.addGame game p)) games p.

Definition dayKeys (p : Player.t) : list R := map PlayerDay.day (Player.days p).

Lemma PlayerDay_addGame_frame game pd :
  PlayerDay.day (PlayerDay.addGame game pd) = PlayerDay.day pd
  /\ PlayerDay.isFirstDay (PlayerDay.addGame game pd) = PlayerDay.isFirstDay pd
  /\ PlayerDay.uncertainty (PlayerDay.addGame game pd) = PlayerDay.uncertainty pd.
Proof.
  unfold PlayerDay.addGame. destruct (PlayerDay.isWonBy game (PlayerDay.player pd));
    repeat split.
Qed.

Lemma day_last (init : list PlayerDay.t) l :
  Player.day_ (init ++ [l]) (List.length (init ++ [l]) - 1) = l.
Proof.
  unfold Player.day_. rewrite length_app. simpl.
  replace (List.length init + 1 - 1)%nat with (List.length init) by lia.
  rewrite app_nth2 by lia. rewrite Nat.sub_diag. reflexivity.
Qed.

(** The three ways [addGame] leaves the list of days. *)
Lemma addGame_cases (game : Game.t) (p : Player.t) :
  (Player.days p = []
   /\ exists pd, Player.days (fst (Player.addGame game p)) = [pd]
                 /\ PlayerDay.day pd = Game.day game
                 /\ PlayerDay.isFirstDay pd = true
                 /\ PlayerDay.uncertainty pd = sqrt 5)
  \/ (exists init l pd,
         Player.days p = init ++ [l]
         /\ PlayerDay.day l <> Game.day game
         /\ Player.days (fst (Player.addGame game p)) = init ++ [l; pd]
         /\ PlayerDay.day pd = Game.day game
         /\ PlayerDay.isFirstDay pd = false
         /\ PlayerDay.uncertainty pd = sqrt 5)
  \/ (exists init l l',
         Player.days p = init ++ [l]
         /\ PlayerDay.day l = Game.day game
         /\ Player.days (fst (Player.addGame game p)) = init ++ [l']
         /\ PlayerDay.day l' = PlayerDay.day l
         /\ PlayerDay.isFirstDay l' = PlayerDay.isFirstDay l
         /\ PlayerDay.uncertainty l' = PlayerDay.uncertainty l).
Proof.
  destruct (Player.days p) as [|d0 ds] eqn:Edays.
  - left. split; [reflexivity|].
    unfold Player.addGame. rewrite Edays. simpl.
    eexists. split; [reflexivity|].
    match goal with |- context [PlayerDay.addGame ?g ?pd] =>
      destruct (PlayerDay_addGame_frame g pd) as (E1 & E2 & E3) end.
    rewrite E1, E2, E3. repeat split; reflexivity.
  - right.
    destruct (exists_last (l := d0 :: ds)) as (init & l & Einit); [discriminate|].
    rewrite Einit in *. clear d0 ds Einit.
    unfold Player.addGame. rewrite Edays. rewrite day_last.
    assert (Elen : (List.length (init ++ [l]) =? 0)%nat = false).
    { apply Nat.eqb_neq. rewrite length_app. simpl. lia. }
    rewrite Elen. simpl orb. unfold Reqb.
    destruct (Req_dec_T (PlayerDay.day l) (Game.day game)) as [E|E]; simpl negb; cbv iota.
    + right. exists init, l.
      match goal with |- context [PlayerDay.addGame ?g ?pd] =>
        destruct (PlayerDay_addGame_frame g pd) as (E1 & E2 & E3);
        exists (PlayerDay.addGame g pd) end.
      split; [reflexivity|]. split; [exact E|]. split.
      * simpl. rewrite length_app. simpl.
        replace (List.length init + 1 - 1)%nat with (List.length init) by lia.
        apply list_update_app.
      * repeat split; assumption.
    + left. exists init, l.
      match goal with |- context [PlayerDay.addGame ?g ?pd] =>
        destruct (PlayerDay_addGame_frame g pd) as (E1 & E2 & E3);
        exists (PlayerDay.addGame g pd) end.
      split; [reflexivity|]. split; [exact E|]. split.
      * simpl. rewrite <- app_assoc. reflexivity.
      * rewrite E1, E2, E3. repeat split; reflexivity.
Qed.

(** ** The anchor flag and neighbouring days: for any order of the games *)

Definition anchoredFirst (days : list PlayerDay.t) : Prop :=
  forall i pd, nth_error days i = Some pd ->
               (PlayerDay.isFirstDay pd = true <-> i = 0%nat).

Definition neighboursDiffer (keys : list R) : Prop :=
  forall i, (S i < List.length keys)%nat -> at_ keys i <> at_ keys (S i).

Lemma nth_error_snoc {A} (xs : list A) x i v :
  nth_error (xs ++ [x]) i = Some v ->
  (nth_error xs i = Some v /\ (i < List.length xs)%nat)
  \/ (i = List.length xs /\ v = x).
Proof.
  intros E. destruct (Nat.lt_ge_cases i (List.length xs)) as [Hlt|Hge].
  - left. rewrite nth_error_app1 in E by exact Hlt. auto.
  - right. rewrite nth_error_app2 in E by exact Hge.
    destruct (i - List.length xs)%nat as [|k] eqn:Ek; simpl in E.
    + injection E as <-. split; [lia|reflexivity].
    + destruct k; discriminate.
Qed.

Lemma at_snoc_lt xs x i : (i < List.length xs)%nat -> at_ (xs ++ [x]) i = at_ xs i.
Proof. intros Hi. unfold at_. apply app_nth1. exact Hi. Qed.

Lemma at_snoc_last xs x : at_ (xs ++ [x]) (List.length xs) = x.
Proof. unfold at_. rewrite app_nth2 by lia. rewrite Nat.sub_diag. reflexivity. Qed.

Lemma addGame_anchoredFirst game p :
  anchoredFirst (Player.days p) ->
  anchoredFirst (Player.days (fst (Player.addGame game p))).
Proof.
  intros Hinv.
  destruct (addGame_cases game p)
    as [(E & pd & E' & _ & Hf & _)
       |[(init & l & pd & E & _ & E' & _ & Hf & _)
        |(init & l & l' & E & _ & E' & _ & Hf & _)]];
    rewrite E'; rewrite E in Hinv; intros i v Hi.
  - destruct i as [|[|i]]; simpl in Hi; try discriminate.
    injection Hi as <-. tauto.
  - change (init ++ [l; pd]) with (init ++ [l] ++ [pd]) in Hi.
    rewrite app_assoc in Hi.
    apply nth_error_snoc in Hi. destruct Hi as [[Hi _]|[-> ->]].
    + apply Hinv. exact Hi.
    + rewrite Hf. rewrite length_app. simpl. split; [discriminate|lia].
  - apply nth_error_snoc in Hi. destruct Hi as [[Hi Hlt]|[-> ->]].
    + apply (Hinv i v). rewrite nth_error_app1 by exact Hlt. exact Hi.
    + rewrite Hf. apply (Hinv (List.length init) l). apply nth_error_middle.
Qed.

Lemma addGame_neighboursDiffer game p :
  neighboursDiffer (dayKeys p) ->
  neighboursDiffer (dayKeys (fst (Player.addGame game p))).
Proof.
  unfold dayKeys. intros Hinv.
  destruct (addGame_cases game p)
    as [(E & pd & E' & _ & _)
       |[(init & l & pd & E & Hne & E' & Hd & _)
        |(init & l & l' & E & _ & E' & Hd & _)]];
    rewrite E'; rewrite E in Hinv.
  - intros i Hi. simpl in Hi. lia.
  - change (init ++ [l; pd]) with (init ++ [l] ++ [pd]).
    rewrite app_assoc, map_app. simpl map at 2.
    intros i Hi. rewrite length_app, length_map in Hi. simpl in Hi.
    destruct (Nat.eq_dec (S i) (List.length (init ++ [l]))) as [Ei|Ei].
    + rewrite <- (length_map PlayerDay.day) in Ei. rewrite Ei, at_snoc_last.
      rewrite at_snoc_lt by lia.
      rewrite length_map, length_app in Ei. simpl in Ei.
      replace i with (List.length (map PlayerDay.day init)) by (rewrite length_map; lia).
      rewrite map_app. simpl. rewrite at_snoc_last. rewrite Hd. exact Hne.
    + rewrite !at_snoc_lt by (rewrite length_map; lia).
      apply Hinv. rewrite length_map. lia.
  - rewrite map_app in *. simpl in *. rewrite Hd. exact Hinv.
Qed.

Lemma addGames_snoc games game p :
  addGames (games ++ [game]) p = fst (Player.addGame game (addGames games p)).
Proof. unfold addGames. rewrite fold_left_app. reflexivity. Qed.

(** ** Games that arrive in day order *)

Lemma StronglySorted_snoc (keys : list R) (k : R) :
  StronglySorted Rlt keys -> Forall (fun x => x < k) keys ->
  StronglySorted Rlt (keys ++ [k]).
Proof.
  induction 1 as [|x keys Hs IH Hx]; intros Hall; simpl.
  - constructor; constructor.
  - inversion Hall; subst. constructor.
    + apply IH. assumption.
    + apply Forall_app. split; [assumption|]. constructor; [assumption|constructor].
Qed.

Lemma StronglySorted_snoc_inv (keys : list R) (k : R) :
  StronglySorted Rlt (keys ++ [k]) -> Forall (fun x => x < k) keys.
Proof.
  induction keys as [|x keys IH]; simpl; intros Hs; [constructor|].
  inversion Hs as [|? ? Hs' Hx]; subst. constructor.
  - apply Forall_app in Hx. destruct Hx as [_ Hx]. inversion Hx; assumption.
  - apply IH. exact Hs'.
Qed.

Lemma StronglySorted_Rlt_NoDup (keys : list R) :
  StronglySorted Rlt keys -> NoDup keys.
Proof.
  induction 1 as [|x keys Hs IH Hx]; constructor; [|exact IH].
  intros Hin. rewrite Forall_forall in Hx. specialize (Hx x Hin). lra.
Qed.

Lemma addGame_sorted game p :
  StronglySorted Rlt (dayKeys p) ->
  Forall (fun k => k <= Game.day game) (dayKeys p) ->
  StronglySorted Rlt (dayKeys (fst (Player.addGame game p)))
  /\ Forall (fun k => In k (dayKeys p) \/ k = Game.day game)
            (dayKeys (fst (Player.addGame game p))).
Proof.
  unfold dayKeys. intros Hs Hle.
  destruct (addGame_cases game p)
    as [(E & pd & E' & Hd & _)
       |[(init & l & pd & E & Hne & E' & Hd & _)
        |(init & l & l' & E & _ & E' & Hd & _)]];
    rewrite E'; rewrite E in Hs, Hle |- *.
  - simpl. rewrite Hd. split.
    + constructor; constructor.
    + constructor; [right; reflexivity|constructor].
  - change (init ++ [l; pd]) with (init ++ [l] ++ [pd]).
    rewrite app_assoc, map_app.
    change (map PlayerDay.day [pd]) with [PlayerDay.day pd]. rewrite Hd. split.
    + apply StronglySorted_snoc; [exact Hs|].
      rewrite map_app in Hs, Hle |- *. simpl in Hs, Hle |- *.
      apply StronglySorted_snoc_inv in Hs.
      apply Forall_app in Hle. destruct Hle as [_ Hl]. inversion Hl; subst.
      apply Forall_app. split.
      * eapply Forall_impl; [|exact Hs]. simpl. intros k Hk. lra.
      * constructor; [lra|constructor].
    + apply Forall_app. split.
      * rewrite Forall_forall. intros k Hk. left. exact Hk.
      * constructor; [right; reflexivity|constructor].
  - rewrite map_app in Hs |- *.
    change (map PlayerDay.day [l']) with [PlayerDay.day l'].
    change (map PlayerDay.day [l]) with [PlayerDay.day l] in Hs |- *.
    rewrite Hd. split; [exact Hs|].
    rewrite Forall_forall. intros k Hk. left. rewrite map_app. exact Hk.
Qed.

Lemma addGames_sorted games :
  forall p,
    StronglySorted Rlt (dayKeys p) ->
    (forall k game, In k (dayKeys p) -> In game games -> k <= Game.day game) ->
    StronglySorted Rle (map Game.day games) ->
    StronglySorted Rlt (dayKeys (addGames games p)).
Proof.
  induction games as [|game games IH]; intros p Hs Hle Hgames; [exact Hs|].
  simpl in Hgames. inversion Hgames as [|? ? Hrest Hfirst]; subst.
  change (addGames (game :: games) p)
    with (addGames games (fst (Player.addGame game p))).
  destruct (addGame_sorted game p Hs) as [Hs' Hkeys].
  { rewrite Forall_forall. intros k Hk. apply (Hle k game Hk). left. reflexivity. }
  apply IH; [exact Hs'| |exact Hrest].
  intros k game' Hk Hin. rewrite Forall_forall in Hkeys.
  destruct (Hkeys k Hk) as [Hold | ->].
  - apply (Hle k game' Hold). right. exact Hin.
  - rewrite Forall_forall in Hfirst. apply Hfirst. apply in_map. exact Hin.
Qed.

Lemma addGames_invariants games :
  forall p,
    anchoredFirst (Player.days p) -> neighboursDiffer (dayKeys p) ->
    anchoredFirst (Player.days (addGames games p))
    /\ neighboursDiffer (dayKeys (addGames games p)).
Proof.
  induction games as [|game games IH]; intros p H1 H2; [auto|].
  change (addGames (game :: games) p)
    with (addGames games (fst (Player.addGame game p))).
  apply IH; [apply addGame_anchoredFirst|apply addGame_neighboursDiffer]; assumption.
Qed.

(** C4, as the code has it.  After any sequence of [addGame] calls on a new
    player, exactly the first day of the list is the anchor
    ([isFirstDay = true]) and two neighbouring days are never equal.  The
    list is compared with its last entry only: when the games arrive in
    non-decreasing day order the days are strictly increasing, hence unique. *)
Theorem addGame_days_invariant (name : string) (config_w2 : option R)
        (games : list Game.t) :
  anchoredFirst (Player.days (addGames games (Player.new_ name config_w2)))
  /\ neighboursDiffer (dayKeys (addGames games (Player.new_ name config_w2)))
  /\ (Sorted Rle (map Game.day games) ->
      StronglySorted Rlt (dayKeys (addGames games (Player.new_ name config_w2)))
      /\ NoDup (dayKeys (addGames games (Player.new_ name config_w2)))).
Proof.
  assert (H0 : anchoredFirst (Player.days (Player.new_ name config_w2))).
  { intros [|i] pd E; discriminate. }
  assert (H1 : neighboursDiffer (dayKeys (Player.new_ name config_w2))).
  { intros i Hi. simpl in Hi. lia. }
  destruct (addGames_invariants games _ H0 H1) as [Ha Hn].
  split; [exact Ha|]. split; [exact Hn|].
  intros Hsorted.
  assert (Hs : StronglySorted Rlt (dayKeys (addGames games (Player.new_ name config_w2)))).
  { apply addGames_sorted.
    - constructor.
    - intros k game Hk. destruct Hk.
    - apply Sorted_StronglySorted; [|exact Hsorted].
      intros x y z Hxy Hyz. lra. }
  split; [exact Hs|]. apply StronglySorted_Rlt_NoDup. exact Hs.
Qed.

(** Games on days 1, 2 and 1 again, in this order of arrival. *)
Definition game_on (day : R) : Game.t :=
  Game.mk day "white" "black" 0 Game.W None None None.

(** The days and the stored uncertainties of a trajectory, in list order. *)
Definition daySummary (p : Player.t) : list (R * R) :=
  map (fun d => (PlayerDay.day d, PlayerDay.uncertainty d)) (Player.days p).

(** A game on a day other than the last one of the list opens a new day. *)
Lemma addGame_opens_day (game : Game.t) (p : Player.t) (s : list (R * R)) :
  daySummary p = s ->
  (s = [] \/ exists init k u, s = init ++ [(k, u)] /\ k <> Game.day game) ->
  daySummary (fst (Player.addGame game p)) = s ++ [(Game.day game, sqrt 5)].
Proof.
  unfold daySummary. intros Es Hs.
  destruct (addGame_cases game p)
    as [(E & pd & E' & Hd & _ & Hu)
       |[(init & l & pd & E & Hne & E' & Hd & _ & Hu)
        |(init & l & l' & E & Heq & E' & Hd & _ & Hu)]];
    rewrite E'; rewrite E in Es; subst s.
  - simpl. rewrite Hd, Hu. reflexivity.
  - change (init ++ [l; pd]) with (init ++ [l] ++ [pd]).
    rewrite app_assoc, map_app. simpl map at 2. rewrite Hd, Hu. reflexivity.
  - exfalso. destruct Hs as [Hs|(init' & k & u & Hs & Hk)].
    + rewrite map_app in Hs. destruct (map _ init); discriminate.
    + rewrite map_app in Hs. simpl in Hs.
      apply app_inj_tail in Hs. destruct Hs as [_ Hs]. injection Hs as <- _.
      contradiction.
Qed.

Lemma dayKeys_summary p : dayKeys p = map fst (daySummary p).
Proof. unfold dayKeys, daySummary. rewrite map_map. reflexivity. Qed.

Lemma addGames_cons game games p :
  addGames (game :: games) p = addGames games (fst (Player.addGame game p)).
Proof. reflexivity. Qed.

Lemma addGames_nil p : addGames [] p = p.
Proof. reflexivity. Qed.

Lemma addGames_out_of_order :
  dayKeys (addGames [game_on 1; game_on 2; game_on 1] (Player.new_ "white" None))
  = [1; 2; 1].
Proof.
  rewrite dayKeys_summary.
  rewrite !addGames_cons, addGames_nil.
  assert (S1 : daySummary (fst (Player.addGame (game_on 1) (Player.new_ "white" None)))
               = [(1, sqrt 5)]).
  { exact (addGame_opens_day _ (Player.new_ "white" None) []
                              eq_refl (or_introl eq_refl)). }
  assert (S2 : daySummary
                 (fst (Player.addGame (game_on 2)
                    (fst (Player.addGame (game_on 1) (Player.new_ "white" None)))))
               = [(1, sqrt 5); (2, sqrt 5)]).
  { refine (addGame_opens_day (game_on 2) _ [(1, sqrt 5)] S1 _).
    right. exists [], 1, (sqrt 5). split; [reflexivity|]. simpl. lra. }
  rewrite (addGame_opens_day (game_on 1) _ _ S2).
  - reflexivity.
  - right. exists [(1, sqrt 5)], 2, (sqrt 5). split; [reflexivity|]. simpl. lra.
Qed.

(** The days list is neither increasing nor free of duplicates then. *)
Lemma days_not_increasing_counterexample :
  ~ StronglySorted Rlt
      (dayKeys (addGames [game_on 1; game_on 2; game_on 1] (Player.new_ "white" None)))
  /\ ~ NoDup
       (dayKeys (addGames [game_on 1; game_on 2; game_on 1] (Player.new_ "white" None))).
Proof.
  rewrite addGames_out_of_order. split.
  - intros Hs. inversion Hs as [|? ? Hs1 _]; subst.
    inversion Hs1 as [|? ? _ H2]; subst. inversion H2; subst. lra.
  - intros Hnd. inversion Hnd as [|? ? Hnotin _]; subst.
    apply Hnotin. right. left. reflexivity.
Qed.

(** ** Interpolation between two known days *)

Lemma find_seq_first (f : nat -> bool) (i : nat) :
  forall start len,
    (start <= i < start + len)%nat ->
    f i = true ->
    (forall j, (start <= j < i)%nat -> f j = false) ->
    find f (seq start len) = Some i.
Proof.
  intros start len. revert start. induction len as [|len IH]; intros start Hi Hf Hbefore.
  - lia.
  - simpl. destruct (Nat.eq_dec start i) as [->|Hne].
    + rewrite Hf. reflexivity.
    + rewrite (Hbefore start) by lia. apply IH; [lia|exact Hf|].
      intros j Hj. apply Hbefore. lia.
Qed.

(** The test of the search loop of [interpolateRating]. *)
Definition brackets (p : Player.t) (timePoint : R) (i : nat) : Prop :=
  dayOf p i <= timePoint <= dayOf p (i + 1).

Lemma brackets_test p t i :
  (Rleb (PlayerDay.day (Player.day_ (Player.days p) i)) t
   && Rgeb (PlayerDay.day (Player.day_ (Player.days p) (i + 1))) t) = true
  <-> brackets p t i.
Proof.
  unfold brackets, dayOf, Rleb, Rgeb.
  destruct (Rle_dec (PlayerDay.day (Player.day_ (Player.days p) i)) t);
    destruct (Rge_dec (PlayerDay.day (Player.day_ (Player.days p) (i + 1))) t);
    simpl; split; intros Hx; try discriminate; try reflexivity; try lra.
Qed.

Lemma StronglySorted_at (keys : list R) :
  StronglySorted Rlt keys ->
  forall i j, (i < j)%nat -> (j < List.length keys)%nat -> at_ keys i < at_ keys j.
Proof.
  induction 1 as [|x keys Hs IH Hx]; intros i j Hij Hj; simpl in Hj; [lia|].
  destruct j as [|j]; [lia|]. destruct i as [|i].
  - unfold at_. simpl. rewrite Forall_forall in Hx. apply Hx.
    apply nth_In. lia.
  - unfold at_ in *. simpl. apply IH; lia.
Qed.

Lemma dayOf_at p i : (i < ndays p)%nat -> dayOf p i = at_ (dayKeys p) i.
Proof.
  intros Hi. unfold dayOf, dayKeys, at_, Player.day_.
  rewrite (nth_indep _ 0 (PlayerDay.day (PlayerDay.new_ "" 0)))
    by (rewrite length_map; exact Hi).
  symmetry. apply map_nth.
Qed.

(** In an increasing list of days only one pair brackets a time strictly
    inside it. *)
Lemma sorted_first_bracket p t i :
  StronglySorted Rlt (dayKeys p) ->
  (S i < ndays p)%nat -> dayOf p i < t ->
  forall j, (j < i)%nat -> ~ brackets p t j.
Proof.
  intros Hs Hi Ht j Hj [_ Hb].
  assert (Hle : dayOf p (j + 1) <= dayOf p i).
  { destruct (Nat.eq_dec (j + 1) i) as [->|Hne]; [lra|].
    rewrite !dayOf_at by lia. left.
    apply (StronglySorted_at _ Hs); [lia|]. unfold dayKeys. rewrite length_map.
    unfold ndays in Hi. lia. }
  lra.
Qed.

(** The variance of the claim, with the cross term left out. *)
Definition bridgeVariance (t1 t2 t s1 s2 w2 : R) : R :=
  ((t2 - t) * (t - t1) / (t2 - t1)) * w2
  + ((t2 - t) ^ 2 * s1 ^ 2 + (t - t1) ^ 2 * s2 ^ 2) / (t2 - t1) ^ 2.

Lemma bridgeVariance_nonneg t1 t2 t s1 s2 w2 :
  t1 < t < t2 -> 0 <= w2 -> 0 <= bridgeVariance t1 t2 t s1 s2 w2.
Proof.
  intros [H1 H2] Hw. unfold bridgeVariance.
  assert (HA : 0 < t2 - t) by lra. assert (HB : 0 < t - t1) by lra.
  assert (HC : 0 < t2 - t1) by lra.
  apply Rplus_le_le_0_compat.
  - apply Rmult_le_pos; [|exact Hw]. unfold Rdiv.
    apply Rmult_le_pos; [apply Rmult_le_pos; lra|].
    left. apply Rinv_0_lt_compat. exact HC.
  - unfold Rdiv. apply Rmult_le_pos.
    + apply Rplus_le_le_0_compat; apply Rmult_le_pos; apply pow2_ge_0.
    + left. apply Rinv_0_lt_compat. apply pow_lt. exact HC.
Qed.

Lemma interpolateRating_first_bracket (p : Player.t) (t : R) (i : nat) :
  (S i < ndays p)%nat ->
  dayOf p i < t < dayOf p (i + 1) ->
  (forall j, (j < i)%nat -> ~ brackets p t j) ->
  0 <= Player.w2 p ->
  let t1 := Player.day_ (Player.days p) i in
  let t2 := Player.day_ (Player.days p) (i + 1) in
  let mu := (PlayerDay.r t1 * (PlayerDay.day t2 - t)
             + PlayerDay.r t2 * (t - PlayerDay.day t1))
            / (PlayerDay.day t2 - PlayerDay.day t1) in
  let variance :=
    bridgeVariance (PlayerDay.day t1) (PlayerDay.day t2) t
                   (PlayerDay.uncertainty t1) (PlayerDay.uncertainty t2)
                   (Player.w2 p) in
  Estimate.elo (Player.interpolateRating p t) = mu * 400 / ln 10
  /\ Estimate.uncertainty (Player.interpolateRating p t) = sqrt variance
  /\ Estimate.uncertainty (Player.interpolateRating p t) ^ 2 = variance.
Proof.
  intros Hi Ht Hfirst Hw t1 t2 mu variance.
  unfold Player.interpolateRating.
  fold (ndays p).
  replace (ndays p =? 0)%nat with false by (symmetry; apply Nat.eqb_neq; lia).
  replace (ndays p =? 1)%nat with false by (symmetry; apply Nat.eqb_neq; lia).
  rewrite (find_seq_first _ i).
  - fold t1 t2. cbn [Estimate.elo Estimate.uncertainty].
    assert (Hv : 0 <= variance).
    { apply bridgeVariance_nonneg; [exact Ht|exact Hw]. }
    assert (Ev : PlayerDay.day t2 - PlayerDay.day t1 <> 0).
    { unfold dayOf in Ht. fold t1 t2 in Ht. lra. }
    match goal with |- _ /\ sqrt (Rmax 0 ?V) = _ /\ _ =>
      assert (EV : V = variance) end.
    { unfold variance, bridgeVariance. field. exact Ev. }
    rewrite EV. rewrite Rmax_right by exact Hv.
    split; [reflexivity|]. split; [reflexivity|].
    simpl. rewrite Rmult_1_r. apply sqrt_sqrt. exact Hv.
  - lia.
  - apply brackets_test. unfold brackets. lra.
  - intros j Hj. destruct (Rleb _ _ && Rgeb _ _) eqn:E; [|reflexivity].
    apply brackets_test in E. exfalso. apply (Hfirst j); [lia|exact E].
Qed.

(** C7, as the code has it.  The player has at least two days; [t] lies
    strictly between the neighbouring days [t1 = day[i]] and [t2 = day[i+1]],
    and no earlier pair of neighbours brackets [t] (so it is when the days
    are strictly increasing).  Then the result has the mean
    [mu = (r1*(t2-t) + r2*(t-t1)) / (t2-t1)], reported as [mu*400/ln 10],
    and an uncertainty whose square is
    [((t2-t)*(t-t1)/(t2-t1))*w2 + ((t2-t)^2*s1^2 + (t-t1)^2*s2^2)/(t2-t1)^2];
    at the midpoint of two days one day apart with [s1 = s2 = 0] this is
    [(1/4)*w2]. *)
Theorem interpolateRating_between (p : Player.t) (t : R) (i : nat) :
  (S i < ndays p)%nat ->
  dayOf p i < t < dayOf p (i + 1) ->
  (StronglySorted Rlt (dayKeys p)
   \/ forall j, (j < i)%nat -> ~ brackets p t j) ->
  0 <= Player.w2 p ->
  let t1 := Player.day_ (Player.days p) i in
  let t2 := Player.day_ (Player.days p) (i + 1) in
  let mu := (PlayerDay.r t1 * (PlayerDay.day t2 - t)
             + PlayerDay.r t2 * (t - PlayerDay.day t1))
            / (PlayerDay.day t2 - PlayerDay.day t1) in
  let variance :=
    ((PlayerDay.day t2 - t) * (t - PlayerDay.day t1)
     / (PlayerDay.day t2 - PlayerDay.day t1)) * Player.w2 p
    + ((PlayerDay.day t2 - t) ^ 2 * PlayerDay.uncertainty t1 ^ 2
       + (t - PlayerDay.day t1) ^ 2 * PlayerDay.uncertainty t2 ^ 2)
      / (PlayerDay.day t2 - PlayerDay.day t1) ^ 2 in
  Estimate.elo (Player.interpolateRating p t) = mu * 400 / ln 10
  /\ Estimate.uncertainty (Player.interpolateRating p t) = sqrt variance
  /\ Estimate.uncertainty (Player.interpolateRating p t) ^ 2 = variance
  /\ (PlayerDay.day t2 = PlayerDay.day t1 + 1 ->
      t = PlayerDay.day t1 + 1 / 2 ->
      PlayerDay.uncertainty t1 = 0 -> PlayerDay.uncertainty t2 = 0 ->
      Estimate.uncertainty (Player.interpolateRating p t) ^ 2
      = (1 / 4) * Player.w2 p).
Proof.
  intros Hi Ht Hfirst Hw t1 t2 mu variance.
  assert (Hfirst' : forall j, (j < i)%nat -> ~ brackets p t j).
  { destruct Hfirst as [Hs|Hf]; [|exact Hf].
    apply sorted_first_bracket; [exact Hs|exact Hi|lra]. }
  destruct (interpolateRating_first_bracket p t i Hi Ht Hfirst' Hw)
    as (Helo & Hu & Hsq).
  fold t1 t2 in Helo, Hu, Hsq. unfold bridgeVariance in Hu, Hsq.
  fold variance in Hu, Hsq.
  split; [exact Helo|]. split; [exact Hu|]. split; [exact Hsq|].
  intros E2 Et E1' E2'. rewrite Hsq. unfold variance.
  rewrite E2, Et, E1', E2'. field. lra.
Qed.

(** Games on days 0, 4, 1 and 3, in this order of arrival, and a query at
    time 2: the neighbours [1] and [3] bracket it, but the search stops at
    the earlier pair [0], [4]. *)
Definition unordered_1 : Player.t :=
  fst (Player.addGame (game_on 0) (Player.new_ "white" None)).
Definition unordered_2 : Player.t := fst (Player.addGame (game_on 4) unordered_1).
Definition unordered_3 : Player.t := fst (Player.addGame (game_on 1) unordered_2).
Definition unordered_player : Player.t :=
  fst (Player.addGame (game_on 3) unordered_3).

Lemma unordered_player_built :
  unordered_player
  = addGames [game_on 0; game_on 4; game_on 1; game_on 3] (Player.new_ "white" None).
Proof.
  rewrite !addGames_cons, addGames_nil.
  unfold unordered_player, unordered_3, unordered_2, unordered_1. reflexivity.
Qed.

Lemma unordered_player_summary :
  daySummary unordered_player = [(0, sqrt 5); (4, sqrt 5); (1, sqrt 5); (3, sqrt 5)].
Proof.
  assert (S1 : daySummary unordered_1 = [(0, sqrt 5)]).
  { exact (addGame_opens_day _ (Player.new_ "white" None) []
                              eq_refl (or_introl eq_refl)). }
  assert (S2 : daySummary unordered_2 = [(0, sqrt 5); (4, sqrt 5)]).
  { refine (addGame_opens_day (game_on 4) _ [(0, sqrt 5)] S1 _).
    right. exists [], 0, (sqrt 5). split; [reflexivity|]. simpl. lra. }
  assert (S3 : daySummary unordered_3 = [(0, sqrt 5); (4, sqrt 5); (1, sqrt 5)]).
  { refine (addGame_opens_day (game_on 1) _ [(0, sqrt 5); (4, sqrt 5)] S2 _).
    right. exists [(0, sqrt 5)], 4, (sqrt 5). split; [reflexivity|]. simpl. lra. }
  unfold unordered_player. rewrite (addGame_opens_day (game_on 3) _ _ S3).
  - reflexivity.
  - right. exists [(0, sqrt 5); (4, sqrt 5)], 1, (sqrt 5).
    split; [reflexivity|]. simpl. lra.
Qed.

Lemma unordered_player_days :
  exists d0 d1 d2 d3,
    Player.days unordered_player = [d0; d1; d2; d3]
    /\ PlayerDay.day d0 = 0 /\ PlayerDay.day d1 = 4
    /\ PlayerDay.day d2 = 1 /\ PlayerDay.day d3 = 3
    /\ PlayerDay.uncertainty d0 = sqrt 5 /\ PlayerDay.uncertainty d1 = sqrt 5
    /\ PlayerDay.uncertainty d2 = sqrt 5 /\ PlayerDay.uncertainty d3 = sqrt 5.
Proof.
  pose proof unordered_player_summary as Hs. unfold daySummary in Hs.
  destruct (Player.days unordered_player) as [|d0 [|d1 [|d2 [|d3 [|d4 rest]]]]];
    try discriminate.
  simpl in Hs. injection Hs as E0 U0 E1 U1 E2 U2 E3 U3.
  exists d0, d1, d2, d3. repeat split; assumption.
Qed.

Lemma new_player_w2_pos name : 0 < Player.w2 (Player.new_ name None).
Proof.
  simpl. rewrite Rmult_1_r.
  assert (Hs : 0 < sqrt 300) by (apply sqrt_lt_R0; lra).
  pose proof ln10_pos as Hl.
  assert (Hq : 0 < sqrt 300 * ln 10 / 400).
  { unfold Rdiv. apply Rmult_lt_0_compat; [apply Rmult_lt_0_compat; lra|lra]. }
  apply Rmult_lt_0_compat; exact Hq.
Qed.

Lemma addGames_w2 games p : Player.w2 (addGames games p) = Player.w2 p.
Proof.
  revert p. induction games as [|game games IH]; intros p; [reflexivity|].
  change (addGames (game :: games) p)
    with (addGames games (fst (Player.addGame game p))).
  rewrite IH. reflexivity.
Qed.

(** The claim of C7 fails on this trajectory: [2] lies strictly between the
    neighbouring days [1] and [3] and is no known day, yet the squared
    uncertainty is not the variance computed from these two days. *)
Lemma interpolation_counterexample :
  (3 < ndays unordered_player)%nat
  /\ dayOf unordered_player 2 < 2 < dayOf unordered_player 3
  /\ ~ In 2 (dayKeys unordered_player)
  /\ Estimate.uncertainty (Player.interpolateRating unordered_player 2) ^ 2
     <> bridgeVariance (dayOf unordered_player 2) (dayOf unordered_player 3) 2
          (PlayerDay.uncertainty (Player.day_ (Player.days unordered_player) 2))
          (PlayerDay.uncertainty (Player.day_ (Player.days unordered_player) 3))
          (Player.w2 unordered_player).
Proof.
  assert (Hw : 0 < Player.w2 unordered_player).
  { rewrite unordered_player_built, addGames_w2. apply new_player_w2_pos. }
  destruct unordered_player_days
    as (d0 & d1 & d2 & d3 & Ed & E0 & E1 & E2 & E3 & U0 & U1 & U2 & U3).
  generalize dependent unordered_player. intros p Hw Ed.
  assert (Hfirst : forall j, (j < 0)%nat -> ~ brackets p 2 j)
    by (intros j Hj; lia).
  assert (Hn : (1 < ndays p)%nat).
  { unfold ndays. rewrite Ed. simpl. lia. }
  assert (Hb : dayOf p 0 < 2 < dayOf p (0 + 1)).
  { unfold dayOf, Player.day_. rewrite Ed. simpl. rewrite E0, E1. lra. }
  destruct (interpolateRating_first_bracket p 2 0 Hn Hb Hfirst ltac:(lra))
    as (_ & _ & Hsq).
  rewrite Hsq. unfold dayOf, dayKeys, ndays, Player.day_. rewrite Ed. simpl.
  rewrite E0, E1, E2, E3, U0, U1, U2, U3.
  split; [lia|]. split; [lra|]. split.
  - intros [Hx|[Hx|[Hx|[Hx|[]]]]]; lra.
  - unfold bridgeVariance.
    assert (H5 : sqrt 5 ^ 2 = 5).
    { simpl. rewrite Rmult_1_r. apply sqrt_sqrt. lra. }
    rewrite H5. lra.
Qed.

(** ** The rating history *)

Lemma Math_round_nearest (x : R) :
  exists z : Z, Math_round x = IZR z /\ x - 1 / 2 < IZR z <= x + 1 / 2.
Proof.
  unfold Math_round. exists (Zfloor (x + 1 / 2)). split; [reflexivity|].
  pose proof (Zfloor_bound (x + 1 / 2)). lra.
Qed.

(** C10.  Entry [i] of [getRatingHistory()] is the triple of day [i]'s
    [day], its Elo rating rounded to the nearest integer, and its stored
    uncertainty times 100, rounded; the list has one entry per day. *)
Theorem getRatingHistory_entry (p : Player.t) (i : nat) (pd : PlayerDay.t) :
  nth_error (Player.days p) i = Some pd ->
  nth_error (Player.getRatingHistory p) i
  = Some (PlayerDay.day pd,
          Math_round (PlayerDay.elo pd),
          Math_round (PlayerDay.uncertainty pd * 100))
  /\ List.length (Player.getRatingHistory p) = ndays p
  /\ (exists z : Z,
         Math_round (PlayerDay.elo pd) = IZR z
         /\ PlayerDay.elo pd - 1 / 2 < IZR z <= PlayerDay.elo pd + 1 / 2)
  /\ (exists z : Z,
         Math_round (PlayerDay.uncertainty pd * 100) = IZR z
         /\ PlayerDay.uncertainty pd * 100 - 1 / 2 < IZR z
            <= PlayerDay.uncertainty pd * 100 + 1 / 2).
Proof.
  intros E. unfold Player.getRatingHistory. split; [|split; [|split]].
  - rewrite nth_error_map, E. reflexivity.
  - apply length_map.
  - apply Math_round_nearest.
  - apply Math_round_nearest.
Qed.

(** ** The covariance pass *)


Section ReverseElimination.
Variable h : list (list R).
Variable n : nat.

Let lup := Player.reverseElimination h n.
Let ap := LUp.ap lup.
Let dp := LUp.dp lup.
Let bp := LUp.bp lup.



End ReverseElimination.

(** ** Signs of the pivots of a Hessian *)

Lemma pivot_step (B d : R) : 0 < B -> d < - B -> - (B / d * B) < B.
Proof.
  intros HB Hd. unfold Rdiv.
  assert (Hq : / d < 0) by (apply Rinv_lt_0_compat; lra).
  assert (Hdq : d * / d = 1) by (apply Rinv_r; lra).
  assert (H1 : 0 < (d + B) * / d) by nra.
  assert (H2 : -1 < B * / d) by nra.
  nra.
Qed.

Section PivotSigns.
Variable n : nat.
Variable sigma2 : list R.
Variable D2 : nat -> R.
Hypothesis n_pos : (0 < n)%nat.
Hypothesis D2_nonpos : forall i, (i < n)%nat -> D2 i <= 0.
Hypothesis sigma2_pos : forall i, (i < n - 1)%nat -> 0 < at_ sigma2 i.

Let h := hessianMatrix n sigma2 D2.
Let lu := Player.luDecompositionTridiagonal h n.
Let lup := Player.reverseElimination h n.
Let v := Player.varianceVector lu lup n.

Let B (i : nat) : R := 1 / at_ sigma2 i.

Lemma B_pos i : (i < n - 1)%nat -> 0 < B i.
Proof.
  intros Hi. unfold B, Rdiv. rewrite Rmult_1_l.
  apply Rinv_0_lt_compat. apply sigma2_pos. exact Hi.
Qed.

Lemma h_diag i :
  (i < n)%nat ->
  at2 h i i = D2 i + (if (i <? n - 1)%nat then - B i else 0)
              + (if (0 <? i)%nat then - B (i - 1) else 0) - 0.001.
Proof.
  intros Hi. unfold h, hessianMatrix.
  rewrite (at2_map_seq _ _ _ _ _ Hi Hi). unfold hessianValue, B.
  rewrite Nat.eqb_refl.
  destruct (i <? n - 1)%nat; destruct (0 <? i)%nat; lra.
Qed.

Lemma h_super i : (i < n - 1)%nat -> at2 h i (i + 1) = B i.
Proof.
  intros Hi. unfold h, hessianMatrix.
  rewrite at2_map_seq by lia. unfold hessianValue, B.
  replace (i =? i + 1)%nat with false by (symmetry; apply Nat.eqb_neq; lia).
  replace (S i =? i + 1)%nat with true by (symmetry; apply Nat.eqb_eq; lia).
  reflexivity.
Qed.

Lemma h_sub i : (i < n - 1)%nat -> at2 h (i + 1) i = B i.
Proof.
  intros Hi. unfold h, hessianMatrix.
  rewrite at2_map_seq by lia. unfold hessianValue, B.
  replace (i + 1 =? i)%nat with false by (symmetry; apply Nat.eqb_neq; lia).
  replace (S (i + 1) =? i)%nat with false by (symmetry; apply Nat.eqb_neq; lia).
  replace (i + 1 =? S i)%nat with true by (symmetry; apply Nat.eqb_eq; lia).
  reflexivity.
Qed.

(** The forward pivots stay below minus the next coupling. *)
Lemma forward_pivot_bound i :
  (i < n)%nat ->
  at_ (LU.d lu) i < - (if (i <? n - 1)%nat then B i else 0).
Proof.
  destruct (luDecompositionTridiagonal_spec h n n_pos) as (Hd0 & Hrec & Hb).
  fold lu in Hd0, Hrec, Hb.
  induction i as [|i IH]; intros Hi.
  - rewrite Hd0, h_diag by lia. pose proof (D2_nonpos 0%nat Hi).
    replace (0 <? 0)%nat with false by reflexivity.
    destruct (0 <? n - 1)%nat; lra.
  - specialize (IH ltac:(lia)).
    replace (i <? n - 1)%nat with true in IH by (symmetry; apply Nat.ltb_lt; lia).
    replace (S i) with (i + 1)%nat in * by lia.
    destruct (Hrec (i + 1)%nat ltac:(lia)) as [Ha Hd].
    replace (i + 1 - 1)%nat with i in Ha, Hd by lia.
    rewrite Hd, Ha. rewrite (Hb i) by lia.
    rewrite h_sub, h_super by lia.
    rewrite h_diag by lia.
    replace (0 <? i + 1)%nat with true by (symmetry; apply Nat.ltb_lt; lia).
    replace (i + 1 - 1)%nat with i by lia.
    pose proof (D2_nonpos (i + 1)%nat Hi).
    pose proof (pivot_step (B i) (at_ (LU.d lu) i) (B_pos i ltac:(lia)) IH).
    destruct (i + 1 <? n - 1)%nat; lra.
Qed.


Lemma forward_pivot_neg i : (i < n)%nat -> at_ (LU.d lu) i < 0.
Proof.
  intros Hi. pose proof (forward_pivot_bound i Hi) as Hb.
  destruct (i <? n - 1)%nat eqn:E; [|lra].
  apply Nat.ltb_lt in E. pose proof (B_pos i E). lra.
Qed.




End PivotSigns.

(** ** When the Hessian can be built *)

Lemma mapM_prefix_throw {S A B} (f : A -> M S B) xs k ys :
  forall s l s1 e s2,
    mapM f xs s = (Return l, s1) -> f k s1 = (Throw e, s2) ->
    mapM f (xs ++ k :: ys) s = (Throw e, s2).
Proof.
  induction xs as [|x xs IH]; intros s l s1 e s2 Hxs Hk; simpl in *.
  - unfold ret in Hxs. injection Hxs as <- <-. unfold bind. rewrite Hk. reflexivity.
  - unfold bind in *. destruct (f x s) as [[y|e'] s'] eqn:Ex; [|discriminate].
    destruct (mapM f xs s') as [[l'|e'] s''] eqn:Exs; [|discriminate].
    unfold ret in Hxs. injection Hxs as <- <-.
    rewrite (IH s' l' s'' e s2 Exs Hk). reflexivity.
Qed.

(** The second derivative of day [i], from the terms of the days. *)
Definition d2At (days : list PlayerDay.t)
           (terms : list (list GameTerm.t * list GameTerm.t)) (i : nat) : R :=
  match nth_error days i, nth_error terms i with
  | Some pd, Some wl => d2_of (PlayerDay.gamma pd) (fst wl) (snd wl)
  | _, _ => 0
  end.

Section HessianReturns.
Context `{HostMath}.

Lemma hessian_row_throw n sigma2 done pd todo p e pd' :
  n = (List.length done + S (List.length todo))%nat ->
  loadTerms pd = (Throw e, pd') ->
  mapM (Player.hessianEntry n sigma2 (List.length done)) (seq 0 n)
       (Player.set_days (done ++ pd :: todo) p)
  = (Throw e, Player.set_days (done ++ pd' :: todo) p).
Proof.
  intros Hn Hthrow.
  apply (mapM_single_throw _ (hessianValue n sigma2 (fun _ => 0) (List.length done))
                           (List.length done)).
  - apply in_seq. lia.
  - intros x t Hx. apply hessianEntry_off_diagonal. exact Hx.
  - unfold Player.hessianEntry. rewrite Nat.eqb_refl. unfold bind.
    erewrite onDay_middle.
    2:{ rewrite logLikelihoodSecondDerivative_run, Hthrow. reflexivity. }
    reflexivity.
Qed.

Lemma days_load_or_throw (days : list PlayerDay.t) :
  (exists terms, Forall2 loads days terms)
  \/ (exists good terms bad rest e bad',
         days = good ++ bad :: rest
         /\ Forall2 loads good terms
         /\ loadTerms bad = (Throw e, bad')).
Proof.
  induction days as [|pd days IH].
  - left. exists []. constructor.
  - destruct (loadTerms pd) as [[[won lost]|e] pd'] eqn:E.
    + assert (Hpd : loads pd (won, lost)).
      { unfold loads. simpl. rewrite E. f_equal.
        apply (loadTerms_Return _ _ _ _ E). }
      destruct IH as [(terms & Hall)
                     |(good & terms & bad & rest & e & bad' & -> & Hgood & Hbad)].
      * left. exists ((won, lost) :: terms). constructor; assumption.
      * right. exists (pd :: good), ((won, lost) :: terms), bad, rest, e, bad'.
        split; [reflexivity|]. split; [constructor; assumption|exact Hbad].
    + right. exists [], [], pd, days, e, pd'.
      split; [reflexivity|]. split; [constructor|exact E].
Qed.

Lemma hessian_throws sigma2 p good terms bad rest e bad' :
  Player.days p = good ++ bad :: rest ->
  Forall2 loads good terms ->
  loadTerms bad = (Throw e, bad') ->
  exists s', Player.hessian sigma2 p = (Throw e, s').
Proof.
  intros Edays Hgood Hbad. unfold Player.hessian, bind, gets.
  set (n := List.length (Player.days p)).
  assert (Hn : n = (List.length good + S (List.length rest))%nat).
  { unfold n. rewrite Edays, length_app. reflexivity. }
  assert (Hlen : List.length good = List.length terms)
    by (eapply Forall2_length; eauto).
  assert (Eseq : seq 0 n
                 = seq 0 (List.length good)
                       ++ List.length good :: seq (S (List.length good))
                                                  (List.length rest)).
  { rewrite Hn, seq_app. reflexivity. }
  set (rowM := fun row =>
                 mapM (fun col => Player.hessianEntry n sigma2 row col) (seq 0 n)).
  rewrite Eseq. eexists.
  eapply mapM_prefix_throw.
  - pose proof (hessian_rows n sigma2 (d2At good terms) p good terms Hgood
                  [] (bad :: rest)) as Hrows.
    simpl in Hrows. rewrite <- Edays in Hrows. rewrite set_days_same in Hrows.
    apply Hrows.
    + rewrite Hn. lia.
    + intros j pd wl E1 E2. unfold d2At. rewrite E1, E2. reflexivity.
  - unfold rowM. cbv beta.
    replace (List.length good) with (List.length (loadedDays good terms))
      by (apply loadedDays_length; exact Hlen).
    apply hessian_row_throw; [|exact Hbad].
    rewrite loadedDays_length by exact Hlen. exact Hn.
Qed.


End HessianReturns.

(** ** The sign of the likelihood curvature *)

(** A term as the getters build it: [c = 1] and a positive opponent gamma. *)
Definition termOK (term : GameTerm.t) : Prop :=
  GameTerm.c term = 1 /\ 0 < GameTerm.d term.

(** The memo fields hold such terms only. *)
Definition cacheOK (pd : PlayerDay.t) : Prop :=
  (forall terms, PlayerDay._wonGameTerms pd = Some terms -> Forall termOK terms)
  /\ (forall terms, PlayerDay._lostGameTerms pd = Some terms -> Forall termOK terms).

Lemma sumSecondDerivative_nonneg gamma terms :
  0 < gamma -> Forall termOK terms ->
  0 <= PlayerDay.sumSecondDerivative gamma terms.
Proof.
  intros Hg Hterms. unfold PlayerDay.sumSecondDerivative.
  assert (Hacc : forall acc, 0 <= acc ->
            0 <= fold_left
                   (fun sum term =>
                      sum + GameTerm.c term * GameTerm.d term
                            / (GameTerm.c term * gamma + GameTerm.d term) ^ 2)
                   terms acc).
  { induction Hterms as [|term terms [Hc Hd] Hrest IH]; intros acc Hacc;
      cbn [fold_left]; [exact Hacc|].
    apply IH. rewrite Hc.
    assert (Hden : 0 < (1 * gamma + GameTerm.d term) ^ 2) by (apply pow_lt; lra).
    assert (Hq : 0 < 1 * GameTerm.d term / (1 * gamma + GameTerm.d term) ^ 2).
    { unfold Rdiv. apply Rmult_lt_0_compat; [lra|].
      apply Rinv_0_lt_compat. exact Hden. }
    lra. }
  apply Hacc. lra.
Qed.

Lemma d2_of_nonpos gamma won lost :
  0 < gamma -> Forall termOK won -> Forall termOK lost ->
  d2_of gamma won lost <= 0.
Proof.
  intros Hg Hw Hl. unfold d2_of.
  pose proof (sumSecondDerivative_nonneg gamma (won ++ lost) Hg
                ltac:(apply Forall_app; split; assumption)) as Hs.
  nra.
Qed.

Section TermsOK.
Context `{HostMath}.

Lemma mapC_wonTerm_ok player games terms :
  mapC (PlayerDay.wonTerm player) games = Return terms -> Forall termOK terms.
Proof.
  revert terms. induction games as [|game games IH]; intros terms; simpl.
  - intros E. injection E as <-. constructor.
  - unfold PlayerDay.wonTerm at 1.
    destruct (Game.opponentsAdjustedGamma game player) as [og|e] eqn:Eog;
      [|discriminate].
    destruct (mapC (PlayerDay.wonTerm player) games) as [ts|e]; [|discriminate].
    intros E. injection E as <-. constructor; [|apply IH; reflexivity].
    split; [reflexivity|]. simpl. eapply opponentsAdjustedGamma_pos, Eog.
Qed.

Lemma mapC_lostTerm_ok player games terms :
  mapC (PlayerDay.lostTerm player) games = Return terms -> Forall termOK terms.
Proof.
  revert terms. induction games as [|game games IH]; intros terms; simpl.
  - intros E. injection E as <-. constructor.
  - unfold PlayerDay.lostTerm at 1.
    destruct (Game.opponentsAdjustedGamma game player) as [og|e] eqn:Eog;
      [|discriminate].
    destruct (mapC (PlayerDay.lostTerm player) games) as [ts|e]; [|discriminate].
    intros E. injection E as <-. constructor; [|apply IH; reflexivity].
    split; [reflexivity|]. simpl. eapply opponentsAdjustedGamma_pos, Eog.
Qed.

Lemma wonGameTerms_ok pd terms pd' :
  (forall ts, PlayerDay._wonGameTerms pd = Some ts -> Forall termOK ts) ->
  PlayerDay.wonGameTerms pd = (Return terms, pd') -> Forall termOK terms.
Proof.
  intros Hcache. unfold PlayerDay.wonGameTerms. monad_unfold.
  destruct (PlayerDay._wonGameTerms pd) as [ts|] eqn:Ec.
  - intros E. injection E as <- _. apply Hcache. reflexivity.
  - destruct (mapC (PlayerDay.wonTerm (PlayerDay.player pd)) (PlayerDay.wonGames pd))
      as [mapped|e] eqn:Em; [|discriminate].
    intros E. injection E as <- _. apply mapC_wonTerm_ok in Em.
    destruct (PlayerDay.isFirstDay pd); [|exact Em].
    apply Forall_app. split; [exact Em|].
    constructor; [|constructor]. split; simpl; lra.
Qed.

Lemma lostGameTerms_ok pd terms pd' :
  (forall ts, PlayerDay._lostGameTerms pd = Some ts -> Forall termOK ts) ->
  PlayerDay.lostGameTerms pd = (Return terms, pd') -> Forall termOK terms.
Proof.
  intros Hcache. unfold PlayerDay.lostGameTerms. monad_unfold.
  destruct (PlayerDay._lostGameTerms pd) as [ts|] eqn:Ec.
  - intros E. injection E as <- _. apply Hcache. reflexivity.
  - destruct (mapC (PlayerDay.lostTerm (PlayerDay.player pd)) (PlayerDay.lostGames pd))
      as [mapped|e] eqn:Em; [|discriminate].
    intros E. injection E as <- _. apply mapC_lostTerm_ok in Em.
    destruct (PlayerDay.isFirstDay pd); [|exact Em].
    apply Forall_app. split; [exact Em|].
    constructor; [|constructor]. split; simpl; lra.
Qed.

Lemma loads_ok pd wl :
  cacheOK pd -> loads pd wl -> Forall termOK (fst wl) /\ Forall termOK (snd wl).
Proof.
  intros [Hcw Hcl]. unfold loads, loadTerms. unfold bind at 1.
  pose proof (wonGameTerms_run pd) as Hrun.
  destruct (PlayerDay.wonGameTerms pd) as [[won|e] pd1] eqn:Ew; [|discriminate].
  unfold bind at 1.
  destruct (PlayerDay.lostGameTerms pd1) as [[lost|e] pd2] eqn:El; [|discriminate].
  unfold ret. intros E. injection E as <- _. simpl. split.
  - eapply wonGameTerms_ok; eauto.
  - eapply lostGameTerms_ok; [|exact El]. subst pd1. exact Hcl.
Qed.

(** The getters leave well-formed memo fields behind. *)
Lemma loads_cacheOK pd wl :
  cacheOK pd -> loads pd wl -> cacheOK (loaded (fst wl) (snd wl) pd).
Proof.
  intros Hc Hl. destruct (loads_ok pd wl Hc Hl) as [Hw Hlost].
  split; simpl; intros ts E; injection E as <-; assumption.
Qed.

End TermsOK.

(** ** C8: the uncertainties *)





Lemma sigma2_positive (p : Player.t) :
  0 < Player.w2 p -> neighboursDiffer (dayKeys p) ->
  forall i, (i < ndays p - 1)%nat -> 0 < at_ (Player.computeSigma2 p) i.
Proof.
  intros Hw Hdiff i Hi. rewrite computeSigma2_eq.
  fold (ndays p). rewrite (at_map_seq _ _ _ Hi).
  apply Rmult_lt_0_compat; [|exact Hw].
  apply Rabs_pos_lt.
  assert (Hne : dayOf p i <> dayOf p (i + 1)).
  { rewrite !dayOf_at by lia. replace (i + 1)%nat with (S i) by lia.
    apply Hdiff. unfold dayKeys. rewrite length_map. fold (ndays p). lia. }
  unfold dayOf in Hne. lra.
Qed.

Section Uncertainty.
Context `{HostMath}.





End Uncertainty.

(** ** A sample trajectory

    The player "white" after [createGame("black", "white", "W", 1)] and
    [createGame("black", "white", "B", 3)]: a win on day 1, the anchor, and
    a loss on day 3, all ratings still at 0. *)

Definition sample_game_1 : Game.t :=
  Game.mk 1 "white" "black" 0 Game.W (Some 0) (Some 0) None.
Definition sample_game_2 : Game.t :=
  Game.mk 3 "white" "black" 0 Game.B (Some 0) (Some 0) None.
Definition sample_day_1 : PlayerDay.t :=
  PlayerDay.mk 1 "white" 0 true (sqrt 5) [sample_game_1] [] None None.
Definition sample_day_2 : PlayerDay.t :=
  PlayerDay.mk 3 "white" 0 false (sqrt 5) [] [sample_game_2] None None.
Definition sample_w2 : R := Player.w2 (Player.new_ "white" None).
Definition sample_player : Player.t :=
  Player.mk "white" [sample_day_1; sample_day_2] sample_w2.
Definition sample_single : Player.t :=
  Player.mk "white" [sample_day_1] sample_w2.

(** The opponent's gamma in both games, under exact arithmetic. *)
Definition sample_gamma : R := Rpower 10 ((Rating.elo 0 + 0) / 400).
Definition sample_terms : list (list GameTerm.t * list GameTerm.t) :=
  [([GameTerm.mk 1 0 1 sample_gamma; GameTerm.mk 1 0 1 1], [GameTerm.mk 0 1 1 1]);
   ([], [GameTerm.mk 0 sample_gamma 1 sample_gamma])].
Definition sample_D1 (i : nat) : R :=
  d1_of (exp 0) (fst (nth i sample_terms ([], []))) (snd (nth i sample_terms ([], []))).
Definition sample_D2 (i : nat) : R :=
  d2_of (exp 0) (fst (nth i sample_terms ([], []))) (snd (nth i sample_terms ([], []))).

Lemma wonTerm_exact (player : string) (g : Game.t) (rb : R) :
  Game.whitePlayer g = player -> Game.bpd g = Some rb ->
  @PlayerDay.wonTerm ExactMath player g
  = Return (GameTerm.mk 1 0 1
              (Rpower 10 ((Rating.elo rb + Game.blackAdvantage g) / 400))).
Proof.
  intros <- Eb. unfold PlayerDay.wonTerm.
  rewrite (opponentsAdjustedGamma_exact_white g rb Eb). reflexivity.
Qed.

Lemma lostTerm_exact (player : string) (g : Game.t) (rb : R) :
  Game.whitePlayer g = player -> Game.bpd g = Some rb ->
  @PlayerDay.lostTerm ExactMath player g
  = Return (GameTerm.mk 0 (Rpower 10 ((Rating.elo rb + Game.blackAdvantage g) / 400))
              1 (Rpower 10 ((Rating.elo rb + Game.blackAdvantage g) / 400))).
Proof.
  intros <- Eb. unfold PlayerDay.lostTerm.
  rewrite (opponentsAdjustedGamma_exact_white g rb Eb). reflexivity.
Qed.

Lemma sample_day_1_loads :
  @loads ExactMath (PlayerDay.clearGameTermsCache sample_day_1)
         ([GameTerm.mk 1 0 1 sample_gamma; GameTerm.mk 1 0 1 1], [GameTerm.mk 0 1 1 1]).
Proof.
  unfold loads, loadTerms, PlayerDay.wonGameTerms, PlayerDay.lostGameTerms.
  monad_unfold. cbn [PlayerDay._wonGameTerms PlayerDay._lostGameTerms
                     PlayerDay.clearGameTermsCache PlayerDay.set__wonGameTerms
                     PlayerDay.set__lostGameTerms sample_day_1 PlayerDay.wonGames
                     PlayerDay.lostGames PlayerDay.player PlayerDay.isFirstDay
                     PlayerDay.day PlayerDay.r PlayerDay.uncertainty mapC].
  rewrite (wonTerm_exact "white" sample_game_1 0 eq_refl eq_refl).
  reflexivity.
Qed.

Lemma sample_day_2_loads :
  @loads ExactMath (PlayerDay.clearGameTermsCache sample_day_2)
         ([], [GameTerm.mk 0 sample_gamma 1 sample_gamma]).
Proof.
  unfold loads, loadTerms, PlayerDay.wonGameTerms, PlayerDay.lostGameTerms.
  monad_unfold. cbn [PlayerDay._wonGameTerms PlayerDay._lostGameTerms
                     PlayerDay.clearGameTermsCache PlayerDay.set__wonGameTerms
                     PlayerDay.set__lostGameTerms sample_day_2 PlayerDay.wonGames
                     PlayerDay.lostGames PlayerDay.player PlayerDay.isFirstDay
                     PlayerDay.day PlayerDay.r PlayerDay.uncertainty mapC].
  rewrite (lostTerm_exact "white" sample_game_2 0 eq_refl eq_refl).
  reflexivity.
Qed.

Lemma loads_derivatives `{HostMath} pd wl :
  loads pd wl ->
  fst (PlayerDay.logLikelihoodDerivative pd)
  = Return (d1_of (PlayerDay.gamma pd) (fst wl) (snd wl))
  /\ fst (PlayerDay.logLikelihoodSecondDerivative pd)
     = Return (d2_of (PlayerDay.gamma pd) (fst wl) (snd wl)).
Proof.
  unfold loads. intros E.
  rewrite logLikelihoodDerivative_run, logLikelihoodSecondDerivative_run, E.
  destruct wl. split; reflexivity.
Qed.

Lemma sample_derivatives :
  @derivativesAre ExactMath sample_player sample_D1 sample_D2.
Proof.
  intros i Hi. unfold ndays in Hi. simpl in Hi.
  destruct i as [|[|i]]; [| |lia].
  - exact (@loads_derivatives ExactMath _ _ sample_day_1_loads).
  - exact (@loads_derivatives ExactMath _ _ sample_day_2_loads).
Qed.

Lemma sample_w2_pos : 0 < sample_w2.
Proof. apply new_player_w2_pos. Qed.

(** ** The theorems at the sample trajectory *)

Lemma sample_ndays : (1 < ndays sample_player)%nat.
Proof. unfold ndays. simpl. lia. Defined.

Lemma newton_system_assembly_witness :
  (1 < ndays sample_player)%nat
  /\ @derivativesAre ExactMath sample_player sample_D1 sample_D2
  /\ exists h (g : list R) p1,
      @Player.hessian ExactMath (Player.computeSigma2 sample_player)
                      (cleared sample_player) = (Return h, p1)
      /\ at_ (Player.computeSigma2 sample_player) 0
         = Rabs (dayOf sample_player 1 - dayOf sample_player 0) * sample_w2
      /\ at2 h 0 1 = 1 / at_ (Player.computeSigma2 sample_player) 0
      /\ at2 h 1 0 = 1 / at_ (Player.computeSigma2 sample_player) 0
      /\ List.length g = 2%nat.
Proof.
  split; [exact sample_ndays|]. split; [exact sample_derivatives|].
  destruct (@newton_system_assembly ExactMath sample_player sample_D1 sample_D2
              sample_ndays sample_derivatives)
    as (h & g & p1 & Hsys).
  cbv zeta in Hsys.
  destruct Hsys as (Hh & _ & _ & _ & Hs & Hg & _ & _ & _ & _ & Hoff & _).
  exists h, g, p1. split; [exact Hh|]. split.
  - apply (Hs 0%nat). unfold ndays. simpl. lia.
  - destruct (Hoff 0%nat) as [H01 H10]; [unfold ndays; simpl; lia|].
    split; [exact H01|]. split; [exact H10|exact Hg].
Defined.

Lemma thomas_newton_step_witness :
  (1 < ndays sample_player)%nat
  /\ @derivativesAre ExactMath sample_player sample_D1 sample_D2
  /\ exists h g p1,
      @Player.hessian ExactMath (Player.computeSigma2 sample_player)
                      (cleared sample_player) = (Return h, p1)
      /\ at_ (LU.d (Player.luDecompositionTridiagonal h 2)) 0 = at2 h 0 0
      /\ at_ (Player.forwardSubstitution
                g (LU.a (Player.luDecompositionTridiagonal h 2)) 2) 0
         = at_ g 0.
Proof.
  split; [exact sample_ndays|]. split; [exact sample_derivatives|].
  destruct (@thomas_newton_step ExactMath sample_player sample_D1 sample_D2
              sample_ndays sample_derivatives)
    as (h & g & p1 & Hsys).
  cbv zeta in Hsys.
  destruct Hsys as (Hh & _ & _ & Hd0 & _ & _ & Hy0 & _).
  exists h, g, p1. split; [exact Hh|]. split; [exact Hd0|exact Hy0].
Defined.

Lemma stability_check_outcome_witness :
  (1 < ndays sample_player)%nat
  /\ forall e p',
      @Player.runOneNewtonIteration ExactMath sample_player = (Throw e, p') ->
      same_player sample_player p' /\ ratings p' = ratings sample_player.
Proof.
  split; [exact sample_ndays|].
  exact (proj1 (@stability_check_outcome ExactMath sample_player sample_ndays)).
Defined.

Lemma addGame_days_invariant_witness :
  Sorted Rle (map Game.day [game_on 1; game_on 2])
  /\ StronglySorted Rlt
       (dayKeys (addGames [game_on 1; game_on 2] (Player.new_ "white" None))).
Proof.
  assert (Hs : Sorted Rle (map Game.day [game_on 1; game_on 2])).
  { simpl. repeat constructor. lra. }
  split; [exact Hs|].
  exact (proj1 (proj2 (proj2 (addGame_days_invariant "white" None
                                [game_on 1; game_on 2])) Hs)).
Defined.

(** Two trajectories to interpolate on: days 1 and 3 with ratings 1 and 3 and
    uncertainties 2 and 1, and days 1 and 2 without uncertainty; [w2 = 4]. *)
Definition bridge_player : Player.t :=
  Player.mk "white"
    [PlayerDay.mk 1 "white" 1 true 2 [] [] None None;
     PlayerDay.mk 3 "white" 3 false 1 [] [] None None] 4.
Definition certain_player : Player.t :=
  Player.mk "white"
    [PlayerDay.mk 1 "white" 1 true 0 [] [] None None;
     PlayerDay.mk 2 "white" 3 false 0 [] [] None None] 4.

Lemma interpolateRating_between_witness :
  ((1 < ndays bridge_player)%nat
   /\ dayOf bridge_player 0 < 2 < dayOf bridge_player (0 + 1)
   /\ StronglySorted Rlt (dayKeys bridge_player)
   /\ 0 <= Player.w2 bridge_player
   /\ Estimate.elo (Player.interpolateRating bridge_player 2)
      = (1 * (3 - 2) + 3 * (2 - 1)) / (3 - 1) * 400 / ln 10
   /\ Estimate.uncertainty (Player.interpolateRating bridge_player 2) ^ 2
      = (3 - 2) * (2 - 1) / (3 - 1) * 4
        + ((3 - 2) ^ 2 * 2 ^ 2 + (2 - 1) ^ 2 * 1 ^ 2) / (3 - 1) ^ 2)
  /\ ((1 < ndays certain_player)%nat
      /\ dayOf certain_player 0 < 3 / 2 < dayOf certain_player (0 + 1)
      /\ Estimate.uncertainty (Player.interpolateRating certain_player (3 / 2)) ^ 2
         = 1 / 4 * 4).
Proof.
  assert (Hn : (1 < ndays bridge_player)%nat) by (unfold ndays; simpl; lia).
  assert (Hb : dayOf bridge_player 0 < 2 < dayOf bridge_player (0 + 1)).
  { unfold dayOf, Player.day_. simpl. lra. }
  assert (Hs : StronglySorted Rlt (dayKeys bridge_player)).
  { unfold dayKeys. simpl. repeat constructor. lra. }
  assert (Hw : 0 <= Player.w2 bridge_player) by (simpl; lra).
  assert (Hn' : (1 < ndays certain_player)%nat) by (unfold ndays; simpl; lia).
  assert (Hb' : dayOf certain_player 0 < 3 / 2 < dayOf certain_player (0 + 1)).
  { unfold dayOf, Player.day_. simpl. lra. }
  assert (Hs' : StronglySorted Rlt (dayKeys certain_player)).
  { unfold dayKeys. simpl. repeat constructor. lra. }
  assert (Hw' : 0 <= Player.w2 certain_player) by (simpl; lra).
  split.
  - destruct (interpolateRating_between bridge_player 2 0 Hn Hb (or_introl Hs) Hw)
      as (Helo & _ & Hsq & _).
    repeat split; try assumption; lra.
  - destruct (interpolateRating_between certain_player (3 / 2) 0 Hn' Hb'
                (or_introl Hs') Hw') as (_ & _ & _ & Hmid).
    split; [exact Hn'|]. split; [exact Hb'|].
    apply Hmid; simpl; lra.
Defined.



(** ** C8 as stated fails: an uncertainty that is not finite

    The sample trajectory (a game won on day 1, a game lost on day 3, every
    rating 0) of a player made with [config.w2 = 1e-100], or [1e-12].  The
    second derivatives of its two days are -3/4 and -1/4, which binary64
    holds exactly. *)
Lemma sample_second_derivatives : sample_D2 0 = - (3 / 4) /\ sample_D2 1 = - (1 / 4).
Proof.
  unfold sample_D2, d2_of, PlayerDay.sumSecondDerivative. simpl.
  assert (Eg : sample_gamma = 1).
  { unfold sample_gamma, Rpower, Rating.elo.
    replace ((0 * 400 / ln 10 + 0) / 400 * ln 10) with 0
      by (unfold Rdiv; rewrite !Rmult_0_l; ring).
    apply exp_0. }
  rewrite Eg, exp_0. split; field.
Qed.

Module Binary64Samples.
Import PrimFloat.
#[local] Set Warnings "-inexact-float".
Local Open Scope float_scope.



End Binary64Samples.



Lemma single_day_newton_step_witness :
  Player.days sample_single = [sample_day_1]
  /\ exists pd',
      @Player.runOneNewtonIteration ExactMath sample_single
      = (Return tt, Player.set_days [pd'] sample_single)
      /\ PlayerDay.r pd' =
         if Rlt_dec (Rabs (sample_D2 0)) 1e-10
         then PlayerDay.r sample_day_1
         else PlayerDay.r sample_day_1 - sample_D1 0 / sample_D2 0.
Proof.
  split; [reflexivity|].
  destruct (@single_day_newton_step ExactMath sample_single sample_day_1
              (sample_D1 0) (sample_D2 0) eq_refl
              (proj1 (@loads_derivatives ExactMath _ _ sample_day_1_loads))
              (proj2 (@loads_derivatives ExactMath _ _ sample_day_1_loads)))
    as (pd' & Hrun & _ & _ & Hr).
  exists pd'. split; [exact Hrun|exact Hr].
Defined.

Lemma getRatingHistory_entry_witness :
  nth_error (Player.days sample_player) 0 = Some sample_day_1
  /\ nth_error (Player.getRatingHistory sample_player) 0
     = Some (1, Math_round (PlayerDay.elo sample_day_1), Math_round (sqrt 5 * 100)).
Proof.
  split; [reflexivity|].
  exact (proj1 (getRatingHistory_entry sample_player 0 sample_day_1 eq_refl)).
Defined.

(** ** C3 as stated fails: an instability error without an update

    The same trajectory, but the first game carries a handicap of 200000
    Elo points: [Math.pow(10, 500)] is [Infinity] on a binary64 host. *)

Definition huge_handicap_game : Game.t :=
  Game.mk 1 "white" "black" 200000 Game.W (Some 0) (Some 0) None.
Definition huge_handicap_day : PlayerDay.t :=
  PlayerDay.mk 1 "white" 0 true (sqrt 5) [huge_handicap_game] [] None None.
Definition huge_handicap_player : Player.t :=
  Player.mk "white" [huge_handicap_day; sample_day_2] sample_w2.

Lemma huge_handicap_gamma :
  @Game.opponentsAdjustedGamma RangeLimitedMath huge_handicap_game "white"
  = Throw (UnstableRatingException "Bad adjusted gamma").
Proof.
  unfold Game.opponentsAdjustedGamma, Game.opponentElo. simpl.
  unfold pow10_limited, Rating.elo, Game.blackAdvantage. simpl.
  destruct (Rlt_dec 309 ((0 * 400 / ln 10 + 200000) / 400)) as [_|Hn].
  - reflexivity.
  - exfalso. apply Hn. unfold Rdiv. rewrite !Rmult_0_l. lra.
Qed.

(** A game with a handicap of 100 Elo points between days at different
    ratings, the same game without the black player's day, and the same game
    with a callback for the handicap. *)
Definition handicap_game : Game.t :=
  Game.mk 1 "white" "black" 100 Game.W (Some 1) (Some 2) None.
Definition unattached_game : Game.t :=
  Game.mk 1 "white" "black" 100 Game.W (Some 1) None None.
Definition callback_game : Game.t :=
  Game.mk 1 "white" "black" 100 Game.W (Some 1) (Some 2) (Some (fun _ _ => 50)).

Lemma exact_guard_passes (x : R) (P Q : Prop) :
  (let rval := @Math_pow10 ExactMath x in
   if isZero rval || negb (isFinite rval) || isNaN rval then P
   else Q) -> Q.
Proof.
  cbv zeta. simpl. destruct (Req_dec_T (Rpower 10 x) 0) as [E|_]; [|auto].
  unfold Rpower in E. pose proof (exp_pos (x * ln 10)). lra.
Qed.

Lemma opponentsAdjustedGamma_spec_witness :
  (exists v,
      @Math_pow10 ExactMath ((2 * 400 / ln 10 + 100) / 400) = Finite v
      /\ @Game.opponentsAdjustedGamma ExactMath handicap_game "white" = Return v)
  /\ (exists v,
         @Math_pow10 ExactMath ((1 * 400 / ln 10 - 100) / 400) = Finite v
         /\ @Game.opponentsAdjustedGamma ExactMath handicap_game "black" = Return v)
  /\ (exists v,
         @Math_pow10 ExactMath ((2 * 400 / ln 10 + 50) / 400) = Finite v
         /\ @Game.opponentsAdjustedGamma ExactMath callback_game "white" = Return v)
  /\ (exists message,
         @Game.opponentsAdjustedGamma ExactMath unattached_game "white"
         = Throw (Error message))
  /\ (exists message,
         @Game.opponentsAdjustedGamma RangeLimitedMath huge_handicap_game "white"
         = Throw (UnstableRatingException message)).
Proof.
  assert (Hb : "black"%string <> "white"%string) by discriminate.
  split; [|split; [|split; [|split]]].
  - exact (exact_guard_passes _ _ _
             (proj1 (@opponentsAdjustedGamma_spec ExactMath handicap_game "white")
                    eq_refl)).
  - exact (exact_guard_passes _ _ _
             (proj1 (proj2 (@opponentsAdjustedGamma_spec ExactMath handicap_game "black"))
                    Hb eq_refl)).
  - exact (exact_guard_passes _ _ _
             (proj1 (@opponentsAdjustedGamma_spec ExactMath callback_game "white")
                    eq_refl)).
  - exact (proj1 (@opponentsAdjustedGamma_spec ExactMath unattached_game "white")
                 eq_refl).
  - pose proof (proj1 (@opponentsAdjustedGamma_spec RangeLimitedMath
                         huge_handicap_game "white") eq_refl) as Hspec.
    cbv zeta in Hspec. simpl in Hspec. unfold pow10_limited in Hspec.
    destruct (Rlt_dec 309 ((0 * 400 / ln 10 + 200000) / 400)) as [_|Hn];
      [exact Hspec|].
    exfalso. apply Hn. unfold Rdiv. rewrite !Rmult_0_l. lra.
Defined.

Lemma huge_handicap_day_throws :
  @loadTerms RangeLimitedMath (PlayerDay.clearGameTermsCache huge_handicap_day)
  = (Throw (UnstableRatingException "Bad adjusted gamma"),
     PlayerDay.clearGameTermsCache huge_handicap_day).
Proof.
  unfold loadTerms, PlayerDay.wonGameTerms. monad_unfold.
  cbn [PlayerDay._wonGameTerms PlayerDay.clearGameTermsCache
       PlayerDay.set__wonGameTerms PlayerDay.set__lostGameTerms huge_handicap_day
       PlayerDay.wonGames PlayerDay.player mapC].
  unfold PlayerDay.wonTerm. rewrite huge_handicap_gamma. reflexivity.
Qed.

(** The step throws [UnstableRatingException], yet no update was computed:
    the Hessian itself could not be built. *)
Lemma instability_without_update_counterexample :
  (1 < ndays huge_handicap_player)%nat
  /\ (exists message p',
         @Player.runOneNewtonIteration RangeLimitedMath huge_handicap_player
         = (Throw (UnstableRatingException message), p'))
  /\ (forall h p1,
         @Player.hessian RangeLimitedMath (Player.computeSigma2 huge_handicap_player)
                         (cleared huge_handicap_player)
         <> (Return h, p1)).
Proof.
  assert (Hn : (1 < ndays huge_handicap_player)%nat) by (unfold ndays; simpl; lia).
  assert (Hthrow : forall sigma2, exists s',
             @Player.hessian RangeLimitedMath sigma2 (cleared huge_handicap_player)
             = (Throw (UnstableRatingException "Bad adjusted gamma"), s')).
  { intros sigma2.
    apply (@hessian_throws RangeLimitedMath sigma2 (cleared huge_handicap_player)
             [] [] (PlayerDay.clearGameTermsCache huge_handicap_day)
             [PlayerDay.clearGameTermsCache sample_day_2] _
             (PlayerDay.clearGameTermsCache huge_handicap_day)).
    - reflexivity.
    - constructor.
    - exact huge_handicap_day_throws. }
  split; [exact Hn|]. split.
  - rewrite (@runOneNewtonIteration_multi RangeLimitedMath _ Hn).
    fold (cleared huge_handicap_player).
    destruct (Hthrow (Player.computeSigma2 (cleared huge_handicap_player)))
      as [s' Hs'].
    exists "Bad adjusted gamma"%string, s'.
    unfold Player.updateByNDimNewton. unfold bind at 1. unfold get at 1.
    unfold bind at 1. rewrite Hs'. reflexivity.
  - intros h p1 E.
    destruct (Hthrow (Player.computeSigma2 huge_handicap_player)) as [s' Hs'].
    rewrite Hs' in E. discriminate.
Qed.

(** * Further properties of the code *)

(** ** game.ts: who plays, and what the model predicts *)

(** X1.  A player is involved in a game exactly when the game has an opponent
    for it.  For a player that is not in the game, [opponent] is [null] and
    [opponentsAdjustedGamma] throws a plain [Error], never an instability
    error, whatever is attached.  In a game between two distinct players the
    opponent of a player's opponent is that player. *)
Theorem outsider_has_no_opponent `{HostMath} (g : Game.t) (p : string) :
  (Game.involvesPlayer g p = true <-> exists q, Game.opponent g p = Some q)
  /\ (Game.involvesPlayer g p = false ->
      Game.opponent g p = None
      /\ exists message, Game.opponentsAdjustedGamma g p = Throw (Error message))
  /\ (Game.whitePlayer g <> Game.blackPlayer g ->
      forall q, Game.opponent g p = Some q ->
                Game.opponent g q = Some p /\ q <> p).
Proof.
  unfold Game.involvesPlayer, Game.opponent, Game.opponentsAdjustedGamma,
    Game.opponentElo.
  rewrite (String.eqb_sym (Game.blackPlayer g) p),
    (String.eqb_sym (Game.whitePlayer g) p).
  destruct (String.eqb_spec p (Game.whitePlayer g)) as [Ew|Nw];
    destruct (String.eqb_spec p (Game.blackPlayer g)) as [Eb|Nb]; simpl.
  - split; [split; eauto|]. split; [discriminate|].
    intros Hne. exfalso. apply Hne. congruence.
  - split; [split; eauto|]. split; [discriminate|].
    intros Hne q E. injection E as <-. subst p.
    destruct (String.eqb_spec (Game.blackPlayer g) (Game.whitePlayer g)) as [E|_];
      [exfalso; apply Hne; congruence|].
    rewrite String.eqb_refl. split; [reflexivity|congruence].
  - split; [split; eauto|]. split; [discriminate|].
    intros Hne q E. injection E as <-. subst p.
    rewrite String.eqb_refl. split; [reflexivity|congruence].
  - split; [split; [discriminate|intros [q E]; discriminate]|].
    split; [intros _; split; [reflexivity|eauto]|].
    intros _ q E. discriminate.
Qed.

(** [gamma = 10^(elo / 400)] *)
Lemma gamma_pow10_elo (r : R) : Rating.gamma r = Rpower 10 (Rating.elo r / 400).
Proof.
  unfold Rating.gamma, Rating.elo, Rpower. f_equal.
  pose proof ln10_pos. field. lra.
Qed.

Lemma Rpower_10_pos (x : R) : 0 < Rpower 10 x.
Proof. unfold Rpower. apply exp_pos. Qed.

(** The Elo curve [1 / (1 + 10^(x / 400))]. *)
Lemma elo_curve (a b : R) :
  Rpower 10 (a / 400) / (Rpower 10 (a / 400) + Rpower 10 (b / 400))
  = 1 / (1 + Rpower 10 ((b - a) / 400)).
Proof.
  replace ((b - a) / 400) with (b / 400 - a / 400) by lra.
  unfold Rpower. rewrite Rmult_minus_distr_r.
  unfold Rminus. rewrite exp_plus, exp_Ropp.
  pose proof (exp_pos (a / 400 * ln 10)) as Ha.
  pose proof (exp_pos (b / 400 * ln 10)) as Hb.
  field. split; [|lra].
  assert (0 < exp (b / 400 * ln 10) * / exp (a / 400 * ln 10)).
  { apply Rmult_lt_0_compat; [lra|apply Rinv_0_lt_compat; lra]. }
  lra.
Qed.

(** X3.  With both player-days attached and the two players distinct,
    computed in exact real arithmetic, the two probabilities are the Elo
    formula: white wins with probability
    [1 / (1 + 10^((eloBlack + handicap - eloWhite) / 400))], black with
    [1 / (1 + 10^((eloWhite - handicap - eloBlack) / 400))], where [elo] is
    [r * 400 / ln 10] and the handicap is the game's [handicap], or what
    [handicapProc] answers when the game has one. *)
Theorem elo_win_formula (g : Game.t) (rw rb : R) :
  Game.whitePlayer g <> Game.blackPlayer g ->
  Game.wpd g = Some rw ->
  Game.bpd g = Some rb ->
  let handicap :=
    match Game.handicapProc g with
    | Some proc => proc (Some rw) (Some rb)
    | None => Game.handicap g
    end in
  @Game.whiteWinProbability ExactMath g
  = Return (1 / (1 + Rpower 10 ((rb * 400 / ln 10 + handicap
                                  - rw * 400 / ln 10) / 400)))
  /\ @Game.blackWinProbability ExactMath g
     = Return (1 / (1 + Rpower 10 ((rw * 400 / ln 10 - handicap
                                     - rb * 400 / ln 10) / 400))).
Proof.
  intros Hne Ew Eb handicap.
  unfold Game.whiteWinProbability, Game.blackWinProbability.
  rewrite Ew, Eb.
  rewrite (opponentsAdjustedGamma_exact_white g rb Eb).
  rewrite (opponentsAdjustedGamma_exact_black g rw Hne Ew).
  assert (Eh : Game.blackAdvantage g = handicap).
  { unfold Game.blackAdvantage, handicap. rewrite Ew, Eb. reflexivity. }
  rewrite Eh, !gamma_pow10_elo. unfold Rating.elo.
  split; f_equal; apply elo_curve.
Qed.

Lemma elo_win_formula_witness :
  @Game.whiteWinProbability ExactMath handicap_game
  = Return (1 / (1 + Rpower 10 ((2 * 400 / ln 10 + 100 - 1 * 400 / ln 10) / 400)))
  /\ @Game.blackWinProbability ExactMath handicap_game
     = Return (1 / (1 + Rpower 10 ((1 * 400 / ln 10 - 100 - 2 * 400 / ln 10) / 400))).
Proof.
  refine (elo_win_formula handicap_game 1 2 _ eq_refl eq_refl).
  simpl. discriminate.
Defined.

(** ** player-day.ts: rating scales, game lists and memoised terms *)

(** X6.  [addGame] files the game under [wonGames] exactly when the day's
    player is the recorded winner, and under [lostGames] otherwise: a draw
    is filed as a loss, for either player.  The game goes to the end of its
    list; the other list, the rating, the uncertainty and the memoised terms
    are left as they are. *)
Theorem addGame_files_result (game : Game.t) (pd : PlayerDay.t) :
  let pd' := PlayerDay.addGame game pd in
  let winnerIsPlayer :=
    (Game.winner game = Game.W /\ Game.whitePlayer game = PlayerDay.player pd)
    \/ (Game.winner game = Game.B /\ Game.blackPlayer game = PlayerDay.player pd) in
  ((winnerIsPlayer
    /\ PlayerDay.wonGames pd' = PlayerDay.wonGames pd ++ [game]
    /\ PlayerDay.lostGames pd' = PlayerDay.lostGames pd)
   \/ (~ winnerIsPlayer
       /\ PlayerDay.wonGames pd' = PlayerDay.wonGames pd
       /\ PlayerDay.lostGames pd' = PlayerDay.lostGames pd ++ [game]))
  /\ (Game.winner game = Game.D ->
      PlayerDay.lostGames pd' = PlayerDay.lostGames pd ++ [game])
  /\ PlayerDay.r pd' = PlayerDay.r pd
  /\ PlayerDay.uncertainty pd' = PlayerDay.uncertainty pd
  /\ PlayerDay._wonGameTerms pd' = PlayerDay._wonGameTerms pd
  /\ PlayerDay._lostGameTerms pd' = PlayerDay._lostGameTerms pd.
Proof.
  intros pd' winnerIsPlayer. unfold pd', winnerIsPlayer, PlayerDay.addGame,
                               PlayerDay.isWonBy.
  destruct (Game.winner game) eqn:Ewin.
  - destruct (String.eqb_spec (Game.blackPlayer game) (PlayerDay.player pd)) as [E|N];
      simpl.
    + split; [left; split; [right; split; [reflexivity|exact E]|split; reflexivity]|].
      split; [discriminate|repeat split].
    + split; [right; split; [|split; reflexivity]|split; [discriminate|repeat split]].
      intros [[C _]|[_ C]]; [discriminate|contradiction].
  - destruct (String.eqb_spec (Game.whitePlayer game) (PlayerDay.player pd)) as [E|N];
      simpl.
    + split; [left; split; [left; split; [reflexivity|exact E]|split; reflexivity]|].
      split; [discriminate|repeat split].
    + split; [right; split; [|split; reflexivity]|split; [discriminate|repeat split]].
      intros [[_ C]|[C _]]; [contradiction|discriminate].
  - simpl. split; [right; split; [|split; reflexivity]|repeat split].
    intros [[C _]|[C _]]; discriminate.
Qed.

(** The numbers of games a day holds. *)
Definition gamesOn (pd : PlayerDay.t) : nat :=
  (List.length (PlayerDay.wonGames pd) + List.length (PlayerDay.lostGames pd))%nat.

(** A winning term [{a: 1, b: 0, c: 1, d}] and a losing term
    [{a: 0, b: d, c: 1, d}], [d] being a positive gamma. *)
Definition wonShape (term : GameTerm.t) : Prop :=
  GameTerm.a term = 1 /\ GameTerm.b term = 0 /\ GameTerm.c term = 1
  /\ 0 < GameTerm.d term.

Definition lostShape (term : GameTerm.t) : Prop :=
  GameTerm.a term = 0 /\ GameTerm.b term = GameTerm.d term /\ GameTerm.c term = 1
  /\ 0 < GameTerm.d term.

Section TermShapes.
Context `{HostMath}.

Lemma mapC_wonTerm_shape player games terms :
  mapC (PlayerDay.wonTerm player) games = Return terms ->
  List.length terms = List.length games /\ Forall wonShape terms.
Proof.
  revert terms. induction games as [|g games IH]; intros terms; simpl.
  - intros E. injection E as <-. split; [reflexivity|constructor].
  - unfold PlayerDay.wonTerm at 1.
    destruct (Game.opponentsAdjustedGamma g player) as [og|e] eqn:Eg; [|discriminate].
    destruct (mapC (PlayerDay.wonTerm player) games) as [ts|e]; [|discriminate].
    intros E. injection E as <-. destruct (IH ts eq_refl) as [Hlen Hall].
    split; [simpl; congruence|]. constructor; [|exact Hall].
    repeat split. simpl. eapply opponentsAdjustedGamma_pos, Eg.
Qed.

Lemma mapC_lostTerm_shape player games terms :
  mapC (PlayerDay.lostTerm player) games = Return terms ->
  List.length terms = List.length games /\ Forall lostShape terms.
Proof.
  revert terms. induction games as [|g games IH]; intros terms; simpl.
  - intros E. injection E as <-. split; [reflexivity|constructor].
  - unfold PlayerDay.lostTerm at 1.
    destruct (Game.opponentsAdjustedGamma g player) as [og|e] eqn:Eg; [|discriminate].
    destruct (mapC (PlayerDay.lostTerm player) games) as [ts|e]; [|discriminate].
    intros E. injection E as <-. destruct (IH ts eq_refl) as [Hlen Hall].
    split; [simpl; congruence|]. constructor; [|exact Hall].
    repeat split. simpl. eapply opponentsAdjustedGamma_pos, Eg.
Qed.

End TermShapes.

Section Memo.
Context `{HostMath}.

(** X7.  The term getters memoise.  Once [wonGameTerms] has returned, the
    list is stored in the day and every later read returns it unchanged,
    without looking at the games again: also after [addGame] has added a
    game to the day, and after the rating was overwritten.  The read
    changes nothing but the memo field.  ([lostGameTerms] is the same.) *)
Theorem term_getters_memoise (pd pd' : PlayerDay.t) (terms : list GameTerm.t) :
  PlayerDay.wonGameTerms pd = (Return terms, pd') ->
  PlayerDay._wonGameTerms pd' = Some terms
  /\ same_day pd pd'
  /\ PlayerDay.wonGameTerms pd' = (Return terms, pd')
  /\ (forall game,
         PlayerDay.wonGameTerms (PlayerDay.addGame game pd')
         = (Return terms, PlayerDay.addGame game pd'))
  /\ (forall v,
         PlayerDay.wonGameTerms (PlayerDay.set_r v pd')
         = (Return terms, PlayerDay.set_r v pd')).
Proof.
  intros Hrun. pose proof (wonGameTerms_run pd) as Hpd. rewrite Hrun in Hpd.
  subst pd'.
  split; [reflexivity|].
  split; [repeat split|].
  split; [apply wonGameTerms_cached; reflexivity|].
  split.
  - intros game. apply wonGameTerms_cached.
    unfold PlayerDay.addGame.
    destruct (PlayerDay.isWonBy game _); reflexivity.
  - intros v. apply wonGameTerms_cached. reflexivity.
Qed.

(** A failed read stores nothing, so the next read tries again. *)
Lemma wonGameTerms_throw_retries (pd pd' : PlayerDay.t) (e : exn) :
  PlayerDay.wonGameTerms pd = (Throw e, pd') ->
  pd' = pd /\ PlayerDay._wonGameTerms pd' = None.
Proof.
  intros Hrun. pose proof (wonGameTerms_run pd) as Hpd. rewrite Hrun in Hpd.
  destruct Hpd as [-> Hc]. split; [reflexivity|exact Hc].
Qed.

(** X8.  Read with empty memo fields, the getters return one term per game
    of the day, in order, plus one virtual term at the end when the day is the
    player's first: a virtual win [{a: 1, b: 0, c: 1, d: 1}] and a virtual loss
    [{a: 0, b: 1, c: 1, d: 1}].  Every winning term is [{1, 0, 1, d}] and every
    losing term [{0, d, 1, d}] with [d > 0]. *)
Theorem game_terms_shape (pd pd1 pd2 : PlayerDay.t) (won lost : list GameTerm.t) :
  PlayerDay.wonGameTerms (PlayerDay.clearGameTermsCache pd) = (Return won, pd1) ->
  PlayerDay.lostGameTerms pd1 = (Return lost, pd2) ->
  let virtual := if PlayerDay.isFirstDay pd then 1%nat else 0%nat in
  List.length won = (List.length (PlayerDay.wonGames pd) + virtual)%nat
  /\ List.length lost = (List.length (PlayerDay.lostGames pd) + virtual)%nat
  /\ Forall wonShape won
  /\ Forall lostShape lost
  /\ (PlayerDay.isFirstDay pd = true ->
      nth_error won (List.length (PlayerDay.wonGames pd)) = Some (GameTerm.mk 1 0 1 1)
      /\ nth_error lost (List.length (PlayerDay.lostGames pd))
         = Some (GameTerm.mk 0 1 1 1)).
Proof.
  intros Hwon Hlost virtual.
  pose proof (wonGameTerms_run (PlayerDay.clearGameTermsCache pd)) as Hpd1.
  rewrite Hwon in Hpd1. subst pd1.
  revert Hwon Hlost. unfold PlayerDay.wonGameTerms, PlayerDay.lostGameTerms.
  monad_unfold. destruct pd as [dy pl r0 fd un wg lg wt lt]. simpl.
  destruct (mapC (PlayerDay.wonTerm pl) wg) as [ws|e] eqn:Ew; [|discriminate].
  destruct (mapC (PlayerDay.lostTerm pl) lg) as [ls|e] eqn:El; [|discriminate].
  intros Hwon Hlost. injection Hwon as <-. injection Hlost as <- _.
  destruct (mapC_wonTerm_shape _ _ _ Ew) as [Hwl Hws].
  destruct (mapC_lostTerm_shape _ _ _ El) as [Hll Hls].
  unfold virtual. destruct fd.
  - rewrite !length_app. simpl.
    split; [lia|]. split; [lia|].
    split; [apply Forall_app; split; [exact Hws|]|].
    { constructor; [|constructor]. repeat split; simpl; lra. }
    split; [apply Forall_app; split; [exact Hls|]|].
    { constructor; [|constructor]. repeat split; simpl; lra. }
    intros _. rewrite <- Hwl, <- Hll.
    rewrite !nth_error_app2 by lia. rewrite !Nat.sub_diag. split; reflexivity.
  - simpl. split; [lia|]. split; [lia|]. split; [exact Hws|]. split; [exact Hls|].
    discriminate.
Qed.

End Memo.

Lemma sample_day_1_won :
  @PlayerDay.wonGameTerms ExactMath sample_day_1
  = (Return [GameTerm.mk 1 0 1 sample_gamma; GameTerm.mk 1 0 1 1],
     PlayerDay.set__wonGameTerms
       (Some [GameTerm.mk 1 0 1 sample_gamma; GameTerm.mk 1 0 1 1]) sample_day_1).
Proof.
  unfold PlayerDay.wonGameTerms. monad_unfold.
  cbn [PlayerDay._wonGameTerms sample_day_1 PlayerDay.wonGames PlayerDay.player
       PlayerDay.isFirstDay mapC].
  rewrite (wonTerm_exact "white" sample_game_1 0 eq_refl eq_refl).
  reflexivity.
Qed.

Lemma sample_day_1_lost (cache : option (list GameTerm.t)) :
  @PlayerDay.lostGameTerms ExactMath (PlayerDay.set__wonGameTerms cache sample_day_1)
  = (Return [GameTerm.mk 0 1 1 1],
     PlayerDay.set__lostGameTerms (Some [GameTerm.mk 0 1 1 1])
       (PlayerDay.set__wonGameTerms cache sample_day_1)).
Proof. reflexivity. Qed.

Lemma term_getters_memoise_witness :
  @PlayerDay.wonGameTerms ExactMath
     (PlayerDay.addGame sample_game_2
        (PlayerDay.set__wonGameTerms
           (Some [GameTerm.mk 1 0 1 sample_gamma; GameTerm.mk 1 0 1 1]) sample_day_1))
  = (Return [GameTerm.mk 1 0 1 sample_gamma; GameTerm.mk 1 0 1 1],
     PlayerDay.addGame sample_game_2
        (PlayerDay.set__wonGameTerms
           (Some [GameTerm.mk 1 0 1 sample_gamma; GameTerm.mk 1 0 1 1]) sample_day_1)).
Proof.
  exact (proj1 (proj2 (proj2 (proj2
           (@term_getters_memoise ExactMath _ _ _ sample_day_1_won))))
           sample_game_2).
Defined.

Lemma game_terms_shape_witness :
  List.length [GameTerm.mk 1 0 1 sample_gamma; GameTerm.mk 1 0 1 1]
  = (List.length (PlayerDay.wonGames sample_day_1) + 1)%nat
  /\ Forall lostShape [GameTerm.mk 0 1 1 1].
Proof.
  destruct (@game_terms_shape ExactMath sample_day_1 _ _ _ _
              sample_day_1_won (sample_day_1_lost _))
    as (Hw & _ & _ & Hl & _).
  split; [exact Hw|exact Hl].
Defined.

(** ** player-day.ts: the log-likelihood and its derivatives *)

(** [sum over x in l of f x] *)
Fixpoint listSum {A} (f : A -> R) (l : list A) : R :=
  match l with
  | [] => 0
  | x :: rest => f x + listSum f rest
  end.

(** The value [get logLikelihood()] returns, from the memoised terms. *)
Definition ll_of (gamma : R) (won lost : list GameTerm.t) : R :=
  fold_left
    (fun tally term =>
       tally + ln (GameTerm.b term)
       - ln (GameTerm.c term * gamma + GameTerm.d term))
    lost
    (fold_left
       (fun tally term =>
          tally + ln (GameTerm.a term * gamma)
          - ln (GameTerm.c term * gamma + GameTerm.d term))
       won 0).

(** The probability [gamma / (gamma + d)] of beating an opponent of adjusted
    strength [d]. *)
Definition winProbability (gamma : R) (term : GameTerm.t) : R :=
  gamma / (gamma + GameTerm.d term).

Lemma fold_left_listSum {A} (f : A -> R) (l : list A) (acc : R) :
  fold_left (fun acc x => acc + f x) l acc = acc + listSum f l.
Proof.
  revert acc. induction l as [|x l IH]; intros acc; simpl; [lra|].
  rewrite IH. lra.
Qed.

Lemma fold_left_listSum_minus {A} (f g : A -> R) (l : list A) (acc : R) :
  fold_left (fun acc x => acc + f x - g x) l acc
  = acc + listSum (fun x => f x - g x) l.
Proof.
  revert acc. induction l as [|x l IH]; intros acc; simpl; [lra|].
  rewrite IH. lra.
Qed.

Lemma listSum_app {A} (f : A -> R) (l1 l2 : list A) :
  listSum f (l1 ++ l2) = listSum f l1 + listSum f l2.
Proof. induction l1 as [|x l1 IH]; simpl; [lra|rewrite IH; lra]. Qed.

Lemma listSum_ext {A} (f g : A -> R) (l : list A) :
  (forall x, In x l -> f x = g x) -> listSum f l = listSum g l.
Proof.
  induction l as [|x l IH]; intros Hfg; simpl; [reflexivity|].
  rewrite (Hfg x) by (left; reflexivity).
  rewrite IH; [reflexivity|]. intros y Hy. apply Hfg. right. exact Hy.
Qed.


Lemma shapes_termOK won lost :
  Forall wonShape won -> Forall lostShape lost -> Forall termOK (won ++ lost).
Proof.
  intros Hw Hl. apply Forall_app. split.
  - eapply Forall_impl; [|exact Hw]. intros t (_ & _ & Hc & Hd). split; assumption.
  - eapply Forall_impl; [|exact Hl]. intros t (_ & _ & Hc & Hd). split; assumption.
Qed.

(** The three values, as sums over the terms. *)
Lemma d1_of_sum gamma won lost :
  0 < gamma -> Forall wonShape won -> Forall lostShape lost ->
  d1_of gamma won lost
  = listSum (fun term => 1 - winProbability gamma term) won
    + listSum (fun term => - winProbability gamma term) lost.
Proof.
  intros Hg Hw Hl. unfold d1_of, PlayerDay.tallyDerivative.
  rewrite fold_left_listSum, listSum_app, Rplus_0_l.
  assert (Hwon : forall l, Forall wonShape l ->
            INR (List.length l)
            - gamma * listSum (fun term => GameTerm.c term
                                           / (GameTerm.c term * gamma + GameTerm.d term)) l
            = listSum (fun term => 1 - winProbability gamma term) l).
  { induction 1 as [|t l (_ & _ & Hc & Hd) _ IH].
    - simpl. lra.
    - change (List.length (t :: l)) with (S (List.length l)). rewrite S_INR.
      simpl listSum. rewrite <- IH. unfold winProbability. rewrite Hc.
      field. lra. }
  assert (Hlost : forall l, Forall lostShape l ->
            - (gamma * listSum (fun term => GameTerm.c term
                                           / (GameTerm.c term * gamma + GameTerm.d term)) l)
            = listSum (fun term => - winProbability gamma term) l).
  { induction 1 as [|t l (_ & _ & Hc & Hd) _ IH].
    - simpl. lra.
    - simpl listSum. rewrite <- IH. unfold winProbability. rewrite Hc.
      field. lra. }
  rewrite <- (Hwon won Hw), <- (Hlost lost Hl). lra.
Qed.

Lemma d2_of_sum gamma won lost :
  0 < gamma -> Forall termOK (won ++ lost) ->
  d2_of gamma won lost
  = - listSum (fun term => gamma * GameTerm.d term / (gamma + GameTerm.d term) ^ 2)
              (won ++ lost).
Proof.
  intros Hg Hok. unfold d2_of, PlayerDay.sumSecondDerivative.
  rewrite fold_left_listSum, Rplus_0_l.
  set (f := fun term : GameTerm.t =>
              GameTerm.c term * GameTerm.d term
              / (GameTerm.c term * gamma + GameTerm.d term) ^ 2).
  set (g := fun term : GameTerm.t =>
              gamma * GameTerm.d term / (gamma + GameTerm.d term) ^ 2).
  induction Hok as [|t l [Hc Hd] _ IH]; simpl listSum; [lra|].
  assert (Ht : gamma * f t = g t).
  { unfold f, g. rewrite Hc. field. lra. }
  lra.
Qed.

Lemma ll_of_sum gamma won lost :
  0 < gamma -> Forall wonShape won -> Forall lostShape lost ->
  ll_of gamma won lost
  = listSum (fun term => ln (winProbability gamma term)) won
    + listSum (fun term => ln (1 - winProbability gamma term)) lost.
Proof.
  intros Hg Hw Hl. unfold ll_of.
  rewrite (fold_left_listSum_minus (fun term => ln (GameTerm.b term))).
  rewrite (fold_left_listSum_minus (fun term => ln (GameTerm.a term * gamma))).
  rewrite Rplus_0_l. f_equal.
  - apply listSum_ext. intros t Ht.
    rewrite Forall_forall in Hw. destruct (Hw t Ht) as (Ha & _ & Hc & Hd).
    rewrite Ha, Hc, !Rmult_1_l. unfold winProbability.
    unfold Rdiv. rewrite ln_mult, ln_Rinv by (try apply Rinv_0_lt_compat; lra). lra.
  - apply listSum_ext. intros t Ht.
    rewrite Forall_forall in Hl. destruct (Hl t Ht) as (_ & Hb & Hc & Hd).
    rewrite Hb, Hc, !Rmult_1_l. unfold winProbability.
    replace (1 - gamma / (gamma + GameTerm.d t))
      with (GameTerm.d t * / (gamma + GameTerm.d t)) by (field; lra).
    rewrite ln_mult, ln_Rinv by (try apply Rinv_0_lt_compat; lra). lra.
Qed.

Lemma winProbability_range gamma term :
  0 < gamma -> 0 < GameTerm.d term -> 0 < winProbability gamma term < 1.
Proof.
  intros Hg Hd. unfold winProbability. split.
  - apply Rdiv_lt_0_compat; lra.
  - apply (Rmult_lt_reg_r (gamma + GameTerm.d term)); [lra|].
    unfold Rdiv. rewrite Rmult_assoc, Rinv_l by lra. lra.
Qed.

Section DayLikelihood.
Context `{HostMath}.

Lemma loadTerms_getters (pd pd' : PlayerDay.t) (won lost : list GameTerm.t) :
  loadTerms pd = (Return (won, lost), pd') ->
  exists pd1,
    PlayerDay.wonGameTerms pd = (Return won, pd1)
    /\ PlayerDay.lostGameTerms pd1 = (Return lost, pd').
Proof.
  unfold loadTerms. unfold bind at 1.
  destruct (PlayerDay.wonGameTerms pd) as [[w|e] pd1]; [|discriminate].
  unfold bind at 1.
  destruct (PlayerDay.lostGameTerms pd1) as [[l|e] pd2] eqn:El; [|discriminate].
  unfold ret. intros E. injection E as <- <- <-. exists pd1. split; [reflexivity|exact El].
Qed.

Lemma loadTerms_shape (pd pd' : PlayerDay.t) (won lost : list GameTerm.t) :
  loadTerms (PlayerDay.clearGameTermsCache pd) = (Return (won, lost), pd') ->
  let virtual := if PlayerDay.isFirstDay pd then 1%nat else 0%nat in
  List.length won = (List.length (PlayerDay.wonGames pd) + virtual)%nat
  /\ List.length lost = (List.length (PlayerDay.lostGames pd) + virtual)%nat
  /\ Forall wonShape won
  /\ Forall lostShape lost.
Proof.
  unfold loadTerms, PlayerDay.wonGameTerms, PlayerDay.lostGameTerms.
  monad_unfold. destruct pd as [dy pl r0 fd un wg lg wt lt]. simpl.
  destruct (mapC (PlayerDay.wonTerm pl) wg) as [ws|e] eqn:Ew; [|discriminate].
  simpl.
  destruct (mapC (PlayerDay.lostTerm pl) lg) as [ls|e] eqn:El; [|discriminate].
  intros E. injection E as <- <- _.
  destruct (mapC_wonTerm_shape _ _ _ Ew) as [Hwl Hws].
  destruct (mapC_lostTerm_shape _ _ _ El) as [Hll Hls].
  destruct fd.
  - rewrite !length_app. simpl.
    split; [lia|]. split; [lia|].
    split; apply Forall_app; (split; [assumption|]);
      (constructor; [|constructor]); repeat split; simpl; lra.
  - simpl. split; [lia|]. split; [lia|]. split; assumption.
Qed.

(** [get logLikelihood()], in terms of the loaded terms. *)
Lemma logLikelihood_run (pd : PlayerDay.t) :
  PlayerDay.logLikelihood pd =
  match loadTerms pd with
  | (Return (won, lost), pd') =>
      (Return (ll_of (PlayerDay.gamma pd) won lost), pd')
  | (Throw e, pd') => (Throw e, pd')
  end.
Proof.
  unfold PlayerDay.logLikelihood, loadTerms, bind.
  pose proof (wonGameTerms_run pd) as Hw.
  destruct (PlayerDay.wonGameTerms pd) as [[w|e1] pd1]; [|reflexivity].
  unfold get at 1.
  pose proof (lostGameTerms_run pd1) as Hl.
  destruct (PlayerDay.lostGameTerms pd1) as [[l|e2] pd2]; [|reflexivity].
  subst. reflexivity.
Qed.



(** X11.  A day's log-likelihood, read with the memo fields cleared, is the
    sum of [ln p] over the winning terms and [ln (1 - p)] over the losing
    terms, [p = gamma / (gamma + d)]: the logarithm of a product of
    probabilities.  It is never positive. *)
Theorem logLikelihood_nonpos (pd : PlayerDay.t) (v : R) :
  fst (PlayerDay.logLikelihood (PlayerDay.clearGameTermsCache pd)) = Return v ->
  exists won lost pd1 pd2,
    PlayerDay.wonGameTerms (PlayerDay.clearGameTermsCache pd) = (Return won, pd1)
    /\ PlayerDay.lostGameTerms pd1 = (Return lost, pd2)
    /\ v = listSum (fun term => ln (winProbability (PlayerDay.gamma pd) term)) won
           + listSum (fun term => ln (1 - winProbability (PlayerDay.gamma pd) term))
                     lost
    /\ v <= 0.
Proof.
  rewrite logLikelihood_run.
  destruct (loadTerms (PlayerDay.clearGameTermsCache pd)) as [[[won lost]|e] pd']
    eqn:Eload; [|discriminate].
  simpl. intros E. injection E as <-.
  destruct (loadTerms_getters _ _ _ _ Eload) as (pd1 & Hw & Hl).
  destruct (loadTerms_shape _ _ _ _ Eload) as (_ & _ & Hws & Hls).
  change (PlayerDay.gamma (PlayerDay.clearGameTermsCache pd))
    with (PlayerDay.gamma pd).
  assert (Hg : 0 < PlayerDay.gamma pd) by apply exp_pos.
  exists won, lost, pd1, pd'. split; [exact Hw|]. split; [exact Hl|].
  rewrite (ll_of_sum _ _ _ Hg Hws Hls). split; [reflexivity|].
  assert (Hneg : forall x, 0 < x < 1 -> ln x < 0).
  { intros x [H0 H1]. rewrite <- ln_1. apply ln_increasing; assumption. }
  assert (Hsum : forall (f : GameTerm.t -> R) l,
             (forall t, In t l -> f t < 0) -> listSum f l <= 0).
  { intros f l. induction l as [|t l IH]; intros Hf; simpl; [lra|].
    pose proof (Hf t (or_introl eq_refl)).
    assert (listSum f l <= 0) by (apply IH; intros y Hy; apply Hf; right; exact Hy).
    lra. }
  assert (listSum (fun term => ln (winProbability (PlayerDay.gamma pd) term)) won <= 0).
  { apply Hsum. intros t Ht. rewrite Forall_forall in Hws.
    destruct (Hws t Ht) as (_ & _ & _ & Hd). apply Hneg.
    apply winProbability_range; assumption. }
  assert (listSum (fun term => ln (1 - winProbability (PlayerDay.gamma pd) term)) lost
          <= 0).
  { apply Hsum. intros t Ht. rewrite Forall_forall in Hls.
    destruct (Hls t Ht) as (_ & _ & _ & Hd). apply Hneg.
    pose proof (winProbability_range _ t Hg Hd). lra. }
  lra.
Qed.

End DayLikelihood.


Lemma sample_day_1_logLikelihood :
  fst (@PlayerDay.logLikelihood ExactMath (PlayerDay.clearGameTermsCache sample_day_1))
  = Return (ll_of (exp 0) [GameTerm.mk 1 0 1 sample_gamma; GameTerm.mk 1 0 1 1]
                  [GameTerm.mk 0 1 1 1]).
Proof.
  rewrite (@logLikelihood_run ExactMath).
  pose proof sample_day_1_loads as Hl. unfold loads in Hl. rewrite Hl. reflexivity.
Qed.



Lemma logLikelihood_nonpos_witness :
  ll_of (exp 0) [GameTerm.mk 1 0 1 sample_gamma; GameTerm.mk 1 0 1 1]
        [GameTerm.mk 0 1 1 1] <= 0.
Proof.
  destruct (@logLikelihood_nonpos ExactMath sample_day_1 _ sample_day_1_logLikelihood)
    as (won & lost & _ & _ & _ & _ & _ & Hle).
  exact Hle.
Defined.

(** *** The getters differentiate each other *)

Lemma derivable_pt_lim_ext (f g : R -> R) (x l : R) :
  (forall y, f y = g y) -> derivable_pt_lim f x l -> derivable_pt_lim g x l.
Proof.
  intros Hfg Hf eps Heps. destruct (Hf eps Heps) as [delta Hd].
  exists delta. intros h Hh0 Hh. rewrite <- !Hfg. apply Hd; assumption.
Qed.

Lemma derivable_pt_lim_value (f : R -> R) (x l l' : R) :
  l = l' -> derivable_pt_lim f x l -> derivable_pt_lim f x l'.
Proof. intros ->. exact (fun H => H). Qed.

Lemma derivable_listSum {A} (f f' : A -> R -> R) (l : list A) (x : R) :
  (forall t, In t l -> derivable_pt_lim (f t) x (f' t x)) ->
  derivable_pt_lim (fun r => listSum (fun t => f t r) l) x
                   (listSum (fun t => f' t x) l).
Proof.
  induction l as [|a l IH]; intros Hf; cbn [listSum].
  - exact (derivable_pt_lim_const 0 x).
  - exact (derivable_pt_lim_plus (f a) (fun r => listSum (fun t => f t r) l) x _ _
             (Hf a (or_introl eq_refl))
             (IH (fun t Ht => Hf t (or_intror Ht)))).
Qed.

(** [p(r) = e^r / (e^r + d)] has the derivative [e^r * d / (e^r + d)^2]. *)
Lemma winProbability_derivative (term : GameTerm.t) (x : R) :
  0 < GameTerm.d term ->
  derivable_pt_lim (fun r => winProbability (exp r) term) x
                   (exp x * GameTerm.d term / (exp x + GameTerm.d term) ^ 2).
Proof.
  intros Hd. pose proof (exp_pos x) as Hx.
  pose proof (derivable_pt_lim_plus exp (fct_cte (GameTerm.d term)) x _ _
                (derivable_pt_lim_exp x)
                (derivable_pt_lim_const (GameTerm.d term) x)) as Hden.
  pose proof (derivable_pt_lim_div exp (exp + fct_cte (GameTerm.d term))%F x _ _
                (derivable_pt_lim_exp x) Hden) as Hdiv.
  unfold plus_fct, fct_cte in Hdiv.
  eapply derivable_pt_lim_value; [|exact (Hdiv ltac:(lra))].
  unfold Rsqr. field. lra.
Qed.

Lemma ln_winProbability_derivative (term : GameTerm.t) (x : R) :
  0 < GameTerm.d term ->
  derivable_pt_lim (fun r => ln (winProbability (exp r) term)) x
                   (1 - winProbability (exp x) term).
Proof.
  intros Hd. pose proof (exp_pos x) as Hx.
  destruct (winProbability_range (exp x) term Hx Hd) as [Hp0 Hp1].
  pose proof (derivable_pt_lim_comp (fun r => winProbability (exp r) term) ln x _ _
                (winProbability_derivative term x Hd)
                (derivable_pt_lim_ln _ Hp0)) as Hc.
  eapply derivable_pt_lim_value; [|exact Hc].
  unfold winProbability. field. split; lra.
Qed.

Lemma ln_lossProbability_derivative (term : GameTerm.t) (x : R) :
  0 < GameTerm.d term ->
  derivable_pt_lim (fun r => ln (1 - winProbability (exp r) term)) x
                   (- winProbability (exp x) term).
Proof.
  intros Hd. pose proof (exp_pos x) as Hx.
  destruct (winProbability_range (exp x) term Hx Hd) as [Hp0 Hp1].
  pose proof (derivable_pt_lim_minus (fct_cte 1) (fun r => winProbability (exp r) term)
                x _ _ (derivable_pt_lim_const 1 x)
                (winProbability_derivative term x Hd)) as Hm.
  pose proof (derivable_pt_lim_comp _ ln x _ _ Hm
                (derivable_pt_lim_ln (1 - winProbability (exp x) term) ltac:(lra)))
    as Hc.
  eapply derivable_pt_lim_value; [|exact Hc].
  unfold winProbability. field. split; lra.
Qed.

Section GettersDifferentiate.
Context `{HostMath}.

(** X12.  With the terms of a day memoised, the three getters are functions
    of the day's rating [r] alone, and each is the derivative of the one
    before: [logLikelihoodDerivative] is the derivative of [logLikelihood]
    with respect to [r], and [logLikelihoodSecondDerivative] the derivative of
    [logLikelihoodDerivative]. *)
Theorem getters_are_derivatives (pd pd1 pd2 : PlayerDay.t)
        (won lost : list GameTerm.t) :
  PlayerDay.wonGameTerms (PlayerDay.clearGameTermsCache pd) = (Return won, pd1) ->
  PlayerDay.lostGameTerms pd1 = (Return lost, pd2) ->
  exists L D1 D2 : R -> R,
    (forall r, PlayerDay.logLikelihood (PlayerDay.set_r r pd2)
               = (Return (L r), PlayerDay.set_r r pd2))
    /\ (forall r, PlayerDay.logLikelihoodDerivative (PlayerDay.set_r r pd2)
                  = (Return (D1 r), PlayerDay.set_r r pd2))
    /\ (forall r, PlayerDay.logLikelihoodSecondDerivative (PlayerDay.set_r r pd2)
                  = (Return (D2 r), PlayerDay.set_r r pd2))
    /\ (forall r, derivable_pt_lim L r (D1 r))
    /\ (forall r, derivable_pt_lim D1 r (D2 r)).
Proof.
  intros Hwon Hlost.
  assert (Eload : loadTerms (PlayerDay.clearGameTermsCache pd)
                  = (Return (won, lost), pd2)).
  { unfold loadTerms. unfold bind at 1. rewrite Hwon.
    unfold bind at 1. rewrite Hlost. reflexivity. }
  pose proof (loadTerms_Return _ _ _ _ Eload) as Hpd2.
  destruct (loadTerms_shape _ _ _ _ Eload) as (_ & _ & Hws & Hls).
  pose proof (shapes_termOK _ _ Hws Hls) as Hok.
  assert (Hmemo : forall r,
             loadTerms (PlayerDay.set_r r pd2)
             = (Return (won, lost), PlayerDay.set_r r pd2)).
  { intros r. subst pd2.
    exact (loadTerms_loaded
             (PlayerDay.set_r r (PlayerDay.clearGameTermsCache pd)) won lost). }
  exists (fun r => ll_of (exp r) won lost),
         (fun r => d1_of (exp r) won lost),
         (fun r => d2_of (exp r) won lost).
  split; [intros r; rewrite logLikelihood_run, Hmemo; reflexivity|].
  split; [intros r; rewrite logLikelihoodDerivative_run, Hmemo; reflexivity|].
  split; [intros r; rewrite logLikelihoodSecondDerivative_run, Hmemo; reflexivity|].
  assert (HdW : forall t, In t won -> 0 < GameTerm.d t).
  { intros t Ht. rewrite Forall_forall in Hws. destruct (Hws t Ht) as (_ & _ & _ & Hd).
    exact Hd. }
  assert (HdL : forall t, In t lost -> 0 < GameTerm.d t).
  { intros t Ht. rewrite Forall_forall in Hls. destruct (Hls t Ht) as (_ & _ & _ & Hd).
    exact Hd. }
  split.
  - intros r.
    apply (derivable_pt_lim_ext
             (fun r => listSum (fun term => ln (winProbability (exp r) term)) won
                       + listSum (fun term => ln (1 - winProbability (exp r) term))
                                 lost)).
    { intros y. symmetry. apply ll_of_sum; [apply exp_pos|assumption|assumption]. }
    rewrite (d1_of_sum _ _ _ (exp_pos r) Hws Hls).
    apply (derivable_pt_lim_plus
             (fun r => listSum (fun term => ln (winProbability (exp r) term)) won)
             (fun r => listSum (fun term => ln (1 - winProbability (exp r) term)) lost)).
    + apply (derivable_listSum
               (fun term r => ln (winProbability (exp r) term))
               (fun term r => 1 - winProbability (exp r) term)).
      intros t Ht. apply ln_winProbability_derivative, HdW, Ht.
    + apply (derivable_listSum
               (fun term r => ln (1 - winProbability (exp r) term))
               (fun term r => - winProbability (exp r) term)).
      intros t Ht. apply ln_lossProbability_derivative, HdL, Ht.
  - intros r.
    apply (derivable_pt_lim_ext
             (fun r => listSum (fun term => 1 - winProbability (exp r) term) won
                       + listSum (fun term => - winProbability (exp r) term) lost)).
    { intros y. symmetry. apply d1_of_sum; [apply exp_pos|assumption|assumption]. }
    rewrite (d2_of_sum _ _ _ (exp_pos r) Hok), listSum_app.
    eapply derivable_pt_lim_value;
      [|apply (derivable_pt_lim_plus
                 (fun r => listSum (fun term => 1 - winProbability (exp r) term) won)
                 (fun r => listSum (fun term => - winProbability (exp r) term) lost)
                 r
                 (listSum (fun term => - (exp r * GameTerm.d term
                                          / (exp r + GameTerm.d term) ^ 2)) won)
                 (listSum (fun term => - (exp r * GameTerm.d term
                                          / (exp r + GameTerm.d term) ^ 2)) lost))].
    + assert (Hneg : forall l : list GameTerm.t,
                 listSum (fun term => - (exp r * GameTerm.d term
                                         / (exp r + GameTerm.d term) ^ 2)) l
                 = - listSum (fun term => exp r * GameTerm.d term
                                          / (exp r + GameTerm.d term) ^ 2) l).
      { induction l as [|t l IH]; cbn [listSum]; [lra|rewrite IH; lra]. }
      rewrite !Hneg. lra.
    + apply (derivable_listSum
               (fun term r => 1 - winProbability (exp r) term)
               (fun term r => - (exp r * GameTerm.d term
                                 / (exp r + GameTerm.d term) ^ 2))).
      intros t Ht.
      eapply derivable_pt_lim_value;
        [|exact (derivable_pt_lim_minus (fct_cte 1)
                   (fun r => winProbability (exp r) t) r _ _
                   (derivable_pt_lim_const 1 r)
                   (winProbability_derivative t r (HdW t Ht)))].
      lra.
    + apply (derivable_listSum
               (fun term r => - winProbability (exp r) term)
               (fun term r => - (exp r * GameTerm.d term
                                 / (exp r + GameTerm.d term) ^ 2))).
      intros t Ht.
      exact (derivable_pt_lim_opp (fun r => winProbability (exp r) t) r _
               (winProbability_derivative t r (HdL t Ht))).
Qed.

End GettersDifferentiate.

Lemma getters_are_derivatives_witness :
  exists L D1 D2 : R -> R,
    (forall r, @PlayerDay.logLikelihood ExactMath
                 (PlayerDay.set_r r
                    (loaded [GameTerm.mk 1 0 1 sample_gamma; GameTerm.mk 1 0 1 1]
                            [GameTerm.mk 0 1 1 1] sample_day_1))
               = (Return (L r),
                  PlayerDay.set_r r
                    (loaded [GameTerm.mk 1 0 1 sample_gamma; GameTerm.mk 1 0 1 1]
                            [GameTerm.mk 0 1 1 1] sample_day_1)))
    /\ (forall r, derivable_pt_lim L r (D1 r))
    /\ (forall r, derivable_pt_lim D1 r (D2 r)).
Proof.
  destruct (@getters_are_derivatives ExactMath sample_day_1 _ _ _ _
              sample_day_1_won (sample_day_1_lost _))
    as (L & D1 & D2 & HL & _ & _ & H1 & H2).
  exists L, D1, D2. split; [exact HL|]. split; [exact H1|exact H2].
Defined.

(** ** player.ts: the Newton step on a well-formed trajectory *)

Section NewtonSolve.
Context `{HostMath}.

Lemma cleared_d2_nonpos (pd : PlayerDay.t) (v : R) :
  fst (PlayerDay.logLikelihoodSecondDerivative (PlayerDay.clearGameTermsCache pd))
  = Return v -> v <= 0.
Proof.
  rewrite logLikelihoodSecondDerivative_run.
  destruct (loadTerms (PlayerDay.clearGameTermsCache pd)) as [[[won lost]|e] pd']
    eqn:Eload; [|discriminate].
  simpl. intros E. injection E as <-.
  destruct (loadTerms_shape _ _ _ _ Eload) as (_ & _ & Hws & Hls).
  pose proof (shapes_termOK _ _ Hws Hls) as Hok. apply Forall_app in Hok.
  apply d2_of_nonpos; [apply exp_pos|tauto|tauto].
Qed.

(** The zero right-hand side gives the zero solution. *)
Lemma newtonDirection_zero (h : list (list R)) (g : list R) (n : nat) :
  (0 < n)%nat ->
  (forall i, (i < n)%nat -> at_ g i = 0) ->
  forall i, (i < n)%nat -> at_ (Player.newtonDirection h g n) i = 0.
Proof.
  intros Hn Hg.
  destruct (forwardSubstitution_spec h g n) as [Hy0 Hy].
  destruct (backSubstitution_spec h g n Hn) as [Hxl Hx].
  set (lu := Player.luDecompositionTridiagonal h n) in *.
  set (y := Player.forwardSubstitution g (LU.a lu) n) in *.
  change (Player.newtonDirection h g n)
    with (Player.backSubstitution y (LU.d lu) (LU.b lu) n).
  set (x := Player.backSubstitution y (LU.d lu) (LU.b lu) n) in *.
  assert (Hyz : forall i, (i < n)%nat -> at_ y i = 0).
  { induction i as [|i IH]; intros Hi.
    - rewrite Hy0. apply Hg. exact Hi.
    - rewrite (Hy (S i)) by lia. rewrite (Hg (S i) Hi).
      replace (S i - 1)%nat with i by lia. rewrite IH by lia. lra. }
  assert (Hxz : forall k, (k < n)%nat -> at_ x (n - 1 - k) = 0).
  { induction k as [|k IH]; intros Hk.
    - replace (n - 1 - 0)%nat with (n - 1)%nat by lia.
      rewrite Hxl, Hyz by lia. unfold Rdiv. lra.
    - rewrite (Hx (n - 1 - S k)%nat) by lia.
      replace (n - 1 - S k + 1)%nat with (n - 1 - k)%nat by lia.
      rewrite IH, Hyz by lia. unfold Rdiv. lra. }
  intros i Hi. replace i with (n - 1 - (n - 1 - i))%nat by lia.
  apply Hxz. lia.
Qed.

(** X13.  Computed in exact real arithmetic: on a trajectory with more than
    one day, a positive [w2] and neighbouring days that differ, the system of
    the Newton step is always solvable: every pivot [d[i]] of the elimination
    is strictly negative, so no division is by zero, and the computed [x]
    satisfies [H * x = g] exactly.  (Binary64 does not keep this promise: a
    pivot rounds to zero when [w2] is very small, as
    [uncertainty_not_finite_counterexample] shows.) *)
Theorem newton_step_always_solves (p : Player.t) (D1 D2 : nat -> R) :
  (1 < ndays p)%nat ->
  0 < Player.w2 p ->
  neighboursDiffer (dayKeys p) ->
  derivativesAre p D1 D2 ->
  exists h g p1,
    let n := ndays p in
    let lu := Player.luDecompositionTridiagonal h n in
    let x := Player.newtonDirection h g n in
    Player.hessian (Player.computeSigma2 p) (cleared p) = (Return h, p1)
    /\ Player.gradient (ratings p) (Player.computeSigma2 p) p1 = (Return g, p1)
    /\ Player.runOneNewtonIteration p
       = commitOrThrow (Player.newRatings (ratings p) x) p1
    /\ (forall i, (i < n)%nat -> at_ (LU.d lu) i < 0)
    /\ (forall i, (i < n)%nat -> rowTimes h x n i = at_ g i).
Proof.
  intros Hn Hw Hdiff HD.
  destruct (newton_system p D1 D2 Hn HD) as (p1 & Hh & Hg & Hstep & _).
  cbv zeta in *.
  set (sigma2 := Player.computeSigma2 p) in *.
  set (h := hessianMatrix (ndays p) sigma2 D2) in *.
  set (g := gradientVector (ndays p) (ratings p) sigma2 D1) in *.
  exists h, g, p1. cbv zeta.
  assert (Hpos : (0 < ndays p)%nat) by lia.
  assert (HD2 : forall i, (i < ndays p)%nat -> D2 i <= 0).
  { intros i Hi. destruct (HD i Hi) as [_ E2]. eapply cleared_d2_nonpos, E2. }
  assert (Hs : forall i, (i < ndays p - 1)%nat -> 0 < at_ sigma2 i).
  { apply sigma2_positive; assumption. }
  assert (Hpiv : forall i, (i < ndays p)%nat ->
             at_ (LU.d (Player.luDecompositionTridiagonal h (ndays p))) i < 0).
  { intros i Hi. apply (forward_pivot_neg (ndays p) sigma2 D2 Hpos HD2 Hs i Hi). }
  split; [exact Hh|]. split; [exact Hg|]. split; [exact Hstep|].
  split; [exact Hpiv|].
  apply (thomas_solves h g (ndays p) Hpos).
  - apply hessianMatrix_tridiagonal.
  - intros i Hi. pose proof (Hpiv i Hi). lra.
Qed.

(** X14.  Computed in exact real arithmetic, a stationary point is a fixed
    point of the step: on such a trajectory, if the assembled gradient is
    zero in every component (and no rating is above 650), the call returns
    and leaves every rating exactly as it was. *)
Theorem newton_step_fixed_point (p : Player.t) (D1 D2 : nat -> R) :
  (1 < ndays p)%nat ->
  0 < Player.w2 p ->
  neighboursDiffer (dayKeys p) ->
  derivativesAre p D1 D2 ->
  exists h g p1,
    Player.hessian (Player.computeSigma2 p) (cleared p) = (Return h, p1)
    /\ Player.gradient (ratings p) (Player.computeSigma2 p) p1 = (Return g, p1)
    /\ ((forall i, (i < ndays p)%nat -> at_ g i = 0) ->
        (forall i, (i < ndays p)%nat -> at_ (ratings p) i <= 650) ->
        exists p',
          Player.runOneNewtonIteration p = (Return tt, p')
          /\ ndays p' = ndays p
          /\ forall i, (i < ndays p)%nat ->
               PlayerDay.r (Player.day_ (Player.days p') i)
               = PlayerDay.r (Player.day_ (Player.days p) i)).
Proof.
  intros Hn Hw Hdiff HD.
  destruct (newton_system p D1 D2 Hn HD) as (p1 & Hh & Hg & Hstep & Hsame).
  cbv zeta in *.
  set (sigma2 := Player.computeSigma2 p) in *.
  set (h := hessianMatrix (ndays p) sigma2 D2) in *.
  set (g := gradientVector (ndays p) (ratings p) sigma2 D1) in *.
  exists h, g, p1. split; [exact Hh|]. split; [exact Hg|].
  intros Hzero Hbound.
  assert (Hpos : (0 < ndays p)%nat) by lia.
  assert (Hlenr : List.length (ratings p) = ndays p)
    by (unfold ratings, ndays; apply length_map).
  set (newR := Player.newRatings (ratings p) (Player.newtonDirection h g (ndays p)))
    in *.
  assert (HnewR : forall i, (i < ndays p)%nat -> at_ newR i = at_ (ratings p) i).
  { intros i Hi. unfold newR. rewrite newRatings_at by (rewrite Hlenr; exact Hi).
    rewrite (newtonDirection_zero h g (ndays p) Hpos Hzero i Hi). lra. }
  assert (Hlen : List.length newR = ndays p).
  { unfold newR. rewrite newRatings_length. exact Hlenr. }
  destruct (commitOrThrow_cases newR p1) as [[[i [Hi Hbig]] _]|[_ E]].
  { exfalso. rewrite Hlen in Hi. rewrite (HnewR i Hi) in Hbig.
    pose proof (Hbound i Hi). lra. }
  rewrite E in Hstep. eexists. split; [exact Hstep|].
  destruct (committed_ratings p p1 _ newR Hsame E) as (Hnd & Hdays).
  split; [exact Hnd|]. intros i Hi.
  destruct (Hdays i Hi) as (Hr & _). rewrite Hr, (HnewR i Hi).
  unfold ratings, at_, Player.day_.
  rewrite <- (map_nth PlayerDay.r). reflexivity.
Qed.

End NewtonSolve.

Lemma sample_neighbours : neighboursDiffer (dayKeys sample_player).
Proof.
  intros i Hi. unfold dayKeys in *. simpl in Hi.
  destruct i as [|i]; [|lia]. unfold at_. simpl. lra.
Qed.

Lemma newton_step_always_solves_witness :
  exists h (g : list R) p1,
    @Player.hessian ExactMath (Player.computeSigma2 sample_player)
                    (cleared sample_player) = (Return h, p1)
    /\ at_ (LU.d (Player.luDecompositionTridiagonal h 2)) 0 < 0
    /\ rowTimes h (Player.newtonDirection h g 2) 2 1 = at_ g 1.
Proof.
  destruct (@newton_step_always_solves ExactMath sample_player sample_D1 sample_D2
              sample_ndays sample_w2_pos sample_neighbours sample_derivatives)
    as (h & g & p1 & Hsys).
  cbv zeta in Hsys. destruct Hsys as (Hh & _ & _ & Hpiv & Hsol).
  exists h, g, p1. split; [exact Hh|]. split.
  - apply (Hpiv 0%nat). unfold ndays. simpl. lia.
  - apply (Hsol 1%nat). unfold ndays. simpl. lia.
Defined.

(** A stationary trajectory: on each of two days the player has won one game
    and lost one, against opponents at the player's own rating 0. *)
Definition lost_game_1 : Game.t :=
  Game.mk 1 "white" "black" 0 Game.B (Some 0) (Some 0) None.
Definition won_game_2 : Game.t :=
  Game.mk 3 "white" "black" 0 Game.W (Some 0) (Some 0) None.
Definition balanced_day_1 : PlayerDay.t :=
  PlayerDay.mk 1 "white" 0 true (sqrt 5) [sample_game_1] [lost_game_1] None None.
Definition balanced_day_2 : PlayerDay.t :=
  PlayerDay.mk 3 "white" 0 false (sqrt 5) [won_game_2] [sample_game_2] None None.
Definition balanced_player : Player.t :=
  Player.mk "white" [balanced_day_1; balanced_day_2] sample_w2.
Definition balanced_terms : list (list GameTerm.t * list GameTerm.t) :=
  [([GameTerm.mk 1 0 1 sample_gamma; GameTerm.mk 1 0 1 1],
    [GameTerm.mk 0 sample_gamma 1 sample_gamma; GameTerm.mk 0 1 1 1]);
   ([GameTerm.mk 1 0 1 sample_gamma], [GameTerm.mk 0 sample_gamma 1 sample_gamma])].
Definition balanced_D1 (i : nat) : R :=
  d1_of (exp 0) (fst (nth i balanced_terms ([], []))) (snd (nth i balanced_terms ([], []))).
Definition balanced_D2 (i : nat) : R :=
  d2_of (exp 0) (fst (nth i balanced_terms ([], []))) (snd (nth i balanced_terms ([], []))).

Lemma sample_gamma_one : sample_gamma = 1.
Proof.
  unfold sample_gamma, Rpower, Rating.elo.
  replace ((0 * 400 / ln 10 + 0) / 400 * ln 10) with 0
    by (unfold Rdiv; rewrite !Rmult_0_l; ring).
  apply exp_0.
Qed.

Lemma balanced_day_1_loads :
  @loads ExactMath (PlayerDay.clearGameTermsCache balanced_day_1)
         (nth 0 balanced_terms ([], [])).
Proof.
  unfold loads, loadTerms, PlayerDay.wonGameTerms, PlayerDay.lostGameTerms.
  monad_unfold. cbn [PlayerDay._wonGameTerms PlayerDay._lostGameTerms
                     PlayerDay.clearGameTermsCache PlayerDay.set__wonGameTerms
                     PlayerDay.set__lostGameTerms balanced_day_1 PlayerDay.wonGames
                     PlayerDay.lostGames PlayerDay.player PlayerDay.isFirstDay
                     PlayerDay.day PlayerDay.r PlayerDay.uncertainty mapC].
  rewrite (wonTerm_exact "white" sample_game_1 0 eq_refl eq_refl).
  cbn [PlayerDay._wonGameTerms PlayerDay._lostGameTerms
       PlayerDay.clearGameTermsCache PlayerDay.set__wonGameTerms
       PlayerDay.set__lostGameTerms balanced_day_1 PlayerDay.wonGames
       PlayerDay.lostGames PlayerDay.player PlayerDay.isFirstDay
       PlayerDay.day PlayerDay.r PlayerDay.uncertainty mapC].
  rewrite (lostTerm_exact "white" lost_game_1 0 eq_refl eq_refl).
  reflexivity.
Qed.

Lemma balanced_day_2_loads :
  @loads ExactMath (PlayerDay.clearGameTermsCache balanced_day_2)
         (nth 1 balanced_terms ([], [])).
Proof.
  unfold loads, loadTerms, PlayerDay.wonGameTerms, PlayerDay.lostGameTerms.
  monad_unfold. cbn [PlayerDay._wonGameTerms PlayerDay._lostGameTerms
                     PlayerDay.clearGameTermsCache PlayerDay.set__wonGameTerms
                     PlayerDay.set__lostGameTerms balanced_day_2 PlayerDay.wonGames
                     PlayerDay.lostGames PlayerDay.player PlayerDay.isFirstDay
                     PlayerDay.day PlayerDay.r PlayerDay.uncertainty mapC].
  rewrite (wonTerm_exact "white" won_game_2 0 eq_refl eq_refl).
  cbn [PlayerDay._wonGameTerms PlayerDay._lostGameTerms
       PlayerDay.clearGameTermsCache PlayerDay.set__wonGameTerms
       PlayerDay.set__lostGameTerms balanced_day_2 PlayerDay.wonGames
       PlayerDay.lostGames PlayerDay.player PlayerDay.isFirstDay
       PlayerDay.day PlayerDay.r PlayerDay.uncertainty mapC].
  rewrite (lostTerm_exact "white" sample_game_2 0 eq_refl eq_refl).
  reflexivity.
Qed.

Lemma balanced_derivatives :
  @derivativesAre ExactMath balanced_player balanced_D1 balanced_D2.
Proof.
  intros i Hi. unfold ndays in Hi. simpl in Hi.
  destruct i as [|[|i]]; [| |lia].
  - exact (@loads_derivatives ExactMath _ _ balanced_day_1_loads).
  - exact (@loads_derivatives ExactMath _ _ balanced_day_2_loads).
Qed.

Lemma balanced_D1_zero (i : nat) : (i < 2)%nat -> balanced_D1 i = 0.
Proof.
  intros Hi. unfold balanced_D1, d1_of, PlayerDay.tallyDerivative.
  destruct i as [|[|i]]; [| |lia]; simpl; rewrite sample_gamma_one, exp_0; field.
Qed.

Lemma balanced_ndays : (1 < ndays balanced_player)%nat.
Proof. unfold ndays. simpl. lia. Defined.

Lemma balanced_neighbours : neighboursDiffer (dayKeys balanced_player).
Proof.
  intros i Hi. unfold dayKeys in *. simpl in Hi.
  destruct i as [|i]; [|lia]. unfold at_. simpl. lra.
Qed.

Lemma balanced_gradient_zero (i : nat) :
  (i < 2)%nat ->
  at_ (gradientVector 2 (ratings balanced_player)
         (Player.computeSigma2 balanced_player) balanced_D1) i = 0.
Proof.
  intros Hi. unfold gradientVector, gradientValue, at_.
  destruct i as [|[|i]]; [| |lia]; simpl;
    rewrite balanced_D1_zero by lia; unfold Rdiv; ring.
Qed.

Lemma newton_step_fixed_point_witness :
  (1 < ndays balanced_player)%nat
  /\ 0 < Player.w2 balanced_player
  /\ neighboursDiffer (dayKeys balanced_player)
  /\ @derivativesAre ExactMath balanced_player balanced_D1 balanced_D2
  /\ exists p',
       @Player.runOneNewtonIteration ExactMath balanced_player = (Return tt, p')
       /\ PlayerDay.r (Player.day_ (Player.days p') 0) = 0
       /\ PlayerDay.r (Player.day_ (Player.days p') 1) = 0.
Proof.
  split; [exact balanced_ndays|]. split; [exact sample_w2_pos|].
  split; [exact balanced_neighbours|]. split; [exact balanced_derivatives|].
  destruct (@newton_step_fixed_point ExactMath balanced_player balanced_D1 balanced_D2
              balanced_ndays sample_w2_pos balanced_neighbours balanced_derivatives)
    as (h & g & p1 & Hh & Hg & Hfix).
  destruct (@newton_system ExactMath balanced_player balanced_D1 balanced_D2
              balanced_ndays balanced_derivatives) as (p2 & Hsys).
  cbv zeta in Hsys. destruct Hsys as (Hh2 & Hg2 & _).
  rewrite Hh in Hh2. injection Hh2 as _ <-.
  rewrite Hg in Hg2. injection Hg2 as ->.
  destruct Hfix as (p' & Hrun & _ & Hr).
  - exact balanced_gradient_zero.
  - intros i Hi. unfold ratings, at_. simpl.
    destruct i as [|[|i]]; [simpl; lra|simpl; lra|].
    unfold ndays in Hi. simpl in Hi. lia.
  - exists p'. split; [exact Hrun|].
    split; [apply (Hr 0%nat)|apply (Hr 1%nat)]; unfold ndays; simpl; lia.
Defined.

(** ** player.ts: queries *)

Section EmptyPlayer.
Context `{HostMath}.

(** X15.  A player without days: a Newton step and an uncertainty update
    return at once and change nothing, the history is empty, both time
    queries answer Elo 0 with uncertainty [sqrt 5], and the current rating and
    uncertainty are 0 and 5. *)
Theorem player_without_days (p : Player.t) (timePoint : R) :
  Player.days p = [] ->
  Player.runOneNewtonIteration p = (Return tt, p)
  /\ Player.updateUncertainty p = (Return tt, p)
  /\ Player.getRatingHistory p = []
  /\ Player.interpolateRating p timePoint = Estimate.mk 0 (sqrt 5)
  /\ Player.getRatingAtTime p timePoint = Estimate.mk 0 (sqrt 5)
  /\ Player.currentRating p = 0
  /\ Player.currentUncertainty p = 5.
Proof.
  intros E. destruct p as [nm ds w]. simpl in E. subst ds.
  split; [reflexivity|]. split; [reflexivity|]. split; [reflexivity|].
  split; [reflexivity|]. split; [reflexivity|]. split; reflexivity.
Qed.

End EmptyPlayer.

Lemma player_without_days_witness :
  @Player.runOneNewtonIteration ExactMath (Player.new_ "white" None)
  = (Return tt, Player.new_ "white" None)
  /\ Player.currentUncertainty (Player.new_ "white" None) = 5.
Proof.
  destruct (@player_without_days ExactMath (Player.new_ "white" None) 0 eq_refl)
    as (Hrun & _ & _ & _ & _ & _ & Hu).
  split; [exact Hrun|exact Hu].
Defined.

Lemma last_nth {A} (l : list A) (d : A) : last l d = nth (List.length l - 1) l d.
Proof.
  induction l as [|x l IH]; [reflexivity|].
  destruct l as [|y l]; [reflexivity|].
  change (last (x :: y :: l) d) with (last (y :: l) d). rewrite IH.
  simpl. rewrite Nat.sub_0_r. reflexivity.
Qed.

(** X16.  For a player with at least one day, the last entry of the rating
    history is the last day with the current rating rounded to an integer
    and a hundred times the current uncertainty rounded to an integer. *)
Theorem history_ends_with_current_rating (p : Player.t) :
  (0 < ndays p)%nat ->
  last (Player.getRatingHistory p) (0, 0, 0)
  = (dayOf p (ndays p - 1),
     Math_round (Player.currentRating p),
     Math_round (Player.currentUncertainty p * 100)).
Proof.
  intros Hn. unfold Player.currentRating, Player.currentUncertainty.
  fold (ndays p).
  replace (ndays p =? 0)%nat with false by (symmetry; apply Nat.eqb_neq; lia).
  rewrite last_nth. unfold Player.getRatingHistory. rewrite length_map.
  fold (ndays p).
  assert (Hlt : (ndays p - 1 < List.length (Player.days p))%nat)
    by (unfold ndays in *; lia).
  destruct (nth_error_in_range _ _ Hlt) as [pd Epd].
  unfold dayOf. rewrite (nth_error_day_ _ _ _ Epd).
  apply nth_error_nth. rewrite nth_error_map, Epd. reflexivity.
Qed.

Lemma history_ends_with_current_rating_witness :
  last (Player.getRatingHistory sample_player) (0, 0, 0)
  = (dayOf sample_player (ndays sample_player - 1),
     Math_round (Player.currentRating sample_player),
     Math_round (Player.currentUncertainty sample_player * 100)).
Proof.
  apply history_ends_with_current_rating. unfold ndays. simpl. lia.
Defined.

Lemma find_all_false {A} (f : A -> bool) (l : list A) :
  (forall x, In x l -> f x = false) -> find f l = None.
Proof.
  induction l as [|x l IH]; intros Hf; [reflexivity|].
  simpl. rewrite (Hf x (or_introl eq_refl)).
  apply IH. intros y Hy. apply Hf. right. exact Hy.
Qed.

Lemma find_first_key (days : list PlayerDay.t) (t : R) :
  forall i pd,
    nth_error days i = Some pd ->
    PlayerDay.day pd = t ->
    (forall j pd', (j < i)%nat -> nth_error days j = Some pd' -> PlayerDay.day pd' <> t) ->
    find (fun d => Reqb (PlayerDay.day d) t) days = Some pd.
Proof.
  induction days as [|d days IH]; intros i pd Ei Et Hbefore.
  - destruct i; discriminate.
  - simpl. unfold Reqb at 1. destruct i as [|i].
    + simpl in Ei. injection Ei as ->.
      destruct (Req_dec_T (PlayerDay.day pd) t) as [_|C]; [reflexivity|contradiction].
    + destruct (Req_dec_T (PlayerDay.day d) t) as [C|_].
      * exfalso. apply (Hbefore 0%nat d); [lia|reflexivity|exact C].
      * apply (IH i pd Ei Et). intros j pd' Hj Ej.
        apply (Hbefore (S j) pd'); [lia|exact Ej].
Qed.

Lemma NoDup_keys_differ (days : list PlayerDay.t) :
  NoDup (map PlayerDay.day days) ->
  forall i j pd pd',
    nth_error days i = Some pd -> nth_error days j = Some pd' ->
    i <> j -> PlayerDay.day pd <> PlayerDay.day pd'.
Proof.
  intros Hnd i j pd pd' Ei Ej Hij Heq.
  apply Hij.
  apply (proj1 (NoDup_nth_error (map PlayerDay.day days)) Hnd i j).
  - rewrite length_map. apply nth_error_Some. congruence.
  - rewrite !nth_error_map, Ei, Ej. simpl. congruence.
Qed.

(** X17.  [getRatingAtTime] at a time that is the day number of one of the
    player's days (day numbers being unique) returns that day's Elo rating and
    uncertainty as stored, unrounded; at any other time it returns what
    [interpolateRating] returns. *)
Theorem getRatingAtTime_known_day (p : Player.t) (timePoint : R) :
  NoDup (dayKeys p) ->
  (forall i, (i < ndays p)%nat -> dayOf p i = timePoint ->
             Player.getRatingAtTime p timePoint
             = Estimate.mk (PlayerDay.elo (Player.day_ (Player.days p) i))
                           (PlayerDay.uncertainty (Player.day_ (Player.days p) i)))
  /\ (~ In timePoint (dayKeys p) ->
      Player.getRatingAtTime p timePoint = Player.interpolateRating p timePoint).
Proof.
  intros Hnd. split.
  - intros i Hi Et. unfold Player.getRatingAtTime.
    destruct (nth_error_in_range _ _ Hi) as [pd Epd].
    unfold dayOf in Et. rewrite (nth_error_day_ _ _ _ Epd) in *.
    rewrite (find_first_key (Player.days p) timePoint i pd Epd Et); [reflexivity|].
    intros j pd' Hj Ej C.
    apply (NoDup_keys_differ _ Hnd j i pd' pd Ej Epd); [lia|congruence].
  - intros Hnot. unfold Player.getRatingAtTime.
    rewrite find_all_false; [reflexivity|].
    intros d Hd. unfold Reqb.
    destruct (Req_dec_T (PlayerDay.day d) timePoint) as [E|_]; [|reflexivity].
    exfalso. apply Hnot. unfold dayKeys. rewrite <- E. apply in_map. exact Hd.
Qed.

Lemma sample_keys_sorted : StronglySorted Rlt (dayKeys sample_player).
Proof. unfold dayKeys. simpl. repeat constructor. lra. Qed.

Lemma getRatingAtTime_known_day_witness :
  Player.getRatingAtTime sample_player 3
  = Estimate.mk (PlayerDay.elo sample_day_2) (PlayerDay.uncertainty sample_day_2).
Proof.
  refine (proj1 (getRatingAtTime_known_day sample_player 3
                   (StronglySorted_Rlt_NoDup _ sample_keys_sorted)) 1%nat _ _).
  - unfold ndays. simpl. lia.
  - reflexivity.
Defined.

(** X18.  Outside the range of a player's days (day numbers strictly
    increasing), the estimate is the nearest end day's Elo rating, and its
    variance is that day's variance plus [w2] times the distance in days:
    before the first day and after the last.  With a single day this holds
    on both sides of it. *)
Theorem extrapolation_outside_range (p : Player.t) (timePoint : R) :
  (0 < ndays p)%nat ->
  StronglySorted Rlt (dayKeys p) ->
  let first := Player.day_ (Player.days p) 0 in
  let final := Player.day_ (Player.days p) (ndays p - 1) in
  (timePoint < PlayerDay.day first ->
   Player.interpolateRating p timePoint
   = Estimate.mk (PlayerDay.elo first)
       (sqrt (PlayerDay.uncertainty first * PlayerDay.uncertainty first
              + (PlayerDay.day first - timePoint) * Player.w2 p)))
  /\ (PlayerDay.day final < timePoint ->
      Player.interpolateRating p timePoint
      = Estimate.mk (PlayerDay.elo final)
          (sqrt (PlayerDay.uncertainty final * PlayerDay.uncertainty final
                 + (timePoint - PlayerDay.day final) * Player.w2 p))).
Proof.
  intros Hn Hsorted first final.
  assert (Hkey : forall i, (i < ndays p)%nat ->
             PlayerDay.day (Player.day_ (Player.days p) i) = at_ (dayKeys p) i).
  { intros i Hi. apply (dayOf_at p i Hi). }
  assert (Hlen : List.length (dayKeys p) = ndays p)
    by (unfold dayKeys, ndays; apply length_map).
  assert (Hmono : forall i j, (i <= j)%nat -> (j < ndays p)%nat ->
             PlayerDay.day (Player.day_ (Player.days p) i)
             <= PlayerDay.day (Player.day_ (Player.days p) j)).
  { intros i j Hij Hj. rewrite !Hkey by lia.
    destruct (Nat.eq_dec i j) as [->|Hne]; [lra|].
    left. apply (StronglySorted_at _ Hsorted); [lia|rewrite Hlen; exact Hj]. }
  unfold Player.interpolateRating. fold (ndays p).
  replace (ndays p =? 0)%nat with false by (symmetry; apply Nat.eqb_neq; lia).
  destruct (Nat.eq_dec (ndays p) 1) as [E1|N1].
  - rewrite E1. simpl Nat.eqb. cbv iota. unfold final. rewrite E1.
    simpl Nat.sub. fold first. unfold Player.extrapolate.
    split; intros Ht; f_equal; f_equal; f_equal; f_equal.
    + rewrite Rabs_left by lra. lra.
    + rewrite Rabs_right by lra. reflexivity.
  - replace (ndays p =? 1)%nat with false by (symmetry; apply Nat.eqb_neq; lia).
    split; intros Ht.
    + rewrite find_all_false.
      * unfold Rltb. fold first.
        destruct (Rlt_dec timePoint (PlayerDay.day first)) as [_|C]; [|contradiction].
        reflexivity.
      * intros i Hi. apply in_seq in Hi.
        apply not_true_is_false. intros C. apply brackets_test in C.
        destruct C as [C _]. unfold dayOf in C.
        pose proof (Hmono 0%nat i ltac:(lia) ltac:(lia)) as Hm.
        fold first in Hm. lra.
    + rewrite find_all_false.
      * unfold Rltb. fold first final.
        destruct (Rlt_dec timePoint (PlayerDay.day first)) as [C|_].
        { pose proof (Hmono 0%nat (ndays p - 1)%nat ltac:(lia) ltac:(lia)) as Hm.
          fold first final in Hm. lra. }
        reflexivity.
      * intros i Hi. apply in_seq in Hi.
        apply not_true_is_false. intros C. apply brackets_test in C.
        destruct C as [_ C]. unfold dayOf in C.
        pose proof (Hmono (i + 1)%nat (ndays p - 1)%nat ltac:(lia) ltac:(lia)) as Hm.
        fold final in Hm. lra.
Qed.

Lemma extrapolation_outside_range_witness :
  Player.interpolateRating sample_player 0
  = Estimate.mk (PlayerDay.elo sample_day_1)
      (sqrt (sqrt 5 * sqrt 5 + (1 - 0) * Player.w2 sample_player)).
Proof.
  refine (proj1 (extrapolation_outside_range sample_player 0 _ sample_keys_sorted) _).
  - unfold ndays. simpl. lia.
  - simpl. lra.
Defined.

(** The branch of [interpolateRating] taken when the pair [i], [i+1] is the
    first that brackets the time. *)
Lemma interpolateRating_bracket (p : Player.t) (t : R) (i : nat) :
  (S i < ndays p)%nat ->
  brackets p t i ->
  (forall j, (j < i)%nat -> ~ brackets p t j) ->
  let t1 := Player.day_ (Player.days p) i in
  let t2 := Player.day_ (Player.days p) (i + 1) in
  Player.interpolateRating p t
  = Estimate.mk
      ((PlayerDay.r t1 * (PlayerDay.day t2 - t) + PlayerDay.r t2 * (t - PlayerDay.day t1))
       / (PlayerDay.day t2 - PlayerDay.day t1) * 400 / ln 10)
      (sqrt (Rmax 0
               ((PlayerDay.day t2 - t) * (t - PlayerDay.day t1)
                / (PlayerDay.day t2 - PlayerDay.day t1) * Player.w2 p
                + ((PlayerDay.day t2 - t) ^ 2
                   * (PlayerDay.uncertainty t1 * PlayerDay.uncertainty t1)
                   + 2 * (PlayerDay.day t2 - t) * (t - PlayerDay.day t1) * 0
                   + (t - PlayerDay.day t1) ^ 2
                     * (PlayerDay.uncertainty t2 * PlayerDay.uncertainty t2))
                  / (PlayerDay.day t2 - PlayerDay.day t1) ^ 2))).
Proof.
  intros Hi Hb Hfirst t1 t2.
  unfold Player.interpolateRating. fold (ndays p).
  replace (ndays p =? 0)%nat with false by (symmetry; apply Nat.eqb_neq; lia).
  replace (ndays p =? 1)%nat with false by (symmetry; apply Nat.eqb_neq; lia).
  rewrite (find_seq_first _ i).
  - reflexivity.
  - lia.
  - apply brackets_test. exact Hb.
  - intros j Hj. destruct (Rleb _ _ && Rgeb _ _) eqn:E; [|reflexivity].
    apply brackets_test in E. exfalso. apply (Hfirst j); [lia|exact E].
Qed.

Lemma sqrt_square_abs (u : R) : sqrt (Rmax 0 (u * u)) = Rabs u.
Proof.
  rewrite Rmax_right by nra. apply sqrt_Rsqr_abs.
Qed.

(** X19.  Computed in exact real arithmetic, the interpolation formula
    passes through the known days: at the day number of one of the player's
    days (day numbers strictly increasing) [interpolateRating] returns that
    day's Elo rating and the absolute value of its uncertainty, the values
    that [getRatingAtTime] reads there from the day itself.  (In binary64
    the formula rounds, and its result can differ from the stored value in
    the last bits.) *)
Theorem interpolation_through_known_days (p : Player.t) (i : nat) :
  StronglySorted Rlt (dayKeys p) ->
  (i < ndays p)%nat ->
  Player.interpolateRating p (dayOf p i)
  = Estimate.mk (PlayerDay.elo (Player.day_ (Player.days p) i))
                (Rabs (PlayerDay.uncertainty (Player.day_ (Player.days p) i))).
Proof.
  intros Hsorted Hi.
  assert (Hlen : List.length (dayKeys p) = ndays p)
    by (unfold dayKeys, ndays; apply length_map).
  assert (Hlt : forall a b, (a < b)%nat -> (b < ndays p)%nat -> dayOf p a < dayOf p b).
  { intros a b Hab Hb. rewrite !dayOf_at by lia.
    apply (StronglySorted_at _ Hsorted); [exact Hab|rewrite Hlen; exact Hb]. }
  destruct (Nat.eq_dec (ndays p) 1) as [E1|N1].
  - assert (i = 0%nat) by lia. subst i.
    unfold Player.interpolateRating. fold (ndays p). rewrite E1. simpl Nat.eqb.
    cbv iota. unfold Player.extrapolate, dayOf.
    rewrite Rminus_diag, Rabs_R0, Rmult_0_l, Rplus_0_r.
    f_equal. apply sqrt_Rsqr_abs.
  - destruct i as [|i].
    + rewrite (interpolateRating_bracket p (dayOf p 0) 0); [|lia| |intros j Hj; lia].
      * pose proof (Hlt 0%nat 1%nat ltac:(lia) ltac:(lia)) as H01.
        unfold dayOf in *. simpl Nat.add in *.
        set (d0 := Player.day_ (Player.days p) 0) in *.
        set (d1 := Player.day_ (Player.days p) 1) in *.
        f_equal.
        -- unfold PlayerDay.elo, Rating.elo. pose proof ln10_pos. field. lra.
        -- rewrite <- sqrt_square_abs. f_equal. f_equal. field. lra.
      * pose proof (Hlt 0%nat 1%nat ltac:(lia) ltac:(lia)) as H01.
        unfold brackets. simpl Nat.add. lra.
    + rewrite (interpolateRating_bracket p (dayOf p (S i)) i); [|lia| |].
      * pose proof (Hlt i (S i) ltac:(lia) Hi) as H01.
        replace (i + 1)%nat with (S i) by lia.
        unfold dayOf in *.
        set (d0 := Player.day_ (Player.days p) i) in *.
        set (d1 := Player.day_ (Player.days p) (S i)) in *.
        f_equal.
        -- unfold PlayerDay.elo, Rating.elo. pose proof ln10_pos. field. lra.
        -- rewrite <- sqrt_square_abs. f_equal. f_equal. field. lra.
      * pose proof (Hlt i (S i) ltac:(lia) Hi) as H01.
        unfold brackets. replace (i + 1)%nat with (S i) by lia. lra.
      * intros j Hj [_ C].
        pose proof (Hlt (j + 1)%nat (S i) ltac:(lia) Hi). lra.
Qed.

Lemma interpolation_through_known_days_witness :
  Player.interpolateRating sample_player (dayOf sample_player 1)
  = Estimate.mk (PlayerDay.elo (Player.day_ (Player.days sample_player) 1))
                (Rabs (PlayerDay.uncertainty (Player.day_ (Player.days sample_player) 1))).
Proof.
  apply (interpolation_through_known_days sample_player 1 sample_keys_sorted).
  unfold ndays. simpl. lia.
Defined.

(** X20.  Computed in exact real arithmetic, between two neighbouring days
    (day numbers strictly increasing) the interpolated Elo rating is the
    straight line through the two days' Elo ratings, so it does not leave the
    interval they span.  (In binary64 the formula rounds, and can leave the
    interval by a rounding error.) *)
Theorem interpolated_elo_between_neighbours (p : Player.t) (t : R) (i : nat) :
  StronglySorted Rlt (dayKeys p) ->
  (S i < ndays p)%nat ->
  dayOf p i < t < dayOf p (i + 1) ->
  let t1 := Player.day_ (Player.days p) i in
  let t2 := Player.day_ (Player.days p) (i + 1) in
  Estimate.elo (Player.interpolateRating p t)
  = (PlayerDay.elo t1 * (PlayerDay.day t2 - t) + PlayerDay.elo t2 * (t - PlayerDay.day t1))
    / (PlayerDay.day t2 - PlayerDay.day t1)
  /\ Rmin (PlayerDay.elo t1) (PlayerDay.elo t2)
     <= Estimate.elo (Player.interpolateRating p t)
     <= Rmax (PlayerDay.elo t1) (PlayerDay.elo t2).
Proof.
  intros Hsorted Hi Ht t1 t2.
  rewrite (interpolateRating_bracket p t i Hi).
  - fold t1 t2. cbn [Estimate.elo]. unfold dayOf in Ht. fold t1 t2 in Ht.
    pose proof ln10_pos as Hl.
    set (a := PlayerDay.day t2 - t). set (b := t - PlayerDay.day t1).
    assert (Ha : 0 < a) by (unfold a; lra).
    assert (Hb : 0 < b) by (unfold b; lra).
    replace (PlayerDay.day t2 - PlayerDay.day t1) with (a + b) by (unfold a, b; lra).
    assert (Eline : (PlayerDay.r t1 * a + PlayerDay.r t2 * b) / (a + b) * 400 / ln 10
                    = (PlayerDay.elo t1 * a + PlayerDay.elo t2 * b) / (a + b)).
    { unfold PlayerDay.elo, Rating.elo. field. lra. }
    rewrite Eline. split; [reflexivity|].
    set (e1 := PlayerDay.elo t1). set (e2 := PlayerDay.elo t2).
    assert (Hinv : 0 < / (a + b)) by (apply Rinv_0_lt_compat; lra).
    assert (Hmin : Rmin e1 e2 * (a + b) <= e1 * a + e2 * b).
    { pose proof (Rmin_l e1 e2). pose proof (Rmin_r e1 e2). nra. }
    assert (Hmax : e1 * a + e2 * b <= Rmax e1 e2 * (a + b)).
    { pose proof (Rmax_l e1 e2). pose proof (Rmax_r e1 e2). nra. }
    split.
    + apply (Rmult_le_reg_r (a + b)); [lra|].
      unfold Rdiv. rewrite Rmult_assoc, Rinv_l by lra. lra.
    + apply (Rmult_le_reg_r (a + b)); [lra|].
      unfold Rdiv. rewrite Rmult_assoc, Rinv_l by lra. lra.
  - unfold brackets. lra.
  - apply sorted_first_bracket; [exact Hsorted|exact Hi|lra].
Qed.

Lemma interpolated_elo_between_neighbours_witness :
  Rmin (PlayerDay.elo sample_day_1) (PlayerDay.elo sample_day_2)
  <= Estimate.elo (Player.interpolateRating sample_player 2)
  <= Rmax (PlayerDay.elo sample_day_1) (PlayerDay.elo sample_day_2).
Proof.
  refine (proj2 (interpolated_elo_between_neighbours sample_player 2 0
                   sample_keys_sorted sample_ndays _)).
  unfold dayOf, Player.day_. simpl. lra.
Defined.

(** ** player.ts: what [addGame] does to a trajectory *)

(** The number of games a player holds, over all days. *)
Definition totalGames (p : Player.t) : nat :=
  fold_right (fun pd acc => (gamesOn pd + acc)%nat) 0%nat (Player.days p).

Lemma totalGames_app days1 days2 p :
  totalGames (Player.set_days (days1 ++ days2) p)
  = (totalGames (Player.set_days days1 p) + totalGames (Player.set_days days2 p))%nat.
Proof.
  unfold totalGames. simpl. induction days1 as [|d ds IH]; simpl; [reflexivity|].
  rewrite IH. lia.
Qed.

Lemma gamesOn_addGame game pd : gamesOn (PlayerDay.addGame game pd) = S (gamesOn pd).
Proof.
  unfold gamesOn, PlayerDay.addGame.
  destruct (PlayerDay.isWonBy game (PlayerDay.player pd)); simpl;
    rewrite length_app; simpl; lia.
Qed.

Lemma PlayerDay_addGame_r game pd :
  PlayerDay.r (PlayerDay.addGame game pd) = PlayerDay.r pd.
Proof.
  unfold PlayerDay.addGame.
  destruct (PlayerDay.isWonBy game (PlayerDay.player pd)); reflexivity.
Qed.

Lemma PlayerDay_addGame_holds game pd :
  In game (PlayerDay.wonGames (PlayerDay.addGame game pd))
  \/ In game (PlayerDay.lostGames (PlayerDay.addGame game pd)).
Proof.
  unfold PlayerDay.addGame.
  destruct (PlayerDay.isWonBy game (PlayerDay.player pd)); simpl;
    [left|right]; apply in_or_app; right; left; reflexivity.
Qed.

(** The three ways [addGame] runs: the day the game goes to ([base], before
    the game is added to it) and the days in front of it. *)
Lemma addGame_shape (game : Game.t) (p : Player.t) :
  exists front base,
    let game' :=
      if String.eqb (Game.whitePlayer game) (Player.name p)
      then Game.set_wpd game (Some (PlayerDay.r base))
      else Game.set_bpd game (Some (PlayerDay.r base)) in
    Player.addGame game p
    = (Player.set_days (front ++ [PlayerDay.addGame game' base]) p, game')
    /\ ((Player.days p = [] /\ front = []
         /\ base = PlayerDay.set_gamma 1
                     (PlayerDay.set_isFirstDay true
                        (PlayerDay.new_ (Player.name p) (Game.day game))))
        \/ (exists l, Player.days p = front ++ [l]
                      /\ PlayerDay.day l = Game.day game /\ base = l)
        \/ (exists init l,
               Player.days p = init ++ [l] /\ front = init ++ [l]
               /\ PlayerDay.day l <> Game.day game
               /\ base = PlayerDay.set_gamma (PlayerDay.gamma l)
                           (PlayerDay.new_ (Player.name p) (Game.day game)))).
Proof.
  destruct (Player.days p) as [|d0 ds] eqn:Edays.
  - eexists [], _. cbv zeta. split.
    + unfold Player.addGame. rewrite Edays. reflexivity.
    + left. repeat split.
  - destruct (exists_last (l := d0 :: ds)) as (init & l & Einit); [discriminate|].
    rewrite Einit in *. clear d0 ds Einit.
    assert (Elen : (List.length (init ++ [l]) =? 0)%nat = false).
    { apply Nat.eqb_neq. rewrite length_app. simpl. lia. }
    assert (Elast : (List.length (init ++ [l]) - 1)%nat = List.length init).
    { rewrite length_app. simpl. lia. }
    destruct (Req_dec_T (PlayerDay.day l) (Game.day game)) as [E|E].
    + exists init, l. cbv zeta. split.
      * unfold Player.addGame. rewrite Edays, day_last, Elen. unfold Reqb.
        destruct (Req_dec_T (PlayerDay.day l) (Game.day game)) as [_|C];
          [|contradiction].
        cbn [orb negb]. rewrite Elast, list_update_app. reflexivity.
      * right. left. exists l. repeat split. exact E.
    + eexists (init ++ [l]), _. cbv zeta. split.
      * unfold Player.addGame. rewrite Edays, day_last, Elen. unfold Reqb.
        destruct (Req_dec_T (PlayerDay.day l) (Game.day game)) as [C|_];
          [contradiction|].
        cbn [orb negb]. reflexivity.
      * right. right. exists init, l. repeat split. exact E.
Qed.

Lemma totalGames_snoc front pd p :
  totalGames (Player.set_days (front ++ [pd]) p)
  = (totalGames (Player.set_days front p) + gamesOn pd)%nat.
Proof.
  rewrite totalGames_app. unfold totalGames at 2. simpl. lia.
Qed.

Lemma totalGames_days p : totalGames (Player.set_days (Player.days p) p) = totalGames p.
Proof. reflexivity. Qed.

Lemma day_snoc_last (front : list PlayerDay.t) pd :
  Player.day_ (front ++ [pd]) (List.length (front ++ [pd]) - 1) = pd.
Proof. apply day_last. Qed.

(** X21.  [addGame] touches the end of the trajectory only.  The game goes
    to the last day when that day has the game's day number, and to a new
    day appended after it otherwise; all earlier days are left as they are.
    A new day is given the gamma of the day before it, so that its [r] is
    [Math.log(Math.exp(r))] of that day's [r] ([Math.log(1)] when it is the
    player's first day); an existing day keeps its [r].  The game object
    gets this day attached as [wpd] when the player is the game's white
    player and as [bpd] otherwise, and is held by that day; the player holds
    one game more than before. *)
Theorem addGame_effect (game : Game.t) (p : Player.t) :
  let p' := fst (Player.addGame game p) in
  let game' := snd (Player.addGame game p) in
  let latest := Player.day_ (Player.days p') (ndays p' - 1) in
  (* the trajectory *)
  ((ndays p' = ndays p
    /\ (0 < ndays p)%nat
    /\ dayOf p (ndays p - 1) = Game.day game)
   \/ (ndays p' = S (ndays p)
       /\ ((0 < ndays p)%nat -> dayOf p (ndays p - 1) <> Game.day game)))
  /\ (forall i, (i < ndays p' - 1)%nat ->
                nth_error (Player.days p') i = nth_error (Player.days p) i)
  /\ Player.name p' = Player.name p
  /\ Player.w2 p' = Player.w2 p
  /\ totalGames p' = S (totalGames p)
  (* the day of the game *)
  /\ PlayerDay.day latest = Game.day game
  /\ PlayerDay.r latest
     = (if (ndays p =? 0)%nat then ln 1
        else if Reqb (dayOf p (ndays p - 1)) (Game.day game)
             then PlayerDay.r (Player.day_ (Player.days p) (ndays p - 1))
             else ln (exp (PlayerDay.r (Player.day_ (Player.days p) (ndays p - 1)))))
  /\ (In game' (PlayerDay.wonGames latest) \/ In game' (PlayerDay.lostGames latest))
  (* the game object *)
  /\ game' = (if String.eqb (Game.whitePlayer game) (Player.name p)
              then Game.set_wpd game (Some (PlayerDay.r latest))
              else Game.set_bpd game (Some (PlayerDay.r latest))).
Proof.
  intros p' game' latest. unfold latest, game', p'.
  destruct (addGame_shape game p) as (front & base & Hrun & Hcases).
  cbv zeta in Hrun. rewrite Hrun. clear Hrun.
  set (g' := if String.eqb (Game.whitePlayer game) (Player.name p)
             then Game.set_wpd game (Some (PlayerDay.r base))
             else Game.set_bpd game (Some (PlayerDay.r base))).
  cbn [fst snd].
  set (x := PlayerDay.addGame g' base).
  set (P' := Player.set_days (front ++ [x]) p).
  assert (Hn' : ndays P' = S (List.length front)).
  { unfold ndays, P'. simpl. rewrite length_app. simpl. lia. }
  assert (Hlatest : Player.day_ (Player.days P') (ndays P' - 1) = x).
  { unfold ndays, P'. simpl. apply day_last. }
  rewrite Hlatest, Hn'.
  change (Player.days P') with (front ++ [x]).
  change (Player.name P') with (Player.name p).
  change (Player.w2 P') with (Player.w2 p).
  destruct (PlayerDay_addGame_frame g' base) as (Eday & _).
  assert (Hr : PlayerDay.r x = PlayerDay.r base) by apply PlayerDay_addGame_r.
  fold x in Eday. rewrite Eday, Hr.
  assert (Htotal : totalGames P'
                   = S (totalGames (Player.set_days front p) + gamesOn base)%nat).
  { unfold P'. rewrite totalGames_snoc. unfold x. rewrite gamesOn_addGame. lia. }
  rewrite Htotal.
  assert (Hin : In g' (PlayerDay.wonGames x) \/ In g' (PlayerDay.lostGames x))
    by apply PlayerDay_addGame_holds.
  assert (Hfront : forall i, (i < S (List.length front) - 1)%nat ->
             nth_error (front ++ [x]) i = nth_error front i).
  { intros i Hi. apply nth_error_app1. lia. }
  destruct Hcases
    as [(Edays & -> & ->)|[(l & Edays & Ekey & ->)|(init & l & Edays & -> & Ekey & ->)]].
  - unfold ndays, dayOf. rewrite Edays. simpl List.length. simpl Nat.eqb. cbv iota.
    split; [right; split; [reflexivity|intros C; inversion C]|].
    split; [intros i Hi; simpl in Hi; lia|].
    split; [reflexivity|]. split; [reflexivity|].
    split; [unfold totalGames, gamesOn; rewrite Edays; simpl; lia|].
    split; [reflexivity|].
    split; [reflexivity|].
    split; [exact Hin|reflexivity].
  - assert (Hn : ndays p = S (List.length front)).
    { unfold ndays. rewrite Edays, length_app. simpl. lia. }
    assert (Hlast : Player.day_ (Player.days p) (ndays p - 1) = l).
    { unfold ndays. rewrite Edays. apply day_last. }
    unfold dayOf. rewrite Hlast, Hn. simpl Nat.eqb. cbv iota.
    split; [left; split; [reflexivity|split; [lia|exact Ekey]]|].
    split.
    { intros i Hi. rewrite (Hfront i Hi), Edays.
      rewrite nth_error_app1 by lia. reflexivity. }
    split; [reflexivity|]. split; [reflexivity|].
    split.
    { rewrite <- (totalGames_days p), Edays, totalGames_snoc. lia. }
    split; [exact Ekey|].
    split.
    { unfold Reqb. destruct (Req_dec_T (PlayerDay.day l) (Game.day game)) as [_|C];
        [reflexivity|contradiction]. }
    split; [exact Hin|reflexivity].
  - assert (Hn : ndays p = S (List.length init)).
    { unfold ndays. rewrite Edays, length_app. simpl. lia. }
    assert (Hlast : Player.day_ (Player.days p) (ndays p - 1) = l).
    { unfold ndays. rewrite Edays. apply day_last. }
    unfold dayOf. rewrite Hlast, Hn. simpl Nat.eqb. cbv iota.
    rewrite length_app in *. simpl List.length in *.
    split; [right; split; [lia|intros _; exact Ekey]|].
    split.
    { intros i Hi. rewrite (Hfront i Hi), Edays. reflexivity. }
    split; [reflexivity|]. split; [reflexivity|].
    split.
    { rewrite <- (totalGames_days p), Edays. unfold gamesOn at 1. simpl. lia. }
    split; [reflexivity|].
    split.
    { unfold Reqb. destruct (Req_dec_T (PlayerDay.day l) (Game.day game)) as [C|_];
        [contradiction|reflexivity]. }
    split; [exact Hin|reflexivity].
Qed.

(** ** player.ts: which errors a Newton step can raise *)

(** The opponent's player-day of a game is attached, as seen from [player]. *)
Definition opponentAttached (player : string) (g : Game.t) : Prop :=
  (player = Game.whitePlayer g /\ Game.bpd g <> None)
  \/ (player <> Game.whitePlayer g /\ player = Game.blackPlayer g
      /\ Game.wpd g <> None).

(** Every game of every day has the opponent's player-day attached. *)
Definition gamesAttached (p : Player.t) : Prop :=
  forall pd, In pd (Player.days p) ->
    Forall (opponentAttached (PlayerDay.player pd))
           (PlayerDay.wonGames pd ++ PlayerDay.lostGames pd).

Lemma gamesAttached_same_player p p' :
  same_player p p' -> gamesAttached p -> gamesAttached p'.
Proof.
  intros (_ & _ & Hdays) Hp pd' Hin.
  destruct (In_nth_error _ _ Hin) as [i Ei].
  assert (Hex : exists pd, nth_error (Player.days p) i = Some pd /\ same_day pd pd').
  { clear Hp Hin. revert i Ei. induction Hdays as [|a b la lb Hab _ IH]; intros i Ei.
    - destruct i; discriminate.
    - destruct i as [|i]; simpl in *.
      + injection Ei as <-. eauto.
      + apply IH. exact Ei. }
  destruct Hex as (pd & Epd & ((_ & Hpl & _ & Hw & Hl) & _)).
  rewrite Hpl, Hw, Hl. apply Hp. eapply nth_error_In, Epd.
Qed.

Section OnlyUnstable.
Context `{HostMath}.

Lemma opponentsAdjustedGamma_attached (g : Game.t) (player : string) (e : exn) :
  opponentAttached player g ->
  Game.opponentsAdjustedGamma g player = Throw e -> isUnstable e = true.
Proof.
  intros Hatt. unfold Game.opponentsAdjustedGamma, Game.opponentElo.
  destruct Hatt as [[-> Hb]|(Hw & -> & Hwp)].
  - rewrite String.eqb_refl. destruct (Game.bpd g) as [rb|]; [|contradiction].
    destruct (checkedGamma_cases (Math_pow10 ((Rating.elo rb + Game.blackAdvantage g) / 400)))
      as [[m Em]|[v Ev]].
    + rewrite Em. intros E. injection E as <-. reflexivity.
    + rewrite Ev. discriminate.
  - apply String.eqb_neq in Hw. rewrite Hw, String.eqb_refl.
    destruct (Game.wpd g) as [rw|]; [|contradiction].
    destruct (checkedGamma_cases (Math_pow10 ((Rating.elo rw - Game.blackAdvantage g) / 400)))
      as [[m Em]|[v Ev]].
    + rewrite Em. intros E. injection E as <-. reflexivity.
    + rewrite Ev. discriminate.
Qed.

Lemma mapC_terms_attached (term : string -> Game.t -> completion GameTerm.t)
      (player : string) (games : list Game.t) (e : exn) :
  (forall g e, term player g = Throw e -> Game.opponentsAdjustedGamma g player = Throw e) ->
  Forall (opponentAttached player) games ->
  mapC (term player) games = Throw e -> isUnstable e = true.
Proof.
  intros Hterm Hall. induction Hall as [|g games Hg _ IH]; simpl; [discriminate|].
  destruct (term player g) as [t|e1] eqn:Et.
  - destruct (mapC (term player) games) as [ts|e2]; [discriminate|].
    intros E. injection E as <-. apply IH. reflexivity.
  - intros E. injection E as <-.
    eapply opponentsAdjustedGamma_attached; [exact Hg|]. apply Hterm, Et.
Qed.

Lemma wonGameTerms_throw_source (pd pd' : PlayerDay.t) (e : exn) :
  PlayerDay.wonGameTerms pd = (Throw e, pd') ->
  mapC (PlayerDay.wonTerm (PlayerDay.player pd)) (PlayerDay.wonGames pd) = Throw e.
Proof.
  unfold PlayerDay.wonGameTerms. monad_unfold.
  destruct pd as [dy pl r0 fd un wg lg [wt|] lt]; simpl; [discriminate|].
  destruct (mapC (PlayerDay.wonTerm pl) wg); simpl; [discriminate|].
  intros E. injection E as <- _. reflexivity.
Qed.

Lemma lostGameTerms_throw_source (pd pd' : PlayerDay.t) (e : exn) :
  PlayerDay.lostGameTerms pd = (Throw e, pd') ->
  mapC (PlayerDay.lostTerm (PlayerDay.player pd)) (PlayerDay.lostGames pd) = Throw e.
Proof.
  unfold PlayerDay.lostGameTerms. monad_unfold.
  destruct pd as [dy pl r0 fd un wg lg wt [lt|]]; simpl; [discriminate|].
  destruct (mapC (PlayerDay.lostTerm pl) lg); simpl; [discriminate|].
  intros E. injection E as <- _. reflexivity.
Qed.

Lemma loadTerms_attached (pd pd' : PlayerDay.t) (e : exn) :
  Forall (opponentAttached (PlayerDay.player pd))
         (PlayerDay.wonGames pd ++ PlayerDay.lostGames pd) ->
  loadTerms pd = (Throw e, pd') -> isUnstable e = true.
Proof.
  intros Hall. apply Forall_app in Hall. destruct Hall as [Hw Hl].
  unfold loadTerms. unfold bind at 1.
  pose proof (wonGameTerms_run pd) as Hrun.
  destruct (PlayerDay.wonGameTerms pd) as [[w|e1] pd1] eqn:Ew.
  - unfold bind at 1.
    destruct (PlayerDay.lostGameTerms pd1) as [[l|e2] pd2] eqn:El; [discriminate|].
    intros E. injection E as <- _.
    apply lostGameTerms_throw_source in El. subst pd1. simpl in El.
    eapply (mapC_terms_attached PlayerDay.lostTerm); [|exact Hl|exact El].
    intros g e1. unfold PlayerDay.lostTerm.
    destruct (Game.opponentsAdjustedGamma g (PlayerDay.player pd)); [discriminate|].
    intros E. injection E as ->. reflexivity.
  - intros E. injection E as <- _.
    apply wonGameTerms_throw_source in Ew.
    eapply (mapC_terms_attached PlayerDay.wonTerm); [|exact Hw|exact Ew].
    intros g e2. unfold PlayerDay.wonTerm.
    destruct (Game.opponentsAdjustedGamma g (PlayerDay.player pd)); [discriminate|].
    intros E. injection E as ->. reflexivity.
Qed.

End OnlyUnstable.

Definition d1At (days : list PlayerDay.t)
           (terms : list (list GameTerm.t * list GameTerm.t)) (i : nat) : R :=
  match nth_error days i, nth_error terms i with
  | Some pd, Some wl => d1_of (PlayerDay.gamma pd) (fst wl) (snd wl)
  | _, _ => 0
  end.

Lemma gamesAttached_cleared p : gamesAttached p -> gamesAttached (cleared p).
Proof. apply gamesAttached_same_player, same_player_cleared. Qed.

Section StepErrors.
Context `{HostMath}.

Lemma hessian_fails_unstable (sigma2 : list R) (p p' : Player.t) (e : exn) :
  gamesAttached p ->
  Player.hessian sigma2 p = (Throw e, p') -> isUnstable e = true.
Proof.
  intros Hatt Hthrow.
  destruct (days_load_or_throw (Player.days p))
    as [[terms Hloads]|(good & terms & bad & rest & e0 & bad' & Edays & Hgood & Hbad)].
  - rewrite (hessian_run sigma2 (d2At (Player.days p) terms) p terms Hloads)
      in Hthrow; [discriminate|].
    intros i pd wl E1 E2. unfold d2At. rewrite E1, E2. reflexivity.
  - destruct (hessian_throws sigma2 p good terms bad rest e0 bad' Edays Hgood Hbad)
      as [s' Hs']. rewrite Hs' in Hthrow. injection Hthrow as <- _.
    eapply loadTerms_attached; [|exact Hbad].
    apply Hatt. rewrite Edays. apply in_or_app. right. left. reflexivity.
Qed.

Lemma runOneNewtonIteration_fails_unstable (p p' : Player.t) (e : exn) :
  gamesAttached p ->
  Player.runOneNewtonIteration p = (Throw e, p') -> isUnstable e = true.
Proof.
  intros Hatt.
  destruct (Player.days p) as [|pd [|pd2 rest]] eqn:Edays.
  - unfold Player.runOneNewtonIteration, bind, modify, gets. rewrite Edays.
    simpl. discriminate.
  - unfold Player.runOneNewtonIteration, bind, modify, gets. rewrite Edays.
    simpl. unfold Player.onDay. simpl.
    unfold PlayerDay.updateBy1DNewtonsMethod. unfold bind at 1.
    rewrite logLikelihoodDerivative_run.
    destruct (loadTerms (PlayerDay.clearGameTermsCache pd))
      as [[[won lost]|e0] pd1] eqn:Eload.
    + pose proof (loadTerms_Return _ _ _ _ Eload) as ->.
      pose proof (updateBy1DNewtonsMethod_run
                    (PlayerDay.clearGameTermsCache pd) won lost Eload) as Hrun.
      unfold PlayerDay.updateBy1DNewtonsMethod in Hrun. unfold bind at 1 in Hrun.
      rewrite logLikelihoodDerivative_run, Eload in Hrun.
      rewrite Hrun. discriminate.
    + intros E. injection E as <- _.
      eapply loadTerms_attached; [|exact Eload].
      simpl. apply (Hatt pd). rewrite Edays. left. reflexivity.
  - rewrite runOneNewtonIteration_multi by (rewrite Edays; simpl; lia).
    fold (cleared p). clear pd pd2 rest Edays.
    destruct (days_load_or_throw (Player.days (cleared p)))
      as [[terms Hloads]|(good & terms & bad & rest & e0 & bad' & Ed & Hgood & Hbad)].
    + pose proof (updateByNDimNewton_run (cleared p) terms
                    (d1At (Player.days (cleared p)) terms)
                    (d2At (Player.days (cleared p)) terms) Hloads) as Hrun.
      cbv zeta in Hrun. destruct Hrun as (_ & _ & Hstep).
      { intros i pd wl E1 E2. unfold d1At, d2At. rewrite E1, E2.
        split; reflexivity. }
      rewrite Hstep.
      match goal with |- commitOrThrow ?newR ?p1 = _ -> _ =>
        destruct (commitOrThrow_cases newR p1) as [[_ E]|[_ E]]; rewrite E end.
       * intros E'. injection E' as <- _. reflexivity.
       * discriminate.
    + unfold Player.updateByNDimNewton. unfold bind at 1. unfold get at 1.
      unfold bind at 1.
      destruct (hessian_throws (Player.computeSigma2 (cleared p)) (cleared p)
                  good terms bad rest e0 bad' Ed Hgood Hbad) as [s' Hs'].
      rewrite Hs'. intros E. injection E as <- _.
      eapply loadTerms_attached; [|exact Hbad].
      apply (gamesAttached_cleared p Hatt). rewrite Ed.
      apply in_or_app. right. left. reflexivity.
Qed.

Lemma updateUncertainty_fails_unstable (p p' : Player.t) (e : exn) :
  gamesAttached p ->
  Player.updateUncertainty p = (Throw e, p') -> isUnstable e = true.
Proof.
  intros Hatt.
  unfold Player.updateUncertainty. unfold bind at 1. unfold gets at 1.
  destruct (0 <? List.length (Player.days p))%nat eqn:Elen;
    [|unfold ret; discriminate].
  apply Nat.ltb_lt in Elen.
  unfold bind at 1. unfold Player.covariance. unfold bind at 1. unfold get at 1.
  unfold bind at 1.
  destruct (Player.hessian (Player.computeSigma2 p) p) as [[h|e0] s1] eqn:Eh.
  - replace (List.length (Player.days p) =? 0)%nat with false
      by (symmetry; apply Nat.eqb_neq; lia).
    unfold ret, modify. discriminate.
  - intros E. injection E as <- _.
    eapply hessian_fails_unstable; [exact Hatt|exact Eh].
Qed.

(** X22.  When every game of a player has the opponent's player-day
    attached, a Newton step and an uncertainty update can fail with an
    instability error only: a plain [Error] out of either means that some
    game of the player lacks its opponent's day, or names a player who is
    not in it. *)
Theorem step_fails_only_unstable (p p' : Player.t) (e : exn) :
  gamesAttached p ->
  (Player.runOneNewtonIteration p = (Throw e, p') -> isUnstable e = true)
  /\ (Player.updateUncertainty p = (Throw e, p') -> isUnstable e = true).
Proof.
  intros Hatt. split.
  - apply runOneNewtonIteration_fails_unstable. exact Hatt.
  - apply updateUncertainty_fails_unstable. exact Hatt.
Qed.

End StepErrors.

Lemma sample_attached : gamesAttached sample_player.
Proof.
  assert (Hg : forall g, Game.whitePlayer g = "white"%string -> Game.bpd g = Some 0 ->
                         Forall (opponentAttached "white") [g]).
  { intros g Hw Hb. constructor; [|constructor].
    left. split; [symmetry; exact Hw|rewrite Hb; discriminate]. }
  intros pd [<-|[<-|[]]].
  - apply (Hg sample_game_1); reflexivity.
  - apply (Hg sample_game_2); reflexivity.
Qed.

Lemma step_fails_only_unstable_witness :
  gamesAttached sample_player
  /\ forall e p', @Player.runOneNewtonIteration RangeLimitedMath sample_player
                  = (Throw e, p') -> isUnstable e = true.
Proof.
  split; [exact sample_attached|]. intros e p'.
  exact (proj1 (@step_fails_only_unstable RangeLimitedMath sample_player p' e
                  sample_attached)).
Defined.

(** ** whr.ts: players, games and the references between them *)

Lemma find_map_set_same name player entries :
  find (fun entry : string * Whr.PlayerObj => String.eqb (fst entry) name)
       (Whr.map_set name player entries) = Some (name, player).
Proof.
  induction entries as [|[k v] rest IH]; simpl.
  - rewrite String.eqb_refl. reflexivity.
  - destruct (String.eqb_spec k name) as [E|N]; simpl.
    + rewrite String.eqb_refl. reflexivity.
    + apply String.eqb_neq in N. rewrite N. exact IH.
Qed.

Lemma find_map_set_other name other player entries :
  other <> name ->
  find (fun entry : string * Whr.PlayerObj => String.eqb (fst entry) other)
       (Whr.map_set name player entries)
  = find (fun entry : string * Whr.PlayerObj => String.eqb (fst entry) other) entries.
Proof.
  intros Hne. induction entries as [|[k v] rest IH]; simpl.
  - destruct (String.eqb_spec name other) as [E|_]; [congruence|reflexivity].
  - destruct (String.eqb_spec k name) as [E|N]; simpl.
    + subst k. destruct (String.eqb_spec name other) as [E|_]; [congruence|reflexivity].
    + destruct (String.eqb k other); [reflexivity|exact IH].
Qed.

Lemma get_set_player_same name player st :
  Whr.get_player name (Whr.set_player name player st) = Some player.
Proof.
  unfold Whr.get_player, Whr.set_player. simpl.
  rewrite find_map_set_same. reflexivity.
Qed.

Lemma get_set_player_other name other player st :
  other <> name ->
  Whr.get_player other (Whr.set_player name player st) = Whr.get_player other st.
Proof.
  intros Hne. unfold Whr.get_player, Whr.set_player. simpl.
  rewrite find_map_set_other by exact Hne. reflexivity.
Qed.

Lemma map_set_length name player entries :
  List.length (Whr.map_set name player entries)
  = match find (fun entry : string * Whr.PlayerObj => String.eqb (fst entry) name)
               entries with
    | Some _ => List.length entries
    | None => S (List.length entries)
    end.
Proof.
  induction entries as [|[k v] rest IH]; simpl; [reflexivity|].
  destruct (String.eqb k name); simpl; [reflexivity|].
  rewrite IH. destruct (find _ rest); reflexivity.
Qed.

Lemma map_set_names name player entries :
  map fst (Whr.map_set name player entries)
  = match find (fun entry : string * Whr.PlayerObj => String.eqb (fst entry) name)
               entries with
    | Some _ => map fst entries
    | None => map fst entries ++ [name]
    end.
Proof.
  induction entries as [|[k v] rest IH]; simpl; [reflexivity|].
  destruct (String.eqb_spec k name) as [E|N]; simpl; [congruence|].
  rewrite IH. destruct (find _ rest); reflexivity.
Qed.

Lemma get_player_names name st :
  Whr.get_player name st = None <-> ~ In name (map fst (Whr.players st)).
Proof.
  unfold Whr.get_player. induction (Whr.players st) as [|[k v] rest IH]; simpl.
  - split; [intros _ []|reflexivity].
  - destruct (String.eqb_spec k name) as [E|N]; simpl.
    + split; [discriminate|]. intros C. exfalso. apply C. left. exact E.
    + rewrite IH. split; [intros H [C|C]; [contradiction|exact (H C)]|].
      intros H C. apply H. right. exact C.
Qed.

(** X23.  [playerByName] looks a player up and creates it when it is not
    there: the call always returns, a second call with the same name changes
    nothing, an existing player is returned as it is, and a new one is added
    after all others, without days, with the [w2] of the configuration.  No
    other player, and no game, is touched. *)
Theorem playerByName_get_or_create (name : string) (st : Whr.t) :
  let st' := snd (Whr.playerByName name st) in
  fst (Whr.playerByName name st) = Return name
  /\ Whr.playerByName name st' = (Return name, st')
  /\ (forall other, other <> name ->
                    Whr.get_player other st' = Whr.get_player other st)
  /\ Whr.heap st' = Whr.heap st
  /\ Whr.games st' = Whr.games st
  /\ match Whr.get_player name st with
     | Some player =>
         st' = st
     | None =>
         Whr.get_player name st'
         = Some (Whr.mkPlayer [] (Player.w2 (Player.new_ name (Some (Whr.config_w2 st)))))
         /\ map fst (Whr.players st') = map fst (Whr.players st) ++ [name]
         /\ Whr.playerCount st' = S (Whr.playerCount st)
     end.
Proof.
  intros st'. unfold st', Whr.playerByName.
  destruct (Whr.get_player name st) as [player|] eqn:Eget; simpl.
  - rewrite Eget. repeat split; reflexivity.
  - rewrite get_set_player_same.
    split; [reflexivity|]. split; [reflexivity|].
    split; [intros other Hne; apply get_set_player_other; exact Hne|].
    split; [reflexivity|]. split; [reflexivity|].
    split; [reflexivity|].
    unfold Whr.get_player in Eget.
    destruct (find _ (Whr.players st)) as [entry|] eqn:Efind; [discriminate|].
    split.
    + rewrite map_set_names, Efind. reflexivity.
    + unfold Whr.playerCount. simpl. rewrite map_set_length, Efind. reflexivity.
Qed.

(** ** whr.ts: what the methods do to the players and the games *)

Lemma playerByName_spec (name : string) (st : Whr.t) :
  exists st',
    Whr.playerByName name st = (Return name, st')
    /\ Whr.heap st' = Whr.heap st
    /\ Whr.games st' = Whr.games st
    /\ Whr.config_w2 st' = Whr.config_w2 st
    /\ Whr.get_player name st' <> None
    /\ (forall other player, Whr.get_player other st = Some player ->
                             Whr.get_player other st' = Some player)
    /\ (forall other, other <> name ->
                      Whr.get_player other st' = Whr.get_player other st)
    /\ (Whr.get_player name st = None ->
        Whr.get_player name st'
        = Some (Whr.mkPlayer [] (Player.w2 (Player.new_ name (Some (Whr.config_w2 st))))))
    /\ map fst (Whr.players st')
       = map fst (Whr.players st)
         ++ match Whr.get_player name st with Some _ => [] | None => [name] end.
Proof.
  unfold Whr.playerByName.
  destruct (Whr.get_player name st) as [player|] eqn:Eget.
  - exists st. rewrite Eget, app_nil_r.
    repeat split; auto; discriminate.
  - eexists. split; [reflexivity|].
    rewrite get_set_player_same.
    split; [reflexivity|]. split; [reflexivity|]. split; [reflexivity|].
    split; [discriminate|].
    split.
    { intros other player Hother.
      rewrite get_set_player_other; [exact Hother|]. congruence. }
    split; [intros other Hne; apply get_set_player_other; exact Hne|].
    split; [reflexivity|].
    unfold Whr.get_player in Eget. simpl.
    destruct (find _ (Whr.players st)) as [entry|] eqn:Efind; [discriminate|].
    rewrite map_set_names, Efind. reflexivity.
Qed.

Definition detachedGame (black white : string) (winner : Game.Winner) (timeStep : R)
           (handicap : R + (option R -> option R -> R)) : Whr.GameObj :=
  match handicap with
  | inl h => Whr.mkGame timeStep white black h winner None None None
  | inr proc => Whr.mkGame timeStep white black 0 winner None None (Some proc)
  end.

Lemma setupGame_spec black white winner timeStep handicap st :
  black <> white ->
  exists st',
    Whr.setupGame black white winner timeStep handicap st
    = (Return (List.length (Whr.heap st)), st')
    /\ Whr.heap st'
       = Whr.heap st ++ [detachedGame black white winner timeStep handicap]
    /\ Whr.games st' = Whr.games st
    /\ Whr.config_w2 st' = Whr.config_w2 st
    /\ Whr.get_player white st' <> None
    /\ Whr.get_player black st' <> None
    /\ (forall name player, Whr.get_player name st = Some player ->
                            Whr.get_player name st' = Some player)
    /\ (forall name, name <> white -> name <> black ->
                     Whr.get_player name st' = Whr.get_player name st)
    /\ (Whr.get_player white st = None ->
        Whr.get_player white st'
        = Some (Whr.mkPlayer [] (Player.w2 (Player.new_ white (Some (Whr.config_w2 st))))))
    /\ (Whr.get_player black st = None ->
        Whr.get_player black st'
        = Some (Whr.mkPlayer [] (Player.w2 (Player.new_ black (Some (Whr.config_w2 st))))))
    /\ map fst (Whr.players st')
       = map fst (Whr.players st)
         ++ match Whr.get_player white st with Some _ => [] | None => [white] end
         ++ match Whr.get_player black st with Some _ => [] | None => [black] end.
Proof.
  intros Hne. unfold Whr.setupGame.
  apply String.eqb_neq in Hne as Hb. rewrite Hb.
  destruct (playerByName_spec white st)
    as (st1 & E1 & Hh1 & Hg1 & Hc1 & Hw1 & Hk1 & Ho1 & Hn1 & Hm1).
  destruct (playerByName_spec black st1)
    as (st2 & E2 & Hh2 & Hg2 & Hc2 & Hw2 & Hk2 & Ho2 & Hn2 & Hm2).
  exists (Whr.set_heap
            (Whr.heap st2 ++ [detachedGame black white winner timeStep handicap]) st2).
  unfold bind. rewrite E1, E2. unfold Whr.newGame, detachedGame.
  split; [rewrite Hh2, Hh1; destruct handicap; reflexivity|].
  split; [simpl; rewrite Hh2, Hh1; reflexivity|].
  split; [simpl; congruence|]. split; [simpl; congruence|].
  change (Whr.get_player ?n (Whr.set_heap _ st2)) with (Whr.get_player n st2).
  split.
  { destruct (Whr.get_player white st1) as [pw|] eqn:Ew; [|congruence].
    rewrite (Hk2 _ _ Ew). discriminate. }
  split; [exact Hw2|].
  split; [intros name player Hp; apply Hk2, Hk1, Hp|].
  split; [intros name Hnw Hnb; rewrite Ho2, Ho1 by assumption; reflexivity|].
  split; [intros Hnone; apply Hk2; rewrite (Hn1 Hnone); reflexivity|].
  split.
  { intros Hnone. rewrite Hn2; [rewrite Hc1; reflexivity|].
    rewrite Ho1 by exact Hne. exact Hnone. }
  change (Whr.players (Whr.set_heap _ st2)) with (Whr.players st2).
  rewrite Hm2, Hm1, <- app_assoc. rewrite (Ho1 black Hne). reflexivity.
Qed.

Lemma createGame_self black white winner timeStep handicap st :
  black = white ->
  Whr.createGame black white winner timeStep handicap st
  = (Throw (Error "Invalid game (black player == white player)"), st).
Proof.
  intros ->. unfold Whr.createGame, Whr.setupGame, bind.
  rewrite String.eqb_refl. reflexivity.
Qed.

Definition daysOf (name : string) (st : Whr.t) : list Whr.DayObj :=
  match Whr.get_player name st with
  | Some player => Whr.p_days player
  | None => []
  end.

(** X24.  [setupGame] rejects a game of a player against itself with an
    [Error], and so does [createGame]; nothing is registered or stored then.
    Otherwise [setupGame] returns a new game object that has no player-day
    attached and is not in [games]; it registers white first and then black
    when they are not known yet, each without days, and leaves the players
    that exist as they are. *)
Theorem setupGame_effect (black white : string) (winner : Game.Winner)
        (timeStep : R) (handicap : R + (option R -> option R -> R)) (st : Whr.t) :
  if String.eqb black white then
    Whr.setupGame black white winner timeStep handicap st
    = (Throw (Error "Invalid game (black player == white player)"), st)
    /\ Whr.createGame black white winner timeStep handicap st
       = (Throw (Error "Invalid game (black player == white player)"), st)
  else
    exists st',
      Whr.setupGame black white winner timeStep handicap st
      = (Return (List.length (Whr.heap st)), st')
      /\ Whr.heap st'
         = Whr.heap st ++ [detachedGame black white winner timeStep handicap]
      /\ Whr.games st' = Whr.games st
      /\ map fst (Whr.players st')
         = map fst (Whr.players st)
           ++ match Whr.get_player white st with Some _ => [] | None => [white] end
           ++ match Whr.get_player black st with Some _ => [] | None => [black] end
      /\ (forall name player, Whr.get_player name st = Some player ->
                              Whr.get_player name st' = Some player)
      /\ (forall name, Whr.get_player name st = None ->
                       name = white \/ name = black ->
                       daysOf name st' = []).
Proof.
  destruct (String.eqb_spec black white) as [E|Hne].
  - split; [|apply createGame_self; exact E].
    unfold Whr.setupGame. subst black. rewrite String.eqb_refl. reflexivity.
  - destruct (setupGame_spec black white winner timeStep handicap st Hne)
      as (st' & E1 & Hh & Hg & _ & _ & _ & Hk & _ & Hnw & Hnb & Hm).
    exists st'. repeat split; try assumption.
    intros name Hnone [->| ->]; unfold daysOf.
    + rewrite (Hnw Hnone). reflexivity.
    + rewrite (Hnb Hnone). reflexivity.
Qed.

Definition withDay (name : string) (index : nat) (g : Whr.GameObj) : Whr.GameObj :=
  if String.eqb (Whr.g_whitePlayer g) name
  then Whr.mkGame (Whr.g_day g) (Whr.g_whitePlayer g) (Whr.g_blackPlayer g)
                  (Whr.g_handicap g) (Whr.g_winner g)
                  (Some (name, index)) (Whr.g_bpd g) (Whr.g_handicapProc g)
  else Whr.mkGame (Whr.g_day g) (Whr.g_whitePlayer g) (Whr.g_blackPlayer g)
                  (Whr.g_handicap g) (Whr.g_winner g)
                  (Whr.g_wpd g) (Some (name, index)) (Whr.g_handicapProc g).

Lemma isWonBy_withDay name index g who :
  Whr.isWonBy (withDay name index g) who = Whr.isWonBy g who.
Proof. unfold withDay, Whr.isWonBy. destruct (String.eqb _ name); reflexivity. Qed.

Lemma day_addGame_withDay name index who addr g pd :
  Whr.day_addGame who addr (withDay name index g) pd = Whr.day_addGame who addr g pd.
Proof. unfold Whr.day_addGame. rewrite isWonBy_withDay. reflexivity. Qed.

Lemma firstn_snoc {A} (front : list A) x :
  firstn (List.length front) (front ++ [x]) = front.
Proof.
  rewrite firstn_app, Nat.sub_diag, firstn_all. simpl. apply app_nil_r.
Qed.

(** What [player.addGame(game)] does to the objects: the game gets the day at
    [index] attached, and that day, the last one of the player, is [base] with
    the game filed; [base] is the day that was last before when it has the
    game's day number, and a new day otherwise. *)
Lemma player_addGame_spec name addr st player g :
  Whr.get_player name st = Some player ->
  nth_error (Whr.heap st) addr = Some g ->
  exists index base,
    Whr.player_addGame name addr st
    = (Return tt,
       Whr.set_heap (list_update (Whr.heap st) addr (withDay name index g))
         (Whr.set_player name
            (Whr.mkPlayer (firstn index (Whr.p_days player)
                           ++ [Whr.day_addGame name addr g base])
                          (Whr.p_w2 player)) st))
    /\ Whr.d_day base = Whr.g_day g
    /\ ((index = List.length (Whr.p_days player)
         /\ Whr.d_wonGames base = [] /\ Whr.d_lostGames base = [])
        \/ (S index = List.length (Whr.p_days player)
            /\ nth_error (Whr.p_days player) index = Some base)).
Proof.
  intros Eget Eg. unfold Whr.player_addGame. rewrite Eget, Eg. cbv zeta.
  destruct (Whr.p_days player) as [|d0 ds] eqn:Edays.
  - simpl. eexists 0%nat, _. fold (withDay name 0 g).
    rewrite day_addGame_withDay. split; [reflexivity|]. simpl. auto.
  - assert (Hne : d0 :: ds <> []) by discriminate.
    destruct (exists_last Hne) as (front & lastDay & Efront). rewrite Efront.
    rewrite length_app. simpl List.length.
    replace (List.length front + 1 - 1)%nat with (List.length front) by lia.
    replace (List.length front + 1 =? 0)%nat with false
      by (symmetry; apply Nat.eqb_neq; lia).
    rewrite app_nth2, Nat.sub_diag by lia. simpl nth. simpl orb.
    unfold Reqb.
    destruct (Req_dec_T (Whr.d_day lastDay) (Whr.g_day g)) as [Eday|Nday]; simpl negb.
    + cbv iota. exists (List.length front), lastDay.
      fold (withDay name (List.length front) g).
      rewrite day_addGame_withDay, firstn_snoc, list_update_app.
      split; [reflexivity|]. split; [exact Eday|]. right.
      split; [lia|]. rewrite nth_error_app2, Nat.sub_diag by lia. reflexivity.
    + cbv iota. eexists (List.length front + 1)%nat, _.
      fold (withDay name (List.length front + 1) g).
      rewrite day_addGame_withDay.
      replace (List.length front + 1)%nat with (List.length (front ++ [lastDay]))
        by (rewrite length_app; reflexivity).
      rewrite firstn_all.
      split; [reflexivity|]. simpl. auto.
Qed.

Lemma list_update_snoc {A} (front : list A) x v :
  list_update (front ++ [x]) (List.length front) v = front ++ [v].
Proof. apply list_update_app. Qed.

Lemma nth_error_snoc_last {A} (front : list A) x :
  nth_error (front ++ [x]) (List.length front) = Some x.
Proof. rewrite nth_error_app2, Nat.sub_diag by lia. reflexivity. Qed.

Definition filedLast (addr : nat) (held : list nat) : Prop :=
  exists before, held = before ++ [addr].

Lemma day_addGame_filed name addr g base :
  Whr.d_day (Whr.day_addGame name addr g base) = Whr.d_day base
  /\ Whr.d_r (Whr.day_addGame name addr g base) = Whr.d_r base
  /\ if Whr.isWonBy g name
     then filedLast addr (Whr.d_wonGames (Whr.day_addGame name addr g base))
     else filedLast addr (Whr.d_lostGames (Whr.day_addGame name addr g base)).
Proof.
  unfold Whr.day_addGame.
  destruct (Whr.isWonBy g name); simpl; repeat split; eexists; reflexivity.
Qed.

Definition attachedGame (black white : string) (winner : Game.Winner) (timeStep : R)
           (handicap : R + (option R -> option R -> R)) (iw ib : nat) : Whr.GameObj :=
  match handicap with
  | inl h => Whr.mkGame timeStep white black h winner
                        (Some (white, iw)) (Some (black, ib)) None
  | inr proc => Whr.mkGame timeStep white black 0 winner
                           (Some (white, iw)) (Some (black, ib)) (Some proc)
  end.

Lemma set_player_names name player player' st :
  Whr.get_player name st = Some player ->
  map fst (Whr.players (Whr.set_player name player' st)) = map fst (Whr.players st).
Proof.
  unfold Whr.get_player, Whr.set_player. simpl. intros E.
  rewrite map_set_names. destruct (find _ (Whr.players st)); [reflexivity|discriminate].
Qed.

Lemma daysOf_set_player name player st :
  daysOf name (Whr.set_player name player st) = Whr.p_days player.
Proof. unfold daysOf. rewrite get_set_player_same. reflexivity. Qed.

Lemma createGame_spec black white winner timeStep handicap st :
  black <> white ->
  exists st' iw ib bw bb,
    let addr := List.length (Whr.heap st) in
    let g := detachedGame black white winner timeStep handicap in
    Whr.createGame black white winner timeStep handicap st = (Return addr, st')
    /\ Whr.heap st'
       = Whr.heap st ++ [attachedGame black white winner timeStep handicap iw ib]
    /\ Whr.games st' = Whr.games st ++ [addr]
    /\ Whr.config_w2 st' = Whr.config_w2 st
    /\ map fst (Whr.players st')
       = map fst (Whr.players st)
         ++ match Whr.get_player white st with Some _ => [] | None => [white] end
         ++ match Whr.get_player black st with Some _ => [] | None => [black] end
    /\ (forall name, name <> white -> name <> black ->
                     Whr.get_player name st' = Whr.get_player name st)
    /\ Whr.get_player white st' <> None
    /\ Whr.get_player black st' <> None
    /\ daysOf white st'
       = firstn iw (daysOf white st) ++ [Whr.day_addGame white addr g bw]
    /\ daysOf black st'
       = firstn ib (daysOf black st) ++ [Whr.day_addGame black addr g bb]
    /\ Whr.d_day bw = timeStep /\ Whr.d_day bb = timeStep
    /\ ((iw = List.length (daysOf white st)
         /\ Whr.d_wonGames bw = [] /\ Whr.d_lostGames bw = [])
        \/ (S iw = List.length (daysOf white st)
            /\ nth_error (daysOf white st) iw = Some bw))
    /\ ((ib = List.length (daysOf black st)
         /\ Whr.d_wonGames bb = [] /\ Whr.d_lostGames bb = [])
        \/ (S ib = List.length (daysOf black st)
            /\ nth_error (daysOf black st) ib = Some bb)).
Proof.
  intros Hne. cbv zeta.
  destruct (setupGame_spec black white winner timeStep handicap st Hne)
    as (st1 & E1 & Hh1 & Hg1 & Hc1 & Hw1 & Hb1 & Hk1 & Ho1 & Hnw1 & Hnb1 & Hm1).
  set (g := detachedGame black white winner timeStep handicap) in *.
  set (addr := List.length (Whr.heap st)) in *.
  assert (Egw : Whr.g_whitePlayer g = white) by (unfold g, detachedGame; destruct handicap; reflexivity).
  assert (Egb : Whr.g_blackPlayer g = black) by (unfold g, detachedGame; destruct handicap; reflexivity).
  assert (Egd : Whr.g_day g = timeStep) by (unfold g, detachedGame; destruct handicap; reflexivity).
  destruct (Whr.get_player white st1) as [pw|] eqn:Epw; [clear Hw1|congruence].
  destruct (Whr.get_player black st1) as [pb|] eqn:Epb; [clear Hb1|congruence].
  assert (Eaddr : nth_error (Whr.heap st1) addr = Some g)
    by (rewrite Hh1; apply nth_error_snoc_last).
  destruct (player_addGame_spec white addr st1 pw g Epw Eaddr)
    as (iw & bw & E2 & Hdw & Hcw).
  set (st2 := Whr.set_heap _ _) in E2.
  assert (Epb2 : Whr.get_player black st2 = Some pb).
  { unfold st2. change (Whr.get_player ?n (Whr.set_heap _ ?s)) with (Whr.get_player n s).
    rewrite get_set_player_other by exact Hne. exact Epb. }
  assert (Eaddr2 : nth_error (Whr.heap st2) addr = Some (withDay white iw g)).
  { unfold st2. simpl. rewrite Hh1. unfold addr.
    rewrite list_update_snoc. apply nth_error_snoc_last. }
  destruct (player_addGame_spec black addr st2 pb _ Epb2 Eaddr2)
    as (ib & bb & E3 & Hdb & Hcb).
  set (st3 := Whr.set_heap _ _) in E3.
  exists (Whr.set_games (Whr.games st3 ++ [addr]) st3), iw, ib, bw, bb.
  assert (Epw' : daysOf white st = Whr.p_days pw).
  { unfold daysOf. destruct (Whr.get_player white st) as [p0|] eqn:E0.
    - rewrite (Hk1 _ _ E0) in Epw. congruence.
    - specialize (Hnw1 eq_refl). injection Hnw1 as ->. reflexivity. }
  assert (Epb' : daysOf black st = Whr.p_days pb).
  { unfold daysOf. destruct (Whr.get_player black st) as [p0|] eqn:E0.
    - rewrite (Hk1 _ _ E0) in Epb. congruence.
    - specialize (Hnb1 eq_refl). injection Hnb1 as ->. reflexivity. }
  split.
  { unfold Whr.createGame. unfold bind at 1. rewrite E1.
    unfold Whr.addGame. rewrite Eaddr, Egw, Egb.
    unfold bind at 1. rewrite E2. unfold bind at 1. rewrite E3.
    reflexivity. }
  split.
  { simpl. rewrite Hh1. unfold addr. rewrite !list_update_snoc.
    unfold withDay, g, detachedGame, attachedGame. destruct handicap; simpl;
      rewrite String.eqb_refl; simpl;
      apply not_eq_sym in Hne; apply String.eqb_neq in Hne; rewrite Hne; reflexivity. }
  split; [simpl; rewrite Hg1; reflexivity|].
  split; [simpl; exact Hc1|].
  change (Whr.players (Whr.set_games _ st3)) with (Whr.players st3).
  change (Whr.get_player ?n (Whr.set_games _ st3)) with (Whr.get_player n st3).
  change (daysOf ?n (Whr.set_games _ st3)) with (daysOf n st3).
  assert (Epw3 : Whr.get_player white st3
                 = Some (Whr.mkPlayer (firstn iw (Whr.p_days pw)
                                       ++ [Whr.day_addGame white addr g bw])
                                      (Whr.p_w2 pw))).
  { unfold st3. change (Whr.get_player ?n (Whr.set_heap _ ?s)) with (Whr.get_player n s).
    rewrite get_set_player_other by (apply not_eq_sym; exact Hne).
    unfold st2. change (Whr.get_player ?n (Whr.set_heap _ ?s)) with (Whr.get_player n s).
    apply get_set_player_same. }
  assert (Epb3 : Whr.get_player black st3
                 = Some (Whr.mkPlayer (firstn ib (Whr.p_days pb)
                                       ++ [Whr.day_addGame black addr
                                             (withDay white iw g) bb])
                                      (Whr.p_w2 pb))).
  { unfold st3. change (Whr.get_player ?n (Whr.set_heap _ ?s)) with (Whr.get_player n s).
    apply get_set_player_same. }
  split.
  { unfold st3. change (Whr.players (Whr.set_heap _ ?s)) with (Whr.players s).
    rewrite (set_player_names _ _ _ _ Epb2).
    unfold st2. change (Whr.players (Whr.set_heap _ ?s)) with (Whr.players s).
    rewrite (set_player_names _ _ _ _ Epw). exact Hm1. }
  split.
  { intros name Hnw Hnb. unfold st3.
    change (Whr.get_player ?n (Whr.set_heap _ ?s)) with (Whr.get_player n s).
    rewrite get_set_player_other by exact Hnb. unfold st2.
    change (Whr.get_player ?n (Whr.set_heap _ ?s)) with (Whr.get_player n s).
    rewrite get_set_player_other by exact Hnw. apply Ho1; assumption. }
  split; [rewrite Epw3; discriminate|].
  split; [rewrite Epb3; discriminate|].
  split; [unfold daysOf at 1; rewrite Epw3, Epw'; reflexivity|].
  split.
  { unfold daysOf at 1. rewrite Epb3, Epb'. simpl.
    rewrite day_addGame_withDay. reflexivity. }
  rewrite Epw', Epb'.
  replace (Whr.g_day (withDay white iw g)) with (Whr.g_day g) in Hdb
    by (unfold withDay; destruct (String.eqb _ white); reflexivity).
  rewrite Egd in Hdw, Hdb.
  repeat split; assumption.
Qed.

Lemma isWonBy_detached black white winner timeStep handicap :
  black <> white ->
  Whr.isWonBy (detachedGame black white winner timeStep handicap) white
  = match winner with Game.W => true | _ => false end
  /\ Whr.isWonBy (detachedGame black white winner timeStep handicap) black
     = match winner with Game.B => true | _ => false end.
Proof.
  intros Hne. apply String.eqb_neq in Hne as Hbw.
  rewrite String.eqb_sym in Hbw.
  unfold Whr.isWonBy, detachedGame.
  destruct handicap, winner; simpl; rewrite ?String.eqb_refl, ?Hbw;
    try (rewrite String.eqb_sym, Hbw); split; reflexivity.
Qed.

(** X25.  For two different names [createGame] returns the new game, appends
    it to [games] and attaches it to a day of each player: afterwards [wpd] is
    the last day of white and [bpd] the last day of black, both with the
    game's day number, and the days before them are days the player had.  The
    game is filed as won in the winner's day and as lost in the other one; a
    draw is filed as lost in both.  No third player is touched. *)
Theorem createGame_effect (black white : string) (winner : Game.Winner)
        (timeStep : R) (handicap : R + (option R -> option R -> R)) (st : Whr.t) :
  black <> white ->
  let addr := List.length (Whr.heap st) in
  exists st' iw ib dw db,
    Whr.createGame black white winner timeStep handicap st = (Return addr, st')
    /\ Whr.games st' = Whr.games st ++ [addr]
    /\ Whr.heap st'
       = Whr.heap st ++ [attachedGame black white winner timeStep handicap iw ib]
    /\ daysOf white st' = firstn iw (daysOf white st) ++ [dw]
    /\ daysOf black st' = firstn ib (daysOf black st) ++ [db]
    /\ nth_error (daysOf white st') iw = Some dw
    /\ nth_error (daysOf black st') ib = Some db
    /\ (List.length (daysOf white st) <= S iw)%nat
    /\ (List.length (daysOf black st) <= S ib)%nat
    /\ Whr.d_day dw = timeStep /\ Whr.d_day db = timeStep
    /\ match winner with
       | Game.W => filedLast addr (Whr.d_wonGames dw)
                   /\ filedLast addr (Whr.d_lostGames db)
       | Game.B => filedLast addr (Whr.d_lostGames dw)
                   /\ filedLast addr (Whr.d_wonGames db)
       | Game.D => filedLast addr (Whr.d_lostGames dw)
                   /\ filedLast addr (Whr.d_lostGames db)
       end
    /\ (forall name, name <> white -> name <> black ->
                     Whr.get_player name st' = Whr.get_player name st).
Proof.
  intros Hne addr.
  destruct (createGame_spec black white winner timeStep handicap st Hne)
    as (st' & iw & ib & bw & bb & Hspec). cbv zeta in Hspec. fold addr in Hspec.
  destruct Hspec as (Erun & Hheap & Hgames & _ & _ & Hother & _ & _ & Hdw & Hdb
                     & Edw & Edb & Hcw & Hcb).
  set (g := detachedGame black white winner timeStep handicap) in *.
  exists st', iw, ib, (Whr.day_addGame white addr g bw),
    (Whr.day_addGame black addr g bb).
  destruct (day_addGame_filed white addr g bw) as (Ew1 & _ & Ew2).
  destruct (day_addGame_filed black addr g bb) as (Eb1 & _ & Eb2).
  destruct (isWonBy_detached black white winner timeStep handicap Hne) as (Iw & Ib).
  fold g in Iw, Ib. rewrite Iw in Ew2. rewrite Ib in Eb2.
  split; [exact Erun|]. split; [exact Hgames|]. split; [exact Hheap|].
  assert (Hiw : List.length (firstn iw (daysOf white st)) = iw)
    by (rewrite length_firstn; destruct Hcw as [(E & _)|(E & _)]; lia).
  assert (Hib : List.length (firstn ib (daysOf black st)) = ib)
    by (rewrite length_firstn; destruct Hcb as [(E & _)|(E & _)]; lia).
  split; [exact Hdw|]. split; [exact Hdb|].
  split; [rewrite Hdw; rewrite <- Hiw at 2; apply nth_error_snoc_last|].
  split; [rewrite Hdb; rewrite <- Hib at 2; apply nth_error_snoc_last|].
  split; [destruct Hcw as [(E & _)|(E & _)]; lia|].
  split; [destruct Hcb as [(E & _)|(E & _)]; lia|].
  split; [congruence|]. split; [congruence|].
  split; [destruct winner; split; assumption|exact Hother].
Qed.

Lemma createGame_effect_witness :
  "black"%string <> "white"%string
  /\ exists st',
       Whr.createGame "black" "white" Game.W 1 (inl 0) (Whr.new_ None)
       = (Return 0%nat, st')
       /\ Whr.games st' = [0%nat].
Proof.
  assert (Hne : "black"%string <> "white"%string) by discriminate.
  split; [exact Hne|].
  destruct (createGame_effect "black" "white" Game.W 1 (inl 0) (Whr.new_ None) Hne)
    as (st' & iw & ib & dw & db & E & Hg & _).
  exists st'. split; [exact E|exact Hg].
Defined.

Definition validResult (r : GameResult.t) : Prop :=
  GameResult.black r <> GameResult.white r.

Lemma setupGames_valid results st :
  Forall validResult results ->
  exists st',
    Whr.setupGames results st
    = (Return (seq (List.length (Whr.heap st)) (List.length results)), st')
    /\ List.length (Whr.heap st') = (List.length (Whr.heap st) + List.length results)%nat
    /\ Whr.games st'
       = Whr.games st ++ seq (List.length (Whr.heap st)) (List.length results).
Proof.
  intros Hall. revert st. induction Hall as [|r rest Hr _ IH]; intros st.
  - exists st. simpl. rewrite app_nil_r. repeat split. lia.
  - unfold Whr.setupGames. simpl mapM. unfold bind at 1.
    unfold Whr.setupGameFromResult at 1.
    destruct (createGame_spec (GameResult.black r) (GameResult.white r)
                (GameResult.winner r) (GameResult.timeStep r)
                (inl match GameResult.handicap r with Some h => h | None => 0 end)
                st Hr) as (st1 & iw & ib & bw & bb & Hspec). cbv zeta in Hspec.
    destruct Hspec as (Erun & Hheap & Hgames & _).
    rewrite Erun.
    destruct (IH st1) as (st2 & E2 & Hlen2 & Hgames2).
    unfold Whr.setupGames in E2. unfold bind at 1. rewrite E2.
    assert (Hlen1 : List.length (Whr.heap st1) = S (List.length (Whr.heap st)))
      by (rewrite Hheap, length_app; simpl; lia).
    exists st2. rewrite Hlen1. simpl.
    split; [reflexivity|]. split; [lia|].
    rewrite Hgames2, Hgames, Hlen1, <- app_assoc. reflexivity.
Qed.

Lemma mapM_app_throw {S A B} (f : A -> M S B) good bad rest ys st st1 e st2 :
  mapM f good st = (Return ys, st1) ->
  f bad st1 = (Throw e, st2) ->
  mapM f (good ++ bad :: rest) st = (Throw e, st2).
Proof.
  revert ys st. induction good as [|x good IH]; intros ys st Hgood Hbad.
  - simpl in Hgood. injection Hgood as <- <-. simpl. unfold bind. rewrite Hbad.
    reflexivity.
  - simpl in *. unfold bind at 1 in Hgood. unfold bind at 1.
    destruct (f x st) as [[y|e0] s0]; [|discriminate].
    unfold bind at 1 in Hgood. unfold bind at 1.
    destruct (mapM f good s0) as [[ys0|e0] s1] eqn:Erest; [|discriminate].
    unfold ret in Hgood. injection Hgood as <- <-.
    rewrite (IH ys0 s0 Erest Hbad). reflexivity.
Qed.

(** X26.  [setupGames] adds the records in order and undoes nothing when one
    of them fails.  When the records before a self-paired one are valid, they
    have been added as games at consecutive addresses (which [setupGames]
    returns for them alone), the call throws the error of [setupGame], and
    the games added before it stay in the system. *)
Theorem setupGames_keeps_what_it_added (good rest : list GameResult.t)
        (bad : GameResult.t) (st : Whr.t) :
  Forall validResult good ->
  GameResult.black bad = GameResult.white bad ->
  exists st',
    Whr.setupGames good st
    = (Return (seq (List.length (Whr.heap st)) (List.length good)), st')
    /\ Whr.setupGames (good ++ bad :: rest) st
       = (Throw (Error "Invalid game (black player == white player)"), st')
    /\ Whr.gameCount st' = (Whr.gameCount st + List.length good)%nat
    /\ Whr.games st' = Whr.games st ++ seq (List.length (Whr.heap st)) (List.length good).
Proof.
  intros Hgood Hbad.
  destruct (setupGames_valid good st Hgood) as (st' & Erun & _ & Hgames).
  exists st'. split; [exact Erun|].
  split.
  { unfold Whr.setupGames in *. eapply mapM_app_throw; [exact Erun|].
    unfold Whr.setupGameFromResult. apply createGame_self. exact Hbad. }
  split; [|exact Hgames].
  unfold Whr.gameCount. rewrite Hgames, length_app, length_seq. reflexivity.
Qed.

Definition sample_result : GameResult.t :=
  GameResult.mk "black" "white" Game.W 1 None.
Definition sample_self_paired : GameResult.t :=
  GameResult.mk "solo" "solo" Game.B 2 None.

Lemma setupGames_keeps_what_it_added_witness :
  Forall validResult [sample_result]
  /\ GameResult.black sample_self_paired = GameResult.white sample_self_paired
  /\ exists st',
       Whr.setupGames ([sample_result] ++ [sample_self_paired]) (Whr.new_ None)
       = (Throw (Error "Invalid game (black player == white player)"), st')
       /\ Whr.gameCount st' = 1%nat.
Proof.
  assert (Hgood : Forall validResult [sample_result])
    by (constructor; [discriminate|constructor]).
  split; [exact Hgood|]. split; [reflexivity|].
  destruct (setupGames_keeps_what_it_added [sample_result] [] sample_self_paired
              (Whr.new_ None) Hgood eq_refl) as (st' & _ & E & Hcount & _).
  exists st'. split; [exact E|exact Hcount].
Defined.

Definition names (st : Whr.t) : list string := map fst (Whr.players st).

(** X27.  [ratingsForPlayer] of a known player returns the history of that
    player and changes nothing.  For an unknown name it returns an empty
    history and registers a player of that name after all others, whereas
    [getPlayerRatingAtTime] answers elo 0 and uncertainty [sqrt 5] for an
    unknown name without registering anything, and answers the same for the
    player just registered. *)
Theorem ratingsForPlayer_registers (name : string) (st : Whr.t) (timePoint : R) :
  match Whr.get_player name st with
  | Some player =>
      Whr.ratingsForPlayer name st
      = (Return (name, Player.getRatingHistory (Whr.viewPlayer st name player)), st)
  | None =>
      Whr.getPlayerRatingAtTime st name timePoint = Estimate.mk 0 (sqrt 5)
      /\ exists st',
           Whr.ratingsForPlayer name st = (Return (name, []), st')
           /\ names st' = names st ++ [name]
           /\ Whr.playerCount st' = S (Whr.playerCount st)
           /\ Whr.heap st' = Whr.heap st
           /\ Whr.games st' = Whr.games st
           /\ Whr.getPlayerRatingAtTime st' name timePoint = Estimate.mk 0 (sqrt 5)
  end.
Proof.
  destruct (playerByName_spec name st)
    as (st' & E & Hh & Hg & _ & _ & _ & _ & Hnew & Hm).
  unfold Whr.ratingsForPlayer, bind, get. rewrite E.
  destruct (Whr.get_player name st) as [player|] eqn:Eget.
  - unfold Whr.playerByName in E. rewrite Eget in E. injection E as <-.
    rewrite Eget. reflexivity.
  - split; [unfold Whr.getPlayerRatingAtTime; rewrite Eget; reflexivity|].
    exists st'. specialize (Hnew eq_refl). rewrite Hnew.
    split; [reflexivity|]. split; [exact Hm|].
    split.
    { unfold Whr.playerCount. rewrite <- (length_map fst (Whr.players st')).
      rewrite Hm, length_app, length_map. simpl. lia. }
    split; [exact Hh|]. split; [exact Hg|].
    unfold Whr.getPlayerRatingAtTime. rewrite Hnew. reflexivity.
Qed.

(** ** whr.ts: the references stay valid *)

Lemma mapM_keeps {S A B} (f : A -> M S B) (P : S -> Prop) xs st :
  (forall x s, P s -> P (snd (f x s))) -> P st -> P (snd (mapM f xs st)).
Proof.
  intros Hf. revert st. induction xs as [|x xs IH]; intros st Hst; [exact Hst|].
  simpl. unfold bind at 1. specialize (Hf x st Hst).
  destruct (f x st) as [[y|e] s1]; simpl in Hf; [|exact Hf].
  unfold bind at 1. specialize (IH s1 Hf).
  destruct (mapM f xs s1) as [[ys|e] s2]; exact IH.
Qed.

Lemma repeatM_keeps {S} (body : M S unit) (P : S -> Prop) count st :
  (forall s, P s -> P (snd (body s))) -> P st -> P (snd (repeatM count body st)).
Proof.
  intros Hbody. revert st. induction count as [|k IH]; intros st Hst; [exact Hst|].
  simpl. unfold bind. specialize (Hbody st Hst).
  destruct (body st) as [[[]|e] s1]; simpl in Hbody; [apply IH|]; exact Hbody.
Qed.

Lemma forEachPlayer_keeps (P : Whr.t -> Prop) m st :
  (forall name s, P s -> P (snd (Whr.onPlayer name m s))) ->
  P st -> P (snd (Whr.forEachPlayer m st)).
Proof.
  intros Hon Hst. unfold Whr.forEachPlayer, bind, gets.
  pose proof (mapM_keeps (fun name => Whr.onPlayer name m) P
                (map fst (Whr.players st)) st Hon Hst) as H.
  destruct (mapM _ _ st) as [[ys|e] s1]; exact H.
Qed.

Definition refOK (st : Whr.t) (ref : option Whr.DayRef) : Prop :=
  match ref with
  | Some (name, index) => (index < List.length (daysOf name st))%nat
  | None => False
  end.

(** The game at [addr], held by a day of [name], is on the heap, is a game of
    [name], and has two existing player-days attached. *)
Definition gameOK (st : Whr.t) (name : string) (addr : nat) : Prop :=
  exists g,
    nth_error (Whr.heap st) addr = Some g
    /\ (name = Whr.g_whitePlayer g \/ name = Whr.g_blackPlayer g)
    /\ refOK st (Whr.g_wpd g) /\ refOK st (Whr.g_bpd g).

Definition heldBy (pd : Whr.DayObj) : list nat :=
  Whr.d_wonGames pd ++ Whr.d_lostGames pd.

Definition wellFormed (st : Whr.t) : Prop :=
  forall name pd addr,
    In pd (daysOf name st) -> In addr (heldBy pd) -> gameOK st name addr.

Lemma deref_defined st name index :
  (index < List.length (daysOf name st))%nat ->
  Whr.deref st (name, index) <> None.
Proof.
  unfold Whr.deref, daysOf. simpl.
  destruct (Whr.get_player name st) as [player|]; simpl; [|lia].
  intros Hlt. destruct (nth_error (Whr.p_days player) index) eqn:E; [discriminate|].
  apply nth_error_None in E. lia.
Qed.

Lemma gameOK_mono st st' name addr :
  (forall a g, nth_error (Whr.heap st) a = Some g ->
               nth_error (Whr.heap st') a = Some g) ->
  (forall n, List.length (daysOf n st) <= List.length (daysOf n st'))%nat ->
  gameOK st name addr -> gameOK st' name addr.
Proof.
  intros Hheap Hlen (g & Eg & Hinv & Hw & Hb).
  exists g. split; [apply Hheap, Eg|]. split; [exact Hinv|].
  unfold refOK in *.
  split.
  - destruct (Whr.g_wpd g) as [[n i]|]; [|exact Hw]. specialize (Hlen n). lia.
  - destruct (Whr.g_bpd g) as [[n i]|]; [|exact Hb]. specialize (Hlen n). lia.
Qed.

Lemma heldBy_day_addGame name addr g base a :
  In a (heldBy (Whr.day_addGame name addr g base)) -> a = addr \/ In a (heldBy base).
Proof.
  unfold heldBy, Whr.day_addGame.
  destruct (Whr.isWonBy g name); simpl; rewrite !in_app_iff; simpl;
    intuition auto.
Qed.

Lemma In_firstn {A} (x : A) n xs : In x (firstn n xs) -> In x xs.
Proof.
  revert n. induction xs as [|y ys IH]; intros [|n]; simpl; try tauto.
  intros [E|H]; [left; exact E|right; exact (IH n H)].
Qed.

Lemma daysOf_other name other player st :
  other <> name ->
  daysOf other (Whr.set_player name player st) = daysOf other st.
Proof. intros Hne. unfold daysOf. rewrite get_set_player_other by exact Hne. reflexivity. Qed.

Lemma wellFormed_new cfg : wellFormed (Whr.new_ cfg).
Proof. intros name pd addr []. Qed.

Lemma wellFormed_playerByName name st :
  wellFormed st -> wellFormed (snd (Whr.playerByName name st)).
Proof.
  intros Hwf. unfold Whr.playerByName.
  destruct (Whr.get_player name st) as [player|] eqn:Eget; simpl; [exact Hwf|].
  intros n pd addr Hpd Haddr.
  destruct (String.eqb_spec n name) as [->|Hne].
  - rewrite daysOf_set_player in Hpd. destruct Hpd.
  - rewrite daysOf_other in Hpd by exact Hne.
    eapply gameOK_mono; [| |exact (Hwf n pd addr Hpd Haddr)].
    + intros a g E. exact E.
    + intros n'. destruct (String.eqb_spec n' name) as [->|Hne'].
      * unfold daysOf at 1. rewrite Eget. simpl. lia.
      * rewrite daysOf_other by exact Hne'. lia.
Qed.

Lemma wellFormed_setupGame black white winner timeStep handicap st :
  wellFormed st ->
  wellFormed (snd (Whr.setupGame black white winner timeStep handicap st)).
Proof.
  intros Hwf. unfold Whr.setupGame.
  destruct (String.eqb black white); [exact Hwf|].
  unfold bind.
  pose proof (wellFormed_playerByName white st Hwf) as H1.
  destruct (Whr.playerByName white st) as [[w|e] st1] eqn:E1;
    [|unfold Whr.playerByName in E1; destruct (Whr.get_player white st); discriminate].
  pose proof (wellFormed_playerByName black st1 H1) as H2.
  destruct (Whr.playerByName black st1) as [[b|e] st2] eqn:E2;
    [|unfold Whr.playerByName in E2; destruct (Whr.get_player black st1); discriminate].
  simpl in H1, H2. unfold Whr.newGame. simpl.
  intros n pd addr Hpd Haddr.
  change (daysOf n (Whr.set_heap _ st2)) with (daysOf n st2) in Hpd.
  eapply gameOK_mono; [| |exact (H2 n pd addr Hpd Haddr)].
  - intros a g E. simpl. rewrite nth_error_app1; [exact E|].
    apply nth_error_Some. congruence.
  - intros n'. change (daysOf n' (Whr.set_heap _ st2)) with (daysOf n' st2). lia.
Qed.

Lemma snoc_length_ge {A} (days : list A) index x :
  index = List.length days \/ S index = List.length days ->
  List.length (firstn index days ++ [x]) = S index
  /\ (List.length days <= S index)%nat.
Proof.
  intros Hcase. rewrite length_app, length_firstn. simpl. lia.
Qed.

Lemma wellFormed_createGame black white winner timeStep handicap st :
  wellFormed st ->
  wellFormed (snd (Whr.createGame black white winner timeStep handicap st)).
Proof.
  intros Hwf. destruct (String.eqb_spec black white) as [E|Hne].
  - rewrite (createGame_self _ _ _ _ _ _ E). exact Hwf.
  - destruct (createGame_spec black white winner timeStep handicap st Hne)
      as (st' & iw & ib & bw & bb & Hspec). cbv zeta in Hspec.
    destruct Hspec as (Erun & Hheap & _ & _ & _ & Hother & _ & _ & Hdw & Hdb & _ & _
                       & Hcw & Hcb).
    rewrite Erun. simpl.
    set (addr := List.length (Whr.heap st)) in *.
    set (g := detachedGame black white winner timeStep handicap) in *.
    assert (Hiw : iw = List.length (daysOf white st) \/ S iw = List.length (daysOf white st))
      by (destruct Hcw as [(E & _)|(E & _)]; auto).
    assert (Hib : ib = List.length (daysOf black st) \/ S ib = List.length (daysOf black st))
      by (destruct Hcb as [(E & _)|(E & _)]; auto).
    destruct (snoc_length_ge (daysOf white st) iw (Whr.day_addGame white addr g bw) Hiw)
      as (Hlw & Hgw).
    destruct (snoc_length_ge (daysOf black st) ib (Whr.day_addGame black addr g bb) Hib)
      as (Hlb & Hgb).
    rewrite <- Hdw in Hlw. rewrite <- Hdb in Hlb.
    assert (Hlen : forall n, (List.length (daysOf n st) <= List.length (daysOf n st'))%nat).
    { intros n. destruct (String.eqb_spec n white) as [->|Hnw]; [lia|].
      destruct (String.eqb_spec n black) as [->|Hnb]; [lia|].
      unfold daysOf. rewrite (Hother n Hnw Hnb). lia. }
    assert (Hmono : forall n a, gameOK st n a -> gameOK st' n a).
    { intros n a. apply gameOK_mono; [|exact Hlen].
      intros a' g' E. rewrite Hheap, nth_error_app1; [exact E|].
      apply nth_error_Some. congruence. }
    assert (Hnew : forall n, n = white \/ n = black -> gameOK st' n addr).
    { intros n Hn.
      exists (attachedGame black white winner timeStep handicap iw ib).
      split; [rewrite Hheap; apply nth_error_snoc_last|].
      unfold attachedGame. destruct handicap; simpl; (split; [exact Hn|]); lia. }
    assert (Hbase : forall n index base x a,
               (index = List.length (daysOf n st)
                /\ Whr.d_wonGames base = [] /\ Whr.d_lostGames base = [])
               \/ (S index = List.length (daysOf n st)
                   /\ nth_error (daysOf n st) index = Some base) ->
               n = white \/ n = black ->
               In x (firstn index (daysOf n st) ++ [Whr.day_addGame n addr g base]) ->
               In a (heldBy x) -> gameOK st' n a).
    { intros n index base x a Hcase Hn Hx Ha.
      apply in_app_or in Hx. destruct Hx as [Hx|[<-|[]]].
      - apply Hmono. apply (Hwf n x a); [eapply In_firstn; exact Hx|exact Ha].
      - apply heldBy_day_addGame in Ha. destruct Ha as [->|Ha]; [apply Hnew, Hn|].
        destruct Hcase as [(_ & Ew & El)|(_ & Ebase)].
        + unfold heldBy in Ha. rewrite Ew, El in Ha. destruct Ha.
        + apply Hmono. apply (Hwf n base a); [|exact Ha].
          eapply nth_error_In; exact Ebase. }
    intros n pd a Hpd Ha.
    destruct (String.eqb_spec n white) as [->|Hnw].
    { rewrite Hdw in Hpd. eapply Hbase; eauto. }
    destruct (String.eqb_spec n black) as [->|Hnb].
    { rewrite Hdb in Hpd. eapply Hbase; eauto. }
    apply Hmono. apply (Hwf n pd a); [|exact Ha].
    unfold daysOf in *. rewrite <- (Hother n Hnw Hnb). exact Hpd.
Qed.

Lemma absorbDays_frame days seen :
  Forall2 (fun pd pd' => heldBy pd' = heldBy pd) days (Whr.absorbDays days seen).
Proof.
  revert seen. induction days as [|pd days IH]; intros seen; [constructor|].
  destruct seen as [|s seen]; simpl.
  - constructor; [reflexivity|]. specialize (IH []). destruct days; exact IH.
  - constructor; [reflexivity|apply IH].
Qed.

Lemma Forall2_In_r {A B} (R : A -> B -> Prop) xs ys y :
  Forall2 R xs ys -> In y ys -> exists x, In x xs /\ R x y.
Proof.
  induction 1 as [|x y' xs ys Hxy _ IH]; intros Hin; [destruct Hin|].
  destruct Hin as [<-|Hin]; [exists x; split; [left; reflexivity|exact Hxy]|].
  destruct (IH Hin) as (x0 & Hx0 & Hr). exists x0. split; [right; exact Hx0|exact Hr].
Qed.

Lemma wellFormed_onPlayer {A} name (m : M Player.t A) st :
  wellFormed st -> wellFormed (snd (Whr.onPlayer name m st)).
Proof.
  intros Hwf. unfold Whr.onPlayer.
  destruct (Whr.get_player name st) as [player|] eqn:Eget; [|exact Hwf].
  destruct (m (Whr.viewPlayer st name player)) as [c seen]. simpl.
  pose proof (absorbDays_frame (Whr.p_days player) (Player.days seen)) as Hframe.
  assert (Hlen : forall n, (List.length (daysOf n st)
                            <= List.length (daysOf n (Whr.set_player name
                                                        (Whr.absorb player seen) st)))%nat).
  { intros n. destruct (String.eqb_spec n name) as [->|Hne].
    - rewrite daysOf_set_player. unfold daysOf. rewrite Eget. simpl.
      rewrite <- (Forall2_length Hframe). lia.
    - rewrite daysOf_other by exact Hne. lia. }
  intros n pd a Hpd Ha.
  apply (gameOK_mono st); [intros a' g' E; exact E|exact Hlen|].
  destruct (String.eqb_spec n name) as [->|Hne].
  - rewrite daysOf_set_player in Hpd. simpl in Hpd.
    destruct (Forall2_In_r _ _ _ _ Hframe Hpd) as (pd0 & Hpd0 & Eheld).
    apply (Hwf name pd0 a); [unfold daysOf; rewrite Eget; exact Hpd0|].
    rewrite <- Eheld. exact Ha.
  - rewrite daysOf_other in Hpd by exact Hne. exact (Hwf n pd a Hpd Ha).
Qed.

Lemma wellFormed_forEachPlayer m st :
  wellFormed st -> wellFormed (snd (Whr.forEachPlayer m st)).
Proof.
  apply forEachPlayer_keeps. intros name s. apply wellFormed_onPlayer.
Qed.

Lemma viewGames_app st xs ys :
  Whr.viewGames st (xs ++ ys) = Whr.viewGames st xs ++ Whr.viewGames st ys.
Proof. unfold Whr.viewGames. apply flat_map_app. Qed.

Lemma wellFormed_gamesAttached st name player :
  wellFormed st -> Whr.get_player name st = Some player ->
  gamesAttached (Whr.viewPlayer st name player).
Proof.
  intros Hwf Eget pd' Hin. simpl in Hin. apply in_map_iff in Hin.
  destruct Hin as (pd & <- & Hpd). simpl.
  rewrite <- viewGames_app. fold (heldBy pd).
  assert (Hall : forall a, In a (heldBy pd) -> gameOK st name a).
  { intros a Ha. apply (Hwf name pd a); [|exact Ha].
    unfold daysOf. rewrite Eget. exact Hpd. }
  clear Hpd. induction (heldBy pd) as [|a rest IH]; simpl; [constructor|].
  destruct (Hall a (or_introl eq_refl)) as (g & Eg & Hinv & Hw & Hb).
  rewrite Eg. simpl. constructor; [|apply IH; intros a' Ha'; apply Hall; right; exact Ha'].
  unfold opponentAttached, Whr.viewGame. simpl.
  assert (Hdw : match Whr.g_wpd g with Some ref => Whr.deref st ref | None => None end
                <> None).
  { unfold refOK in Hw. destruct (Whr.g_wpd g) as [[n i]|]; [|destruct Hw].
    apply deref_defined, Hw. }
  assert (Hdb : match Whr.g_bpd g with Some ref => Whr.deref st ref | None => None end
                <> None).
  { unfold refOK in Hb. destruct (Whr.g_bpd g) as [[n i]|]; [|destruct Hb].
    apply deref_defined, Hb. }
  destruct (string_dec name (Whr.g_whitePlayer g)) as [E|N].
  - left. split; assumption.
  - right. destruct Hinv as [E|E]; [contradiction|]. repeat split; assumption.
Qed.

Lemma onPlayer_keeps_names {A} name (m : M Player.t A) st n :
  Whr.get_player n st <> None ->
  Whr.get_player n (snd (Whr.onPlayer name m st)) <> None.
Proof.
  intros Hn. unfold Whr.onPlayer.
  destruct (Whr.get_player name st) as [player|] eqn:Eget; [|exact Hn].
  destruct (m (Whr.viewPlayer st name player)) as [c seen]. simpl.
  destruct (String.eqb_spec n name) as [->|Hne].
  - rewrite get_set_player_same. discriminate.
  - rewrite get_set_player_other by exact Hne. exact Hn.
Qed.

Lemma forEachPlayer_fails (m : M Player.t unit) st st' e :
  (forall p p' e, gamesAttached p -> m p = (Throw e, p') -> isUnstable e = true) ->
  wellFormed st ->
  Whr.forEachPlayer m st = (Throw e, st') -> isUnstable e = true.
Proof.
  intros Hm Hwf. unfold Whr.forEachPlayer. unfold bind at 1. unfold gets.
  assert (Hnames : forall n, In n (map fst (Whr.players st)) ->
                             Whr.get_player n st <> None).
  { intros n Hn Hnone. apply get_player_names in Hnone. exact (Hnone Hn). }
  revert Hnames Hwf. generalize (map fst (Whr.players st)) as names.
  intros names. revert st. induction names as [|n names IH]; intros st Hnames Hwf.
  - unfold bind. simpl. discriminate.
  - unfold bind at 1. simpl mapM. unfold bind at 1.
    pose proof (wellFormed_onPlayer n m st Hwf) as Hwf1.
    assert (Hnames1 : forall n', In n' names ->
                                 Whr.get_player n' (snd (Whr.onPlayer n m st)) <> None).
    { intros n' Hn'. apply onPlayer_keeps_names, Hnames. right. exact Hn'. }
    destruct (Whr.onPlayer n m st) as [[[]|e1] s1] eqn:Eon.
    + simpl in Hwf1, Hnames1. specialize (IH s1 Hnames1 Hwf1).
      unfold bind at 1 in IH. unfold bind at 1.
      destruct (mapM (fun name => Whr.onPlayer name m) names s1) as [[ys|e2] s2].
      * unfold bind, ret. discriminate.
      * exact IH.
    + intros E. injection E as <- _.
      unfold Whr.onPlayer in Eon.
      destruct (Whr.get_player n st) as [player|] eqn:Eget.
      * destruct (m (Whr.viewPlayer st n player)) as [c seen] eqn:Em.
        injection Eon as -> _.
        eapply Hm; [|exact Em]. apply wellFormed_gamesAttached; assumption.
      * exfalso. apply (Hnames n); [left; reflexivity|exact Eget].
Qed.

Lemma wellFormed_ratingsForPlayer name st :
  wellFormed st -> wellFormed (snd (Whr.ratingsForPlayer name st)).
Proof.
  intros Hwf. unfold Whr.ratingsForPlayer, bind, get.
  pose proof (wellFormed_playerByName name st Hwf) as H1.
  destruct (Whr.playerByName name st) as [[n|e] s1]; simpl in H1; [|exact H1].
  destruct (Whr.get_player n s1); exact H1.
Qed.

Lemma wellFormed_setupGames results st :
  wellFormed st -> wellFormed (snd (Whr.setupGames results st)).
Proof.
  apply (mapM_keeps Whr.setupGameFromResult wellFormed).
  intros r s. apply wellFormed_createGame.
Qed.

Lemma names_onPlayer {A} name (m : M Player.t A) st :
  names (snd (Whr.onPlayer name m st)) = names st.
Proof.
  unfold Whr.onPlayer.
  destruct (Whr.get_player name st) as [player|] eqn:Eget; [|reflexivity].
  destruct (m (Whr.viewPlayer st name player)) as [c seen]. simpl.
  apply (set_player_names _ _ _ _ Eget).
Qed.

Definition distinctNames (st : Whr.t) : Prop := NoDup (names st).

Lemma distinctNames_playerByName name st :
  distinctNames st -> distinctNames (snd (Whr.playerByName name st)).
Proof.
  intros Hst. destruct (playerByName_spec name st) as (st' & E & _ & _ & _ & _ & _ & _ & _ & Hm).
  rewrite E. simpl. unfold distinctNames, names. rewrite Hm.
  destruct (Whr.get_player name st) eqn:Eget; [rewrite app_nil_r; exact Hst|].
  apply NoDup_app; [exact Hst|constructor; [intros []|constructor]|].
  intros n Hn [<-|[]]. apply get_player_names in Eget. exact (Eget Hn).
Qed.

Lemma distinct_two_new st white black :
  black <> white -> distinctNames st ->
  NoDup (names st
         ++ match Whr.get_player white st with Some _ => [] | None => [white] end
         ++ match Whr.get_player black st with Some _ => [] | None => [black] end).
Proof.
  intros Hne Hst.
  assert (Hnew : forall n, Whr.get_player n st = None -> NoDup (names st ++ [n])).
  { intros n Eget. apply NoDup_app; [exact Hst|constructor; [intros []|constructor]|].
    intros n' Hn' [<-|[]]. apply get_player_names in Eget. exact (Eget Hn'). }
  destruct (Whr.get_player white st) eqn:Ew, (Whr.get_player black st) eqn:Eb; simpl.
  - rewrite app_nil_r. exact Hst.
  - apply Hnew, Eb.
  - apply Hnew, Ew.
  - change [white; black] with ([white] ++ [black]). rewrite app_assoc.
    apply NoDup_app; [apply Hnew, Ew|constructor; [intros []|constructor]|].
    intros n Hn [<-|[]]. apply in_app_or in Hn. destruct Hn as [Hn|[E|[]]].
    + apply get_player_names in Eb. exact (Eb Hn).
    + exact (Hne (eq_sym E)).
Qed.

Lemma distinctNames_setupGame black white winner timeStep handicap st :
  distinctNames st ->
  distinctNames (snd (Whr.setupGame black white winner timeStep handicap st)).
Proof.
  intros Hst. destruct (String.eqb_spec black white) as [E|Hne].
  - unfold Whr.setupGame. subst black. rewrite String.eqb_refl. exact Hst.
  - destruct (setupGame_spec black white winner timeStep handicap st Hne)
      as (st' & E1 & _ & _ & _ & _ & _ & _ & _ & _ & _ & Hm).
    rewrite E1. simpl. unfold distinctNames, names. rewrite Hm.
    apply distinct_two_new; assumption.
Qed.

Lemma distinctNames_createGame black white winner timeStep handicap st :
  distinctNames st ->
  distinctNames (snd (Whr.createGame black white winner timeStep handicap st)).
Proof.
  intros Hst. destruct (String.eqb_spec black white) as [E|Hne].
  - rewrite (createGame_self _ _ _ _ _ _ E). exact Hst.
  - destruct (createGame_spec black white winner timeStep handicap st Hne)
      as (st' & iw & ib & bw & bb & Hspec). cbv zeta in Hspec.
    destruct Hspec as (Erun & _ & _ & _ & Hm & _).
    rewrite Erun. simpl. unfold distinctNames, names. rewrite Hm.
    apply distinct_two_new; assumption.
Qed.

Lemma distinctNames_forEachPlayer m st :
  distinctNames st -> distinctNames (snd (Whr.forEachPlayer m st)).
Proof.
  apply forEachPlayer_keeps. intros name s Hs. unfold distinctNames.
  rewrite names_onPlayer. exact Hs.
Qed.

Lemma distinctNames_ratingsForPlayer name st :
  distinctNames st -> distinctNames (snd (Whr.ratingsForPlayer name st)).
Proof.
  intros Hst. unfold Whr.ratingsForPlayer, bind, get.
  pose proof (distinctNames_playerByName name st Hst) as H1.
  destruct (Whr.playerByName name st) as [[n|e] s1]; simpl in H1; [|exact H1].
  destruct (Whr.get_player n s1); exact H1.
Qed.

Lemma get_player_In name player st :
  Whr.get_player name st = Some player -> In (name, player) (Whr.players st).
Proof.
  unfold Whr.get_player.
  destruct (find _ (Whr.players st)) as [[n p]|] eqn:Efind; [|discriminate].
  simpl. intros E. injection E as ->.
  destruct (find_some _ _ Efind) as (Hin & Heq). simpl in Heq.
  apply String.eqb_eq in Heq. subst n. exact Hin.
Qed.

Lemma In_get_player name player st :
  distinctNames st -> In (name, player) (Whr.players st) ->
  Whr.get_player name st = Some player.
Proof.
  unfold distinctNames, names, Whr.get_player.
  induction (Whr.players st) as [|[n p] rest IH]; intros Hnd Hin; [destruct Hin|].
  simpl in *. inversion Hnd as [|? ? Hnotin Hrest]; subst.
  destruct Hin as [E|Hin].
  - injection E as -> ->. rewrite String.eqb_refl. reflexivity.
  - destruct (String.eqb_spec n name) as [->|Hne]; [|exact (IH Hrest Hin)].
    exfalso. apply Hnotin. apply in_map_iff. exists (name, player). split; auto.
Qed.

(** ** whr.ts: the rating tables *)

Section SortByKey.
Context {A : Type} (key : A -> R).

Definition byKeyDesc (a b : A) : R := key b - key a.
Definition keyGe (a b : A) : Prop := key a >= key b.

Lemma insertBy_perm x sorted :
  Permutation (x :: sorted) (insertBy byKeyDesc x sorted).
Proof.
  induction sorted as [|y rest IH]; simpl; [apply Permutation_refl|].
  destruct (Rgtb (byKeyDesc y x) 0); [apply Permutation_refl|].
  eapply perm_trans; [apply perm_swap|]. apply perm_skip. exact IH.
Qed.

Lemma insertBy_sorted x sorted :
  StronglySorted keyGe sorted -> StronglySorted keyGe (insertBy byKeyDesc x sorted).
Proof.
  induction 1 as [|y rest Hrest IH Hy]; simpl.
  - constructor; constructor.
  - unfold Rgtb, byKeyDesc at 1.
    destruct (Rgt_dec (key x - key y) 0) as [Hgt|Hle].
    + constructor; [constructor; assumption|].
      constructor; [unfold keyGe; lra|].
      eapply Forall_impl; [|exact Hy]. unfold keyGe. intros z Hz. lra.
    + constructor; [exact IH|].
      eapply Permutation_Forall; [apply insertBy_perm|].
      constructor; [unfold keyGe; lra|exact Hy].
Qed.

Lemma Array_sort_spec xs :
  Permutation xs (Array_sort byKeyDesc xs)
  /\ StronglySorted keyGe (Array_sort byKeyDesc xs).
Proof.
  unfold Array_sort.
  assert (Hgen : forall acc,
             StronglySorted keyGe acc ->
             Permutation (acc ++ xs)
                         (fold_left (fun sorted x => insertBy byKeyDesc x sorted) xs acc)
             /\ StronglySorted keyGe
                  (fold_left (fun sorted x => insertBy byKeyDesc x sorted) xs acc)).
  { induction xs as [|x rest IH]; intros acc Hacc; simpl.
    - rewrite app_nil_r. split; [apply Permutation_refl|exact Hacc].
    - destruct (IH (insertBy byKeyDesc x acc) (insertBy_sorted x acc Hacc)) as (Hp & Hs).
      split; [|exact Hs].
      eapply perm_trans; [|exact Hp].
      eapply perm_trans; [apply Permutation_sym, Permutation_middle|].
      apply (Permutation_app_tail rest (insertBy_perm x acc)). }
  destruct (Hgen [] (SSorted_nil _)) as (Hp & Hs). split; assumption.
Qed.

End SortByKey.

(** The row of a player in [getCurrentRatings]. *)
Definition currentRow (entry : string * Whr.PlayerObj) : list PlayerRating.t :=
  let days := Whr.p_days (snd entry) in
  if (0 <? List.length days)%nat then
    let lastDay :=
      nth (List.length days - 1) days (Whr.mkDay 0 0 false 0 [] [] None None) in
    [PlayerRating.mk (fst entry) (Whr.d_day lastDay) (Rating.elo (Whr.d_r lastDay))
                     (Whr.d_uncertainty lastDay)]
  else [].

Lemma getCurrentRatings_rows st :
  Permutation (flat_map currentRow (Whr.players st)) (Whr.getCurrentRatings st)
  /\ StronglySorted (fun a b => PlayerRating.elo a >= PlayerRating.elo b)
                    (Whr.getCurrentRatings st).
Proof. apply (Array_sort_spec PlayerRating.elo). Qed.

Lemma currentRow_cases name player :
  (Whr.p_days player = [] /\ currentRow (name, player) = [])
  \/ exists front lastDay,
       Whr.p_days player = front ++ [lastDay]
       /\ currentRow (name, player)
          = [PlayerRating.mk name (Whr.d_day lastDay) (Rating.elo (Whr.d_r lastDay))
                             (Whr.d_uncertainty lastDay)].
Proof.
  unfold currentRow. simpl.
  destruct (Whr.p_days player) as [|d ds] eqn:E; [left; split; reflexivity|].
  right. assert (Hne : d :: ds <> []) by discriminate.
  destruct (exists_last Hne) as (front & lastDay & ->).
  exists front, lastDay. split; [reflexivity|].
  rewrite length_app. simpl List.length.
  replace (0 <? List.length front + 1)%nat with true
    by (symmetry; apply Nat.ltb_lt; lia).
  replace (List.length front + 1 - 1)%nat with (List.length front) by lia.
  rewrite app_nth2, Nat.sub_diag by lia. reflexivity.
Qed.

Lemma currentRow_names entries :
  NoDup (map fst entries) ->
  NoDup (map PlayerRating.name (flat_map currentRow entries))
  /\ forall n, In n (map PlayerRating.name (flat_map currentRow entries)) ->
               In n (map fst entries).
Proof.
  induction entries as [|[n p] rest IH]; intros Hnd; simpl.
  - split; [constructor|intros n []].
  - inversion Hnd as [|? ? Hnotin Hrest]; subst.
    destruct (IH Hrest) as (IHnd & IHin).
    destruct (currentRow_cases n p) as [(_ & ->)|(front & lastDay & _ & ->)]; simpl.
    + split; [exact IHnd|]. intros n' Hn'. right. exact (IHin n' Hn').
    + split.
      * constructor; [|exact IHnd]. intros Hn. exact (Hnotin (IHin n Hn)).
      * intros n' [E|Hn']; [left; exact E|right; exact (IHin n' Hn')].
Qed.

Lemma viewPlayer_current st name player front lastDay :
  Whr.p_days player = front ++ [lastDay] ->
  Player.currentRating (Whr.viewPlayer st name player) = Rating.elo (Whr.d_r lastDay)
  /\ Player.currentUncertainty (Whr.viewPlayer st name player)
     = Whr.d_uncertainty lastDay.
Proof.
  intros E. unfold Player.currentRating, Player.currentUncertainty. simpl.
  rewrite E, map_app. simpl map.
  rewrite day_last. rewrite length_app. simpl List.length.
  replace (List.length (map (Whr.viewDay st name) front) + 1 =? 0)%nat with false
    by (symmetry; apply Nat.eqb_neq; lia).
  split; reflexivity.
Qed.

Section Built.
Context `{HostMath}.

Lemma wellFormed_runOneIteration st :
  wellFormed st -> wellFormed (snd (Whr.runOneIteration st)).
Proof. apply wellFormed_forEachPlayer. Qed.

Lemma wellFormed_iterate count st :
  wellFormed st -> wellFormed (snd (Whr.iterate count st)).
Proof.
  intros Hwf. unfold Whr.iterate, bind.
  pose proof (repeatM_keeps Whr.runOneIteration wellFormed count st
                wellFormed_runOneIteration Hwf) as H1.
  destruct (repeatM count Whr.runOneIteration st) as [[[]|e] s1]; [|exact H1].
  apply wellFormed_forEachPlayer. exact H1.
Qed.

(** The states that the methods of whr.ts make of an empty system. *)
Inductive built : Whr.t -> Prop :=
| built_new config_w2 :
    built (Whr.new_ config_w2)
| built_playerByName name st :
    built st -> built (snd (Whr.playerByName name st))
| built_setupGame black white winner timeStep handicap st :
    built st -> built (snd (Whr.setupGame black white winner timeStep handicap st))
| built_createGame black white winner timeStep handicap st :
    built st -> built (snd (Whr.createGame black white winner timeStep handicap st))
| built_setupGames gameResults st :
    built st -> built (snd (Whr.setupGames gameResults st))
| built_ratingsForPlayer name st :
    built st -> built (snd (Whr.ratingsForPlayer name st))
| built_runOneIteration st :
    built st -> built (snd (Whr.runOneIteration st))
| built_iterate count st :
    built st -> built (snd (Whr.iterate count st)).

Lemma built_wellFormed st : built st -> wellFormed st.
Proof.
  induction 1;
    auto using wellFormed_new, wellFormed_playerByName, wellFormed_setupGame,
      wellFormed_createGame, wellFormed_setupGames, wellFormed_ratingsForPlayer,
      wellFormed_runOneIteration, wellFormed_iterate.
Qed.

Lemma built_distinctNames st : built st -> distinctNames st.
Proof.
  induction 1.
  - constructor.
  - apply distinctNames_playerByName; assumption.
  - apply distinctNames_setupGame; assumption.
  - apply distinctNames_createGame; assumption.
  - apply (mapM_keeps Whr.setupGameFromResult distinctNames); [|assumption].
    intros r s. apply distinctNames_createGame.
  - apply distinctNames_ratingsForPlayer; assumption.
  - apply distinctNames_forEachPlayer; assumption.
  - unfold Whr.iterate, bind.
    pose proof (repeatM_keeps Whr.runOneIteration distinctNames count st
                  (fun s => distinctNames_forEachPlayer _ s) IHbuilt) as H1.
    destruct (repeatM count Whr.runOneIteration st) as [[[]|e] s1]; [|exact H1].
    apply distinctNames_forEachPlayer. exact H1.
Qed.

Lemma runOneIteration_fails st st' e :
  wellFormed st -> Whr.runOneIteration st = (Throw e, st') -> isUnstable e = true.
Proof.
  intros Hwf. apply forEachPlayer_fails; [|exact Hwf].
  intros p p' e0. apply runOneNewtonIteration_fails_unstable.
Qed.

Lemma repeat_runOneIteration_fails count st st' e :
  wellFormed st ->
  repeatM count Whr.runOneIteration st = (Throw e, st') -> isUnstable e = true.
Proof.
  revert st. induction count as [|k IH]; intros st Hwf; [discriminate|].
  simpl. unfold bind.
  pose proof (wellFormed_runOneIteration st Hwf) as Hwf1.
  destruct (Whr.runOneIteration st) as [[[]|e1] s1] eqn:E1.
  - apply IH. exact Hwf1.
  - intros E. injection E as <- _. exact (runOneIteration_fails st s1 e1 Hwf E1).
Qed.

(** X28.  In a system that the methods of whr.ts have made of an empty one
    (games being added by [createGame] and [setupGames]), [runOneIteration]
    and [iterate] can fail with an instability error only: every game held
    by a day has existing days of both players attached, so the errors of
    [opponentsAdjustedGamma] about a game without opponent do not occur. *)
Theorem iteration_fails_only_unstable (count : nat) (st st' : Whr.t) (e : exn) :
  built st ->
  (Whr.runOneIteration st = (Throw e, st') -> isUnstable e = true)
  /\ (Whr.iterate count st = (Throw e, st') -> isUnstable e = true).
Proof.
  intros Hbuilt. apply built_wellFormed in Hbuilt as Hwf.
  split; [apply runOneIteration_fails; exact Hwf|].
  unfold Whr.iterate, bind.
  pose proof (repeatM_keeps Whr.runOneIteration wellFormed count st
                wellFormed_runOneIteration Hwf) as Hwf1.
  destruct (repeatM count Whr.runOneIteration st) as [[[]|e1] s1] eqn:E1.
  - apply forEachPlayer_fails; [|exact Hwf1].
    intros p p' e0. apply updateUncertainty_fails_unstable.
  - intros E. injection E as <- _.
    exact (repeat_runOneIteration_fails count st s1 e1 Hwf E1).
Qed.

(** X29.  In such a system [getCurrentRatings] is in descending order of elo
    and has one row for each player who has played, and none for the others.
    The row of a player carries the day number of the player's last day, and
    its elo and uncertainty are [currentRating] and [currentUncertainty] of
    the player. *)
Theorem getCurrentRatings_table (st : Whr.t) :
  built st ->
  let table := Whr.getCurrentRatings st in
  StronglySorted (fun a b => PlayerRating.elo a >= PlayerRating.elo b) table
  /\ NoDup (map PlayerRating.name table)
  /\ (forall name, In name (map PlayerRating.name table) <-> daysOf name st <> [])
  /\ (forall row, In row table ->
        exists player front lastDay,
          Whr.get_player (PlayerRating.name row) st = Some player
          /\ Whr.p_days player = front ++ [lastDay]
          /\ PlayerRating.day row = Whr.d_day lastDay
          /\ PlayerRating.elo row
             = Player.currentRating (Whr.viewPlayer st (PlayerRating.name row) player)
          /\ PlayerRating.uncertainty row
             = Player.currentUncertainty
                 (Whr.viewPlayer st (PlayerRating.name row) player)).
Proof.
  intros Hbuilt table. apply built_distinctNames in Hbuilt as Hnd.
  destruct (getCurrentRatings_rows st) as (Hperm & Hsorted). fold table in Hperm, Hsorted.
  destruct (currentRow_names (Whr.players st) Hnd) as (Hrows_nd & Hrows_in).
  assert (Hrow : forall row, In row table ->
            exists player front lastDay,
              Whr.get_player (PlayerRating.name row) st = Some player
              /\ Whr.p_days player = front ++ [lastDay]
              /\ row = PlayerRating.mk (PlayerRating.name row) (Whr.d_day lastDay)
                         (Rating.elo (Whr.d_r lastDay)) (Whr.d_uncertainty lastDay)).
  { intros row Hin. apply (Permutation_in _ (Permutation_sym Hperm)) in Hin.
    apply in_flat_map in Hin. destruct Hin as ([n p] & Hentry & Hin).
    destruct (currentRow_cases n p) as [(_ & E)|(front & lastDay & Edays & E)];
      rewrite E in Hin; [destruct Hin|]. destruct Hin as [<-|[]]. simpl.
    exists p, front, lastDay. split; [apply In_get_player; assumption|].
    split; [exact Edays|reflexivity]. }
  split; [exact Hsorted|].
  split.
  { eapply Permutation_NoDup; [apply Permutation_map; exact Hperm|exact Hrows_nd]. }
  split.
  { intros name. split.
    - intros Hin. apply in_map_iff in Hin. destruct Hin as (row & <- & Hin).
      destruct (Hrow row Hin) as (player & front & lastDay & Eget & Edays & _).
      unfold daysOf. rewrite Eget, Edays. destruct front; discriminate.
    - intros Hdays. unfold daysOf in Hdays.
      destruct (Whr.get_player name st) as [player|] eqn:Eget; [|contradiction].
      apply get_player_In in Eget.
      destruct (currentRow_cases name player) as [(E & _)|(front & lastDay & _ & E)];
        [contradiction|].
      apply in_map_iff. eexists. split; [|eapply Permutation_in; [exact Hperm|]].
      2:{ apply in_flat_map. exists (name, player). split; [exact Eget|].
          rewrite E. left. reflexivity. }
      reflexivity. }
  intros row Hin.
  destruct (Hrow row Hin) as (player & front & lastDay & Eget & Edays & Erow).
  exists player, front, lastDay.
  destruct (viewPlayer_current st (PlayerRating.name row) player front lastDay Edays)
    as (-> & ->).
  split; [exact Eget|]. split; [exact Edays|].
  rewrite Erow. simpl. repeat split.
Qed.

(** X30.  In such a system [getAllRatingsAtTime] is in descending order of
    elo and has one row for each registered player, also for those without
    games; the rating in the row of a player is what [getPlayerRatingAtTime]
    answers for that player and time. *)
Theorem getAllRatingsAtTime_table (st : Whr.t) (timePoint : R) :
  built st ->
  let table := Whr.getAllRatingsAtTime st timePoint in
  StronglySorted (fun a b => Estimate.elo (snd a) >= Estimate.elo (snd b)) table
  /\ Permutation (map fst table) (names st)
  /\ (forall name rating, In (name, rating) table ->
                          rating = Whr.getPlayerRatingAtTime st name timePoint).
Proof.
  intros Hbuilt table. apply built_distinctNames in Hbuilt as Hnd.
  destruct (Array_sort_spec (fun row : string * Estimate.t => Estimate.elo (snd row))
              (map (fun entry =>
                      (fst entry,
                       Player.getRatingAtTime
                         (Whr.viewPlayer st (fst entry) (snd entry)) timePoint))
                   (Whr.players st))) as (Hperm & Hsorted).
  fold (Whr.getAllRatingsAtTime st timePoint) in Hperm, Hsorted. fold table in Hperm, Hsorted.
  split; [exact Hsorted|].
  split.
  { eapply perm_trans; [apply Permutation_map, Permutation_sym, Hperm|].
    rewrite map_map. simpl. apply Permutation_refl. }
  intros name rating Hin. apply (Permutation_in _ (Permutation_sym Hperm)) in Hin.
  apply in_map_iff in Hin. destruct Hin as ([n p] & E & Hentry). simpl in E.
  injection E as -> <-.
  unfold Whr.getPlayerRatingAtTime. rewrite (In_get_player _ _ _ Hnd Hentry).
  reflexivity.
Qed.

End Built.

Definition sample_whr : Whr.t :=
  snd (Whr.createGame "black" "white" Game.W 1 (inl 0) (Whr.new_ None)).

Lemma sample_whr_built : @built ExactMath sample_whr.
Proof. apply built_createGame, built_new. Qed.

Lemma iteration_fails_only_unstable_witness :
  @built ExactMath sample_whr
  /\ forall e st', @Whr.runOneIteration ExactMath sample_whr = (Throw e, st') ->
                   isUnstable e = true.
Proof.
  split; [exact sample_whr_built|]. intros e st'.
  exact (proj1 (@iteration_fails_only_unstable ExactMath 0 sample_whr st' e
                  sample_whr_built)).
Defined.

Lemma getCurrentRatings_table_witness :
  @built ExactMath sample_whr
  /\ NoDup (map PlayerRating.name (Whr.getCurrentRatings sample_whr)).
Proof.
  split; [exact sample_whr_built|].
  exact (proj1 (proj2 (@getCurrentRatings_table ExactMath sample_whr sample_whr_built))).
Defined.

Lemma getAllRatingsAtTime_table_witness :
  @built ExactMath sample_whr
  /\ Permutation (map fst (Whr.getAllRatingsAtTime sample_whr 1)) (names sample_whr).
Proof.
  split; [exact sample_whr_built|].
  exact (proj1 (proj2 (@getAllRatingsAtTime_table ExactMath sample_whr 1
                         sample_whr_built))).
Defined.
